(** * VeeBoard: board model, gesture recogniser and snapshot merge

    A shallow embedding of the parts of [app.js] that carry the board's
    invariants: the [Store] mutations, the [Sync] echo guard, the card drag
    recogniser and the drop in [Dnd], the tag field, the tag chips and the
    card filter in [UI], the sequence counter of [Meta], the tag colour of
    [Utils], and [App.importJSON] with its "smart merge".

    Part I is the model, Part II the properties of the documented behaviour,
    Part III further properties of the same code.

    Conventions.
    - JavaScript objects that the code mutates in place (columns of
      [Store.state.columns], cards inside them) are identified by their
      position: a column by its index in the board, a card by its column and
      its id.  Every function that mutates an object takes the board and
      returns the board after the mutation.
    - [Date.now()], [Utils.nowIso()] and the result of host calls are
      arguments of the operation that reads them.
    - Numbers that the code only compares and increments (sequence numbers,
      epoch milliseconds, pointer coordinates) are integers of [Z]; the
      properties that depend on the value of a sum say in which range.
    - Strings are strings of bytes; their order is JavaScript's on 7-bit
      characters.
    - A snapshot is the value [JSON.parse] returned: a list of columns whose
      objects are shared with nothing until the merge pushes them onto the
      board. *)

From Stdlib Require Import List String Ascii ZArith Bool Lia Arith.
From Stdlib Require Import Permutation Sorted DecimalString.
From Stdlib Require OrderedTypeEx DecimalPos DecimalZ.
Import ListNotations.

Local Open Scope string_scope.
Local Open Scope list_scope.

(* ================================================================== *)
(** * Part I: the model                                                *)
(* ================================================================== *)

(** ** JavaScript helpers *)

Module Js.

(** Truthiness of a value that is either missing or a string:
    [undefined], [null] and the empty string are falsy. *)
Definition truthy (v : option string) : bool :=
  match v with
  | Some s => negb (s =? "")
  | None => false
  end.

(** [v || ""] on a value that is either missing or a string. *)
Definition orEmpty (v : option string) : string :=
  match v with
  | Some s => s
  | None => ""
  end.

(** [a > b] on strings: code units compared left to right. *)
Definition strGt (a b : string) : bool :=
  match String.compare a b with
  | Gt => true
  | _ => false
  end.

(** A number or [-Infinity]. *)
Inductive num : Type :=
| NegInf
| Fin (z : Z).

Definition numEqb (a b : num) : bool :=
  match a, b with
  | NegInf, NegInf => true
  | Fin x, Fin y => (x =? y)%Z
  | _, _ => false
  end.

Definition numGt (a b : num) : bool :=
  match a, b with
  | Fin x, Fin y => (x >? y)%Z
  | Fin _, NegInf => true
  | NegInf, _ => false
  end.

(** The order of the numbers extended by [-Infinity]. *)
Definition numLt (a b : num) : Prop :=
  match a, b with
  | NegInf, Fin _ => True
  | Fin x, Fin y => (x < y)%Z
  | _, NegInf => False
  end.

(** [Array.prototype.findIndex]; [None] stands for [-1]. *)
Fixpoint findIndex {A : Type} (p : A -> bool) (l : list A) : option nat :=
  match l with
  | [] => None
  | x :: rest =>
      if p x then Some 0
      else option_map S (findIndex p rest)
  end.

(** [Array.prototype.indexOf] on an array of strings, [-1] when absent. *)
Fixpoint indexOf (x : string) (l : list string) : Z :=
  match l with
  | [] => (-1)%Z
  | y :: rest =>
      if y =? x then 0%Z
      else let r := indexOf x rest in
           if (r <? 0)%Z then (-1)%Z else (r + 1)%Z
  end.

(** The element at position [i] replaced by [f] of it: an in-place
    mutation of the object stored there. *)
Fixpoint updateAt {A : Type} (i : nat) (f : A -> A) (l : list A) : list A :=
  match l, i with
  | [], _ => []
  | x :: rest, O => f x :: rest
  | x :: rest, S j => x :: updateAt j f rest
  end.

(** [l.splice(i, 1)]: the array without the element at position [i]. *)
Fixpoint removeAt {A : Type} (i : nat) (l : list A) : list A :=
  match l, i with
  | [], _ => []
  | _ :: rest, O => rest
  | x :: rest, S j => x :: removeAt j rest
  end.

(** [l.splice(i, 0, x)] for [0 <= i <= l.length]. *)
Definition insertAt {A : Type} (i : nat) (x : A) (l : list A) : list A :=
  firstn i l ++ x :: skipn i l.

(** [Array.prototype.sort] with a comparator: the sort is stable, so it is
    modelled by a stable insertion sort.  [insertSorted] puts [x], which
    preceded every element of [l] in the input, before the first element
    that does not have to precede it. *)
Fixpoint insertSorted {A : Type} (cmp : A -> A -> Z) (x : A) (l : list A)
  : list A :=
  match l with
  | [] => [x]
  | y :: rest =>
      if (cmp x y <=? 0)%Z then x :: l
      else y :: insertSorted cmp x rest
  end.

Definition sort {A : Type} (cmp : A -> A -> Z) (l : list A) : list A :=
  fold_right (insertSorted cmp) [] l.

(** A [Map] with string keys.  Its values here are always columns of the
    board, held by index.  [set] shadows an earlier entry of the key. *)
Definition Map : Type := list (string * nat).

Definition Map_get (m : Map) (k : string) : option nat :=
  option_map snd (find (fun e => fst e =? k) m).

Definition Map_set (m : Map) (k : string) (v : nat) : Map := (k, v) :: m.

(** [new Map(entries)]: entries are set from left to right. *)
Definition Map_of (entries : list (string * nat)) : Map :=
  fold_left (fun m e => Map_set m (fst e) (snd e)) entries [].

(** [l.splice(start, 0, x)] for any integer [start]: a negative [start]
    counts from the end of the array, and the position is clamped to
    [0 .. l.length]. *)
Definition spliceInsert {A : Type} (start : Z) (x : A) (l : list A) : list A :=
  let len := Z.of_nat (List.length l) in
  let pos :=
    if (start <? 0)%Z then Z.max (len + start) 0 else Z.min start len in
  insertAt (Z.to_nat pos) x l.

(** [s.includes(q)]: [q] occurs in [s] as a substring. *)
Fixpoint includes (s q : string) : bool :=
  match s with
  | EmptyString => String.prefix q EmptyString
  | String _ rest => String.prefix q s || includes rest q
  end.

(** [l.join(sep)] on an array of strings. *)
Definition join (sep : string) (l : list string) : string :=
  String.concat sep l.

(** [s.split(sep)] for a separator of one character: the pieces between
    the separators, empty pieces included. *)
Fixpoint split (sep : ascii) (s : string) : list string :=
  match s with
  | EmptyString => [EmptyString]
  | String a rest =>
      if Ascii.eqb a sep then EmptyString :: split sep rest
      else
        match split sep rest with
        | cur :: more => String a cur :: more
        | [] => [String a EmptyString]
        end
  end.

(** A [Set] of strings: its elements in insertion order. *)
Definition Set_has (s : list string) (x : string) : bool :=
  existsb (String.eqb x) s.

Definition Set_add (s : list string) (x : string) : list string :=
  if Set_has s x then s else s ++ [x].

Definition Set_delete (s : list string) (x : string) : list string :=
  filter (fun y => negb (y =? x)) s.

(** The comparator of [Array.prototype.sort()] called without one, on
    strings: code units compared left to right. *)
Definition strCmp (a b : string) : Z :=
  match String.compare a b with
  | Lt => (-1)%Z
  | Eq => 0%Z
  | Gt => 1%Z
  end.
End Js.

(** ** Data model *)

Module Reminder.
Record t : Type := mk { enabled : bool; offset : Z }.
End Reminder.

Module Card.
(** A card as it is stored and exchanged.  A field that a snapshot may
    lack is an [option]; [seq] is a number when it is present. *)
Record t : Type := mk {
  id : string;
  title : string;
  description : option string;
  tags : option (list string);
  due : option string;
  reminder : option Reminder.t;
  createdAt : option string;
  lastChanged : option string;
  lastChangedBy : option string;
  seq : option Z;
  contentChangedAt : option string;
  positionChangedAt : option string
}.

Definition hasId (k : string) (c : t) : bool := id c =? k.
End Card.

Module CardData.
(** The [cardData] argument of [Store.addCard] and [Store.updateCard].
    [App.handleSaveCard], their caller, always passes a title and a
    description; the fields [addCard] guards with [||] may be missing. *)
Record t : Type := mk {
  title : string;
  description : string;
  tags : option (list string);
  due : option string;
  reminder : option Reminder.t
}.
End CardData.

Module Column.
Record t : Type := mk {
  id : string;
  title : string;
  cards : list Card.t;
  isDone : bool;
  isArchive : bool
}.

Definition hasId (k : string) (c : t) : bool := id c =? k.

Definition setTitle (s : string) (c : t) : t :=
  mk (id c) s (cards c) (isDone c) (isArchive c).

Definition setIsDone (b : bool) (c : t) : t :=
  mk (id c) (title c) (cards c) b (isArchive c).

Definition setCards (l : list Card.t) (c : t) : t :=
  mk (id c) (title c) l (isDone c) (isArchive c).

(** [col.cards.push(card)] *)
Definition pushCard (card : Card.t) (c : t) : t :=
  setCards (cards c ++ [card]) c.
End Column.

(** The board: [Store.state.columns]. *)
Definition Board : Type := list Column.t.

(** Every card of the board, column after column. *)
Definition allCards (b : Board) : list Card.t :=
  flat_map Column.cards b.

Definition cardIds (b : Board) : list string :=
  map Card.id (allCards b).

(** ** Sync: the echo guard *)

Module Sync.
(** [Sync.muteNext(ms)] called when [Date.now()] is [now]: the new value of
    [suppressEchoUntil]. *)
Definition muteNext (now ms : Z) : Z := (now + ms)%Z.

(** [Sync.shouldIgnore()] called when [Date.now()] is [now]. *)
Definition shouldIgnore (now suppressEchoUntil : Z) : bool :=
  (now <? suppressEchoUntil)%Z.
End Sync.

(** ** Store *)

Module Store.

(** Everything the [Store] operations read or write: the board, the
    per-client sequence counter and client id kept in [localStorage]
    ([Meta]), the echo guard ([Sync.suppressEchoUntil]) and whether the
    settings select the remote backend
    ([cfg.useFirebase && cfg.firebaseConfig]). *)
Record t : Type := mk {
  columns : Board;
  seqCounter : Z;
  clientId : string;
  suppressEchoUntil : Z;
  useFirebase : bool
}.

Definition setColumns (b : Board) (s : t) : t :=
  mk b (seqCounter s) (clientId s) (suppressEchoUntil s) (useFirebase s).

(** [Store.saveState()] called when [Date.now()] is [now].  With the remote
    backend selected the save first arms the echo guard for 900 ms.  What
    the backends store is not part of the model. *)
Definition saveState (now : Z) (s : t) : t :=
  if useFirebase s
  then mk (columns s) (seqCounter s) (clientId s)
          (Sync.muteNext now 900) (useFirebase s)
  else s.

(** [Meta.nextSeq()]: the counter is incremented and returned.  The
    counter is an integer of [Z]; the code counts in doubles, which is the
    same as long as the counter stays below 2^53. *)
Definition nextSeq (s : t) : Z * t :=
  let next := (seqCounter s + 1)%Z in
  (next,
   mk (columns s) next (clientId s) (suppressEchoUntil s) (useFirebase s)).

Definition findColumn (colId : string) (b : Board) : option Column.t :=
  find (Column.hasId colId) b.

(** The position of the column [findColumn] returns. *)
Definition findColumnIndex (colId : string) (b : Board) : option nat :=
  Js.findIndex (Column.hasId colId) b.

(** [Store.findCard(cardId)]: the first column, in board order, that has a
    card of this id, with the first such card.  The column is returned as
    its index. *)
Fixpoint findCardFrom (i : nat) (b : Board) (cardId : string)
  : option (nat * Card.t) :=
  match b with
  | [] => None
  | col :: rest =>
      match find (Card.hasId cardId) (Column.cards col) with
      | Some card => Some (i, card)
      | None => findCardFrom (S i) rest cardId
      end
  end.

Definition findCard (b : Board) (cardId : string) : option (nat * Card.t) :=
  findCardFrom 0 b cardId.

(** [Store.updateColumn(colId, { title, isDone })], the store side of the
    rename dialog. *)
Definition updateColumn (now : Z) (colId : string) (title : string)
    (isDone : bool) (s : t) : t :=
  match findColumnIndex colId (columns s), findColumn colId (columns s) with
  | Some i, Some col =>
      if negb (Column.isArchive col) then
        let b1 := Js.updateAt i (Column.setTitle title) (columns s) in
        let b2 := if isDone then map (Column.setIsDone false) b1 else b1 in
        let b3 := Js.updateAt i (Column.setIsDone isDone) b2 in
        saveState now (setColumns b3 s)
      else s
  | _, _ => s
  end.

Definition deleteColumn (now : Z) (colId : string) (s : t) : t :=
  match findColumn colId (columns s) with
  | Some col =>
      if negb (Column.isArchive col) then
        saveState now
          (setColumns
             (filter (fun c => negb (Column.hasId colId c)) (columns s)) s)
      else s
  | None => s
  end.

(** The first column holding a card of this id loses that card. *)
Fixpoint deleteCardIn (cardId : string) (b : Board) : option Board :=
  match b with
  | [] => None
  | col :: rest =>
      match Js.findIndex (Card.hasId cardId) (Column.cards col) with
      | Some i =>
          Some (Column.setCards (Js.removeAt i (Column.cards col)) col
                :: rest)
      | None => option_map (cons col) (deleteCardIn cardId rest)
      end
  end.

Definition deleteCard (now : Z) (cardId : string) (s : t) : t :=
  match deleteCardIn cardId (columns s) with
  | Some b => saveState now (setColumns b s)
  | None => s
  end.

(** The stamp [moveCard] puts on the card it moves. *)
Definition stampMove (nowIso : string) (client : string) (n : Z)
    (c : Card.t) : Card.t :=
  Card.mk (Card.id c) (Card.title c) (Card.description c) (Card.tags c)
          (Card.due c) (Card.reminder c) (Card.createdAt c)
          (Some nowIso) (Some client) (Some n)
          (Card.contentChangedAt c) (Some nowIso).

(** The target array after the card went in: [push] when [toIndex] is
    negative or beyond the length, [splice(toIndex, 0, card)] otherwise. *)
Definition placeCard (toIndex : Z) (card : Card.t) (l : list Card.t)
  : list Card.t :=
  if ((toIndex <? 0) || (toIndex >? Z.of_nat (List.length l)))%Z
  then l ++ [card]
  else Js.insertAt (Z.to_nat toIndex) card l.

(** [Store.moveCard(cardId, fromColId, toColId, toIndex)] called when
    [Date.now()] is [now] and [Utils.nowIso()] is [nowIso]. *)
Definition moveCard (now : Z) (nowIso : string)
    (cardId fromColId toColId : string) (toIndex : Z) (s : t) : t :=
  match findColumnIndex fromColId (columns s),
        findColumnIndex toColId (columns s) with
  | Some fi, Some ti =>
      let fromCards :=
        match nth_error (columns s) fi with
        | Some fromCol => Column.cards fromCol
        | None => []
        end in
      match Js.findIndex (Card.hasId cardId) fromCards,
            find (Card.hasId cardId) fromCards with
      | Some cardIndex, Some card0 =>
          let b1 :=
            Js.updateAt fi
              (fun col =>
                 Column.setCards (Js.removeAt cardIndex (Column.cards col))
                                 col)
              (columns s) in
          let (n, s1) := nextSeq s in
          let card := stampMove nowIso (clientId s) n card0 in
          let b2 :=
            Js.updateAt ti
              (fun col =>
                 Column.setCards (placeCard toIndex card (Column.cards col))
                                 col)
              b1 in
          saveState now (setColumns b2 s1)
      | _, _ => s
      end
  | _, _ => s
  end.

(** [Store.reorderColumns(columnOrder)]: the comparator is
    [columnOrder.indexOf(a.id) - columnOrder.indexOf(b.id)]. *)
Definition orderCmp (columnOrder : list string) (a b : Column.t) : Z :=
  (Js.indexOf (Column.id a) columnOrder
   - Js.indexOf (Column.id b) columnOrder)%Z.

Definition reorderColumns (now : Z) (columnOrder : list string) (s : t) : t :=
  saveState now
    (setColumns (Js.sort (orderCmp columnOrder) (columns s)) s).

(** What a backend's [load] resolves with, or what a file holds: a falsy
    value ([null] when nothing is stored), something [validateState] throws
    on, or a board. *)
Inductive loaded : Type :=
| Absent
| Malformed
| Loaded (b : Board).


(** The column [loadState] appends when no column is the archive. *)
Definition archiveColumn : Column.t :=
  Column.mk "archive" "Archive" [] false true.



(** The handler [startRealtime] subscribes: [incoming] is the snapshot the
    backend pushed ([None] when it is not an object) and [now] is
    [Date.now()] at delivery. *)
Definition onRemoteSnapshot (now : Z) (incoming : option Board) (s : t) : t :=
  if Sync.shouldIgnore now (suppressEchoUntil s) then s
  else match incoming with
       | None => s
       | Some b => setColumns b s
       end.

(** [Store.addColumn(title)] called when [Utils.uid()] returns [uid]: the
    new column goes in at [findIndex((c) => c.isArchive)], which is [-1]
    when no column is the archive.  The result is the new column and the
    store. *)
Definition addColumn (now : Z) (uid : string) (title : string) (s : t)
  : Column.t * t :=
  let newColumn := Column.mk uid title [] false false in
  let archiveIndex :=
    match Js.findIndex Column.isArchive (columns s) with
    | Some i => Z.of_nat i
    | None => (-1)%Z
    end in
  (newColumn,
   saveState now
     (setColumns (Js.spliceInsert archiveIndex newColumn (columns s)) s)).

(** The four values [Utils.nowIso()] returns while the object literal of
    [addCard] is evaluated, in the order of the fields. *)
Record Clock : Type := mkClock {
  atCreated : string;
  atLastChanged : string;
  atContentChanged : string;
  atPositionChanged : string
}.

(** The card [addCard] builds; [cardData.description || ""] is the
    description itself, a string. *)
Definition newCard (uid : string) (clock : Clock) (client : string) (n : Z)
    (cardData : CardData.t) : Card.t :=
  Card.mk uid
          (CardData.title cardData)
          (Some (CardData.description cardData))
          (Some (match CardData.tags cardData with
                 | Some l => l
                 | None => []
                 end))
          (Some (Js.orEmpty (CardData.due cardData)))
          (CardData.reminder cardData)
          (Some (atCreated clock))
          (Some (atLastChanged clock))
          (Some client)
          (Some n)
          (Some (atContentChanged clock))
          (Some (atPositionChanged clock)).

(** [Store.addCard(colId, cardData)]: the new card, or [None] for
    [undefined] when no column has the id. *)
Definition addCard (now : Z) (uid : string) (clock : Clock)
    (colId : string) (cardData : CardData.t) (s : t) : option Card.t * t :=
  match findColumnIndex colId (columns s) with
  | Some i =>
      let (n, s1) := nextSeq s in
      let card := newCard uid clock (clientId s) n cardData in
      (Some card,
       saveState now
         (setColumns (Js.updateAt i (Column.pushCard card) (columns s1)) s1))
  | None => (None, s)
  end.

(** The card after the assignments of [updateCard]: content from
    [cardData], [lastChanged] and [contentChangedAt] both the one value of
    [Utils.nowIso()]; [createdAt] and [positionChangedAt] are not
    assigned. *)
Definition stampEdit (nowIso : string) (client : string) (n : Z)
    (cardData : CardData.t) (c : Card.t) : Card.t :=
  Card.mk (Card.id c)
          (CardData.title cardData)
          (Some (CardData.description cardData))
          (CardData.tags cardData)
          (CardData.due cardData)
          (CardData.reminder cardData)
          (Card.createdAt c)
          (Some nowIso) (Some client) (Some n)
          (Some nowIso)
          (Card.positionChangedAt c).

(** The first card of the given id in the column, mutated by [f]. *)
Definition editCardIn (cardId : string) (f : Card.t -> Card.t)
    (col : Column.t) : Column.t :=
  match Js.findIndex (Card.hasId cardId) (Column.cards col) with
  | Some j => Column.setCards (Js.updateAt j f (Column.cards col)) col
  | None => col
  end.

(** [Store.updateCard(cardId, cardData)]: the card [findCard] returns is
    mutated in place; the result is that card, or [None] for [undefined]
    when no card has the id. *)
Definition updateCard (now : Z) (nowIso : string) (cardId : string)
    (cardData : CardData.t) (s : t) : option Card.t * t :=
  match findCard (columns s) cardId with
  | Some (i, card0) =>
      let (n, s1) := nextSeq s in
      let stamp := stampEdit nowIso (clientId s) n cardData in
      (Some (stamp card0),
       saveState now
         (setColumns (Js.updateAt i (editCardIn cardId stamp) (columns s1))
                     s1))
  | None => (None, s)
  end.
End Store.

(** ** Dnd: the card drag recogniser *)

Module Dnd.

Definition touchLongPressMs : Z := 300.
Definition touchCancelThreshold : Z := 10.

Inductive pointerType : Type := Mouse | Touch | Pen.

Definition isMouse (p : pointerType) : bool :=
  match p with
  | Mouse => true
  | _ => false
  end.

(** What the handlers read of a pointer event.  [onInteractive] says that
    [e.target.closest("a, button, input, ...")] found an element. *)
Record PointerEvent : Type := mkEvent {
  evType : pointerType;
  evPointerId : Z;
  evButton : Z;
  clientX : Z;
  clientY : Z;
  onInteractive : bool
}.

(** [Dnd.cardDrag] without its DOM nodes. *)
Record CardDrag : Type := mkDrag {
  pointerId : Z;
  startX : Z;
  startY : Z;
  started : bool;
  timerId : option nat;
  isTouch : bool
}.

Definition setStarted (d : CardDrag) : CardDrag :=
  mkDrag (pointerId d) (startX d) (startY d) true (timerId d) (isTouch d).

Definition setTimerId (i : nat) (d : CardDrag) : CardDrag :=
  mkDrag (pointerId d) (startX d) (startY d) (started d) (Some i) (isTouch d).

(** A pending [setTimeout]: its id, the time it is due and the press event
    its callback closed over. *)
Record Timer : Type := mkTimer {
  tmId : nat;
  tmDue : Z;
  tmEvent : PointerEvent
}.

(** The recogniser's state: the fields of [Dnd], the host's pending timers
    and whether the document listeners of the card drag are attached. *)
Record t : Type := mk {
  cardDrag : option CardDrag;
  suppressClick : bool;
  lastPointer : option (Z * Z);
  autoScroll : bool;
  listening : bool;
  timers : list Timer;
  nextTimerId : nat
}.

Definition idle : t := mk None false None false false [] 0.

(** [clearTimeout(id)]; an id that is [null] clears nothing. *)
Definition clearTimeout (i : option nat) (l : list Timer) : list Timer :=
  match i with
  | Some n => filter (fun tm => negb (tmId tm =? n)%nat) l
  | None => l
  end.

(** [Dnd.beginCardDrag(e)], given that [Dnd.cardDrag] is [drag]. *)
Definition beginCardDrag (e : PointerEvent) (drag : CardDrag) (d : t) : t :=
  mk (Some (setStarted drag)) true (Some (clientX e, clientY e)) true
     (listening d) (timers d) (nextTimerId d).

(** [Dnd.startCardPotentialDrag(e)], the [pointerdown] handler of a card,
    called when [Date.now()] is [now]. *)
Definition startCardPotentialDrag (now : Z) (e : PointerEvent) (d : t) : t :=
  if isMouse (evType e) && negb (evButton e =? 0)%Z then d
  else if onInteractive e then d
  else
    let touch := negb (isMouse (evType e)) in
    let drag :=
      mkDrag (evPointerId e) (clientX e) (clientY e) false None touch in
    if touch then
      let i := nextTimerId d in
      mk (Some (setTimerId i drag)) (suppressClick d) (lastPointer d)
         (autoScroll d) true
         (timers d ++ [mkTimer i (now + touchLongPressMs)%Z e])
         (S i)
    else
      mk (Some drag) (suppressClick d) (lastPointer d) (autoScroll d) true
         (timers d) (nextTimerId d).

(** The callback of the long-press timer, run by the host when the timer
    [i] is due. *)
Definition timerFired (now : Z) (i : nat) (d : t) : t :=
  match find (fun tm => (tmId tm =? i)%nat) (timers d) with
  | Some tm =>
      if (tmDue tm <=? now)%Z then
        let d' :=
          mk (cardDrag d) (suppressClick d) (lastPointer d) (autoScroll d)
             (listening d) (clearTimeout (Some i) (timers d))
             (nextTimerId d) in
        match cardDrag d with
        | Some drag =>
            if negb (started drag) then beginCardDrag (tmEvent tm) drag d'
            else d'
        | None => d'
        end
      else d
  | None => d
  end.

(** [Math.hypot(dx, dy) > threshold] on integer offsets. *)
Definition fartherThan (dx dy threshold : Z) : bool :=
  (dx * dx + dy * dy >? threshold * threshold)%Z.

(** [Dnd.onCardPotentialMove(e)], the document's [pointermove] handler while
    the card drag listeners are attached.  Once the drag has started the
    handler goes on to [onCardPointerMove], which moves the ghost and the
    placeholder in the document and changes none of the fields kept here. *)
Definition onCardPotentialMove (e : PointerEvent) (d : t) : t :=
  if negb (listening d) then d
  else
    match cardDrag d with
    | None => d
    | Some drag =>
        if negb (evPointerId e =? pointerId drag)%Z then d
        else
          let d1 :=
            mk (cardDrag d) (suppressClick d)
               (Some (clientX e, clientY e)) (autoScroll d) (listening d)
               (timers d) (nextTimerId d) in
          let dx := (clientX e - startX drag)%Z in
          let dy := (clientY e - startY drag)%Z in
          if negb (started drag) && isTouch drag
             && ((Z.abs dx >? touchCancelThreshold)%Z
                 || (Z.abs dy >? touchCancelThreshold)%Z)
          then
            mk None (suppressClick d1) (lastPointer d1) (autoScroll d1) false
               (clearTimeout (timerId drag) (timers d1)) (nextTimerId d1)
          else
            let threshold := if isMouse (evType e) then 6%Z else 8%Z in
            if fartherThan dx dy threshold
               && negb (started drag) && negb (isTouch drag)
            then
              beginCardDrag e drag
                (mk (cardDrag d1) (suppressClick d1) (lastPointer d1)
                    (autoScroll d1) (listening d1)
                    (clearTimeout (timerId drag) (timers d1))
                    (nextTimerId d1))
            else d1
    end.

(** The host hands out timer ids in increasing order: the id of every
    pending timer is below the next id. *)
Definition timersFresh (d : t) : Prop :=
  Forall (fun tm => tmId tm < nextTimerId d) (timers d).

(** The three phases of the gesture. *)
Inductive phase : Type := Idle | Armed | Dragging.

Definition phaseOf (d : t) : phase :=
  match cardDrag d with
  | None => Idle
  | Some drag => if started drag then Dragging else Armed
  end.

(** What the document gives [onCardDragEnd] when the placeholder lies in a
    list of cards: the [data-id] of the card and of the two columns, and
    the position of the placeholder among the children of the list. *)
Record Drop : Type := mkDrop {
  dropCardId : string;
  dropFromColId : string;
  dropToColId : string;
  dropIndex : Z
}.

(** [Dnd.onCardDragEnd(e)], the document's [pointerup] and [pointercancel]
    handler while the card drag listeners are attached, called when
    [Date.now()] is [now].  [drop] is [None] when
    [placeholder.closest(".cards")] is null.  The handler ends by asking
    the host to run [releaseClick] after 120 ms: the third component is the
    time that callback is due, [None] when the handler returned at once. *)
Definition onCardDragEnd (now : Z) (nowIso : string) (e : PointerEvent)
    (drop : option Drop) (d : t) (s : Store.t) : t * Store.t * option Z :=
  if negb (listening d) then (d, s, None)
  else
    match cardDrag d with
    | None => (d, s, None)
    | Some drag =>
        if negb (evPointerId e =? pointerId drag)%Z then (d, s, None)
        else
          let s' :=
            if started drag then
              match drop with
              | Some dr =>
                  Store.moveCard now nowIso (dropCardId dr)
                    (dropFromColId dr) (dropToColId dr) (dropIndex dr) s
              | None => s
              end
            else s in
          (mk None (suppressClick d) None false false
              (clearTimeout (timerId drag) (timers d)) (nextTimerId d),
           s', Some (now + 120)%Z)
    end.

(** The callback [onCardDragEnd] schedules: [Dnd.suppressClick = false]. *)
Definition releaseClick (d : t) : t :=
  mk (cardDrag d) false (lastPointer d) (autoScroll d) (listening d)
     (timers d) (nextTimerId d).

(** A child of a list of cards in the document: the element of a card,
    with its [data-id], or the placeholder of the drag. *)
Inductive Child : Type :=
| CardEl (id : string)
| PlaceholderEl.

(** The elements of these cards. *)
Definition cardEls (l : list Card.t) : list Child :=
  map (fun c => CardEl (Card.id c)) l.

(** [[...toList.children].indexOf(placeholder)] *)
Fixpoint placeholderIndex (children : list Child) : Z :=
  match children with
  | [] => (-1)%Z
  | PlaceholderEl :: _ => 0%Z
  | CardEl _ :: rest =>
      let r := placeholderIndex rest in
      if (r <? 0)%Z then (-1)%Z else (r + 1)%Z
  end.

(** What [onCardDragEnd] reads from the document when the placeholder lies
    in a list with these children: the element of the dragged card stays a
    child of its list during the drag. *)
Definition dropInto (cardId fromColId toColId : string)
    (children : list Child) : Drop :=
  mkDrop cardId fromColId toColId (placeholderIndex children).

(** The [data-id]s of the card elements of that list once
    [onCardDragEnd] has put the element of the dragged card before the
    placeholder ([toList.insertBefore(cardEl, placeholder)]) and removed
    the placeholder. *)
Definition shownAfterDrop (cardId : string) (children : list Child)
  : list string :=
  flat_map
    (fun child =>
       match child with
       | PlaceholderEl => [cardId]
       | CardEl k => if k =? cardId then [] else [k]
       end) children.
End Dnd.

(** ** App.importJSON: the merge branch *)

Module App.

(** [String.prototype.toLowerCase], [trim] and [replace(/\s+/g, " ")] on
    strings of 7-bit characters. *)
Definition lowerChar (a : ascii) : ascii :=
  let n := nat_of_ascii a in
  if (65 <=? n)%nat && (n <=? 90)%nat then ascii_of_nat (n + 32) else a.

Definition isSpace (a : ascii) : bool :=
  let n := nat_of_ascii a in
  ((9 <=? n)%nat && (n <=? 13)%nat) || (n =? 32)%nat.

Fixpoint dropSpaces (l : list ascii) : list ascii :=
  match l with
  | [] => []
  | a :: rest => if isSpace a then dropSpaces rest else l
  end.

Definition trim (l : list ascii) : list ascii :=
  rev (dropSpaces (rev (dropSpaces l))).

(** Every run of white space becomes one space; [inRun] says that the
    previous character was white space. *)
Fixpoint collapseSpaces (inRun : bool) (l : list ascii) : list ascii :=
  match l with
  | [] => []
  | a :: rest =>
      if isSpace a then
        if inRun then collapseSpaces true rest
        else " "%char :: collapseSpaces true rest
      else a :: collapseSpaces false rest
  end.

(** [normTitle]: [(s || "").toLowerCase().trim().replace(/\s+/g, " ")] *)
Definition normTitle (s : string) : string :=
  string_of_list_ascii
    (collapseSpaces false (trim (map lowerChar (list_ascii_of_string s)))).

(** The lexicographic order on keys (time, sequence number, origin id):
    the time decides, then the sequence number, then the origin id as a
    string. *)
Definition keyLt (a b : Z * Js.num * string) : Prop :=
  let '(ta, sa, ca) := a in
  let '(tb, sb, cb) := b in
  (ta < tb)%Z
  \/ (ta = tb
      /\ (Js.numLt sa sb \/ (sa = sb /\ String.compare ca cb = Lt))).

(** [s.trim()] on a string. *)
Definition trimString (s : string) : string :=
  string_of_list_ascii (trim (list_ascii_of_string s)).

(** The tags [App.handleSaveCard] reads from the form:
    [value.split(",").map((s) => s.trim()).filter(Boolean)]. *)
Definition parseTags (value : string) : list string :=
  filter (fun s => negb (s =? "")) (map trimString (Js.split "," value)).

(** The value the confirm dialog closes with: ["archive"], ["delete"], or
    anything else. *)
Inductive Choice : Type := ChooseArchive | ChooseDelete | ChooseOther.

(** [App.promptDeleteOrArchive(cardId)], given the value the confirm dialog
    closes with.  [None] stands for the [TypeError] of [archiveCol.id] when
    no column is the archive; nothing has been changed by then. *)
Definition promptDeleteOrArchive (now : Z) (nowIso : string)
    (cardId : string) (choice : Choice) (s : Store.t) : option Store.t :=
  match Store.findCard (Store.columns s) cardId with
  | None => Some s
  | Some (i, card) =>
      match choice with
      | ChooseArchive =>
          match find Column.isArchive (Store.columns s),
                nth_error (Store.columns s) i with
          | Some archiveCol, Some col =>
              if negb (Column.id col =? Column.id archiveCol)
              then Some (Store.moveCard now nowIso cardId (Column.id col)
                           (Column.id archiveCol) (-1) s)
              else Some s
          | None, _ => None
          | Some _, None => Some s
          end
      | ChooseDelete => Some (Store.deleteCard now cardId s)
      | ChooseOther => Some s
      end
  end.

(** The value the import dialog closes with: ["replace"], ["merge"],
    ["cancel"] or the empty string, or any other string. *)
Inductive ImportChoice : Type :=
| ImportReplace
| ImportMerge
| ImportCancel
| ImportOther.

Section Merge.

(** [Date.parse]: the time value of a date string in milliseconds, [None]
    for [NaN]. *)
Variable Date_parse : string -> option Z.

(** [timeVal]: [t ? Date.parse(t) || 0 : 0] *)
Definition timeVal (t : option string) : Z :=
  if Js.truthy t then
    match Date_parse (Js.orEmpty t) with
    | Some v => v
    | None => 0%Z
    end
  else 0%Z.

(** [Number.isFinite(A.seq) ? A.seq : -Infinity] *)
Definition seqVal (A : Card.t) : Js.num :=
  match Card.seq A with
  | Some n => Js.Fin n
  | None => Js.NegInf
  end.

(** The time component of the content key. *)
Definition contentTime (A : Card.t) : Z :=
  Z.max (Z.max (timeVal (Card.contentChangedAt A))
               (timeVal (Card.lastChanged A)))
        (timeVal (Card.createdAt A)).

Definition isContentANewer (A B : Card.t) : bool :=
  let ta := contentTime A in
  let tb := contentTime B in
  if negb (ta =? tb)%Z then (ta >? tb)%Z
  else
    let sa := seqVal A in
    let sb := seqVal B in
    if negb (Js.numEqb sa sb) then Js.numGt sa sb
    else
      Js.strGt (Js.orEmpty (Card.lastChangedBy A))
               (Js.orEmpty (Card.lastChangedBy B)).

(** The content key of a card: time, sequence number, origin id. *)
Definition contentKey (A : Card.t) : Z * Js.num * string :=
  (contentTime A, seqVal A, Js.orEmpty (Card.lastChangedBy A)).

Definition isPositionANewer (A B : Card.t) : bool :=
  let ta := timeVal (Card.positionChangedAt A) in
  let tb := timeVal (Card.positionChangedAt B) in
  if negb (ta =? tb)%Z then (ta >? tb)%Z
  else
    let fa := timeVal (Card.lastChanged A) in
    let fb := timeVal (Card.lastChanged B) in
    if negb (fa =? fb)%Z then (fa >? fb)%Z
    else
      let sa := seqVal A in
      let sb := seqVal B in
      if negb (Js.numEqb sa sb) then Js.numGt sa sb
      else
        Js.strGt (Js.orEmpty (Card.lastChangedBy A))
                 (Js.orEmpty (Card.lastChangedBy B)).

(** [if (inc.f) ex.f = inc.f] *)
Definition copyIfTruthy (inc ex : option string) : option string :=
  if Js.truthy inc then inc else ex.

(** The existing card after the assignments of the "update content" branch:
    content fields are taken from the incoming card, metadata fields only
    where the incoming card has them.  The id is not assigned. *)
Definition overwriteContent (exCard incCard : Card.t) : Card.t :=
  Card.mk
    (Card.id exCard)
    (Card.title incCard)
    (Card.description incCard)
    (Some (match Card.tags incCard with Some l => l | None => [] end))
    (Some (Js.orEmpty (Card.due incCard)))
    (Card.reminder incCard)
    (copyIfTruthy (Card.createdAt incCard) (Card.createdAt exCard))
    (copyIfTruthy (Card.lastChanged incCard) (Card.lastChanged exCard))
    (copyIfTruthy (Card.lastChangedBy incCard) (Card.lastChangedBy exCard))
    (match Card.seq incCard with
     | Some n => Some n
     | None => Card.seq exCard
     end)
    (copyIfTruthy (Card.contentChangedAt incCard)
                  (Card.contentChangedAt exCard))
    (copyIfTruthy (Card.positionChangedAt incCard)
                  (Card.positionChangedAt exCard)).

(** The existing card after the content step of the merge. *)
Definition mergeContent (incCard exCard : Card.t) : Card.t :=
  if isContentANewer incCard exCard then overwriteContent exCard incCard
  else exCard.

(** The first card of id [k] in the array replaced by [c]: the mutation of
    the object [findCard] returned. *)
Fixpoint replaceFirst (k : string) (c : Card.t) (l : list Card.t)
  : list Card.t :=
  match l with
  | [] => []
  | x :: rest =>
      if Card.hasId k x then c :: rest else x :: replaceFirst k c rest
  end.

(** [exCol.cards = exCol.cards.filter((c) => c.id !== exCard.id)] *)
Definition dropCard (k : string) (col : Column.t) : Column.t :=
  Column.setCards
    (filter (fun c => negb (Card.hasId k c)) (Column.cards col)) col.

(** The body of [incCol.cards.forEach((incCard) => ...)] for the target
    column at index [target]. *)
Definition mergeCard (target : nat) (b : Board) (incCard : Card.t) : Board :=
  match Store.findCard b (Card.id incCard) with
  | None => Js.updateAt target (Column.pushCard incCard) b
  | Some (exIdx, exCard0) =>
      let exCard := mergeContent incCard exCard0 in
      let b1 :=
        Js.updateAt exIdx
          (fun col =>
             Column.setCards
               (replaceFirst (Card.id incCard) exCard (Column.cards col)) col)
          b in
      match nth_error b exIdx, nth_error b target with
      | Some exCol, Some targetCol =>
          let shouldMove :=
            negb (Column.id exCol =? Column.id targetCol)
            && isPositionANewer incCard exCard in
          if shouldMove then
            Js.updateAt target (Column.pushCard exCard)
              (Js.updateAt exIdx (dropCard (Card.id exCard)) b1)
          else b1
      | _, _ => b1
      end
  end.

(** The merge's working state between its two passes: the board and the
    maps [existingById] and [existingByTitle].  The map [columnById] of the
    source is written and never read, so it is left out. *)
Record Ctx : Type := mkCtx {
  columns : Board;
  existingById : Js.Map;
  existingByTitle : Js.Map
}.

(** The entries [columns.map((c) => [key(c), c])], columns held by index. *)
Fixpoint entriesFrom (i : nat) (key : Column.t -> string) (b : Board)
  : list (string * nat) :=
  match b with
  | [] => []
  | c :: rest => (key c, i) :: entriesFrom (S i) key rest
  end.

Definition titleKey (c : Column.t) : string := normTitle (Column.title c).

Definition initCtx (b : Board) : Ctx :=
  mkCtx b
        (Js.Map_of (entriesFrom 0 Column.id b))
        (Js.Map_of (entriesFrom 0 titleKey b)).

(** The target of an incoming column: by id, else by normalized title. *)
Definition resolveTarget (ctx : Ctx) (incCol : Column.t) : option nat :=
  match Js.Map_get (existingById ctx) (Column.id incCol) with
  | Some t => Some t
  | None => Js.Map_get (existingByTitle ctx) (titleKey incCol)
  end.

(** Pass 1, one incoming column.  A column that matches nothing is pushed
    onto the board as the object it is; the result then says at which index
    it now lives. *)
Definition decideTarget (ctx : Ctx) (incCol : Column.t)
  : Ctx * option nat :=
  match resolveTarget ctx incCol with
  | Some _ => (ctx, None)
  | None =>
      let p := List.length (columns ctx) in
      (mkCtx (columns ctx ++ [incCol])
             (Js.Map_set (existingById ctx) (Column.id incCol) p)
             (Js.Map_set (existingByTitle ctx) (titleKey incCol) p),
       Some p)
  end.

Fixpoint decideTargets (ctx : Ctx) (incoming : list Column.t)
  : Ctx * list (option nat) :=
  match incoming with
  | [] => (ctx, [])
  | incCol :: rest =>
      let (ctx1, pushed) := decideTarget ctx incCol in
      let (ctx2, flags) := decideTargets ctx1 rest in
      (ctx2, pushed :: flags)
  end.

(** The array [incCol.cards] that pass 2 iterates.  For a column that pass 1
    pushed it is the array of the board column at that index, which earlier
    iterations of pass 2 may have changed; [forEach] visits the elements the
    array has when the iteration starts. *)
Definition cardsToVisit (b : Board) (incCol : Column.t) (pushed : option nat)
  : list Card.t :=
  match pushed with
  | Some p =>
      match nth_error b p with
      | Some col => Column.cards col
      | None => Column.cards incCol
      end
  | None => Column.cards incCol
  end.

(** Pass 2, one incoming column. *)
Definition mergeColumn (ctx : Ctx) (b : Board)
    (inc : Column.t * option nat) : Board :=
  match resolveTarget ctx (fst inc) with
  | None => b
  | Some target =>
      fold_left (mergeCard target) (cardsToVisit b (fst inc) (snd inc)) b
  end.

(** The merge branch of [App.importJSON]: the board after merging the
    snapshot [incoming] into the board [b]. *)
Definition importMerge (b : Board) (incoming : list Column.t) : Board :=
  let (ctx, flags) := decideTargets (initCtx b) incoming in
  fold_left (mergeColumn ctx) (combine incoming flags) (columns ctx).

End Merge.

(** [App.importJSON(e)] for a file that was chosen, called when
    [Date.now()] is [now]: [incoming] is what [JSON.parse] and
    [validateState] make of its text, [choice] the value the import dialog
    closes with.  A text that does not parse or does not validate leaves
    the store as it is (the [catch] branch only alerts); so does
    ["cancel"].  Any other value reaches the [saveState] at the end. *)
Definition importJSON (Date_parse : string -> option Z) (now : Z)
    (incoming : Store.loaded) (choice : ImportChoice) (s : Store.t)
  : Store.t :=
  match incoming with
  | Store.Loaded incomingColumns =>
      match choice with
      | ImportReplace =>
          Store.saveState now (Store.setColumns incomingColumns s)
      | ImportMerge =>
          Store.saveState now
            (Store.setColumns
               (importMerge Date_parse (Store.columns s) incomingColumns) s)
      | ImportCancel => s
      | ImportOther => Store.saveState now s
      end
  | Store.Absent | Store.Malformed => s
  end.

End App.

(** ** Utils *)

Module Utils.

(** One round of the loop of [Utils.colorFromString]:
    [hash = (hash * 31 + str.charCodeAt(i)) % 360]. *)
Definition hashStep (hash : Z) (c : ascii) : Z :=
  Z.rem (hash * 31 + Z.of_nat (nat_of_ascii c)) 360.

(** The hash after the loop: the hue. *)
Definition hueOf (str : string) : Z :=
  fold_left hashStep (list_ascii_of_string str) 0%Z.

Definition colorFromString (str : string) : string :=
  "hsl(" ++ NilZero.string_of_int (Z.to_int (hueOf str)) ++ ", 70%, 50%)".

End Utils.

(** ** Meta: the sequence counter in localStorage *)

Module Meta.

Definition digitVal (a : ascii) : option Z :=
  let n := nat_of_ascii a in
  if (48 <=? n)%nat && (n <=? 57)%nat then Some (Z.of_nat (n - 48)) else None.

(** The number the leading digits of [l] denote, after the digits that gave
    [acc]. *)
Fixpoint digitRun (l : list ascii) (acc : Z) : Z :=
  match l with
  | [] => acc
  | a :: rest =>
      match digitVal a with
      | Some d => digitRun rest (acc * 10 + d)
      | None => acc
      end
  end.

Definition startsWithDigit (l : list ascii) : bool :=
  match l with
  | a :: _ =>
      match digitVal a with
      | Some _ => true
      | None => false
      end
  | [] => false
  end.

(** [parseInt(s, 10)]: leading white space is skipped, a sign is read, then
    the digits up to the first character that is none; [None] stands for
    [NaN], the result when no digit is there. *)
Definition parseInt10 (s : string) : option Z :=
  let l := App.dropSpaces (list_ascii_of_string s) in
  let signed :=
    match l with
    | "-"%char :: rest => ((-1)%Z, rest)
    | "+"%char :: rest => (1%Z, rest)
    | _ => (1%Z, l)
    end in
  if startsWithDigit (snd signed)
  then Some (fst signed * digitRun (snd signed) 0)%Z
  else None.

(** [String(n)] for an integer [n]. *)
Definition toString (n : Z) : string :=
  NilZero.string_of_int (Z.to_int n).

(** [Meta.nextSeq()], given what [localStorage] holds under
    ["vee-board-seq"] ([None] for [null]): the number returned and the
    string stored. *)
Definition nextSeq (stored : option string) : Z * string :=
  let text := if Js.truthy stored then Js.orEmpty stored else "0" in
  let current :=
    match parseInt10 text with
    | Some n => n
    | None => 0%Z
    end in
  let next := (current + 1)%Z in
  (next, toString next).

End Meta.

(** ** UI: the tag chips and the card filter *)

Module UI.

(** The element of a card in the document, as far as the filter goes: its
    [data-id], which the placeholder of a drag does not have, and whether
    it is in view, that is, whether [style.display] is not ["none"]. *)
Record CardEl : Type := mkEl {
  elId : option string;
  inView : bool
}.

(** The filter state, [UI.activeTagFilters], a [Set], and
    [UI.searchQuery], with the elements [Utils.qsa(".card")] returns, in
    document order. *)
Record t : Type := mk {
  activeTagFilters : list string;
  searchQuery : string;
  cards : list CardEl
}.

Definition toLowerCase (s : string) : string :=
  string_of_list_ascii (map App.lowerChar (list_ascii_of_string s)).

(** [card.tags || []] *)
Definition tagsOf (card : Card.t) : list string :=
  match Card.tags card with
  | Some l => l
  | None => []
  end.

(** What [UI.showCardEditor] writes into the tags field of the form:
    [(card.tags || []).join(", ")]. *)
Definition tagsField (card : Card.t) : string :=
  Js.join ", " (tagsOf card).

(** The set [allTags] that [UI.updateTagFilters] collects from the columns
    that are not the archive. *)
Definition allTags (b : Board) : list string :=
  fold_left
    (fun acc c =>
       fold_left
         (fun acc1 k => fold_left Js.Set_add (tagsOf k) acc1)
         (Column.cards c) acc)
    (filter (fun c => negb (Column.isArchive c)) b) [].

(** The tags of the chips [UI.updateTagFilters] creates, in the order of
    the chips: [[...allTags].sort()]. *)
Definition tagChips (b : Board) : list string :=
  Js.sort Js.strCmp (allTags b).

(** The assignment of [UI.setSearchQuery(query)]. *)
Definition withQuery (query : string) (u : t) : t :=
  mk (activeTagFilters u) (toLowerCase query) (cards u).

(** The first statement of [UI.toggleTagFilter(tag)]: the tag leaves the
    set of active filters when it is in it and enters it otherwise. *)
Definition toggleFilter (tag : string) (u : t) : t :=
  if Js.Set_has (activeTagFilters u) tag
  then mk (Js.Set_delete (activeTagFilters u) tag) (searchQuery u) (cards u)
  else mk (Js.Set_add (activeTagFilters u) tag) (searchQuery u) (cards u).

(** The two tests of [UI.applyFiltersToCard]; [None] stands for the
    [TypeError] of [card.description.toLowerCase] on a card without a
    description and of [card.tags.join] or [card.tags.includes] on a card
    without tags. *)
Definition searchMatch (u : t) (card : Card.t) : option bool :=
  if searchQuery u =? "" then Some true
  else if Js.includes (toLowerCase (Card.title card)) (searchQuery u)
  then Some true
  else
    match Card.description card with
    | None => None
    | Some description =>
        if Js.includes (toLowerCase description) (searchQuery u)
        then Some true
        else
          match Card.tags card with
          | Some l =>
              Some (Js.includes (toLowerCase (Js.join " " l))
                      (searchQuery u))
          | None => None
          end
    end.

Definition tagsMatch (u : t) (card : Card.t) : option bool :=
  match activeTagFilters u with
  | [] => Some true
  | _ :: _ =>
      match Card.tags card with
      | Some l =>
          Some (forallb (fun filterTag => existsb (String.eqb filterTag) l)
                        (activeTagFilters u))
      | None => None
      end
  end.

(** What [UI.applyFiltersToCard(cardEl)] does to the element of the card
    with the given id. *)
Inductive outcome : Type :=
| Untouched
| Display (shown : bool)
| TypeError.

Definition applyFiltersToCard (u : t) (b : Board) (cardId : string)
  : outcome :=
  match Store.findCard b cardId with
  | None => Untouched
  | Some (i, card) =>
      match nth_error b i with
      | None => Untouched
      | Some col =>
          if Column.isArchive col then Display true
          else
            match searchMatch u card with
            | None => TypeError
            | Some sm =>
                match tagsMatch u card with
                | None => TypeError
                | Some tm => Display (sm && tm)
                end
            end
      end
  end.

(** [UI.applyFiltersToCard(cardEl)] on an element: the element afterwards,
    [None] for the [TypeError]. *)
Definition filterEl (u : t) (b : Board) (el : CardEl) : option CardEl :=
  match elId el with
  | None => Some el
  | Some cardId =>
      match applyFiltersToCard u b cardId with
      | Untouched => Some el
      | Display shown => Some (mkEl (elId el) shown)
      | TypeError => None
      end
  end.

(** The loop of [UI.applyFilters()] over the elements: the elements
    afterwards, and whether the loop came to its end.  A [TypeError] ends
    it at once; the elements not yet visited stay as they are. *)
Fixpoint filterEls (u : t) (b : Board) (els : list CardEl)
  : list CardEl * bool :=
  match els with
  | [] => ([], true)
  | el :: rest =>
      match filterEl u b el with
      | Some el' =>
          let (rest', finished) := filterEls u b rest in
          (el' :: rest', finished)
      | None => (els, false)
      end
  end.

(** [UI.applyFilters()]: the state afterwards, and [false] when the call
    threw. *)
Definition applyFilters (b : Board) (u : t) : t * bool :=
  let (els, finished) := filterEls u b (cards u) in
  (mk (activeTagFilters u) (searchQuery u) els, finished).

(** [UI.setSearchQuery(query)]: the query is stored in lower case, then
    every card element is filtered. *)
Definition setSearchQuery (query : string) (b : Board) (u : t) : t * bool :=
  applyFilters b (withQuery query u).

(** [UI.toggleTagFilter(tag)]: the set of filters is changed, the chip of
    the tag is looked up and every card element is filtered.  [parses]
    says that the selector [.tag-chip[data-tag="..."]] built from the tag
    is one [querySelector] accepts; when it is not, the call throws with
    the set changed and no element filtered. *)
Definition toggleTagFilter (tag : string) (parses : bool) (b : Board)
    (u : t) : t * bool :=
  if parses then applyFilters b (toggleFilter tag u)
  else (toggleFilter tag u, false).

End UI.

(** ** Date.parse on ISO strings *)

Module Iso.

(** [Date.parse] on the strings [Date.prototype.toISOString] produces,
    [YYYY-MM-DDTHH:mm:ss.sssZ] with a four-digit year; every other string is
    taken for unparseable.  The boards written out below use it; the
    theorems about the merge hold for every [Date.parse]. *)

Definition digitVal (a : ascii) : option Z :=
  let n := nat_of_ascii a in
  if (48 <=? n)%nat && (n <=? 57)%nat then Some (Z.of_nat (n - 48)) else None.

Fixpoint digits (l : list ascii) (acc : Z) : option Z :=
  match l with
  | [] => Some acc
  | a :: rest =>
      match digitVal a with
      | Some d => digits rest (acc * 10 + d)%Z
      | None => None
      end
  end.

Definition field (s : string) (start len : nat) : option Z :=
  digits (list_ascii_of_string (substring start len s)) 0%Z.

Definition charAt (s : string) (i : nat) (c : ascii) : bool :=
  match get i s with
  | Some a => Ascii.eqb a c
  | None => false
  end.

Definition isLeap (y : Z) : bool :=
  ((y mod 4 =? 0) && (negb (y mod 100 =? 0) || (y mod 400 =? 0)))%Z.

Definition daysInMonth (y m : Z) : Z :=
  if (m =? 2)%Z then (if isLeap y then 29%Z else 28%Z)
  else if ((m =? 4) || (m =? 6) || (m =? 9) || (m =? 11))%Z then 30%Z
  else 31%Z.

(** Days from 1970-01-01 to the given civil date. *)
Definition daysFromCivil (y m d : Z) : Z :=
  let y' := if (m <=? 2)%Z then (y - 1)%Z else y in
  let era := (y' / 400)%Z in
  let yoe := (y' - era * 400)%Z in
  let mp := if (m >? 2)%Z then (m - 3)%Z else (m + 9)%Z in
  let doy := ((153 * mp + 2) / 5 + d - 1)%Z in
  let doe := (yoe * 365 + yoe / 4 - yoe / 100 + doy)%Z in
  (era * 146097 + doe - 719468)%Z.

Definition parse (s : string) : option Z :=
  if (String.length s =? 24)%nat
     && charAt s 4 "-" && charAt s 7 "-" && charAt s 10 "T"
     && charAt s 13 ":" && charAt s 16 ":" && charAt s 19 "."
     && charAt s 23 "Z"
  then
    match field s 0 4, field s 5 2, field s 8 2,
          field s 11 2, field s 14 2, field s 17 2, field s 20 3 with
    | Some y, Some mo, Some d, Some h, Some mi, Some se, Some ms =>
        if ((1 <=? mo) && (mo <=? 12) && (1 <=? d) && (d <=? daysInMonth y mo)
            && (h <=? 23) && (mi <=? 59) && (se <=? 59))%Z
        then
          Some ((((daysFromCivil y mo d * 24 + h) * 60 + mi) * 60 + se)
                * 1000 + ms)%Z
        else None
    | _, _, _, _, _, _, _ => None
    end
  else None.

End Iso.

(** ** Concrete boards, snapshots and gestures *)

Module Sample.

Definition jan1 : string := "2024-01-01T00:00:00.000Z".
Definition mar1 : string := "2024-03-01T00:00:00.000Z".
Definition mar5 : string := "2024-03-05T00:00:00.000Z".

(** A plain card: no tags, no due date, no reminder. *)
Definition plainCard (id title : string)
    (createdAt lastChanged contentChangedAt positionChangedAt : string)
    (client : string) (seq : Z) : Card.t :=
  Card.mk id title (Some "") (Some []) (Some "") None
          (Some createdAt) (Some lastChanged) (Some client) (Some seq)
          (Some contentChangedAt) (Some positionChangedAt).

(** The card "k" as this device has it: created on Jan 1, edited on Mar 5,
    never moved. *)
Definition kLocal : Card.t :=
  plainCard "k" "edited here" jan1 mar5 mar5 jan1 "c_local" 7.

(** The same card in an old backup: untouched since Jan 1. *)
Definition kBackup : Card.t :=
  plainCard "k" "first draft" jan1 jan1 jan1 jan1 "c_local" 1.

(** The same card on another device: moved on Mar 1, content as created. *)
Definition kRemote : Card.t :=
  plainCard "k" "moved elsewhere" jan1 mar1 jan1 mar1 "c_remote" 3.

Definition inbox (l : list Card.t) : Column.t :=
  Column.mk "x" "Inbox" l false false.

Definition backlog (l : list Card.t) : Column.t :=
  Column.mk "n" "Backlog" l false false.

(** A board whose only card is [kLocal], in the inbox. *)
Definition board0 : Board := [inbox [kLocal]].

(** A backup in which the card lives in a column the board does not have. *)
Definition backup : list Column.t := [backlog [kBackup]].

(** [board0] after the backup was merged into it: the backlog column came
    in with its copy of the card. *)
Definition board1 : Board := [inbox [kLocal]; backlog [kBackup]].

(** The other device's snapshot: the card sits in the backlog. *)
Definition remote : list Column.t := [backlog [kRemote]].

(** The store of a device on the remote backend. *)
Definition store0 : Store.t := Store.mk board0 7 "c_local" 0 true.

(** A pushed snapshot in which the inbox is empty. *)
Definition emptied : Board := [inbox []].

(** Two ordinary columns and the archive. *)
Definition other : Card.t :=
  plainCard "p" "other" jan1 jan1 jan1 jan1 "c_local" 2.
Definition third : Card.t :=
  plainCard "q" "third" jan1 jan1 jan1 jan1 "c_local" 3.

Definition board2 : Board :=
  [inbox [kLocal]; backlog [other; third]; Store.archiveColumn].

Definition store2 : Store.t := Store.mk board2 7 "c_local" 0 false.



(** A board on which the card is as the backup has it, and a snapshot that
    holds the card twice: as moved on one device, as edited on another. *)
Definition today (l : list Card.t) : Column.t :=
  Column.mk "a" "Today" l false false.
Definition later (l : list Card.t) : Column.t :=
  Column.mk "b" "Later" l false false.

Definition board3 : Board := [today []; later []; inbox [kBackup]].

Definition twofold : list Column.t := [today [kRemote]; later [kLocal]].

(** A touch press at (100, 100) on a card, and the same finger 9 px to the
    right. *)
Definition press : Dnd.PointerEvent :=
  Dnd.mkEvent Dnd.Touch 1 0 100 100 false.


(** The card as a third device has it: edited and moved on Mar 5. *)
Definition kBoth : Card.t :=
  plainCard "k" "edited and moved" jan1 mar5 mar5 mar5 "c_other" 9.

(** A mouse press at (100, 100) on a card, and the pointer 7 px to the
    right. *)
Definition click : Dnd.PointerEvent :=
  Dnd.mkEvent Dnd.Mouse 1 0 100 100 false.
Definition pull : Dnd.PointerEvent :=
  Dnd.mkEvent Dnd.Mouse 1 0 107 100 false.

(** The recogniser once that drag has started, and the release of the
    pointer. *)
Definition dragging : Dnd.t :=
  Dnd.onCardPotentialMove pull (Dnd.startCardPotentialDrag 0 click Dnd.idle).
Definition release : Dnd.PointerEvent :=
  Dnd.mkEvent Dnd.Mouse 1 0 107 160 false.

(** A board with three cards in the inbox. *)
Definition board4 : Board :=
  [inbox [kLocal; other; third]; Store.archiveColumn].

Definition store4 : Store.t := Store.mk board4 7 "c_local" 0 false.

(** A card with two tags, alone in the inbox. *)
Definition labelled : Card.t :=
  Card.mk "t" "restyle the header" (Some "") (Some ["ui"; "bug"]) (Some "") None
          (Some jan1) (Some jan1) (Some "c_local") (Some 1%Z)
          (Some jan1) (Some jan1).

Definition board5 : Board :=
  [inbox [labelled]; Store.archiveColumn].

(** The element of that card, in view, with no filter and no query. *)
Definition page5 : UI.t :=
  UI.mk [] "" [UI.mkEl (Some "t") true].

(** The elements of two cards of [board2], the second hidden by an
    earlier search. *)
Definition page2 : UI.t :=
  UI.mk [] "zzz" [UI.mkEl (Some "p") true; UI.mkEl (Some "k") false].
End Sample.

(** ** Notions for the properties of the merge *)

(** The cards of one id, column by column: all that [findCard] and the
    merge of a card of that id look at. *)
Definition cardsOfId (k : string) (b : Board) : list (list Card.t) :=
  map (fun col => filter (Card.hasId k) (Column.cards col)) b.

(** The content key in the words of the documentation, read off the
    fields of the card.  The time is the greatest of the times the three
    stamps denote, where a stamp that is missing, empty or not a date
    denotes 0; the sequence number is [seq], below every number when the
    card has none; the origin id is [lastChangedBy], empty when the card
    has none. *)
Definition stampTime (Date_parse : string -> option Z)
    (stamp : option string) : Z :=
  match stamp with
  | Some text =>
      if text =? "" then 0%Z
      else
        match Date_parse text with
        | Some v => v
        | None => 0%Z
        end
  | None => 0%Z
  end.

Definition documentedTime (Date_parse : string -> option Z) (c : Card.t)
  : Z :=
  Z.max (stampTime Date_parse (Card.contentChangedAt c))
        (Z.max (stampTime Date_parse (Card.lastChanged c))
               (stampTime Date_parse (Card.createdAt c))).

Definition originOf (c : Card.t) : string :=
  match Card.lastChangedBy c with
  | Some origin => origin
  | None => ""
  end.

Definition documentedKey (Date_parse : string -> option Z) (c : Card.t)
  : Z * Js.num * string :=
  (documentedTime Date_parse c,
   match Card.seq c with
   | Some n => Js.Fin n
   | None => Js.NegInf
   end,
   originOf c).

(** The ids and titles of the columns: all that the maps of the merge look
    at. *)
Definition shape (b : Board) : list (string * string) :=
  map (fun col => (Column.id col, Column.title col)) b.

(** The maps of the working state are those of its columns. *)
Definition canonical (ctx : App.Ctx) : Prop :=
  ctx = App.initCtx (App.columns ctx).

(** Outside the column [findCard] returns for the id of [inc], the only
    card of that id the board may hold is a copy of [inc] itself. *)
Definition lone (inc : Card.t) (b : Board) : Prop :=
  forall i ex j col y,
    Store.findCard b (Card.id inc) = Some (i, ex) ->
    nth_error b j = Some col -> j <> i ->
    In y (Column.cards col) -> Card.id y = Card.id inc -> y = inc.

Section MergeNotions.

Variable Date_parse : string -> option Z.

(** The move test of [mergeCard] for the card [ex] found in column [i],
    read off the column ids. *)
Definition shouldMove (b : Board) (i t : nat) (inc ex : Card.t) : bool :=
  match option_map Column.id (nth_error b i),
        option_map Column.id (nth_error b t) with
  | Some exId, Some targetId =>
      negb (exId =? targetId) && App.isPositionANewer Date_parse inc ex
  | _, _ => false
  end.

(** The incoming card [inc] is settled on the board for the target [t]:
    the card [findCard] returns for its id already has the content the
    content step would give it and is not to be moved. *)
Definition settled (t : nat) (inc : Card.t) (b : Board) : Prop :=
  exists i ex,
    Store.findCard b (Card.id inc) = Some (i, ex)
    /\ App.mergeContent Date_parse inc ex = ex
    /\ shouldMove b i t inc ex = false.

(** Card merges in sequence, each with its target. *)
Definition mergeItems (W : list (nat * Card.t)) (b : Board) : Board :=
  fold_left
    (fun b0 item => App.mergeCard Date_parse (fst item) b0 (snd item)) W b.

End MergeNotions.

(** The card merges pass 2 performs when every iterated array is the
    snapshot's own. *)
Definition itemsOf (ctx : App.Ctx) (L : list (Column.t * option nat))
  : list (nat * Card.t) :=
  flat_map
    (fun inc =>
       match App.resolveTarget ctx (fst inc) with
       | Some t => map (pair t) (Column.cards (fst inc))
       | None => []
       end) L.

(** The id [k] occurs at most once on the board. *)
Definition single (k : string) (b : Board) : Prop :=
  List.length (List.concat (cardsOfId k b)) <= 1.

(** The cards of the incoming columns still to be iterated. *)
Definition cardsOfPlan (L : list (Column.t * option nat)) : list Card.t :=
  flat_map (fun inc => Column.cards (fst inc)) L.

(** The cards [X] that earlier card merges appended to the pushed column at
    index [p]: each is the card [findCard] returns for its id, and no card
    of [T], the cards still to be merged, has its id. *)
Definition extrasOk (p : nat) (X T : list Card.t) (b : Board) : Prop :=
  forall x, In x X ->
    Store.findCard b (Card.id x) = Some (p, x)
    /\ ~ In (Card.id x) (map Card.id T).

(** Every pushed column still to be iterated is its own target and holds
    the cards of the snapshot followed by such cards. *)
Definition pushedOk (ctx : App.Ctx) (T : list Card.t)
    (L : list (Column.t * option nat)) (b : Board) : Prop :=
  forall D p, In (D, Some p) L ->
    App.resolveTarget ctx D = Some p
    /\ exists col X,
         nth_error b p = Some col
         /\ Column.cards col = Column.cards D ++ X
         /\ extrasOk p X T b.

(** The id of every card of a column that was not pushed occurs at most
    once on the board. *)
Definition singleOk (L : list (Column.t * option nat)) (b : Board) : Prop :=
  forall D c, In (D, None) L -> In c (Column.cards D) ->
    single (Card.id c) b.

(** Pushed columns have pairwise distinct indices. *)
Inductive ascending : list (Column.t * option nat) -> Prop :=
| ascending_nil : ascending []
| ascending_cons (inc : Column.t * option nat)
    (L : list (Column.t * option nat)) :
    (forall p0 D p, snd inc = Some p0 -> In (D, Some p) L -> p0 <> p) ->
    ascending L ->
    ascending (inc :: L).

(** ** Notions for the properties of the store *)

(** The list without its first element that satisfies [p]. *)
Fixpoint dropFirst {A : Type} (p : A -> bool) (l : list A) : list A :=
  match l with
  | [] => []
  | x :: rest => if p x then rest else x :: dropFirst p rest
  end.

(** What a column is apart from its cards. *)
Definition header (col : Column.t) : string * string * bool * bool :=
  (Column.id col, Column.title col, Column.isDone col, Column.isArchive col).

Definition headers (b : Board) : list (string * string * bool * bool) :=
  map header b.


(** The mutations of the store, each with what it reads from the host
    besides [Date.now()]. *)
Inductive StoreOp : Type :=
| AddColumn (uid title : string)
| UpdateColumn (colId title : string) (isDone : bool)
| DeleteColumn (colId : string)
| AddCard (uid : string) (clock : Store.Clock) (colId : string)
    (cardData : CardData.t)
| UpdateCard (nowIso cardId : string) (cardData : CardData.t)
| DeleteCard (cardId : string)
| MoveCard (nowIso cardId fromColId toColId : string) (toIndex : Z)
| ReorderColumns (columnOrder : list string).

Definition applyOp (now : Z) (op : StoreOp) (s : Store.t) : Store.t :=
  match op with
  | AddColumn uid title => snd (Store.addColumn now uid title s)
  | UpdateColumn colId title isDone =>
      Store.updateColumn now colId title isDone s
  | DeleteColumn colId => Store.deleteColumn now colId s
  | AddCard uid clock colId cardData =>
      snd (Store.addCard now uid clock colId cardData s)
  | UpdateCard nowIso cardId cardData =>
      snd (Store.updateCard now nowIso cardId cardData s)
  | DeleteCard cardId => Store.deleteCard now cardId s
  | MoveCard nowIso cardId fromColId toColId toIndex =>
      Store.moveCard now nowIso cardId fromColId toColId toIndex s
  | ReorderColumns columnOrder => Store.reorderColumns now columnOrder s
  end.

(** The board has an archive column and its column ids are pairwise
    distinct. *)
Definition archived (b : Board) : Prop :=
  NoDup (map Column.id b) /\ existsb Column.isArchive b = true.

(** No card on the board that this client stamped last carries a sequence
    number above the client's counter. *)
Definition seqBound (s : Store.t) : Prop :=
  forall c n,
    In c (allCards (Store.columns s)) ->
    Card.lastChangedBy c = Some (Store.clientId s) ->
    Card.seq c = Some n ->
    (n <= Store.seqCounter s)%Z.


(** ** Notions for further properties of the merge *)

(** The cards that satisfy [p], column by column. *)
Definition cardsWhere (p : Card.t -> bool) (b : Board)
  : list (list Card.t) :=
  map (fun col => filter p (Column.cards col)) b.

(** The id of the card is none of [ids]. *)
Definition idNotIn (ids : list string) (c : Card.t) : bool :=
  negb (existsb (String.eqb (Card.id c)) ids).

(** The ids the map [existingById] knows are those of the columns, and the
    column ids are pairwise distinct. *)
Definition idsKnown (ctx : App.Ctx) : Prop :=
  NoDup (map Column.id (App.columns ctx))
  /\ forall c, In c (App.columns ctx) ->
       Js.Map_get (App.existingById ctx) (Column.id c) <> None.

(** The position key of a card: the time of its last move, then the key
    of its last change (time, sequence number, origin id). *)
Definition positionKey (Date_parse : string -> option Z) (A : Card.t)
  : Z * (Z * Js.num * string) :=
  (App.timeVal Date_parse (Card.positionChangedAt A),
   (App.timeVal Date_parse (Card.lastChanged A),
    App.seqVal A,
    Js.orEmpty (Card.lastChangedBy A))).

(** The lexicographic order on position keys. *)
Definition posKeyLt (a b : Z * (Z * Js.num * string)) : Prop :=
  (fst a < fst b)%Z \/ (fst a = fst b /\ App.keyLt (snd a) (snd b)).


(** A tag as [App.parseTags] delivers it: not empty, without white space at
    either end, without a comma. *)
Definition wellTag (tag : string) : Prop :=
  tag <> ""
  /\ App.trimString tag = tag
  /\ ~ In ","%char (list_ascii_of_string tag).

(** The list is empty or begins with a character that is not white
    space. *)
Definition headOK (l : list ascii) : Prop :=
  match l with
  | [] => True
  | a :: _ => App.isSpace a = false
  end.

(** Every character is what [toLowerCase] makes of itself. *)
Definition lowered (l : list ascii) : Prop :=
  Forall (fun a => App.lowerChar a = a) l.

(** ** Notions for the properties of the recogniser *)






(* ================================================================== *)
(** * Part II: properties                                              *)
(* ================================================================== *)

(** ** Arrays *)

Section ArrayFacts.

Context {A : Type}.

Lemma findIndex_find (p : A -> bool) (l : list A) (i : nat) :
  Js.findIndex p l = Some i -> nth_error l i = find p l.
Proof.
  revert i.
  induction l as [|x rest IH]; intros i H; simpl in *.
  - discriminate.
  - destruct (p x).
    + injection H as <-. reflexivity.
    + destruct (Js.findIndex p rest) as [j|]; simpl in H; [|discriminate].
      injection H as <-. simpl. apply IH. reflexivity.
Qed.

Lemma findIndex_None (p : A -> bool) (l : list A) :
  Js.findIndex p l = None <-> find p l = None.
Proof.
  induction l as [|x rest IH]; simpl.
  - tauto.
  - destruct (p x).
    + split; discriminate.
    + destruct (Js.findIndex p rest); simpl in *.
      * split; [discriminate|]. intro H. apply IH in H. discriminate.
      * split; [intros _; apply IH; reflexivity | reflexivity].
Qed.

Lemma findIndex_Some (p : A -> bool) (l : list A) (x : A) :
  find p l = Some x -> exists i, Js.findIndex p l = Some i.
Proof.
  intro H.
  destruct (Js.findIndex p l) as [i|] eqn:E.
  - exists i. reflexivity.
  - apply findIndex_None in E. congruence.
Qed.

Lemma find_none_iff (p : A -> bool) (l : list A) :
  find p l = None <-> (forall x, In x l -> p x = false).
Proof.
  split.
  - intros H x Hx. exact (find_none p l H x Hx).
  - induction l as [|y rest IH]; intro H; simpl.
    + reflexivity.
    + rewrite (H y (or_introl eq_refl)). apply IH.
      intros x Hx. apply H. right. exact Hx.
Qed.

Lemma updateAt_length (i : nat) (f : A -> A) (l : list A) :
  List.length (Js.updateAt i f l) = List.length l.
Proof.
  revert i. induction l as [|x rest IH]; intros [|i]; simpl; auto.
Qed.

Lemma updateAt_nth_same (i : nat) (f : A -> A) (l : list A) :
  nth_error (Js.updateAt i f l) i = option_map f (nth_error l i).
Proof.
  revert i. induction l as [|x rest IH]; intros [|i]; simpl; auto.
Qed.

Lemma updateAt_nth_other (i j : nat) (f : A -> A) (l : list A) :
  i <> j -> nth_error (Js.updateAt i f l) j = nth_error l j.
Proof.
  revert i j. induction l as [|x rest IH]; intros [|i] [|j] H; simpl; auto.
  congruence.
Qed.

Lemma updateAt_id (i : nat) (f : A -> A) (l : list A) :
  (forall x, nth_error l i = Some x -> f x = x) -> Js.updateAt i f l = l.
Proof.
  revert i. induction l as [|x rest IH]; intros [|i] H; simpl; auto.
  - rewrite (H x eq_refl). reflexivity.
  - rewrite IH; auto.
Qed.

(** A mutation that keeps what [p] looks at does not move what
    [findIndex] finds. *)
Lemma findIndex_updateAt (p : A -> bool) (i : nat) (f : A -> A) (l : list A) :
  (forall x, p (f x) = p x) ->
  Js.findIndex p (Js.updateAt i f l) = Js.findIndex p l.
Proof.
  intro Hf. revert i.
  induction l as [|x rest IH]; intros [|i]; simpl; auto.
  - rewrite Hf. reflexivity.
  - rewrite IH. reflexivity.
Qed.

Lemma findIndex_map (p : A -> bool) (f : A -> A) (l : list A) :
  (forall x, p (f x) = p x) ->
  Js.findIndex p (map f l) = Js.findIndex p l.
Proof.
  intro Hf. induction l as [|x rest IH]; simpl; auto.
  rewrite Hf, IH. reflexivity.
Qed.

End ArrayFacts.

(** ** Store: columns found by id *)

Lemma saveState_columns (now : Z) (s : Store.t) :
  Store.columns (Store.saveState now s) = Store.columns s.
Proof.
  unfold Store.saveState. destruct (Store.useFirebase s); reflexivity.
Qed.

Lemma findColumn_index (colId : string) (b : Board) (col : Column.t) :
  Store.findColumn colId b = Some col ->
  exists i, Store.findColumnIndex colId b = Some i /\ nth_error b i = Some col.
Proof.
  intro H. destruct (findIndex_Some _ _ _ H) as [i Hi].
  exists i. split; [exact Hi|].
  rewrite (findIndex_find _ _ _ Hi). exact H.
Qed.

Lemma findColumn_hasId (colId : string) (b : Board) (col : Column.t) :
  Store.findColumn colId b = Some col -> Column.id col = colId.
Proof.
  intro H. apply find_some in H. destruct H as [_ H].
  apply String.eqb_eq. exact H.
Qed.

(** Mutating a column's fields other than its id does not change which
    position an id resolves to. *)
Lemma findColumnIndex_updateAt (colId : string) (i : nat)
    (f : Column.t -> Column.t) (b : Board) :
  (forall c, Column.id (f c) = Column.id c) ->
  Store.findColumnIndex colId (Js.updateAt i f b)
  = Store.findColumnIndex colId b.
Proof.
  intro Hf. apply findIndex_updateAt.
  intro c. unfold Column.hasId. rewrite Hf. reflexivity.
Qed.

Lemma findColumn_at (colId : string) (b : Board) (i : nat) :
  Store.findColumnIndex colId b = Some i ->
  Store.findColumn colId b = nth_error b i.
Proof.
  intro H. symmetry. apply findIndex_find. exact H.
Qed.

Lemma placeCard_spec (toIndex : Z) (card : Card.t) (l : list Card.t) :
  let pos :=
    if ((toIndex <? 0) || (toIndex >? Z.of_nat (List.length l)))%Z
    then List.length l else Z.to_nat toIndex in
  Store.placeCard toIndex card l = firstn pos l ++ card :: skipn pos l.
Proof.
  unfold Store.placeCard, Js.insertAt. simpl.
  destruct ((toIndex <? 0) || (toIndex >? Z.of_nat (List.length l)))%Z.
  - rewrite firstn_all, skipn_all. reflexivity.
  - reflexivity.
Qed.

(** ** Store.moveCard *)

(** C9.  When the source column id is unknown, the target column id is
    unknown, or no card of the source column has the given id, [moveCard]
    returns the store it was given: board, sequence counter and echo guard
    are all untouched.  The function is total, so nothing is thrown. *)
Theorem moveCard_silent_noop
    (now : Z) (nowIso cardId fromColId toColId : string) (toIndex : Z)
    (s : Store.t) :
  Store.findColumn fromColId (Store.columns s) = None
  \/ Store.findColumn toColId (Store.columns s) = None
  \/ (exists fromCol,
        Store.findColumn fromColId (Store.columns s) = Some fromCol
        /\ forall c, In c (Column.cards fromCol) -> Card.id c <> cardId) ->
  Store.moveCard now nowIso cardId fromColId toColId toIndex s = s.
Proof.
  intro H. unfold Store.moveCard.
  destruct (Store.findColumnIndex fromColId (Store.columns s)) as [fi|] eqn:Ef;
    [|reflexivity].
  destruct (Store.findColumnIndex toColId (Store.columns s)) as [ti|] eqn:Et;
    [|reflexivity].
  destruct H as [H | [H | [fromCol [Hfrom Hcards]]]].
  - apply findIndex_None in H. unfold Store.findColumnIndex in Ef. congruence.
  - apply findIndex_None in H. unfold Store.findColumnIndex in Et. congruence.
  - rewrite (findColumn_at _ _ _ Ef) in Hfrom. rewrite Hfrom.
    assert (Hnone : find (Card.hasId cardId) (Column.cards fromCol) = None).
    { apply find_none_iff. intros c Hc. unfold Card.hasId.
      apply String.eqb_neq. apply Hcards. exact Hc. }
    rewrite Hnone.
    destruct (Js.findIndex (Card.hasId cardId) (Column.cards fromCol));
      reflexivity.
Qed.

Lemma moveCard_silent_noop_witness :
  Store.moveCard 5 Sample.mar5 "k" "nowhere" "n" 0 Sample.store2
  = Sample.store2.
Proof.
  apply (moveCard_silent_noop 5 Sample.mar5 "k" "nowhere" "n" 0 Sample.store2).
  left. reflexivity.
Defined.

(** On the sample board a move to index [-1] puts the card after the two
    cards of the target column, not before them. *)
Lemma moveCard_negative_index_appends :
  option_map (fun col => map Card.id (Column.cards col))
    (Store.findColumn "n"
       (Store.columns
          (Store.moveCard 5 Sample.mar5 "k" "x" "n" (-1) Sample.store2)))
  = Some ["p"; "q"; "k"]
  /\ option_map (fun col => map Card.id (Column.cards col))
       (Store.findColumn "n"
          (Store.columns
             (Store.moveCard 5 Sample.mar5 "k" "x" "n" (-1) Sample.store2)))
     <> Some ["k"; "p"; "q"].
Proof.
  split.
  - vm_compute. reflexivity.
  - vm_compute. discriminate.
Qed.

(** C5, as the code has it.  When both columns exist and the card is in the
    source column, the card leaves the source array and enters the target
    array (the source array without the card, when source and target are
    the same column) at [toIndex] if [0 <= toIndex <= length], and at the
    end if [toIndex] is negative or beyond the length.  The function is
    total. *)
Theorem moveCard_places
    (now : Z) (nowIso cardId fromColId toColId : string) (toIndex : Z)
    (s : Store.t) (fromCol toCol : Column.t) (i : nat) (card : Card.t) :
  Store.findColumn fromColId (Store.columns s) = Some fromCol ->
  Store.findColumn toColId (Store.columns s) = Some toCol ->
  Js.findIndex (Card.hasId cardId) (Column.cards fromCol) = Some i ->
  nth_error (Column.cards fromCol) i = Some card ->
  let s' := Store.moveCard now nowIso cardId fromColId toColId toIndex s in
  let moved :=
    Store.stampMove nowIso (Store.clientId s) (Store.seqCounter s + 1) card in
  let remaining := Js.removeAt i (Column.cards fromCol) in
  let target :=
    if fromColId =? toColId then remaining else Column.cards toCol in
  let pos :=
    if ((toIndex <? 0) || (toIndex >? Z.of_nat (List.length target)))%Z
    then List.length target else Z.to_nat toIndex in
  (exists toCol',
     Store.findColumn toColId (Store.columns s') = Some toCol'
     /\ Column.cards toCol' = firstn pos target ++ moved :: skipn pos target)
  /\ (fromColId <> toColId ->
      exists fromCol',
        Store.findColumn fromColId (Store.columns s') = Some fromCol'
        /\ Column.cards fromCol' = remaining).
Proof.
  intros Hfrom Hto Hi Hcard.
  destruct (findColumn_index _ _ _ Hfrom) as [fi [Efi Hfi]].
  destruct (findColumn_index _ _ _ Hto) as [ti [Eti Hti]].
  assert (Hfind : find (Card.hasId cardId) (Column.cards fromCol) = Some card).
  { rewrite <- (findIndex_find _ _ _ Hi). exact Hcard. }
  cbv zeta. unfold Store.moveCard.
  rewrite Efi, Eti, Hfi, Hi, Hfind. cbv zeta.
  unfold Store.nextSeq. cbv iota beta. rewrite saveState_columns.
  cbn [Store.columns Store.setColumns Store.clientId].
  set (g1 := fun col : Column.t =>
               Column.setCards (Js.removeAt i (Column.cards col)) col).
  set (moved := Store.stampMove nowIso (Store.clientId s)
                                (Store.seqCounter s + 1) card).
  set (g2 := fun col : Column.t =>
               Column.setCards
                 (Store.placeCard toIndex moved (Column.cards col)) col).
  set (b := Store.columns s) in *.
  assert (Hg1 : forall c, Column.id (g1 c) = Column.id c) by reflexivity.
  assert (Hg2 : forall c, Column.id (g2 c) = Column.id c) by reflexivity.
  assert (Eti' : Store.findColumnIndex toColId
                   (Js.updateAt ti g2 (Js.updateAt fi g1 b)) = Some ti).
  { rewrite !findColumnIndex_updateAt by assumption. exact Eti. }
  assert (Efi' : Store.findColumnIndex fromColId
                   (Js.updateAt ti g2 (Js.updateAt fi g1 b)) = Some fi).
  { rewrite !findColumnIndex_updateAt by assumption. exact Efi. }
  split.
  - rewrite (findColumn_at _ _ _ Eti'), updateAt_nth_same.
    destruct (String.eqb_spec fromColId toColId) as [Heq | Hne].
    + assert (fi = ti) by congruence. subst ti.
      rewrite updateAt_nth_same, Hfi. simpl.
      eexists. split; [reflexivity|].
      unfold g2, g1. cbn [Column.cards Column.setCards].
      apply placeCard_spec.
    + assert (fi <> ti).
      { intro E. subst ti.
        apply findColumn_hasId in Hfrom. apply findColumn_hasId in Hto.
        congruence. }
      rewrite updateAt_nth_other by assumption. rewrite Hti. simpl.
      eexists. split; [reflexivity|].
      unfold g2. cbn [Column.cards Column.setCards].
      apply placeCard_spec.
  - intro Hne.
    assert (fi <> ti).
    { intro E. subst ti.
      apply findColumn_hasId in Hfrom. apply findColumn_hasId in Hto.
      congruence. }
    rewrite (findColumn_at _ _ _ Efi').
    rewrite updateAt_nth_other by congruence.
    rewrite updateAt_nth_same, Hfi. simpl.
    eexists. split; reflexivity.
Qed.

Lemma moveCard_places_witness :
  (exists toCol',
     Store.findColumn "n"
       (Store.columns
          (Store.moveCard 5 Sample.mar5 "k" "x" "n" 1 Sample.store2))
     = Some toCol'
     /\ Column.cards toCol'
        = [Sample.other;
           Store.stampMove Sample.mar5 "c_local" 8 Sample.kLocal;
           Sample.third])
  /\ ("x" <> "n" ->
      exists fromCol',
        Store.findColumn "x"
          (Store.columns
             (Store.moveCard 5 Sample.mar5 "k" "x" "n" 1 Sample.store2))
        = Some fromCol'
        /\ Column.cards fromCol' = []).
Proof.
  exact (moveCard_places 5 Sample.mar5 "k" "x" "n" 1 Sample.store2
           (Sample.inbox [Sample.kLocal])
           (Sample.backlog [Sample.other; Sample.third])
           0 Sample.kLocal eq_refl eq_refl eq_refl eq_refl).
Defined.

(** ** Store.updateColumn: the single "done" column *)

Lemma filter_isDone_cleared (b : Board) :
  filter Column.isDone (map (Column.setIsDone false) b) = [].
Proof.
  induction b as [|c rest IH]; simpl; auto.
Qed.

Lemma filter_isDone_one (i : nat) (b : Board) :
  i < List.length b ->
  List.length
    (filter Column.isDone
       (Js.updateAt i (Column.setIsDone true)
          (map (Column.setIsDone false) b))) = 1.
Proof.
  revert i. induction b as [|c rest IH]; intros i Hi; simpl in Hi.
  - lia.
  - destruct i as [|i]; simpl.
    + rewrite filter_isDone_cleared. reflexivity.
    + apply IH. lia.
Qed.

(** Renaming the archive column with the "done" box ticked changes nothing,
    and neither does renaming a column the board does not have: the sample
    board, which has no done column, still has none. *)
Lemma updateColumn_archive_no_done :
  Store.updateColumn 5 "archive" "Archive" true Sample.store2 = Sample.store2
  /\ List.length
       (filter Column.isDone
          (Store.columns
             (Store.updateColumn 5 "archive" "Archive" true Sample.store2)))
     <> 1
  /\ List.length
       (filter Column.isDone
          (Store.columns
             (Store.updateColumn 5 "nowhere" "Done" true Sample.store2)))
     <> 1.
Proof.
  split; [vm_compute; reflexivity|].
  split; vm_compute; discriminate.
Qed.

(** C6, as the code has it.  [updateColumn] looks at the first column of
    the board that has the id.  When there is none, or when that column is
    the archive column, the call returns the store as it is, whatever the
    title and the flag.  When it is not the archive column, the call with
    [isDone = true] leaves exactly one column with [isDone = true], and
    that is the renamed column. *)
Theorem updateColumn_single_done
    (now : Z) (colId title : string) (s : Store.t) :
  (forall isDone : bool,
      Store.findColumn colId (Store.columns s) = None ->
      Store.updateColumn now colId title isDone s = s)
  /\ (forall (isDone : bool) (col : Column.t),
         Store.findColumn colId (Store.columns s) = Some col ->
         Column.isArchive col = true ->
         Store.updateColumn now colId title isDone s = s)
  /\ (forall col : Column.t,
         Store.findColumn colId (Store.columns s) = Some col ->
         Column.isArchive col = false ->
         let s' := Store.updateColumn now colId title true s in
         List.length (filter Column.isDone (Store.columns s')) = 1
         /\ exists c,
              Store.findColumn colId (Store.columns s') = Some c
              /\ Column.isDone c = true /\ Column.title c = title).
Proof.
  split.
  { intros isDone Hnone. unfold Store.updateColumn. rewrite Hnone.
    destruct (Store.findColumnIndex colId (Store.columns s)); reflexivity. }
  split.
  { intros isDone col Hfind Harch. unfold Store.updateColumn.
    rewrite Hfind, Harch.
    destruct (Store.findColumnIndex colId (Store.columns s)); reflexivity. }
  intros col Hfind Harch.
  destruct (findColumn_index _ _ _ Hfind) as [i [Ei Hi]].
  cbv zeta. unfold Store.updateColumn.
  rewrite Ei, Hfind, Harch. cbn [negb]. cbv zeta.
  rewrite saveState_columns. cbn [Store.columns Store.setColumns].
  assert (Hlt : i < List.length (Store.columns s)).
  { apply nth_error_Some. congruence. }
  split.
  - apply filter_isDone_one. rewrite updateAt_length. exact Hlt.
  - assert (E : Store.findColumnIndex colId
                  (Js.updateAt i (Column.setIsDone true)
                     (map (Column.setIsDone false)
                        (Js.updateAt i (Column.setTitle title)
                           (Store.columns s)))) = Some i).
    { rewrite findColumnIndex_updateAt by reflexivity.
      unfold Store.findColumnIndex.
      rewrite findIndex_map by reflexivity.
      fold (Store.findColumnIndex colId
              (Js.updateAt i (Column.setTitle title) (Store.columns s))).
      rewrite findColumnIndex_updateAt by reflexivity. exact Ei. }
    rewrite (findColumn_at _ _ _ E), updateAt_nth_same.
    rewrite nth_error_map, updateAt_nth_same, Hi. simpl.
    eexists. split; [reflexivity|]. split; reflexivity.
Qed.

Lemma updateColumn_single_done_witness :
  List.length
    (filter Column.isDone
       (Store.columns (Store.updateColumn 5 "n" "Done" true Sample.store2)))
  = 1
  /\ (exists c,
        Store.findColumn "n"
          (Store.columns (Store.updateColumn 5 "n" "Done" true Sample.store2))
        = Some c
        /\ Column.isDone c = true /\ Column.title c = "Done")
  /\ Store.updateColumn 5 "archive" "Bin" true Sample.store2 = Sample.store2
  /\ Store.updateColumn 5 "nowhere" "Done" true Sample.store2
     = Sample.store2.
Proof.
  pose proof (updateColumn_single_done 5 "n" "Done" Sample.store2) as Hn.
  pose proof (updateColumn_single_done 5 "archive" "Bin" Sample.store2) as Ha.
  pose proof (updateColumn_single_done 5 "nowhere" "Done" Sample.store2)
    as Hu.
  destruct (proj2 (proj2 Hn) (Sample.backlog [Sample.other; Sample.third])
              eq_refl eq_refl) as [H1 H2].
  split; [exact H1|]. split; [exact H2|]. split.
  - exact (proj1 (proj2 Ha) true Store.archiveColumn eq_refl eq_refl).
  - exact (proj1 Hu true eq_refl).
Defined.

(** ** The archive column *)

Lemma find_unique_id (b : Board) (col : Column.t) :
  NoDup (map Column.id b) -> In col b ->
  Store.findColumn (Column.id col) b = Some col.
Proof.
  unfold Store.findColumn.
  induction b as [|c rest IH]; intros Hnd Hin; simpl in *.
  - contradiction.
  - inversion Hnd as [|? ? Hnot Hnd']; subst.
    unfold Column.hasId at 1.
    destruct (String.eqb_spec (Column.id c) (Column.id col)) as [E | E].
    + destruct Hin as [-> | Hin]; [reflexivity|].
      exfalso. apply Hnot. rewrite E. apply in_map. exact Hin.
    + destruct Hin as [-> | Hin]; [congruence|].
      apply IH; assumption.
Qed.




(** ** Sync: the echo window *)

(** The snapshot pushed 1000 ms after a save replaces the board.  Merging
    it would have kept the card the snapshot lacks. *)
Lemma late_snapshot_replaces :
  Store.columns
    (Store.onRemoteSnapshot 1000 (Some Sample.emptied)
       (Store.saveState 0 Sample.store0))
  = Sample.emptied
  /\ App.importMerge Iso.parse
       (Store.columns (Store.saveState 0 Sample.store0)) Sample.emptied
     = Sample.board0
  /\ Store.columns
       (Store.onRemoteSnapshot 1000 (Some Sample.emptied)
          (Store.saveState 0 Sample.store0))
     <> App.importMerge Iso.parse
          (Store.columns (Store.saveState 0 Sample.store0)) Sample.emptied.
Proof.
  split; [vm_compute; reflexivity|].
  split; [vm_compute; reflexivity|].
  vm_compute. discriminate.
Qed.

(** C3, as the code has it.  A save at time [t] that arms the guard (the
    remote backend is selected) is followed by a window of 900 ms: a
    snapshot delivered [d] ms later with [d < 900], so at [t + 500], is
    dropped and the store stays as the save left it; one delivered with
    [900 <= d], so at [t + 1000], becomes the board as it is, replacing the
    board that was there. *)
Theorem echo_window (t : Z) (incoming : Board) (s : Store.t) :
  Store.useFirebase s = true ->
  let s1 := Store.saveState t s in
  (forall d : Z, (d < 900)%Z ->
     Store.onRemoteSnapshot (t + d) (Some incoming) s1 = s1)
  /\ (forall d : Z, (900 <= d)%Z ->
        Store.onRemoteSnapshot (t + d) (Some incoming) s1
        = Store.setColumns incoming s1)
  /\ Store.onRemoteSnapshot (t + 500) (Some incoming) s1 = s1
  /\ Store.columns (Store.onRemoteSnapshot (t + 1000) (Some incoming) s1)
     = incoming.
Proof.
  intro Hfb. cbv zeta.
  assert (Hin : forall d : Z, (d < 900)%Z ->
            Store.onRemoteSnapshot (t + d) (Some incoming)
              (Store.saveState t s) = Store.saveState t s).
  { intros d Hd. unfold Store.onRemoteSnapshot, Store.saveState.
    rewrite Hfb. cbn [Store.suppressEchoUntil].
    unfold Sync.shouldIgnore, Sync.muteNext.
    destruct (Z.ltb_spec (t + d) (t + 900)); [reflexivity | lia]. }
  assert (Hout : forall d : Z, (900 <= d)%Z ->
            Store.onRemoteSnapshot (t + d) (Some incoming)
              (Store.saveState t s)
            = Store.setColumns incoming (Store.saveState t s)).
  { intros d Hd. unfold Store.onRemoteSnapshot, Store.saveState.
    rewrite Hfb. cbn [Store.suppressEchoUntil].
    unfold Sync.shouldIgnore, Sync.muteNext.
    destruct (Z.ltb_spec (t + d) (t + 900)); [lia | reflexivity]. }
  split; [exact Hin|]. split; [exact Hout|].
  split.
  - apply Hin. lia.
  - rewrite Hout by lia. reflexivity.
Qed.

Lemma echo_window_witness :
  Store.onRemoteSnapshot (0 + 500) (Some Sample.emptied)
    (Store.saveState 0 Sample.store0)
  = Store.saveState 0 Sample.store0
  /\ Store.columns
       (Store.onRemoteSnapshot (0 + 1000) (Some Sample.emptied)
          (Store.saveState 0 Sample.store0))
     = Sample.emptied.
Proof.
  exact (proj2 (proj2 (echo_window 0 Sample.emptied Sample.store0 eq_refl))).
Defined.

(** ** Store.reorderColumns *)

Lemma indexOf_lower (x : string) (l : list string) :
  (-1 <= Js.indexOf x l)%Z.
Proof.
  induction l as [|y rest IH]; simpl.
  - lia.
  - destruct (y =? x); [lia|].
    destruct (Z.ltb_spec (Js.indexOf x rest) 0); lia.
Qed.

Lemma indexOf_absent (x : string) (l : list string) :
  (Js.indexOf x l <? 0)%Z = negb (existsb (String.eqb x) l).
Proof.
  induction l as [|y rest IH]; simpl.
  - reflexivity.
  - rewrite (String.eqb_sym x y).
    destruct (y =? x); simpl; [reflexivity|].
    rewrite <- IH.
    pose proof (indexOf_lower x rest).
    destruct (Z.ltb_spec (Js.indexOf x rest) 0);
      destruct (Z.ltb_spec (-1) 0);
      destruct (Z.ltb_spec (Js.indexOf x rest + 1) 0); lia || reflexivity.
Qed.

Section SortFacts.

Context {A : Type} (key : A -> Z).

Let cmp (a b : A) : Z := (key a - key b)%Z.

Lemma insertSorted_perm (x : A) (l : list A) :
  Permutation (x :: l) (Js.insertSorted cmp x l).
Proof.
  induction l as [|y rest IH]; simpl.
  - apply Permutation_refl.
  - destruct (cmp x y <=? 0)%Z.
    + apply Permutation_refl.
    + eapply perm_trans; [apply perm_swap|].
      apply perm_skip. exact IH.
Qed.

Lemma sort_perm (l : list A) : Permutation l (Js.sort cmp l).
Proof.
  induction l as [|x rest IH]; simpl.
  - apply perm_nil.
  - eapply perm_trans; [apply perm_skip; exact IH|].
    apply insertSorted_perm.
Qed.

Lemma insertSorted_sorted (x : A) (l : list A) :
  StronglySorted (fun a b => (key a <= key b)%Z) l ->
  StronglySorted (fun a b => (key a <= key b)%Z) (Js.insertSorted cmp x l).
Proof.
  induction l as [|y rest IH]; intro Hs; simpl.
  - constructor; constructor.
  - inversion Hs as [|? ? Hrest Hall]; subst.
    unfold cmp at 1.
    destruct (Z.leb_spec (key x - key y) 0) as [Hle | Hgt].
    + constructor; [exact Hs|].
      constructor; [lia|].
      rewrite Forall_forall in *. intros z Hz. specialize (Hall z Hz). lia.
    + constructor; [apply IH; exact Hrest|].
      rewrite Forall_forall in *. intros z Hz.
      apply (Permutation_in _ (Permutation_sym (insertSorted_perm x rest)))
        in Hz.
      destruct Hz as [<- | Hz]; [lia | apply Hall; exact Hz].
Qed.

Lemma sort_sorted (l : list A) :
  StronglySorted (fun a b => (key a <= key b)%Z) (Js.sort cmp l).
Proof.
  induction l as [|x rest IH]; simpl.
  - constructor.
  - apply insertSorted_sorted. exact IH.
Qed.

(** Stability: the elements of any one key keep their order. *)
Lemma insertSorted_stable (k : Z) (x : A) (l : list A) :
  filter (fun a => (key a =? k)%Z) (Js.insertSorted cmp x l)
  = filter (fun a => (key a =? k)%Z) (x :: l).
Proof.
  induction l as [|y rest IH]; simpl.
  - reflexivity.
  - unfold cmp at 1.
    destruct (Z.leb_spec (key x - key y) 0) as [Hle | Hgt].
    + reflexivity.
    + simpl. rewrite IH. simpl.
      destruct (Z.eqb_spec (key y) k), (Z.eqb_spec (key x) k);
        try reflexivity.
      lia.
Qed.

Lemma sort_stable (k : Z) (l : list A) :
  filter (fun a => (key a =? k)%Z) (Js.sort cmp l)
  = filter (fun a => (key a =? k)%Z) l.
Proof.
  induction l as [|x rest IH]; simpl.
  - reflexivity.
  - rewrite insertSorted_stable. simpl. rewrite IH. reflexivity.
Qed.

Lemma insertSorted_after (x : A) (front back : list A) :
  Forall (fun a => (key a < key x)%Z) front ->
  Js.insertSorted cmp x (front ++ back)
  = front ++ Js.insertSorted cmp x back.
Proof.
  induction 1 as [|a front Ha _ IH]; simpl.
  - reflexivity.
  - unfold cmp at 1.
    destruct (Z.leb_spec (key x - key a) 0); [lia|].
    rewrite IH. reflexivity.
Qed.

Lemma insertSorted_lowest (x : A) (l : list A) :
  (forall y, (key x <= key y)%Z) -> Js.insertSorted cmp x l = x :: l.
Proof.
  intro H. destruct l as [|y tl]; simpl.
  - reflexivity.
  - unfold cmp at 1. specialize (H y).
    destruct (Z.leb_spec (key x - key y) 0); [reflexivity | lia].
Qed.

(** With keys bounded below by [-1], the elements of key [-1] come first,
    in their original order. *)
Lemma sort_lowest_first (l : list A) :
  (forall a, (-1 <= key a)%Z) ->
  exists rest,
    Js.sort cmp l = filter (fun a => (key a <? 0)%Z) l ++ rest
    /\ Forall (fun a => (0 <= key a)%Z) rest.
Proof.
  intro Hlow.
  induction l as [|x l IH]; simpl.
  - exists []. split; [reflexivity | constructor].
  - destruct IH as [rest [E Hrest]]. rewrite E.
    destruct (Z.ltb_spec (key x) 0) as [Hneg | Hpos].
    + exists rest. split; [|exact Hrest].
      apply insertSorted_lowest. intro y.
      pose proof (Hlow y). pose proof (Hlow x). lia.
    + exists (Js.insertSorted cmp x rest). split.
      * apply insertSorted_after.
        apply Forall_forall. intros a Ha. apply filter_In in Ha.
        destruct Ha as [_ Ha]. apply Z.ltb_lt in Ha. lia.
      * apply Forall_forall. intros a Ha.
        apply (Permutation_in _ (Permutation_sym (insertSorted_perm x rest)))
          in Ha.
        destruct Ha as [<- | Ha]; [exact Hpos|].
        rewrite Forall_forall in Hrest. apply Hrest. exact Ha.
Qed.

End SortFacts.

(** With the order ["n"] the two columns the order does not list come
    first, and the listed column last. *)
Lemma reorderColumns_absent_first :
  map Column.id
    (Store.columns (Store.reorderColumns 5 ["n"] Sample.store2))
  = ["x"; "archive"; "n"]
  /\ map Column.id
       (Store.columns (Store.reorderColumns 5 ["n"] Sample.store2))
     <> ["n"; "x"; "archive"].
Proof.
  split.
  - vm_compute. reflexivity.
  - vm_compute. discriminate.
Qed.

(** C4, as the code has it.  [reorderColumns] sorts the columns stably by
    the position of their id in the given list: the result is a permutation
    of the board, ascending in [indexOf], and columns of equal [indexOf]
    keep their order.  A column whose id the list lacks has [indexOf = -1],
    so these columns come first, in their original relative order, and
    every listed column follows them. *)
Theorem reorderColumns_stable
    (now : Z) (columnOrder : list string) (s : Store.t) :
  let b := Store.columns s in
  let b' := Store.columns (Store.reorderColumns now columnOrder s) in
  let key := fun c => Js.indexOf (Column.id c) columnOrder in
  Permutation b b'
  /\ StronglySorted (fun x y => (key x <= key y)%Z) b'
  /\ (forall k : Z,
        filter (fun c => (key c =? k)%Z) b'
        = filter (fun c => (key c =? k)%Z) b)
  /\ exists listed,
       b' = filter
              (fun c => negb (existsb (String.eqb (Column.id c)) columnOrder))
              b ++ listed
       /\ Forall (fun c => In (Column.id c) columnOrder) listed.
Proof.
  cbv zeta. unfold Store.reorderColumns.
  rewrite saveState_columns. cbn [Store.columns Store.setColumns].
  set (key := fun c : Column.t => Js.indexOf (Column.id c) columnOrder).
  change (Store.orderCmp columnOrder)
    with (fun a b : Column.t => (key a - key b)%Z).
  split; [apply (sort_perm key)|].
  split; [apply (sort_sorted key)|].
  split; [intro k; apply (sort_stable key)|].
  destruct (sort_lowest_first key (Store.columns s)) as [rest [E Hrest]].
  { intro c. apply indexOf_lower. }
  exists rest. split.
  - rewrite E. f_equal. apply filter_ext. intro c. apply indexOf_absent.
  - apply Forall_forall. intros c Hc.
    rewrite Forall_forall in Hrest. specialize (Hrest c Hc).
    unfold key in Hrest.
    destruct (existsb (String.eqb (Column.id c)) columnOrder) eqn:Ex.
    + apply existsb_exists in Ex. destruct Ex as [y [Hy Hyc]].
      apply String.eqb_eq in Hyc. subst y. exact Hy.
    + pose proof (indexOf_absent (Column.id c) columnOrder) as Ha.
      rewrite Ex in Ha. simpl in Ha. apply Z.ltb_lt in Ha. lia.
Qed.

(** ** Dnd: the touch branch of the card drag *)


Lemma find_cleared_timer (i : nat) (l : list Dnd.Timer) :
  find (fun tm => (Dnd.tmId tm =? i)%nat) (Dnd.clearTimeout (Some i) l) = None.
Proof.
  apply find_none_iff. intros tm Htm. unfold Dnd.clearTimeout in Htm.
  apply filter_In in Htm. destruct Htm as [_ Htm].
  apply negb_true_iff in Htm. exact Htm.
Qed.

(** [timersFresh] holds initially and after every step of the recogniser. *)
Lemma timersFresh_cleared (i : option nat) (l : list Dnd.Timer) (n : nat) :
  Forall (fun tm => Dnd.tmId tm < n) l ->
  Forall (fun tm => Dnd.tmId tm < n) (Dnd.clearTimeout i l).
Proof.
  intro H. destruct i as [k|]; simpl; [|exact H].
  rewrite Forall_forall in *. intros tm Htm.
  apply filter_In in Htm. apply H. apply Htm.
Qed.

Lemma timersFresh_steps :
  Dnd.timersFresh Dnd.idle
  /\ (forall now e d, Dnd.timersFresh d ->
        Dnd.timersFresh (Dnd.startCardPotentialDrag now e d))
  /\ (forall now i d, Dnd.timersFresh d ->
        Dnd.timersFresh (Dnd.timerFired now i d))
  /\ (forall e d, Dnd.timersFresh d ->
        Dnd.timersFresh (Dnd.onCardPotentialMove e d)).
Proof.
  unfold Dnd.timersFresh. split; [constructor|]. split; [|split].
  - intros now e d H. unfold Dnd.startCardPotentialDrag.
    destruct (Dnd.isMouse (Dnd.evType e) && negb (Dnd.evButton e =? 0)%Z);
      [exact H|].
    destruct (Dnd.onInteractive e); [exact H|].
    destruct (negb (Dnd.isMouse (Dnd.evType e))); simpl; [|exact H].
    apply Forall_app. split.
    + rewrite Forall_forall in *. intros tm Htm. specialize (H tm Htm). lia.
    + constructor; [simpl; lia | constructor].
  - intros now i d H. unfold Dnd.timerFired.
    destruct (find (fun tm => (Dnd.tmId tm =? i)%nat) (Dnd.timers d))
      as [tm|]; [|exact H].
    destruct (Dnd.tmDue tm <=? now)%Z; [|exact H].
    destruct (Dnd.cardDrag d) as [drag|]; simpl.
    + destruct (negb (Dnd.started drag)); simpl;
        apply (timersFresh_cleared (Some i)); exact H.
    + apply (timersFresh_cleared (Some i)). exact H.
  - intros e d H. unfold Dnd.onCardPotentialMove.
    destruct (negb (Dnd.listening d)); [exact H|].
    destruct (Dnd.cardDrag d) as [drag|]; [|exact H].
    destruct (negb (Dnd.evPointerId e =? Dnd.pointerId drag)%Z); [exact H|].
    cbv zeta.
    match goal with
    | |- context [if ?c then Dnd.mk None _ _ _ _ _ _ else _] => destruct c
    end; simpl.
    + apply timersFresh_cleared. exact H.
    + match goal with
      | |- context [if ?c then Dnd.beginCardDrag _ _ _ else _] => destruct c
      end; simpl; [apply timersFresh_cleared|]; exact H.
Qed.









(** ** Store.findCard *)

Lemma findCardFrom_shift (i : nat) (b : Board) (k : string) :
  Store.findCardFrom (S i) b k
  = option_map (fun r => (S (fst r), snd r)) (Store.findCardFrom i b k).
Proof.
  revert i. induction b as [|col rest IH]; intro i; simpl.
  - reflexivity.
  - destruct (find (Card.hasId k) (Column.cards col)); [reflexivity|].
    apply IH.
Qed.

Lemma findCard_cons (col : Column.t) (rest : Board) (k : string) :
  Store.findCard (col :: rest) k
  = match find (Card.hasId k) (Column.cards col) with
    | Some c => Some (0, c)
    | None =>
        option_map (fun r => (S (fst r), snd r)) (Store.findCard rest k)
    end.
Proof.
  unfold Store.findCard. simpl.
  destruct (find (Card.hasId k) (Column.cards col)); [reflexivity|].
  apply findCardFrom_shift.
Qed.

(** What [findCard] returns is the first card of that id in the first
    column that has one. *)
Lemma findCard_Some (b : Board) (k : string) (i : nat) (c : Card.t) :
  Store.findCard b k = Some (i, c) ->
  exists col,
    nth_error b i = Some col
    /\ find (Card.hasId k) (Column.cards col) = Some c
    /\ forall j col', j < i -> nth_error b j = Some col' ->
         find (Card.hasId k) (Column.cards col') = None.
Proof.
  revert i. induction b as [|col rest IH]; intros i H.
  - discriminate.
  - rewrite findCard_cons in H.
    destruct (find (Card.hasId k) (Column.cards col)) as [c'|] eqn:E.
    + injection H as <- <-. exists col.
      split; [reflexivity|]. split; [exact E|]. intros j col' Hj. lia.
    + destruct (Store.findCard rest k) as [[i' c']|] eqn:E'; [|discriminate].
      simpl in H. injection H as <- <-.
      destruct (IH i' eq_refl) as [col0 [Hn [Hf Hb]]].
      exists col0. split; [exact Hn|]. split; [exact Hf|].
      intros [|j] col' Hj Hn'; simpl in Hn'.
      * injection Hn' as <-. exact E.
      * apply (Hb j); [lia | exact Hn'].
Qed.

Lemma findCard_intro (b : Board) (k : string) (i : nat) (col : Column.t)
    (c : Card.t) :
  nth_error b i = Some col ->
  find (Card.hasId k) (Column.cards col) = Some c ->
  (forall j col', j < i -> nth_error b j = Some col' ->
     find (Card.hasId k) (Column.cards col') = None) ->
  Store.findCard b k = Some (i, c).
Proof.
  revert i. induction b as [|col0 rest IH]; intros i Hn Hf Hb.
  - destruct i; discriminate.
  - rewrite findCard_cons. destruct i as [|i]; simpl in Hn.
    + injection Hn as ->. rewrite Hf. reflexivity.
    + rewrite (Hb 0 col0); [|lia | reflexivity].
      rewrite (IH i Hn Hf); [reflexivity|].
      intros j col' Hj Hn'. apply (Hb (S j)); [lia | exact Hn'].
Qed.

Lemma findCard_None (b : Board) (k : string) :
  Store.findCard b k = None <->
  forall col, In col b -> find (Card.hasId k) (Column.cards col) = None.
Proof.
  induction b as [|col rest IH].
  - split; [intros _ col [] | reflexivity].
  - rewrite findCard_cons. split.
    + intros H col' [<- | Hin].
      * destruct (find (Card.hasId k) (Column.cards col));
          [discriminate | reflexivity].
      * destruct (find (Card.hasId k) (Column.cards col)); [discriminate|].
        destruct (Store.findCard rest k) eqn:E; [discriminate|].
        apply IH; [reflexivity | exact Hin].
    + intro H. rewrite (H col (or_introl eq_refl)).
      assert (E : Store.findCard rest k = None).
      { apply IH. intros col' Hin. apply H. right. exact Hin. }
      rewrite E. reflexivity.
Qed.

Lemma find_hasId (k : string) (l : list Card.t) (c : Card.t) :
  find (Card.hasId k) l = Some c -> In c l /\ Card.id c = k.
Proof.
  intro H. apply find_some in H. destruct H as [Hin Hid].
  split; [exact Hin|]. apply String.eqb_eq. exact Hid.
Qed.

Lemma in_cardIds (b : Board) (k : string) :
  In k (cardIds b) <->
  exists col c, In col b /\ In c (Column.cards col) /\ Card.id c = k.
Proof.
  unfold cardIds, allCards. rewrite in_map_iff. split.
  - intros [c [Hid Hin]]. apply in_flat_map in Hin.
    destruct Hin as [col [Hcol Hc]]. exists col, c. auto.
  - intros [col [c [Hcol [Hc Hid]]]]. exists c. split; [exact Hid|].
    apply in_flat_map. exists col. auto.
Qed.

Lemma findCard_None_ids (b : Board) (k : string) :
  Store.findCard b k = None <-> ~ In k (cardIds b).
Proof.
  rewrite findCard_None, in_cardIds. split.
  - intros H [col [c [Hcol [Hc Hid]]]].
    specialize (H col Hcol).
    pose proof (find_none _ _ H c Hc) as Hn.
    unfold Card.hasId in Hn. apply String.eqb_neq in Hn. congruence.
  - intros H col Hcol. apply find_none_iff. intros c Hc.
    unfold Card.hasId. apply String.eqb_neq. intro Hid.
    apply H. exists col, c. auto.
Qed.


Lemma find_filter (k : string) (l : list Card.t) :
  find (Card.hasId k) l = hd_error (filter (Card.hasId k) l).
Proof.
  induction l as [|c rest IH]; simpl.
  - reflexivity.
  - destruct (Card.hasId k c); [reflexivity | exact IH].
Qed.

Lemma findCard_cardsOfId (k : string) (b b' : Board) :
  cardsOfId k b = cardsOfId k b' -> Store.findCard b k = Store.findCard b' k.
Proof.
  revert b'. induction b as [|col rest IH]; intros [|col' rest'] H;
    try discriminate.
  - reflexivity.
  - simpl in H. injection H as Hhd Htl.
    rewrite !findCard_cons, !find_filter, Hhd, (IH rest' Htl).
    reflexivity.
Qed.

Lemma cardsOfId_nth (k : string) (b : Board) (j : nat) :
  nth_error (cardsOfId k b) j
  = option_map (fun col => filter (Card.hasId k) (Column.cards col))
      (nth_error b j).
Proof.
  unfold cardsOfId. apply nth_error_map.
Qed.

Lemma cardsOfId_updateAt (k : string) (i : nat) (f : Column.t -> Column.t)
    (b : Board) :
  (forall col, nth_error b i = Some col ->
     filter (Card.hasId k) (Column.cards (f col))
     = filter (Card.hasId k) (Column.cards col)) ->
  cardsOfId k (Js.updateAt i f b) = cardsOfId k b.
Proof.
  revert i. induction b as [|col rest IH]; intros [|i] H; simpl.
  - reflexivity.
  - reflexivity.
  - rewrite (H col eq_refl). reflexivity.
  - rewrite IH; [reflexivity|]. intros col' Hn. apply H. exact Hn.
Qed.


Lemma shape_updateAt (i : nat) (f : Column.t -> Column.t) (b : Board) :
  (forall col, Column.id (f col) = Column.id col
               /\ Column.title (f col) = Column.title col) ->
  shape (Js.updateAt i f b) = shape b.
Proof.
  intro Hf. revert i. induction b as [|col rest IH]; intros [|i]; simpl.
  - reflexivity.
  - reflexivity.
  - destruct (Hf col) as [-> ->]. reflexivity.
  - rewrite IH. reflexivity.
Qed.

Lemma shape_length (b b' : Board) :
  shape b = shape b' -> List.length b = List.length b'.
Proof.
  intro H. apply (f_equal (@List.length _)) in H.
  unfold shape in H. rewrite !length_map in H. exact H.
Qed.

Lemma shape_id_nth (b b' : Board) (i : nat) :
  shape b = shape b' ->
  option_map Column.id (nth_error b i) = option_map Column.id (nth_error b' i).
Proof.
  intro H.
  assert (E : nth_error (shape b) i = nth_error (shape b') i) by congruence.
  unfold shape in E. rewrite !nth_error_map in E.
  destruct (nth_error b i), (nth_error b' i); simpl in *; congruence.
Qed.

(** ** The content key and the content step *)

Lemma numEqb_eq (a b : Js.num) : Js.numEqb a b = true <-> a = b.
Proof.
  destruct a as [|x], b as [|y]; simpl; split; intro H;
    try reflexivity; try discriminate.
  - apply Z.eqb_eq in H. congruence.
  - injection H as ->. apply Z.eqb_refl.
Qed.

Lemma numGt_lt (a b : Js.num) : Js.numGt a b = true <-> Js.numLt b a.
Proof.
  destruct a as [|x], b as [|y]; simpl; split; intro H;
    try discriminate; try contradiction; try reflexivity; try exact I.
  - apply Z.gtb_lt. exact H.
  - apply Z.gtb_lt. exact H.
Qed.

Lemma numGt_irrefl (a : Js.num) : Js.numGt a a = false.
Proof.
  destruct a as [|x]; simpl; [reflexivity|].
  destruct (Z.gtb_spec x x); [lia | reflexivity].
Qed.

Lemma strGt_lt (a b : string) :
  Js.strGt a b = true <-> String.compare b a = Lt.
Proof.
  unfold Js.strGt. rewrite (String.compare_antisym b a).
  destruct (String.compare a b); simpl; split; intro H;
    try reflexivity; try discriminate.
Qed.

Lemma strGt_irrefl (a : string) : Js.strGt a a = false.
Proof.
  unfold Js.strGt.
  pose proof (String.compare_antisym a a) as H.
  destruct (String.compare a a); simpl in H; try discriminate; reflexivity.
Qed.

Section CardFacts.

Variable Date_parse : string -> option Z.

Local Abbreviation isContentANewer := (App.isContentANewer Date_parse).
Local Abbreviation isPositionANewer := (App.isPositionANewer Date_parse).
Local Abbreviation mergeContent := (App.mergeContent Date_parse).
Local Abbreviation contentKey := (App.contentKey Date_parse).
Local Abbreviation contentTime := (App.contentTime Date_parse).

Lemma isContentANewer_key (A B : Card.t) :
  isContentANewer A B = true <-> App.keyLt (contentKey B) (contentKey A).
Proof.
  unfold App.isContentANewer, App.contentKey, App.keyLt.
  destruct (Z.eqb_spec (contentTime A) (contentTime B)) as [Et | Et]; simpl.
  - destruct (Js.numEqb (App.seqVal A) (App.seqVal B)) eqn:Es; simpl.
    + apply numEqb_eq in Es. rewrite strGt_lt. split.
      * intro H. right. split; [congruence|]. right. split; [congruence|].
        exact H.
      * intros [H | [_ [H | [_ H]]]]; [lia | | exact H].
        rewrite Es in H. apply numGt_lt in H.
        rewrite numGt_irrefl in H. discriminate.
    + rewrite numGt_lt. split.
      * intro H. right. split; [congruence|]. left. exact H.
      * intros [H | [_ [H | [H _]]]]; [lia | exact H |].
        assert (Js.numEqb (App.seqVal A) (App.seqVal B) = true)
          by (apply numEqb_eq; congruence).
        congruence.
  - rewrite Z.gtb_lt. split.
    + intro H. left. exact H.
    + intros [H | [H _]]; [exact H | congruence].
Qed.

Lemma isContentANewer_irrefl (A : Card.t) : isContentANewer A A = false.
Proof.
  unfold App.isContentANewer.
  rewrite Z.eqb_refl. simpl.
  assert (E : Js.numEqb (App.seqVal A) (App.seqVal A) = true)
    by (apply numEqb_eq; reflexivity).
  rewrite E. simpl. apply strGt_irrefl.
Qed.

Lemma isPositionANewer_irrefl (A : Card.t) : isPositionANewer A A = false.
Proof.
  unfold App.isPositionANewer.
  rewrite !Z.eqb_refl. simpl.
  assert (E : Js.numEqb (App.seqVal A) (App.seqVal A) = true)
    by (apply numEqb_eq; reflexivity).
  rewrite E. simpl. apply strGt_irrefl.
Qed.

Lemma copyIfTruthy_idem (inc ex : option string) :
  App.copyIfTruthy inc (App.copyIfTruthy inc ex) = App.copyIfTruthy inc ex.
Proof.
  unfold App.copyIfTruthy. destruct (Js.truthy inc); reflexivity.
Qed.

(** Assigning the incoming card's fields a second time changes nothing. *)
Lemma overwriteContent_idem (ex inc : Card.t) :
  App.overwriteContent (App.overwriteContent ex inc) inc
  = App.overwriteContent ex inc.
Proof.
  unfold App.overwriteContent. cbn [Card.id Card.title Card.description
    Card.tags Card.due Card.reminder Card.createdAt Card.lastChanged
    Card.lastChangedBy Card.seq Card.contentChangedAt Card.positionChangedAt].
  rewrite !copyIfTruthy_idem.
  destruct (Card.seq inc); reflexivity.
Qed.

Lemma mergeContent_id (inc ex : Card.t) :
  Card.id (mergeContent inc ex) = Card.id ex.
Proof.
  unfold App.mergeContent. destruct (isContentANewer inc ex); reflexivity.
Qed.

Lemma mergeContent_idem (inc ex : Card.t) :
  mergeContent inc (mergeContent inc ex) = mergeContent inc ex.
Proof.
  unfold App.mergeContent at 2 3.
  destruct (isContentANewer inc ex) eqn:E.
  - unfold App.mergeContent.
    destruct (isContentANewer inc (App.overwriteContent ex inc));
      [apply overwriteContent_idem | reflexivity].
  - unfold App.mergeContent. rewrite E. reflexivity.
Qed.

Lemma mergeContent_self (c : Card.t) : mergeContent c c = c.
Proof.
  unfold App.mergeContent. rewrite isContentANewer_irrefl. reflexivity.
Qed.

End CardFacts.

(** ** The merge of one card *)

Lemma replaceFirst_same (k : string) (ex : Card.t) (l : list Card.t) :
  find (Card.hasId k) l = Some ex -> App.replaceFirst k ex l = l.
Proof.
  induction l as [|x rest IH]; simpl; intro H.
  - reflexivity.
  - destruct (Card.hasId k x).
    + congruence.
    + rewrite IH; [reflexivity | exact H].
Qed.

Lemma replaceFirst_find (k : string) (c ex : Card.t) (l : list Card.t) :
  find (Card.hasId k) l = Some ex -> Card.id c = k ->
  find (Card.hasId k) (App.replaceFirst k c l) = Some c.
Proof.
  intros H Hc.
  induction l as [|x rest IH]; simpl in *.
  - discriminate.
  - destruct (Card.hasId k x) eqn:E; simpl.
    + unfold Card.hasId. rewrite Hc, String.eqb_refl. reflexivity.
    + rewrite E. apply IH. exact H.
Qed.

Lemma replaceFirst_other (k k' : string) (c : Card.t) (l : list Card.t) :
  Card.id c = k -> k' <> k ->
  filter (Card.hasId k') (App.replaceFirst k c l)
  = filter (Card.hasId k') l.
Proof.
  intros Hc Hne.
  assert (Hck : Card.hasId k' c = false).
  { unfold Card.hasId. apply String.eqb_neq. congruence. }
  induction l as [|x rest IH]; simpl.
  - reflexivity.
  - destruct (Card.hasId k x) eqn:E; simpl.
    + rewrite Hck.
      assert (Hx : Card.hasId k' x = false).
      { unfold Card.hasId in *. apply String.eqb_eq in E.
        apply String.eqb_neq. congruence. }
      rewrite Hx. reflexivity.
    + rewrite IH. reflexivity.
Qed.

Lemma setCards_same (col : Column.t) :
  Column.setCards (Column.cards col) col = col.
Proof.
  destruct col. reflexivity.
Qed.

Lemma filter_negb_hasId (k : string) (l : list Card.t) :
  filter (Card.hasId k) (filter (fun c => negb (Card.hasId k c)) l) = [].
Proof.
  induction l as [|x rest IH]; simpl.
  - reflexivity.
  - destruct (Card.hasId k x) eqn:E; simpl; [exact IH|].
    rewrite E. exact IH.
Qed.

Lemma filter_drop_other (k k' : string) (l : list Card.t) :
  k' <> k ->
  filter (Card.hasId k') (filter (fun c => negb (Card.hasId k c)) l)
  = filter (Card.hasId k') l.
Proof.
  intro Hne. induction l as [|x rest IH]; simpl.
  - reflexivity.
  - destruct (Card.hasId k x) eqn:E; simpl.
    + assert (Hx : Card.hasId k' x = false).
      { unfold Card.hasId in *. apply String.eqb_eq in E.
        apply String.eqb_neq. congruence. }
      rewrite Hx. exact IH.
    + destruct (Card.hasId k' x); rewrite IH; reflexivity.
Qed.

Section MergeCardFacts.

Variable Date_parse : string -> option Z.

Local Abbreviation isPositionANewer := (App.isPositionANewer Date_parse).
Local Abbreviation mergeContent := (App.mergeContent Date_parse).
Local Abbreviation mergeCard := (App.mergeCard Date_parse).

(** The three outcomes of [mergeCard]. *)
Lemma mergeCard_new (t : nat) (b : Board) (inc : Card.t) :
  Store.findCard b (Card.id inc) = None ->
  mergeCard t b inc = Js.updateAt t (Column.pushCard inc) b.
Proof.
  intro H. unfold App.mergeCard. rewrite H. reflexivity.
Qed.

Lemma mergeCard_found (t : nat) (b : Board) (inc ex0 : Card.t) (i : nat) :
  Store.findCard b (Card.id inc) = Some (i, ex0) ->
  let ex := mergeContent inc ex0 in
  let b1 :=
    Js.updateAt i
      (fun col =>
         Column.setCards
           (App.replaceFirst (Card.id inc) ex (Column.cards col)) col) b in
  exists exCol,
    nth_error b i = Some exCol
    /\ find (Card.hasId (Card.id inc)) (Column.cards exCol) = Some ex0
    /\ Card.id ex = Card.id inc
    /\ mergeCard t b inc
       = match nth_error b t with
         | Some targetCol =>
             if negb (Column.id exCol =? Column.id targetCol)
                && isPositionANewer inc ex
             then Js.updateAt t (Column.pushCard ex)
                    (Js.updateAt i (App.dropCard (Card.id inc)) b1)
             else b1
         | None => b1
         end.
Proof.
  intro H. cbv zeta.
  destruct (findCard_Some _ _ _ _ H) as [exCol [Hn [Hf _]]].
  exists exCol. split; [exact Hn|]. split; [exact Hf|].
  assert (Hid : Card.id (mergeContent inc ex0) = Card.id inc).
  { rewrite mergeContent_id. apply find_hasId in Hf. apply Hf. }
  split; [exact Hid|].
  unfold App.mergeCard. rewrite H, Hn, Hid. reflexivity.
Qed.

Lemma mergeCard_shape (t : nat) (b : Board) (inc : Card.t) :
  shape (mergeCard t b inc) = shape b.
Proof.
  destruct (Store.findCard b (Card.id inc)) as [[i ex0]|] eqn:E.
  - destruct (mergeCard_found t b inc ex0 i E) as [exCol [_ [_ [_ ->]]]].
    destruct (nth_error b t) as [targetCol|];
      [destruct (negb (Column.id exCol =? Column.id targetCol)
                 && isPositionANewer inc (mergeContent inc ex0))|];
      rewrite ?shape_updateAt; try reflexivity;
      intro col; split; reflexivity.
  - rewrite (mergeCard_new t b inc E).
    apply shape_updateAt. intro col. split; reflexivity.
Qed.

Lemma mergeCard_length (t : nat) (b : Board) (inc : Card.t) :
  List.length (mergeCard t b inc) = List.length b.
Proof.
  apply shape_length, mergeCard_shape.
Qed.

(** The merge of a card leaves the cards of every other id where they
    are. *)
Lemma mergeCard_other (k : string) (t : nat) (b : Board) (inc : Card.t) :
  k <> Card.id inc -> cardsOfId k (mergeCard t b inc) = cardsOfId k b.
Proof.
  intro Hne.
  assert (Hinc : Card.hasId k inc = false).
  { unfold Card.hasId. apply String.eqb_neq. congruence. }
  destruct (Store.findCard b (Card.id inc)) as [[i ex0]|] eqn:E.
  - destruct (mergeCard_found t b inc ex0 i E) as [exCol [_ [_ [Hid ->]]]].
    assert (Hex : Card.hasId k (mergeContent inc ex0) = false).
    { unfold Card.hasId. apply String.eqb_neq. congruence. }
    assert (H1 : cardsOfId k
                   (Js.updateAt i
                      (fun col =>
                         Column.setCards
                           (App.replaceFirst (Card.id inc)
                              (mergeContent inc ex0) (Column.cards col)) col)
                      b) = cardsOfId k b).
    { apply cardsOfId_updateAt. intros col _. simpl.
      apply replaceFirst_other; assumption. }
    destruct (nth_error b t) as [targetCol|]; [|exact H1].
    destruct (negb (Column.id exCol =? Column.id targetCol)
              && isPositionANewer inc (mergeContent inc ex0)); [|exact H1].
    rewrite cardsOfId_updateAt.
    + rewrite cardsOfId_updateAt; [exact H1|].
      intros col _. simpl. apply filter_drop_other. exact Hne.
    + intros col _. simpl. rewrite filter_app. simpl. rewrite Hex.
      apply app_nil_r.
  - rewrite (mergeCard_new t b inc E).
    apply cardsOfId_updateAt. intros col _. simpl.
    rewrite filter_app. simpl. rewrite Hinc. apply app_nil_r.
Qed.

Lemma in_updateAt (i : nat) (f : Column.t -> Column.t) (b : Board)
    (col : Column.t) :
  nth_error b i = Some col -> In (f col) (Js.updateAt i f b).
Proof.
  intro H. apply (nth_error_In _ i).
  rewrite updateAt_nth_same, H. reflexivity.
Qed.

(** An existing card is still on the board after the merge of an incoming
    card of its id, with the content the content step gave it. *)
Lemma mergeCard_keeps_found (t : nat) (b : Board) (inc ex0 : Card.t)
    (i : nat) :
  Store.findCard b (Card.id inc) = Some (i, ex0) ->
  In (mergeContent inc ex0) (allCards (mergeCard t b inc)).
Proof.
  intro E.
  destruct (mergeCard_found t b inc ex0 i E) as [exCol [Hn [Hf [Hid ->]]]].
  set (ex := mergeContent inc ex0) in *.
  set (f1 := fun col : Column.t =>
               Column.setCards
                 (App.replaceFirst (Card.id inc) ex (Column.cards col)) col).
  assert (Hb1 : In ex (allCards (Js.updateAt i f1 b))).
  { unfold allCards. apply in_flat_map. exists (f1 exCol).
    split; [apply in_updateAt; exact Hn|].
    unfold f1. simpl.
    pose proof (replaceFirst_find _ ex _ _ Hf Hid) as Hfind.
    apply find_hasId in Hfind. apply Hfind. }
  destruct (nth_error b t) as [targetCol|] eqn:Ht; [|exact Hb1].
  destruct (negb (Column.id exCol =? Column.id targetCol)
            && isPositionANewer inc ex); [|exact Hb1].
  unfold allCards. apply in_flat_map.
  assert (Ht' : exists col,
             nth_error (Js.updateAt i (App.dropCard (Card.id inc))
                          (Js.updateAt i f1 b)) t = Some col).
  { assert (Hlt : t < List.length b) by (apply nth_error_Some; congruence).
    destruct (nth_error (Js.updateAt i (App.dropCard (Card.id inc))
                           (Js.updateAt i f1 b)) t) as [col|] eqn:En.
    - exists col. reflexivity.
    - apply nth_error_None in En. rewrite !updateAt_length in En. lia. }
  destruct Ht' as [col Hcol].
  exists (Column.pushCard ex col).
  split; [apply in_updateAt; exact Hcol|].
  simpl. apply in_or_app. right. left. reflexivity.
Qed.

(** An incoming card whose id no card of the board has is appended to the
    target column. *)
Lemma mergeCard_appends (t : nat) (b : Board) (inc : Card.t)
    (col : Column.t) :
  Store.findCard b (Card.id inc) = None ->
  nth_error b t = Some col ->
  nth_error (mergeCard t b inc) t
  = Some (Column.setCards (Column.cards col ++ [inc]) col).
Proof.
  intros E Ht. rewrite (mergeCard_new t b inc E).
  rewrite updateAt_nth_same, Ht. reflexivity.
Qed.

Lemma cardsOfId_in (k : string) (b : Board) :
  In k (cardIds b) <-> exists l, In l (cardsOfId k b) /\ l <> [].
Proof.
  rewrite in_cardIds. unfold cardsOfId. split.
  - intros [col [c [Hcol [Hc Hid]]]].
    exists (filter (Card.hasId k) (Column.cards col)).
    split; [apply in_map_iff; exists col; split; [reflexivity | exact Hcol]|].
    intro Hnil.
    assert (Hin : In c (filter (Card.hasId k) (Column.cards col))).
    { apply filter_In. split; [exact Hc|].
      unfold Card.hasId. apply String.eqb_eq. exact Hid. }
    rewrite Hnil in Hin. exact Hin.
  - intros [l [Hl Hne]]. apply in_map_iff in Hl.
    destruct Hl as [col [<- Hcol]].
    destruct (filter (Card.hasId k) (Column.cards col)) as [|c rest] eqn:E;
      [congruence|].
    assert (Hin : In c (filter (Card.hasId k) (Column.cards col)))
      by (rewrite E; left; reflexivity).
    apply filter_In in Hin. destruct Hin as [Hc Hid].
    exists col, c. split; [exact Hcol|]. split; [exact Hc|].
    apply String.eqb_eq. exact Hid.
Qed.

(** No card id leaves the board when a card is merged. *)
Lemma mergeCard_keeps_ids (t : nat) (b : Board) (inc : Card.t) (k : string) :
  In k (cardIds b) -> In k (cardIds (mergeCard t b inc)).
Proof.
  intro Hk.
  destruct (String.eqb_spec k (Card.id inc)) as [-> | Hne].
  - destruct (Store.findCard b (Card.id inc)) as [[i ex0]|] eqn:E.
    + pose proof (mergeCard_keeps_found t b inc ex0 i E) as Hin.
      unfold cardIds. apply in_map_iff.
      exists (mergeContent inc ex0). split; [|exact Hin].
      rewrite mergeContent_id.
      destruct (findCard_Some _ _ _ _ E) as [col [_ [Hf _]]].
      apply find_hasId in Hf. apply Hf.
    + apply findCard_None_ids in E. contradiction.
  - apply cardsOfId_in. rewrite (mergeCard_other k t b inc Hne).
    apply cardsOfId_in. exact Hk.
Qed.

(** An incoming card's id is on the board once the card was merged into a
    column the board has. *)
Lemma mergeCard_adds_id (t : nat) (b : Board) (inc : Card.t) :
  t < List.length b -> In (Card.id inc) (cardIds (mergeCard t b inc)).
Proof.
  intro Ht.
  destruct (Store.findCard b (Card.id inc)) as [[i ex0]|] eqn:E.
  - pose proof (mergeCard_keeps_found t b inc ex0 i E) as Hin.
    unfold cardIds. apply in_map_iff.
    exists (mergeContent inc ex0). split; [|exact Hin].
    rewrite mergeContent_id.
    destruct (findCard_Some _ _ _ _ E) as [col [_ [Hf _]]].
    apply find_hasId in Hf. apply Hf.
  - destruct (nth_error b t) as [col|] eqn:En.
    + pose proof (mergeCard_appends t b inc col E En) as Hn.
      apply in_cardIds.
      exists (Column.setCards (Column.cards col ++ [inc]) col), inc.
      split; [apply (nth_error_In _ t); exact Hn|].
      split; [|reflexivity].
      simpl. apply in_or_app. right. left. reflexivity.
    + apply nth_error_None in En. lia.
Qed.

End MergeCardFacts.

(** ** Last writer wins on content *)

Lemma numLt_asym (a b : Js.num) : Js.numLt a b -> Js.numLt b a -> False.
Proof.
  destruct a, b; simpl; try tauto. lia.
Qed.

Lemma numLt_irrefl (a : Js.num) : ~ Js.numLt a a.
Proof.
  intro H. exact (numLt_asym a a H H).
Qed.

Lemma timeVal_stampTime (Date_parse : string -> option Z)
    (stamp : option string) :
  App.timeVal Date_parse stamp = stampTime Date_parse stamp.
Proof.
  unfold App.timeVal, stampTime, Js.truthy, Js.orEmpty.
  destruct stamp as [text|]; [|reflexivity].
  destruct (text =? ""); reflexivity.
Qed.

Lemma contentKey_documented (Date_parse : string -> option Z) (c : Card.t) :
  App.contentKey Date_parse c = documentedKey Date_parse c.
Proof.
  unfold App.contentKey, documentedKey, documentedTime, App.contentTime,
    App.seqVal, originOf, Js.orEmpty.
  rewrite !timeVal_stampTime. f_equal. f_equal. lia.
Qed.

(** C1.  For an existing card [ex] and an incoming card [inc],
    [isContentANewer inc ex] holds exactly when the documented key of
    [inc], read off its fields, is greater than that of [ex] in the
    lexicographic order on (time, seq, origin), where the time is the
    greatest of the three time stamps: a greater time wins whatever the
    sequence numbers, at equal times the greater sequence number wins (and
    any sequence number wins over none), and at equal times and sequence
    numbers the greater origin id wins.  The content step of the merge
    gives the existing card the incoming title, description, tags, due date
    and reminder when the incoming key is greater and leaves the card as it
    is otherwise; the card so obtained is the one on the board after the
    merge of [inc]. *)
Theorem content_last_writer_wins
    (Date_parse : string -> option Z) (inc ex : Card.t) :
  let newer := App.isContentANewer Date_parse inc ex in
  let time := documentedTime Date_parse in
  (newer = true <->
   App.keyLt (documentedKey Date_parse ex) (documentedKey Date_parse inc))
  /\ ((time ex < time inc)%Z -> newer = true)
  /\ ((time inc < time ex)%Z -> newer = false)
  /\ (forall m n : Z,
        time inc = time ex ->
        Card.seq ex = Some m -> Card.seq inc = Some n ->
        ((m < n)%Z -> newer = true) /\ ((n < m)%Z -> newer = false))
  /\ (forall n : Z,
        time inc = time ex ->
        Card.seq ex = None -> Card.seq inc = Some n -> newer = true)
  /\ (forall m : Z,
        time inc = time ex ->
        Card.seq ex = Some m -> Card.seq inc = None -> newer = false)
  /\ (time inc = time ex -> Card.seq inc = Card.seq ex ->
      (newer = true <-> String.compare (originOf ex) (originOf inc) = Lt))
  /\ (newer = true ->
      let r := App.mergeContent Date_parse inc ex in
      Card.title r = Card.title inc
      /\ Card.description r = Card.description inc
      /\ Card.tags r
         = Some (match Card.tags inc with Some l => l | None => [] end)
      /\ Card.due r
         = Some (match Card.due inc with Some due => due | None => "" end)
      /\ Card.reminder r = Card.reminder inc)
  /\ (newer = false -> App.mergeContent Date_parse inc ex = ex)
  /\ (forall (target : nat) (b : Board) (i : nat),
        Store.findCard b (Card.id inc) = Some (i, ex) ->
        In (App.mergeContent Date_parse inc ex)
           (allCards (App.mergeCard Date_parse target b inc))).
Proof.
  cbv zeta.
  pose proof (isContentANewer_key Date_parse inc ex) as Hkey.
  rewrite !contentKey_documented in Hkey.
  unfold documentedKey, App.keyLt in Hkey.
  assert (Hfalse : forall P : Prop,
             (App.isContentANewer Date_parse inc ex = true <-> P) ->
             ~ P -> App.isContentANewer Date_parse inc ex = false).
  { intros P HP Hn.
    destruct (App.isContentANewer Date_parse inc ex); [|reflexivity].
    exfalso. apply Hn. apply HP. reflexivity. }
  split; [exact Hkey|].
  split.
  { intro H. apply Hkey. left. exact H. }
  split.
  { intro H. apply (Hfalse _ Hkey).
    intros [H' | [H' _]]; lia. }
  split.
  { intros m n Ht Hm Hn. rewrite Hm, Hn in Hkey. split.
    - intro Hlt. apply Hkey. right. split; [congruence|]. left. exact Hlt.
    - intro Hlt. apply (Hfalse _ Hkey).
      intros [H' | [_ [H' | [H' _]]]].
      + lia.
      + simpl in H'. lia.
      + injection H' as H'. lia. }
  split.
  { intros n Ht Hm Hn. rewrite Hm, Hn in Hkey.
    apply Hkey. right. split; [congruence|]. left. exact I. }
  split.
  { intros m Ht Hm Hn. rewrite Hm, Hn in Hkey.
    apply (Hfalse _ Hkey).
    intros [H' | [_ [H' | [H' _]]]].
    - lia.
    - exact H'.
    - discriminate. }
  split.
  { intros Ht Hs. rewrite Hs in Hkey. rewrite Hkey. split.
    - intros [H' | [_ [H' | [_ H']]]].
      + lia.
      + exfalso. exact (numLt_irrefl _ H').
      + exact H'.
    - intro H'. right. split; [congruence|]. right.
      split; [reflexivity | exact H']. }
  split.
  { intro H. unfold App.mergeContent. rewrite H.
    repeat split; reflexivity. }
  split.
  { intro H. unfold App.mergeContent. rewrite H. reflexivity. }
  intros target b i H. apply (mergeCard_keeps_found Date_parse _ _ _ _ i H).
Qed.

(** The other device's copy of the sample card against the backup copy:
    later time, so its content is taken. *)
Lemma content_last_writer_wins_witness :
  App.isContentANewer Iso.parse Sample.kRemote Sample.kBackup = true
  /\ Card.title (App.mergeContent Iso.parse Sample.kRemote Sample.kBackup)
     = "moved elsewhere".
Proof.
  pose proof (content_last_writer_wins Iso.parse Sample.kRemote
                Sample.kBackup) as H.
  cbv zeta in H.
  destruct H as [_ [Hgt [_ [_ [_ [_ [_ [Hover _]]]]]]]].
  assert (Hn : App.isContentANewer Iso.parse Sample.kRemote Sample.kBackup
               = true).
  { apply Hgt. vm_compute. reflexivity. }
  split; [exact Hn|].
  destruct (Hover Hn) as [Ht _]. rewrite Ht. reflexivity.
Defined.

(** ** Pass 1 of the merge: the maps and the pushed columns *)

Lemma Map_get_set_same (m : Js.Map) (k : string) (v : nat) :
  Js.Map_get (Js.Map_set m k v) k = Some v.
Proof.
  unfold Js.Map_get, Js.Map_set. simpl. rewrite String.eqb_refl. reflexivity.
Qed.

Lemma Map_get_set_other (m : Js.Map) (k k' : string) (v : nat) :
  k' <> k -> Js.Map_get (Js.Map_set m k v) k' = Js.Map_get m k'.
Proof.
  intro H. unfold Js.Map_get, Js.Map_set. simpl.
  destruct (String.eqb_spec k k'); [congruence | reflexivity].
Qed.

Lemma Map_get_in (m : Js.Map) (k : string) (v : nat) :
  Js.Map_get m k = Some v -> In (k, v) m.
Proof.
  unfold Js.Map_get. intro H.
  destruct (find (fun e => fst e =? k) m) as [[k0 v0]|] eqn:E;
    [|discriminate].
  simpl in H. injection H as ->.
  apply find_some in E. destruct E as [Hin Hk]. simpl in Hk.
  apply String.eqb_eq in Hk. subst k0. exact Hin.
Qed.

Lemma Map_of_snoc (l : list (string * nat)) (k : string) (v : nat) :
  Js.Map_of (l ++ [(k, v)]) = Js.Map_set (Js.Map_of l) k v.
Proof.
  unfold Js.Map_of. rewrite fold_left_app. reflexivity.
Qed.

Lemma Map_of_in (l : list (string * nat)) (e : string * nat) :
  In e (Js.Map_of l) -> In e l.
Proof.
  induction l as [|x rest IH] using rev_ind.
  - simpl. tauto.
  - destruct x as [k v]. rewrite Map_of_snoc. unfold Js.Map_set.
    intros [<- | H].
    + apply in_or_app. right. left. reflexivity.
    + apply in_or_app. left. apply IH. exact H.
Qed.

Lemma entriesFrom_snoc (i : nat) (key : Column.t -> string) (b : Board)
    (c : Column.t) :
  App.entriesFrom i key (b ++ [c])
  = App.entriesFrom i key b ++ [(key c, i + List.length b)].
Proof.
  revert i. induction b as [|x rest IH]; intro i; simpl.
  - rewrite Nat.add_0_r. reflexivity.
  - rewrite IH. rewrite Nat.add_succ_r. reflexivity.
Qed.

Lemma entriesFrom_bound (i : nat) (key : Column.t -> string) (b : Board)
    (k : string) (v : nat) :
  In (k, v) (App.entriesFrom i key b) -> i <= v < i + List.length b.
Proof.
  revert i. induction b as [|x rest IH]; intro i; simpl.
  - tauto.
  - intros [H | H].
    + injection H as _ <-. lia.
    + apply IH in H. lia.
Qed.

Lemma entriesFrom_ext (i : nat) (key : Column.t -> string) (b b' : Board) :
  map key b = map key b' ->
  App.entriesFrom i key b = App.entriesFrom i key b'.
Proof.
  revert i b'. induction b as [|x rest IH]; intros i [|x' rest'] H;
    try discriminate; simpl.
  - reflexivity.
  - simpl in H. injection H as -> Ht. rewrite (IH (S i) rest' Ht).
    reflexivity.
Qed.

Lemma shape_keys (b b' : Board) :
  shape b = shape b' ->
  map Column.id b = map Column.id b'
  /\ map App.titleKey b = map App.titleKey b'.
Proof.
  revert b'. induction b as [|x rest IH]; intros [|x' rest'] H;
    try discriminate; simpl.
  - split; reflexivity.
  - simpl in H. injection H as Hid Ht Hrest.
    destruct (IH rest' Hrest) as [-> E2]. unfold App.titleKey at 1 3.
    rewrite Hid, Ht, E2. split; reflexivity.
Qed.


Lemma initCtx_snoc (b : Board) (c : Column.t) :
  App.initCtx (b ++ [c])
  = App.mkCtx (b ++ [c])
      (Js.Map_set (App.existingById (App.initCtx b)) (Column.id c)
         (List.length b))
      (Js.Map_set (App.existingByTitle (App.initCtx b)) (App.titleKey c)
         (List.length b)).
Proof.
  unfold App.initCtx. simpl.
  rewrite !entriesFrom_snoc, !Map_of_snoc. reflexivity.
Qed.

Lemma initCtx_shape (b b' : Board) :
  shape b = shape b' ->
  App.existingById (App.initCtx b) = App.existingById (App.initCtx b')
  /\ App.existingByTitle (App.initCtx b)
     = App.existingByTitle (App.initCtx b').
Proof.
  intro H. destruct (shape_keys _ _ H) as [Hid Ht].
  unfold App.initCtx. simpl.
  rewrite (entriesFrom_ext 0 Column.id b b' Hid).
  rewrite (entriesFrom_ext 0 App.titleKey b b' Ht).
  split; reflexivity.
Qed.

Lemma resolveTarget_maps (ctx ctx' : App.Ctx) (D : Column.t) :
  App.existingById ctx = App.existingById ctx' ->
  App.existingByTitle ctx = App.existingByTitle ctx' ->
  App.resolveTarget ctx D = App.resolveTarget ctx' D.
Proof.
  intros H1 H2. unfold App.resolveTarget. rewrite H1, H2. reflexivity.
Qed.

(** A target is a column of the board. *)
Lemma resolveTarget_bound (ctx : App.Ctx) (D : Column.t) (t : nat) :
  canonical ctx -> App.resolveTarget ctx D = Some t ->
  t < List.length (App.columns ctx).
Proof.
  intros Hc H. unfold App.resolveTarget in H.
  rewrite Hc in H. unfold App.initCtx in H. simpl in H.
  destruct (Js.Map_get (Js.Map_of (App.entriesFrom 0 Column.id
                                     (App.columns ctx))) (Column.id D))
    as [t'|] eqn:E.
  - injection H as ->. apply Map_get_in, Map_of_in, entriesFrom_bound in E.
    lia.
  - apply Map_get_in, Map_of_in, entriesFrom_bound in H. lia.
Qed.

Lemma decideTarget_cases (ctx : App.Ctx) (D : Column.t) :
  (exists t, App.resolveTarget ctx D = Some t
             /\ App.decideTarget ctx D = (ctx, None))
  \/ (App.resolveTarget ctx D = None
      /\ App.decideTarget ctx D
         = (App.mkCtx (App.columns ctx ++ [D])
              (Js.Map_set (App.existingById ctx) (Column.id D)
                 (List.length (App.columns ctx)))
              (Js.Map_set (App.existingByTitle ctx) (App.titleKey D)
                 (List.length (App.columns ctx))),
            Some (List.length (App.columns ctx)))).
Proof.
  unfold App.decideTarget.
  destruct (App.resolveTarget ctx D) as [t|].
  - left. exists t. split; reflexivity.
  - right. split; reflexivity.
Qed.

Lemma decideTarget_canonical (ctx : App.Ctx) (D : Column.t) :
  canonical ctx -> canonical (fst (App.decideTarget ctx D)).
Proof.
  intro Hc.
  destruct (decideTarget_cases ctx D) as [[t [_ ->]] | [_ ->]]; simpl.
  - exact Hc.
  - unfold canonical. simpl. rewrite initCtx_snoc.
    rewrite <- Hc. reflexivity.
Qed.

(** Once an incoming column has a target it keeps having one. *)
Lemma decideTarget_keeps_resolved (ctx : App.Ctx) (D D0 : Column.t) :
  App.resolveTarget ctx D0 <> None ->
  App.resolveTarget (fst (App.decideTarget ctx D)) D0 <> None.
Proof.
  intro H.
  destruct (decideTarget_cases ctx D) as [[t [_ ->]] | [_ ->]]; simpl.
  - exact H.
  - unfold App.resolveTarget in *. simpl.
    destruct (String.eqb_spec (Column.id D0) (Column.id D)) as [E | E].
    + rewrite E, Map_get_set_same. discriminate.
    + rewrite Map_get_set_other by exact E.
      destruct (Js.Map_get (App.existingById ctx) (Column.id D0));
        [discriminate|].
      destruct (String.eqb_spec (App.titleKey D0) (App.titleKey D)) as [E'|E'].
      * rewrite E', Map_get_set_same. discriminate.
      * rewrite Map_get_set_other by exact E'. exact H.
Qed.

Lemma decideTarget_resolves (ctx : App.Ctx) (D : Column.t) :
  App.resolveTarget (fst (App.decideTarget ctx D)) D <> None.
Proof.
  destruct (decideTarget_cases ctx D) as [[t [H ->]] | [_ ->]]; simpl.
  - congruence.
  - unfold App.resolveTarget. simpl. rewrite Map_get_set_same. discriminate.
Qed.

Lemma decideTargets_cons (ctx : App.Ctx) (D : Column.t)
    (rest : list Column.t) :
  App.decideTargets ctx (D :: rest)
  = (fst (App.decideTargets (fst (App.decideTarget ctx D)) rest),
     snd (App.decideTarget ctx D)
     :: snd (App.decideTargets (fst (App.decideTarget ctx D)) rest)).
Proof.
  simpl. destruct (App.decideTarget ctx D) as [ctx1 pushed]. simpl.
  destruct (App.decideTargets ctx1 rest) as [ctx2 flags]. reflexivity.
Qed.

Lemma decideTargets_canonical (s : list Column.t) (ctx : App.Ctx) :
  canonical ctx -> canonical (fst (App.decideTargets ctx s)).
Proof.
  revert ctx. induction s as [|D rest IH]; intros ctx Hc.
  - exact Hc.
  - rewrite decideTargets_cons. simpl. apply IH.
    apply decideTarget_canonical. exact Hc.
Qed.

Lemma decideTargets_length (s : list Column.t) (ctx : App.Ctx) :
  List.length (snd (App.decideTargets ctx s)) = List.length s.
Proof.
  revert ctx. induction s as [|D rest IH]; intro ctx.
  - reflexivity.
  - rewrite decideTargets_cons. simpl. rewrite IH. reflexivity.
Qed.

(** Pass 1 only appends columns. *)
Lemma decideTargets_grows (s : list Column.t) (ctx : App.Ctx) :
  exists pushed,
    App.columns (fst (App.decideTargets ctx s)) = App.columns ctx ++ pushed
    /\ incl pushed s.
Proof.
  revert ctx. induction s as [|D rest IH]; intro ctx.
  - exists []. split; [symmetry; apply app_nil_r | apply incl_nil_l].
  - rewrite decideTargets_cons. simpl.
    destruct (IH (fst (App.decideTarget ctx D))) as [pushed [E Hincl]].
    destruct (decideTarget_cases ctx D) as [[t [_ Hd]] | [_ Hd]];
      rewrite Hd in *; simpl in *.
    + exists pushed. split; [exact E|]. apply incl_tl. exact Hincl.
    + exists (D :: pushed). split.
      * rewrite E, <- app_assoc. reflexivity.
      * apply incl_cons; [left; reflexivity | apply incl_tl; exact Hincl].
Qed.

Lemma decideTargets_keeps_resolved (s : list Column.t) (ctx : App.Ctx)
    (D0 : Column.t) :
  App.resolveTarget ctx D0 <> None ->
  App.resolveTarget (fst (App.decideTargets ctx s)) D0 <> None.
Proof.
  revert ctx. induction s as [|D rest IH]; intros ctx H.
  - exact H.
  - rewrite decideTargets_cons. simpl. apply IH.
    apply decideTarget_keeps_resolved. exact H.
Qed.

(** After pass 1 every incoming column has a target. *)
Lemma decideTargets_resolves (s : list Column.t) (ctx : App.Ctx)
    (D : Column.t) :
  In D s -> App.resolveTarget (fst (App.decideTargets ctx s)) D <> None.
Proof.
  revert ctx. induction s as [|D' rest IH]; intros ctx Hin.
  - contradiction.
  - rewrite decideTargets_cons. simpl. destruct Hin as [-> | Hin].
    + apply decideTargets_keeps_resolved. apply decideTarget_resolves.
    + apply IH. exact Hin.
Qed.

(** A column that pass 1 pushed is on the board, at the index recorded. *)
Lemma decideTargets_pushed (s : list Column.t) (ctx : App.Ctx)
    (D : Column.t) (p : nat) :
  In (D, Some p) (combine s (snd (App.decideTargets ctx s))) ->
  nth_error (App.columns (fst (App.decideTargets ctx s))) p = Some D
  /\ List.length (App.columns ctx) <= p.
Proof.
  revert ctx. induction s as [|D' rest IH]; intros ctx Hin.
  - contradiction.
  - rewrite decideTargets_cons in *. simpl in *.
    destruct Hin as [Hin | Hin].
    + injection Hin as -> Hp.
      destruct (decideTarget_cases ctx D) as [[t [_ Hd]] | [_ Hd]];
        rewrite Hd in *; simpl in *; [discriminate|].
      injection Hp as <-.
      destruct (decideTargets_grows rest
                  (App.mkCtx (App.columns ctx ++ [D])
                     (Js.Map_set (App.existingById ctx) (Column.id D)
                        (List.length (App.columns ctx)))
                     (Js.Map_set (App.existingByTitle ctx) (App.titleKey D)
                        (List.length (App.columns ctx)))))
        as [pushed [E _]].
      rewrite E. simpl. split; [|lia].
      rewrite <- app_assoc. rewrite nth_error_app2 by lia.
      rewrite Nat.sub_diag. reflexivity.
    + destruct (IH _ Hin) as [Hn Hle]. split; [exact Hn|].
      destruct (decideTarget_cases ctx D') as [[t [_ Hd]] | [_ Hd]];
        rewrite Hd in *; simpl in *; [exact Hle|].
      rewrite length_app in Hle. simpl in Hle. lia.
Qed.

(** ** Store.deleteCard *)

Lemma removeAt_found (k : string) (l : list Card.t) (i : nat) :
  NoDup (map Card.id l) ->
  Js.findIndex (Card.hasId k) l = Some i ->
  ~ In k (map Card.id (Js.removeAt i l)).
Proof.
  revert i. induction l as [|x rest IH]; intros i Hnd Hi; simpl in *.
  - discriminate.
  - inversion Hnd as [|? ? Hnot Hnd']; subst.
    destruct (Card.hasId k x) eqn:E.
    + injection Hi as <-. simpl.
      unfold Card.hasId in E. apply String.eqb_eq in E. congruence.
    + destruct (Js.findIndex (Card.hasId k) rest) as [j|] eqn:Ej;
        [|discriminate].
      injection Hi as <-. simpl. intros [H | H].
      * unfold Card.hasId in E. apply String.eqb_neq in E. congruence.
      * exact (IH j Hnd' eq_refl H).
Qed.

Lemma findIndex_in_ids (k : string) (l : list Card.t) (i : nat) :
  Js.findIndex (Card.hasId k) l = Some i -> In k (map Card.id l).
Proof.
  intro H. pose proof (findIndex_find _ _ _ H) as Hf.
  destruct (find (Card.hasId k) l) as [c|] eqn:E.
  - apply find_hasId in E. destruct E as [Hin <-]. apply in_map. exact Hin.
  - apply findIndex_None in E. congruence.
Qed.

Lemma findIndex_none_ids (k : string) (l : list Card.t) :
  Js.findIndex (Card.hasId k) l = None -> ~ In k (map Card.id l).
Proof.
  intros H Hin. apply findIndex_None in H.
  apply in_map_iff in Hin. destruct Hin as [c [Hid Hc]].
  pose proof (find_none _ _ H c Hc) as Hn.
  unfold Card.hasId in Hn. apply String.eqb_neq in Hn. congruence.
Qed.

Lemma NoDup_app_disjoint {A : Type} (l1 l2 : list A) (a : A) :
  NoDup (l1 ++ l2) -> In a l1 -> In a l2 -> False.
Proof.
  induction l1 as [|x rest IH]; simpl; intros Hnd H1 H2.
  - exact H1.
  - inversion Hnd as [|? ? Hnot Hnd']; subst.
    destruct H1 as [-> | H1].
    + apply Hnot. apply in_or_app. right. exact H2.
    + exact (IH Hnd' H1 H2).
Qed.

Lemma cardIds_cons (col : Column.t) (rest : Board) :
  cardIds (col :: rest) = map Card.id (Column.cards col) ++ cardIds rest.
Proof.
  unfold cardIds, allCards. simpl. apply map_app.
Qed.

(** On a board whose card ids are pairwise distinct, a deleted card's id is
    gone. *)
Lemma deleteCard_removes (now : Z) (k : string) (s : Store.t) :
  NoDup (cardIds (Store.columns s)) ->
  ~ In k (cardIds (Store.columns (Store.deleteCard now k s))).
Proof.
  intro Hnd. unfold Store.deleteCard.
  assert (H : forall b,
             NoDup (cardIds b) ->
             match Store.deleteCardIn k b with
             | Some b' => ~ In k (cardIds b')
             | None => ~ In k (cardIds b)
             end).
  { induction b as [|col rest IH]; intro Hb; simpl.
    - simpl. tauto.
    - rewrite cardIds_cons in Hb.
      destruct (Js.findIndex (Card.hasId k) (Column.cards col)) as [i|] eqn:E.
      + rewrite cardIds_cons. simpl. intro Hin.
        apply in_app_or in Hin. destruct Hin as [Hin | Hin].
        * revert Hin. apply removeAt_found; [|exact E].
          apply (NoDup_app_remove_r _ _ Hb).
        * apply findIndex_in_ids in E.
          exact (NoDup_app_disjoint _ _ k Hb E Hin).
      + apply NoDup_app_remove_l in Hb. specialize (IH Hb).
        destruct (Store.deleteCardIn k rest) as [b'|]; simpl.
        * rewrite cardIds_cons. intro Hin. apply in_app_or in Hin.
          destruct Hin as [Hin | Hin]; [|exact (IH Hin)].
          exact (findIndex_none_ids _ _ E Hin).
        * rewrite cardIds_cons. intro Hin. apply in_app_or in Hin.
          destruct Hin as [Hin | Hin]; [|exact (IH Hin)].
          exact (findIndex_none_ids _ _ E Hin). }
  specialize (H (Store.columns s) Hnd).
  destruct (Store.deleteCardIn k (Store.columns s)) as [b'|].
  - rewrite saveState_columns. exact H.
  - exact H.
Qed.

(** ** Pass 2 of the merge: no card id is lost *)

Lemma nth_error_combine {A B : Type} (l : list A) (l' : list B) (n : nat)
    (a : A) (b : B) :
  nth_error l n = Some a -> nth_error l' n = Some b ->
  nth_error (combine l l') n = Some (a, b).
Proof.
  revert l l'. induction n as [|n IH]; intros [|x l] [|y l'] Ha Hb;
    simpl in *; try discriminate.
  - congruence.
  - apply IH; assumption.
Qed.

Section MergeKeeps.

Variable Date_parse : string -> option Z.

Local Abbreviation mergeCard := (App.mergeCard Date_parse).
Local Abbreviation mergeColumn := (App.mergeColumn Date_parse).
Local Abbreviation importMerge := (App.importMerge Date_parse).

Lemma mergeCards_shape (t : nat) (l : list Card.t) (b : Board) :
  shape (fold_left (mergeCard t) l b) = shape b.
Proof.
  revert b. induction l as [|c rest IH]; intro b; simpl.
  - reflexivity.
  - rewrite IH. apply mergeCard_shape.
Qed.

Lemma mergeCards_keeps_ids (t : nat) (l : list Card.t) (b : Board)
    (k : string) :
  In k (cardIds b) -> In k (cardIds (fold_left (mergeCard t) l b)).
Proof.
  revert b. induction l as [|c rest IH]; intros b H; simpl.
  - exact H.
  - apply IH. apply mergeCard_keeps_ids. exact H.
Qed.

Lemma mergeCards_adds_ids (t : nat) (l : list Card.t) (b : Board)
    (c : Card.t) :
  t < List.length b -> In c l ->
  In (Card.id c) (cardIds (fold_left (mergeCard t) l b)).
Proof.
  revert b. induction l as [|x rest IH]; intros b Ht Hin; simpl.
  - contradiction.
  - destruct Hin as [-> | Hin].
    + apply mergeCards_keeps_ids. apply mergeCard_adds_id. exact Ht.
    + apply IH; [|exact Hin]. rewrite mergeCard_length. exact Ht.
Qed.

Lemma mergeColumn_shape (ctx : App.Ctx) (b : Board)
    (inc : Column.t * option nat) :
  shape (mergeColumn ctx b inc) = shape b.
Proof.
  unfold App.mergeColumn.
  destruct (App.resolveTarget ctx (fst inc)); [|reflexivity].
  apply mergeCards_shape.
Qed.

Lemma mergeColumn_keeps_ids (ctx : App.Ctx) (b : Board)
    (inc : Column.t * option nat) (k : string) :
  In k (cardIds b) -> In k (cardIds (mergeColumn ctx b inc)).
Proof.
  intro H. unfold App.mergeColumn.
  destruct (App.resolveTarget ctx (fst inc)); [|exact H].
  apply mergeCards_keeps_ids. exact H.
Qed.

Lemma mergeColumns_shape (ctx : App.Ctx)
    (L : list (Column.t * option nat)) (b : Board) :
  shape (fold_left (mergeColumn ctx) L b) = shape b.
Proof.
  revert b. induction L as [|inc rest IH]; intro b; simpl.
  - reflexivity.
  - rewrite IH. apply mergeColumn_shape.
Qed.

Lemma mergeColumns_keeps_ids (ctx : App.Ctx)
    (L : list (Column.t * option nat)) (b : Board) (k : string) :
  In k (cardIds b) -> In k (cardIds (fold_left (mergeColumn ctx) L b)).
Proof.
  revert b. induction L as [|inc rest IH]; intros b H; simpl.
  - exact H.
  - apply IH. apply mergeColumn_keeps_ids. exact H.
Qed.

(** Pass 2 puts on the board the id of every card of every incoming column
    that has a target on the board.  A pushed column's cards are there from
    the start. *)
Lemma mergeColumns_adds_ids (ctx : App.Ctx)
    (L : list (Column.t * option nat)) (b : Board) :
  (forall D fl, In (D, fl) L ->
     (exists t, App.resolveTarget ctx D = Some t /\ t < List.length b)
     /\ (fl <> None ->
         forall c, In c (Column.cards D) -> In (Card.id c) (cardIds b))) ->
  forall D fl c, In (D, fl) L -> In c (Column.cards D) ->
    In (Card.id c) (cardIds (fold_left (mergeColumn ctx) L b)).
Proof.
  revert b. induction L as [|[D0 fl0] rest IH]; intros b HL D fl c Hin Hc.
  - contradiction.
  - simpl. destruct Hin as [Hin | Hin].
    + injection Hin as -> ->.
      apply mergeColumns_keeps_ids.
      destruct (HL D fl (or_introl eq_refl)) as [[t [Ht Hlt]] Hpushed].
      destruct fl as [p|].
      * apply mergeColumn_keeps_ids. apply Hpushed; [discriminate | exact Hc].
      * unfold App.mergeColumn. simpl. rewrite Ht.
        apply mergeCards_adds_ids; assumption.
    + apply (IH _) with (D := D) (fl := fl); [|exact Hin | exact Hc].
      intros D' fl' Hin'.
      destruct (HL D' fl' (or_intror Hin')) as [[t [Ht Hlt]] Hpushed].
      split.
      * exists t. split; [exact Ht|].
        rewrite (shape_length _ _ (mergeColumn_shape ctx b (D0, fl0))).
        exact Hlt.
      * intros Hfl c' Hc'. apply mergeColumn_keeps_ids.
        apply Hpushed; assumption.
Qed.

Lemma importMerge_unfold (b : Board) (s : list Column.t) :
  importMerge b s
  = fold_left (mergeColumn (fst (App.decideTargets (App.initCtx b) s)))
      (combine s (snd (App.decideTargets (App.initCtx b) s)))
      (App.columns (fst (App.decideTargets (App.initCtx b) s))).
Proof.
  unfold App.importMerge.
  destruct (App.decideTargets (App.initCtx b) s) as [ctx flags]. reflexivity.
Qed.

Lemma importMerge_keeps_ids (b : Board) (s : list Column.t) (k : string) :
  In k (cardIds b) -> In k (cardIds (importMerge b s)).
Proof.
  intro H. rewrite importMerge_unfold. apply mergeColumns_keeps_ids.
  destruct (decideTargets_grows s (App.initCtx b)) as [pushed [E _]].
  rewrite E. simpl. unfold cardIds, allCards.
  rewrite flat_map_app, map_app. apply in_or_app. left. exact H.
Qed.

Lemma importMerge_adds_ids (b : Board) (s : list Column.t)
    (D : Column.t) (c : Card.t) :
  In D s -> In c (Column.cards D) -> In (Card.id c) (cardIds (importMerge b s)).
Proof.
  intros HD Hc. rewrite importMerge_unfold.
  set (ctx := fst (App.decideTargets (App.initCtx b) s)).
  set (flags := snd (App.decideTargets (App.initCtx b) s)).
  assert (Hlen : List.length flags = List.length s)
    by apply decideTargets_length.
  assert (Hex : exists fl, In (D, fl) (combine s flags)).
  { destruct (In_nth_error _ _ HD) as [n Hn].
    assert (Hlt : n < List.length flags).
    { rewrite Hlen. apply nth_error_Some. congruence. }
    destruct (nth_error flags n) as [fl|] eqn:Ef.
    - exists fl. apply (nth_error_In _ n).
      apply nth_error_combine; assumption.
    - apply nth_error_None in Ef. lia. }
  destruct Hex as [fl Hfl].
  apply mergeColumns_adds_ids with (D := D) (fl := fl); [|exact Hfl | exact Hc].
  intros D' fl' Hin'. split.
  - assert (HD' : In D' s) by (apply in_combine_l in Hin'; exact Hin').
    pose proof (decideTargets_resolves s (App.initCtx b) D' HD') as Hr.
    fold ctx in Hr.
    destruct (App.resolveTarget ctx D') as [t|] eqn:Et; [|congruence].
    exists t. split; [reflexivity|].
    apply (resolveTarget_bound ctx D' t); [|exact Et].
    apply decideTargets_canonical. reflexivity.
  - intros Hne c' Hc'. destruct fl' as [p|]; [|congruence].
    destruct (decideTargets_pushed s (App.initCtx b) D' p Hin') as [Hn _].
    fold ctx in Hn. apply in_cardIds. exists D', c'.
    split; [apply (nth_error_In _ p); exact Hn|]. split; [exact Hc'|].
    reflexivity.
Qed.

End MergeKeeps.

(** C10.  The merge removes no card: every card id of the board is a card
    id of the merged board, and so is the id of every card of the snapshot
    (a card whose id the board lacks is appended to its target column by
    [mergeCard]).  A card deleted on this device and still present in the
    snapshot is therefore back after the merge. *)
Theorem merge_never_removes
    (Date_parse : string -> option Z) (b : Board) (incoming : list Column.t) :
  (forall k, In k (cardIds b) ->
     In k (cardIds (App.importMerge Date_parse b incoming)))
  /\ (forall incCol incCard,
        In incCol incoming -> In incCard (Column.cards incCol) ->
        In (Card.id incCard) (cardIds (App.importMerge Date_parse b incoming)))
  /\ (forall (target : nat) (b0 : Board) (incCard : Card.t) (col : Column.t),
        ~ In (Card.id incCard) (cardIds b0) ->
        nth_error b0 target = Some col ->
        nth_error (App.mergeCard Date_parse target b0 incCard) target
        = Some (Column.setCards (Column.cards col ++ [incCard]) col))
  /\ (forall (now : Z) (s : Store.t) incCol incCard,
        NoDup (cardIds (Store.columns s)) ->
        In incCol incoming -> In incCard (Column.cards incCol) ->
        let deleted :=
          Store.columns (Store.deleteCard now (Card.id incCard) s) in
        ~ In (Card.id incCard) (cardIds deleted)
        /\ In (Card.id incCard)
              (cardIds (App.importMerge Date_parse deleted incoming))).
Proof.
  split; [intros k Hk; apply importMerge_keeps_ids; exact Hk|].
  split; [intros D c HD Hc; apply (importMerge_adds_ids _ _ _ D c HD Hc)|].
  split.
  - intros target b0 incCard col Hnot Hn.
    apply mergeCard_appends; [|exact Hn].
    apply findCard_None_ids. exact Hnot.
  - intros now s D c Hnd HD Hc. cbv zeta. split.
    + apply deleteCard_removes. exact Hnd.
    + apply (importMerge_adds_ids _ _ _ D c HD Hc).
Qed.

(** The sample card is deleted on the device and comes back with the other
    device's snapshot. *)
Lemma merge_never_removes_witness :
  ~ In "k" (cardIds (Store.columns (Store.deleteCard 5 "k" Sample.store0)))
  /\ In "k"
       (cardIds
          (App.importMerge Iso.parse
             (Store.columns (Store.deleteCard 5 "k" Sample.store0))
             Sample.remote)).
Proof.
  refine (proj2 (proj2 (proj2
            (merge_never_removes Iso.parse Sample.board0 Sample.remote)))
            5%Z Sample.store0 (Sample.backlog [Sample.kRemote]) Sample.kRemote
            _ _ _).
  - repeat constructor. simpl. tauto.
  - left. reflexivity.
  - left. reflexivity.
Defined.

(** ** Cards the merge has nothing left to do for *)

Lemma find_app_none {A : Type} (p : A -> bool) (l1 l2 : list A) :
  find p l1 = None -> find p (l1 ++ l2) = find p l2.
Proof.
  induction l1 as [|x rest IH]; simpl; intro H.
  - reflexivity.
  - destruct (p x); [discriminate | apply IH; exact H].
Qed.

Section Settled.

Variable Date_parse : string -> option Z.

Local Abbreviation isPositionANewer := (App.isPositionANewer Date_parse).
Local Abbreviation mergeContent := (App.mergeContent Date_parse).
Local Abbreviation mergeCard := (App.mergeCard Date_parse).
Local Abbreviation settled := (settled Date_parse).




Lemma settled_noop (t : nat) (inc : Card.t) (b : Board) :
  settled t inc b -> mergeCard t b inc = b.
Proof.
  intros [i [ex [Hfind [Hcontent Hmove]]]].
  destruct (mergeCard_found Date_parse t b inc ex i Hfind)
    as [exCol [Hn [Hf [_ ->]]]].
  rewrite Hcontent.
  assert (Hb1 : Js.updateAt i
                  (fun col =>
                     Column.setCards
                       (App.replaceFirst (Card.id inc) ex (Column.cards col))
                       col) b = b).
  { apply updateAt_id. intros col Hcol.
    assert (col = exCol) by congruence. subst col.
    rewrite (replaceFirst_same _ _ _ Hf). apply setCards_same. }
  rewrite Hb1.
  unfold shouldMove in Hmove. rewrite Hn in Hmove. simpl in Hmove.
  destruct (nth_error b t) as [targetCol|]; [|reflexivity].
  simpl in Hmove. rewrite Hmove. reflexivity.
Qed.

Lemma settled_frame (t : nat) (inc : Card.t) (b b' : Board) :
  shape b = shape b' ->
  cardsOfId (Card.id inc) b = cardsOfId (Card.id inc) b' ->
  settled t inc b -> settled t inc b'.
Proof.
  intros Hs Hc [i [ex [Hfind [Hcontent Hmove]]]].
  exists i, ex. split.
  - rewrite <- (findCard_cardsOfId _ _ _ Hc). exact Hfind.
  - split; [exact Hcontent|].
    unfold shouldMove in *.
    rewrite <- (shape_id_nth b b' i Hs), <- (shape_id_nth b b' t Hs).
    exact Hmove.
Qed.

Lemma lone_frame (inc : Card.t) (b b' : Board) :
  cardsOfId (Card.id inc) b = cardsOfId (Card.id inc) b' ->
  lone inc b -> lone inc b'.
Proof.
  intros Hc Hl i ex j col' y Hfind Hn Hji Hy Hid.
  rewrite <- (findCard_cardsOfId _ _ _ Hc) in Hfind.
  assert (E : nth_error (cardsOfId (Card.id inc) b) j
              = nth_error (cardsOfId (Card.id inc) b') j) by congruence.
  rewrite !cardsOfId_nth, Hn in E. simpl in E.
  destruct (nth_error b j) as [col|] eqn:Hnb; [|discriminate].
  simpl in E. injection E as E.
  assert (Hin : In y (filter (Card.hasId (Card.id inc)) (Column.cards col))).
  { rewrite E. apply filter_In. split; [exact Hy|].
    unfold Card.hasId. apply String.eqb_eq. exact Hid. }
  apply filter_In in Hin. destruct Hin as [Hin _].
  exact (Hl i ex j col y Hfind Hnb Hji Hin Hid).
Qed.

(** A card that [findCard] returns as a copy of the incoming card is
    settled. *)
Lemma settled_self (t i : nat) (inc : Card.t) (b : Board) :
  Store.findCard b (Card.id inc) = Some (i, inc) -> settled t inc b.
Proof.
  intro H. exists i, inc. split; [exact H|].
  split; [apply mergeContent_self|].
  unfold shouldMove.
  destruct (option_map Column.id (nth_error b i)); [|reflexivity].
  destruct (option_map Column.id (nth_error b t)); [|reflexivity].
  rewrite isPositionANewer_irrefl. apply andb_false_r.
Qed.

(** After its own merge an incoming card is settled, provided any other
    card of its id on the board was a copy of it. *)
Lemma mergeCard_settles (t : nat) (inc : Card.t) (b : Board) :
  lone inc b -> t < List.length b -> settled t inc (mergeCard t b inc).
Proof.
  intros Hlone Ht.
  destruct (nth_error b t) as [targetCol|] eqn:Hnt;
    [|apply nth_error_None in Hnt; lia].
  assert (Hself : Card.hasId (Card.id inc) inc = true).
  { unfold Card.hasId. apply String.eqb_refl. }
  destruct (Store.findCard b (Card.id inc)) as [[i ex0]|] eqn:Hfind.
  - destruct (mergeCard_found Date_parse t b inc ex0 i Hfind)
      as [exCol [Hn [Hf [Hid Hm]]]].
    destruct (findCard_Some _ _ _ _ Hfind) as [exCol' [Hn' [_ Hbefore]]].
    set (ex := mergeContent inc ex0) in *.
    set (f1 := fun col : Column.t =>
                 Column.setCards
                   (App.replaceFirst (Card.id inc) ex (Column.cards col)) col)
      in *.
    set (b1 := Js.updateAt i f1 b) in *.
    assert (Hshape1 : shape b1 = shape b).
    { apply shape_updateAt. intro col. split; reflexivity. }
    assert (Hfind1 : Store.findCard b1 (Card.id inc) = Some (i, ex)).
    { apply (findCard_intro _ _ _ (f1 exCol)).
      - unfold b1. rewrite updateAt_nth_same, Hn. reflexivity.
      - unfold f1. simpl. apply (replaceFirst_find _ _ ex0); assumption.
      - intros j col' Hj Hcol'. unfold b1 in Hcol'.
        rewrite updateAt_nth_other in Hcol' by lia.
        apply (Hbefore j); assumption. }
    rewrite Hnt in Hm.
    destruct (negb (Column.id exCol =? Column.id targetCol)
              && isPositionANewer inc ex) eqn:Hcond; rewrite Hm.
    + (* the card moved to the end of the target column *)
      apply andb_true_iff in Hcond. destruct Hcond as [Hids _].
      assert (Hit : i <> t).
      { intro E. subst t. rewrite Hn in Hnt. injection Hnt as ->.
        rewrite String.eqb_refl in Hids. discriminate. }
      set (b2 := Js.updateAt t (Column.pushCard ex)
                   (Js.updateAt i (App.dropCard (Card.id inc)) b1)).
      assert (Hb2t : nth_error b2 t = Some (Column.pushCard ex targetCol)).
      { unfold b2. rewrite updateAt_nth_same.
        rewrite updateAt_nth_other by exact Hit.
        unfold b1. rewrite updateAt_nth_other by exact Hit.
        rewrite Hnt. reflexivity. }
      assert (Hb2i : nth_error b2 i
                     = Some (App.dropCard (Card.id inc) (f1 exCol))).
      { unfold b2. rewrite updateAt_nth_other by congruence.
        rewrite updateAt_nth_same. unfold b1.
        rewrite updateAt_nth_same, Hn. reflexivity. }
      assert (Hb2o : forall j, j <> i -> j <> t ->
                       nth_error b2 j = nth_error b j).
      { intros j Hji Hjt. unfold b2, b1.
        rewrite !updateAt_nth_other by congruence. reflexivity. }
      destruct (Store.findCard b2 (Card.id inc)) as [[j y]|] eqn:Hfind2.
      * destruct (findCard_Some _ _ _ _ Hfind2) as [col2 [Hn2 [Hf2 _]]].
        apply find_hasId in Hf2. destruct Hf2 as [Hy Hyid].
        destruct (Nat.eq_dec j i) as [-> | Hji].
        { exfalso. rewrite Hb2i in Hn2. injection Hn2 as <-.
          simpl in Hy. apply filter_In in Hy. destruct Hy as [_ Hy].
          unfold Card.hasId in Hy. rewrite Hyid, String.eqb_refl in Hy.
          discriminate. }
        destruct (Nat.eq_dec j t) as [-> | Hjt].
        { rewrite Hb2t in Hn2. injection Hn2 as <-.
          simpl in Hy. apply in_app_or in Hy. destruct Hy as [Hy | Hy].
          - assert (y = inc)
              by exact (Hlone i ex0 t targetCol y Hfind Hnt Hji Hy Hyid).
            subst y. apply (settled_self t t). exact Hfind2.
          - destruct Hy as [<- | []].
            exists t, ex. split; [exact Hfind2|].
            split; [apply mergeContent_idem|].
            unfold shouldMove. rewrite Hb2t. simpl.
            rewrite String.eqb_refl. reflexivity. }
        rewrite (Hb2o j Hji Hjt) in Hn2.
        assert (y = inc)
          by exact (Hlone i ex0 j col2 y Hfind Hn2 Hji Hy Hyid).
        subst y. apply (settled_self t j). exact Hfind2.
      * exfalso. apply findCard_None_ids in Hfind2. apply Hfind2.
        apply in_cardIds. exists (Column.pushCard ex targetCol), ex.
        split; [apply (nth_error_In _ t); exact Hb2t|].
        split; [|exact Hid].
        simpl. apply in_or_app. right. left. reflexivity.
    + (* the card stayed where it was *)
      exists i, ex. split; [exact Hfind1|].
      split; [apply mergeContent_idem|].
      unfold shouldMove.
      rewrite (shape_id_nth b1 b i Hshape1), (shape_id_nth b1 b t Hshape1).
      rewrite Hn, Hnt. simpl. exact Hcond.
  - rewrite (mergeCard_new Date_parse t b inc Hfind).
    apply (settled_self t t).
    apply (findCard_intro _ _ _ (Column.pushCard inc targetCol)).
    + rewrite updateAt_nth_same, Hnt. reflexivity.
    + simpl. rewrite find_app_none.
      * simpl. rewrite Hself. reflexivity.
      * apply (proj1 (findCard_None _ _) Hfind).
        apply (nth_error_In _ t). exact Hnt.
    + intros j col' Hj Hcol'. rewrite updateAt_nth_other in Hcol' by lia.
      apply (proj1 (findCard_None _ _) Hfind).
      apply (nth_error_In _ j). exact Hcol'.
Qed.

End Settled.

(** ** Pass 2 as one sequence of card merges *)

Lemma NoDup_map_eq {A B : Type} (f : A -> B) (l : list A) (x y : A) :
  NoDup (map f l) -> In x l -> In y l -> f x = f y -> x = y.
Proof.
  induction l as [|a rest IH]; simpl; intros Hnd Hx Hy Hf.
  - contradiction.
  - inversion Hnd as [|? ? Hnot Hnd']; subst.
    destruct Hx as [-> | Hx], Hy as [-> | Hy].
    + reflexivity.
    + exfalso. apply Hnot. rewrite Hf. apply in_map. exact Hy.
    + exfalso. apply Hnot. rewrite <- Hf. apply in_map. exact Hx.
    + apply IH; assumption.
Qed.

Lemma map_fst_combine {A B : Type} (l : list A) (l' : list B) :
  List.length l' = List.length l -> map fst (combine l l') = l.
Proof.
  revert l'. induction l as [|x rest IH]; intros [|y rest'] H;
    simpl in *; try discriminate.
  - reflexivity.
  - rewrite IH by lia. reflexivity.
Qed.

Section Flat.

Variable Date_parse : string -> option Z.

Local Abbreviation mergeCard := (App.mergeCard Date_parse).
Local Abbreviation mergeColumn := (App.mergeColumn Date_parse).
Local Abbreviation settled := (settled Date_parse).





Lemma mergeItems_app (W1 W2 : list (nat * Card.t)) (b : Board) :
  mergeItems Date_parse (W1 ++ W2) b
  = mergeItems Date_parse W2 (mergeItems Date_parse W1 b).
Proof.
  unfold mergeItems. apply fold_left_app.
Qed.

Lemma mergeItems_pair (t : nat) (l : list Card.t) (b : Board) :
  mergeItems Date_parse (map (pair t) l) b = fold_left (mergeCard t) l b.
Proof.
  revert b. induction l as [|c rest IH]; intro b; simpl.
  - reflexivity.
  - apply IH.
Qed.

Lemma mergeItems_shape (W : list (nat * Card.t)) (b : Board) :
  shape (mergeItems Date_parse W b) = shape b.
Proof.
  revert b. induction W as [|item rest IH]; intro b; simpl.
  - reflexivity.
  - unfold mergeItems in *. simpl. rewrite IH. apply mergeCard_shape.
Qed.

Lemma mergeItems_other (k : string) (W : list (nat * Card.t)) (b : Board) :
  (forall item, In item W -> Card.id (snd item) <> k) ->
  cardsOfId k (mergeItems Date_parse W b) = cardsOfId k b.
Proof.
  revert b. induction W as [|item rest IH]; intros b H; simpl.
  - reflexivity.
  - unfold mergeItems in *. simpl. rewrite IH.
    + apply mergeCard_other. intro E. apply (H item); [left | ]; auto.
    + intros item' Hin. apply H. right. exact Hin.
Qed.

(** When the incoming cards have pairwise distinct ids, each of them is
    settled once all of them were merged. *)
Lemma mergeItems_settles (W : list (nat * Card.t)) (b : Board) :
  NoDup (map (fun item => Card.id (snd item)) W) ->
  (forall item, In item W ->
     fst item < List.length b /\ lone (snd item) b) ->
  forall item, In item W ->
    settled (fst item) (snd item) (mergeItems Date_parse W b).
Proof.
  revert b. induction W as [|[t c] rest IH]; intros b Hnd HW item Hin.
  - contradiction.
  - simpl in Hnd. inversion Hnd as [|? ? Hnot Hnd']; subst.
    assert (Hne : forall item', In item' rest ->
                    Card.id (snd item') <> Card.id c).
    { intros item' Hin' E. apply Hnot. rewrite <- E.
      apply (in_map (fun item => Card.id (snd item))). exact Hin'. }
    change (mergeItems Date_parse ((t, c) :: rest) b)
      with (mergeItems Date_parse rest (mergeCard t b c)).
    destruct Hin as [<- | Hin].
    + simpl. destruct (HW (t, c) (or_introl eq_refl)) as [Ht Hl].
      simpl in Ht, Hl.
      apply (settled_frame Date_parse t c (mergeCard t b c)).
      * symmetry. apply mergeItems_shape.
      * symmetry. apply mergeItems_other. exact Hne.
      * apply mergeCard_settles; assumption.
    + apply IH; [exact Hnd' | | exact Hin].
      intros item' Hin'.
      destruct (HW item' (or_intror Hin')) as [Ht Hl].
      split.
      * rewrite mergeCard_length. exact Ht.
      * apply (lone_frame (snd item') b); [|exact Hl].
        symmetry. apply mergeCard_other. apply Hne. exact Hin'.
Qed.

(** A column that is neither the target nor the holder of a card of the
    incoming id is left as it is. *)
Lemma mergeCard_untouched (t p : nat) (b : Board) (inc : Card.t)
    (col : Column.t) :
  t <> p -> nth_error b p = Some col ->
  (forall y, In y (Column.cards col) -> Card.id y <> Card.id inc) ->
  nth_error (mergeCard t b inc) p = Some col.
Proof.
  intros Htp Hp Hids.
  destruct (Store.findCard b (Card.id inc)) as [[i ex0]|] eqn:Hfind.
  - destruct (mergeCard_found Date_parse t b inc ex0 i Hfind)
      as [exCol [Hn [Hf [_ ->]]]].
    assert (Hip : i <> p).
    { intro E. subst i. assert (col = exCol) by congruence. subst col.
      apply find_hasId in Hf. destruct Hf as [Hin Hid].
      exact (Hids ex0 Hin Hid). }
    destruct (nth_error b t) as [targetCol|];
      [destruct (negb (Column.id exCol =? Column.id targetCol)
                 && App.isPositionANewer Date_parse inc
                      (App.mergeContent Date_parse inc ex0))|];
      rewrite !updateAt_nth_other by assumption; exact Hp.
  - rewrite (mergeCard_new Date_parse t b inc Hfind).
    rewrite updateAt_nth_other by assumption. exact Hp.
Qed.



Lemma itemsOf_cards (ctx : App.Ctx) (L : list (Column.t * option nat)) :
  (forall inc, In inc L -> App.resolveTarget ctx (fst inc) <> None) ->
  map snd (itemsOf ctx L) = flat_map (fun inc => Column.cards (fst inc)) L.
Proof.
  induction L as [|inc rest IH]; intro H; simpl.
  - reflexivity.
  - rewrite map_app, IH by (intros inc' Hin; apply H; right; exact Hin).
    f_equal.
    destruct (App.resolveTarget ctx (fst inc)) as [t|] eqn:Et.
    + rewrite map_map. simpl. apply map_id.
    + exfalso. apply (H inc (or_introl eq_refl)). exact Et.
Qed.

Lemma itemsOf_in (ctx : App.Ctx) (L : list (Column.t * option nat))
    (item : nat * Card.t) :
  In item (itemsOf ctx L) <->
  exists inc, In inc L
              /\ App.resolveTarget ctx (fst inc) = Some (fst item)
              /\ In (snd item) (Column.cards (fst inc)).
Proof.
  unfold itemsOf. rewrite in_flat_map. split.
  - intros [inc [Hinc Hin]]. exists inc. split; [exact Hinc|].
    destruct (App.resolveTarget ctx (fst inc)) as [t|]; [|contradiction].
    apply in_map_iff in Hin. destruct Hin as [c [<- Hc]]. simpl.
    split; [reflexivity | exact Hc].
  - intros [inc [Hinc [Ht Hc]]]. exists inc. split; [exact Hinc|].
    rewrite Ht. apply in_map_iff. exists (snd item).
    split; [destruct item; reflexivity | exact Hc].
Qed.

End Flat.

(** ** Boards and snapshots with distinct ids *)

Lemma cards_apart (b : Board) (i j : nat) (ci cj : Column.t) (x y : Card.t) :
  NoDup (cardIds b) ->
  nth_error b i = Some ci -> nth_error b j = Some cj -> i <> j ->
  In x (Column.cards ci) -> In y (Column.cards cj) ->
  Card.id x <> Card.id y.
Proof.
  revert i j. induction b as [|col rest IH]; intros i j Hnd Hi Hj Hij Hx Hy.
  - destruct i; discriminate.
  - rewrite cardIds_cons in Hnd.
    assert (Hrest : forall n c z, nth_error rest n = Some c ->
                      In z (Column.cards c) -> In (Card.id z) (cardIds rest)).
    { intros n c z Hn Hz. apply in_cardIds. exists c, z.
      split; [apply (nth_error_In _ n); exact Hn|]. split; [exact Hz|].
      reflexivity. }
    destruct i as [|i], j as [|j]; simpl in Hi, Hj.
    + congruence.
    + injection Hi as <-. intro E.
      apply (NoDup_app_disjoint _ _ (Card.id x) Hnd).
      * apply in_map. exact Hx.
      * rewrite E. apply (Hrest j cj y); assumption.
    + injection Hj as <-. intro E.
      apply (NoDup_app_disjoint _ _ (Card.id y) Hnd).
      * apply in_map. exact Hy.
      * rewrite <- E. apply (Hrest i ci x); assumption.
    + apply (IH i j); try assumption; [|congruence].
      exact (NoDup_app_remove_l _ _ Hnd).
Qed.

(** On a board with distinct card ids to which columns of a snapshot with
    distinct card ids were appended, every card of the snapshot is [lone]. *)
Lemma lone_after_push (b pushed : Board) (s : list Column.t)
    (D : Column.t) (c : Card.t) :
  NoDup (cardIds b) ->
  NoDup (map Card.id (flat_map Column.cards s)) ->
  incl pushed s -> In D s -> In c (Column.cards D) ->
  lone c (b ++ pushed).
Proof.
  intros Hb Hs Hincl HD Hc i ex j col y Hfind Hj Hji Hy Hid.
  destruct (findCard_Some _ _ _ _ Hfind) as [exCol [Hi [Hf Hbefore]]].
  apply find_hasId in Hf. destruct Hf as [Hex Hexid].
  destruct (Nat.lt_ge_cases j (List.length b)) as [Hlt | Hge].
  - (* [y] is a card of the original board: so is [ex], in another column *)
    exfalso.
    assert (Hij : i < j).
    { destruct (Nat.lt_trichotomy i j) as [H | [H | H]];
        [exact H | congruence |].
      pose proof (Hbefore j col H Hj) as Hnone.
      pose proof (find_none _ _ Hnone y Hy) as Hn.
      unfold Card.hasId in Hn. apply String.eqb_neq in Hn. congruence. }
    rewrite nth_error_app1 in Hi by lia.
    rewrite nth_error_app1 in Hj by lia.
    apply (cards_apart b i j exCol col ex y Hb Hi Hj); try assumption;
      [lia | congruence].
  - (* [y] is a card of a pushed column, hence of the snapshot *)
    rewrite nth_error_app2 in Hj by exact Hge.
    apply nth_error_In in Hj. apply Hincl in Hj.
    apply (NoDup_map_eq Card.id (flat_map Column.cards s)).
    + exact Hs.
    + apply in_flat_map. exists col. auto.
    + apply in_flat_map. exists D. auto.
    + exact Hid.
Qed.

(** ** Pass 1: targets and pushed columns *)

Lemma resolveTarget_None (ctx : App.Ctx) (D : Column.t) :
  App.resolveTarget ctx D = None ->
  Js.Map_get (App.existingById ctx) (Column.id D) = None
  /\ Js.Map_get (App.existingByTitle ctx) (App.titleKey D) = None.
Proof.
  unfold App.resolveTarget.
  destruct (Js.Map_get (App.existingById ctx) (Column.id D));
    [discriminate|].
  intro H. split; [reflexivity | exact H].
Qed.




(** When every incoming column already has a target, pass 1 changes
    nothing and pushes nothing. *)
Lemma decideTargets_resolved (s : list Column.t) (ctx : App.Ctx) :
  (forall D, In D s -> App.resolveTarget ctx D <> None) ->
  App.decideTargets ctx s = (ctx, map (fun _ => None) s).
Proof.
  induction s as [|D rest IH]; intro H.
  - reflexivity.
  - rewrite decideTargets_cons.
    destruct (decideTarget_cases ctx D) as [[t [_ Hd]] | [Hnone _]].
    + rewrite Hd. simpl. rewrite IH; [reflexivity|].
      intros D' Hin. apply H. right. exact Hin.
    + exfalso. exact (H D (or_introl eq_refl) Hnone).
Qed.


(** ** Ids that occur once *)

Lemma concat_two {A : Type} (ll : list (list A)) (i j : nat) (l1 l2 : list A) :
  nth_error ll i = Some l1 -> nth_error ll j = Some l2 -> i <> j ->
  List.length l1 + List.length l2 <= List.length (List.concat ll).
Proof.
  revert i j. induction ll as [|l rest IH]; intros i j Hi Hj Hij.
  - destruct i; discriminate.
  - simpl. rewrite length_app.
    assert (Hone : forall n l', nth_error rest n = Some l' ->
                     List.length l' <= List.length (List.concat rest)).
    { clear. induction rest as [|l0 rest IH]; intros n l' Hn.
      - destruct n; discriminate.
      - simpl. rewrite length_app. destruct n as [|n]; simpl in Hn.
        + injection Hn as ->. lia.
        + specialize (IH n l' Hn). lia. }
    destruct i as [|i], j as [|j]; simpl in Hi, Hj.
    + congruence.
    + injection Hi as ->. specialize (Hone j l2 Hj). lia.
    + injection Hj as ->. specialize (Hone i l1 Hi). lia.
    + assert (i <> j) by congruence. specialize (IH i j Hi Hj H). lia.
Qed.

Lemma single_frame (k : string) (b b' : Board) :
  cardsOfId k b = cardsOfId k b' -> single k b -> single k b'.
Proof.
  unfold single. intros ->. tauto.
Qed.

(** When an id occurs once, only the column [findCard] returns has a card
    of that id. *)
Lemma single_elsewhere (k : string) (b : Board) (i j : nat) (ex : Card.t)
    (col : Column.t) :
  single k b -> Store.findCard b k = Some (i, ex) ->
  nth_error b j = Some col -> j <> i ->
  find (Card.hasId k) (Column.cards col) = None.
Proof.
  intros Hs Hfind Hj Hji.
  destruct (findCard_Some _ _ _ _ Hfind) as [exCol [Hi [Hf _]]].
  rewrite find_filter in Hf.
  rewrite find_filter.
  destruct (filter (Card.hasId k) (Column.cards col)) as [|y rest] eqn:E;
    [reflexivity|].
  exfalso.
  destruct (filter (Card.hasId k) (Column.cards exCol)) as [|e rest'] eqn:E';
    [discriminate|].
  assert (H : List.length (e :: rest') + List.length (y :: rest)
              <= List.length (List.concat (cardsOfId k b))).
  { apply (concat_two _ i j).
    - rewrite cardsOfId_nth, Hi. simpl. rewrite E'. reflexivity.
    - rewrite cardsOfId_nth, Hj. simpl. rewrite E. reflexivity.
    - congruence. }
  unfold single in Hs. simpl in H. lia.
Qed.

Lemma filter_NoDup_id (k : string) (l : list Card.t) :
  NoDup (map Card.id l) -> List.length (filter (Card.hasId k) l) <= 1.
Proof.
  induction l as [|x rest IH]; simpl; intro Hnd.
  - lia.
  - inversion Hnd as [|? ? Hnot Hnd']; subst.
    destruct (Card.hasId k x) eqn:E; [|apply IH; exact Hnd'].
    simpl.
    destruct (filter (Card.hasId k) rest) as [|y tl] eqn:Ef; [simpl; lia|].
    exfalso. apply Hnot.
    assert (Hy : In y (filter (Card.hasId k) rest))
      by (rewrite Ef; left; reflexivity).
    apply filter_In in Hy. destruct Hy as [Hy Hyk].
    unfold Card.hasId in *.
    apply String.eqb_eq in E. apply String.eqb_eq in Hyk.
    rewrite E, <- Hyk. apply in_map. exact Hy.
Qed.

Lemma concat_cardsOfId (k : string) (b : Board) :
  List.concat (cardsOfId k b) = filter (Card.hasId k) (allCards b).
Proof.
  unfold cardsOfId, allCards.
  induction b as [|col rest IH]; simpl.
  - reflexivity.
  - rewrite filter_app, IH. reflexivity.
Qed.

Lemma cardsOfId_app (k : string) (b b' : Board) :
  cardsOfId k (b ++ b') = cardsOfId k b ++ cardsOfId k b'.
Proof.
  unfold cardsOfId. apply map_app.
Qed.

(** An id of a board with distinct card ids still occurs once after columns
    without a card of that id were appended. *)
Lemma single_after_push (k : string) (b pushed : Board) :
  NoDup (cardIds b) ->
  (forall col y, In col pushed -> In y (Column.cards col) -> Card.id y <> k) ->
  single k (b ++ pushed).
Proof.
  intros Hnd Hp. unfold single.
  rewrite cardsOfId_app, List.concat_app, length_app.
  rewrite (concat_cardsOfId k b).
  assert (E : List.concat (cardsOfId k pushed) = []).
  { rewrite concat_cardsOfId.
    destruct (filter (Card.hasId k) (allCards pushed)) as [|y rest] eqn:Ef;
      [reflexivity|].
    exfalso.
    assert (Hy : In y (filter (Card.hasId k) (allCards pushed)))
      by (rewrite Ef; left; reflexivity).
    apply filter_In in Hy. destruct Hy as [Hy Hyk].
    unfold allCards in Hy. apply in_flat_map in Hy.
    destruct Hy as [col [Hcol Hy]].
    apply (Hp col y Hcol Hy).
    unfold Card.hasId in Hyk. apply String.eqb_eq. exact Hyk. }
  rewrite E. simpl.
  pose proof (filter_NoDup_id k (allCards b) Hnd). lia.
Qed.

(** ** Pushed columns that are targets of earlier incoming columns *)

Section Retarget.

Variable Date_parse : string -> option Z.

Local Abbreviation mergeCard := (App.mergeCard Date_parse).
Local Abbreviation mergeColumn := (App.mergeColumn Date_parse).
Local Abbreviation settled := (settled Date_parse).

Lemma mergeCards_settled (t : nat) (l : list Card.t) (b : Board) :
  (forall c, In c l -> settled t c b) -> fold_left (mergeCard t) l b = b.
Proof.
  induction l as [|c rest IH]; intro H; simpl.
  - reflexivity.
  - rewrite (settled_noop Date_parse t c b) by (apply H; left; reflexivity).
    apply IH. intros c' Hin. apply H. right. exact Hin.
Qed.

Lemma mergeCard_new_found (t : nat) (b : Board) (inc : Card.t)
    (col : Column.t) :
  Store.findCard b (Card.id inc) = None -> nth_error b t = Some col ->
  Store.findCard (mergeCard t b inc) (Card.id inc) = Some (t, inc).
Proof.
  intros Hfind Hnt.
  rewrite (mergeCard_new Date_parse t b inc Hfind).
  apply (findCard_intro _ _ _ (Column.pushCard inc col)).
  - rewrite updateAt_nth_same, Hnt. reflexivity.
  - simpl. rewrite find_app_none.
    + simpl. unfold Card.hasId. rewrite String.eqb_refl. reflexivity.
    + apply (proj1 (findCard_None _ _) Hfind).
      apply (nth_error_In _ t). exact Hnt.
  - intros j col' Hj Hcol'. rewrite updateAt_nth_other in Hcol' by lia.
    apply (proj1 (findCard_None _ _) Hfind).
    apply (nth_error_In _ j). exact Hcol'.
Qed.

Lemma find_dropped (k : string) (l : list Card.t) :
  find (Card.hasId k) (filter (fun c => negb (Card.hasId k c)) l) = None.
Proof.
  rewrite find_filter, filter_negb_hasId. reflexivity.
Qed.

(** What the merge of a card does to a column [p] that has no card of the
    incoming id: nothing, unless [p] is the target and the card is appended
    to it, as a new card or by a move. *)
Lemma mergeCard_target_column (t p : nat) (b : Board) (inc : Card.t)
    (col : Column.t) :
  nth_error b p = Some col ->
  (forall y, In y (Column.cards col) -> Card.id y <> Card.id inc) ->
  (t = p -> single (Card.id inc) b) ->
  exists col' E,
    nth_error (mergeCard t b inc) p = Some col'
    /\ Column.cards col' = Column.cards col ++ E
    /\ forall x, In x E ->
         Store.findCard (mergeCard t b inc) (Card.id x) = Some (p, x)
         /\ Card.id x = Card.id inc.
Proof.
  intros Hp Hids Hsingle.
  assert (Hnone : find (Card.hasId (Card.id inc)) (Column.cards col) = None).
  { apply find_none_iff. intros y Hy. unfold Card.hasId.
    apply String.eqb_neq. apply Hids. exact Hy. }
  destruct (Nat.eq_dec t p) as [-> | Htp].
  - specialize (Hsingle eq_refl).
    destruct (Store.findCard b (Card.id inc)) as [[i ex0]|] eqn:Hfind.
    + destruct (mergeCard_found Date_parse p b inc ex0 i Hfind)
        as [exCol [Hn [Hf [Hid Hm]]]].
      assert (Hip : i <> p).
      { intro E. subst i. congruence. }
      rewrite Hp in Hm.
      set (ex := App.mergeContent Date_parse inc ex0) in *.
      set (f1 := fun c0 : Column.t =>
                   Column.setCards
                     (App.replaceFirst (Card.id inc) ex (Column.cards c0)) c0)
        in *.
      destruct (negb (Column.id exCol =? Column.id col)
                && App.isPositionANewer Date_parse inc ex) eqn:Hcond;
        rewrite Hm.
      * assert (Hb2p : nth_error
                         (Js.updateAt p (Column.pushCard ex)
                            (Js.updateAt i (App.dropCard (Card.id inc))
                               (Js.updateAt i f1 b))) p
                       = Some (Column.pushCard ex col)).
        { rewrite updateAt_nth_same.
          rewrite !updateAt_nth_other by exact Hip.
          rewrite Hp. reflexivity. }
        exists (Column.pushCard ex col), [ex].
        split; [exact Hb2p|]. split; [reflexivity|].
        intros x [<- | []]. split; [|exact Hid].
        rewrite Hid.
        apply (findCard_intro _ _ _ (Column.pushCard ex col)).
        -- exact Hb2p.
        -- simpl. rewrite find_app_none by exact Hnone.
           simpl. unfold Card.hasId. rewrite Hid, String.eqb_refl.
           reflexivity.
        -- intros j col' Hj Hcol'.
           rewrite updateAt_nth_other in Hcol' by lia.
           destruct (Nat.eq_dec j i) as [-> | Hji].
           ++ rewrite updateAt_nth_same, updateAt_nth_same, Hn in Hcol'.
              simpl in Hcol'. injection Hcol' as <-.
              simpl. apply find_dropped.
           ++ rewrite !updateAt_nth_other in Hcol' by congruence.
              apply (single_elsewhere _ b i j ex0); assumption.
      * exists col, []. split.
        -- rewrite updateAt_nth_other by exact Hip. exact Hp.
        -- split; [symmetry; apply app_nil_r | intros x []].
    + exists (Column.pushCard inc col), [inc]. split.
      * rewrite (mergeCard_new Date_parse p b inc Hfind).
        rewrite updateAt_nth_same, Hp. reflexivity.
      * split; [reflexivity|].
        intros x [<- | []]. split; [|reflexivity].
        apply (mergeCard_new_found p b inc col); assumption.
  - exists col, []. split.
    + apply mergeCard_untouched; assumption.
    + split; [symmetry; apply app_nil_r | intros x []].
Qed.

Lemma mergeCards_other (k : string) (t : nat) (l : list Card.t) (b : Board) :
  (forall c, In c l -> Card.id c <> k) ->
  cardsOfId k (fold_left (mergeCard t) l b) = cardsOfId k b.
Proof.
  intro H. rewrite <- mergeItems_pair. apply mergeItems_other.
  intros item Hin. apply in_map_iff in Hin.
  destruct Hin as [c [<- Hc]]. simpl. apply H. exact Hc.
Qed.

(** The conditions on the columns still to be iterated survive the merge
    of the cards of the current column. *)
Lemma mergeCards_ready (ctx : App.Ctx) (t0 : nat) (fl0 : option nat)
    (l : list Card.t) (L : list (Column.t * option nat)) (b : Board) :
  NoDup (map Card.id (l ++ cardsOfPlan L)) ->
  (forall p0, fl0 = Some p0 ->
     t0 = p0 /\ forall D p, In (D, Some p) L -> p0 <> p) ->
  (fl0 = None -> forall c, In c l -> single (Card.id c) b) ->
  pushedOk ctx (l ++ cardsOfPlan L) L b -> singleOk L b ->
  pushedOk ctx (cardsOfPlan L) L (fold_left (mergeCard t0) l b)
  /\ singleOk L (fold_left (mergeCard t0) l b).
Proof.
  revert b. induction l as [|c0 l IH]; intros b Hnd Hfl Hcur Hpushed Hsingle.
  - split; assumption.
  - simpl in Hnd. inversion Hnd as [|? ? Hnot Hnd']; subst.
    assert (Hne : forall y, In y (l ++ cardsOfPlan L) ->
                    Card.id y <> Card.id c0).
    { intros y Hy E. apply Hnot. rewrite <- E. apply in_map. exact Hy. }
    simpl. apply IH.
    + exact Hnd'.
    + exact Hfl.
    + intros Hnone c Hc.
      apply (single_frame _ b).
      * symmetry. apply mergeCard_other. apply Hne.
        apply in_or_app. left. exact Hc.
      * apply Hcur; [exact Hnone | right; exact Hc].
    + intros D p Hin.
      destruct (Hpushed D p Hin) as [Hres [col [X [Hp [Hcards Hextras]]]]].
      split; [exact Hres|].
      destruct (mergeCard_target_column t0 p b c0 col Hp)
        as [col' [E [Hp' [Hcards' HE]]]].
      * intros y Hy. rewrite Hcards in Hy. apply in_app_or in Hy.
        destruct Hy as [Hy | Hy].
        -- apply Hne. apply in_or_app. right.
           unfold cardsOfPlan. apply in_flat_map.
           exists (D, Some p). split; [exact Hin | exact Hy].
        -- destruct (Hextras y Hy) as [_ Hy']. intro E. apply Hy'.
           rewrite E. simpl. left. reflexivity.
      * intro Htp. destruct fl0 as [p0|].
        -- exfalso. destruct (Hfl p0 eq_refl) as [-> Hdist].
           exact (Hdist D p Hin Htp).
        -- apply Hcur; [reflexivity | left; reflexivity].
      * exists col', (X ++ E). split; [exact Hp'|].
        split; [rewrite Hcards', Hcards, app_assoc; reflexivity|].
        intros x Hx. apply in_app_or in Hx. destruct Hx as [Hx | Hx].
        -- destruct (Hextras x Hx) as [Hfind Hx']. split.
           ++ rewrite <- Hfind. apply findCard_cardsOfId.
              apply mergeCard_other. intro E'. apply Hx'.
              rewrite E'. simpl. left. reflexivity.
           ++ intro Hin'. apply Hx'. simpl. right. exact Hin'.
        -- destruct (HE x Hx) as [Hfind Hid]. split; [exact Hfind|].
           rewrite Hid. exact Hnot.
    + intros D c Hin Hc.
      apply (single_frame _ b).
      * symmetry. apply mergeCard_other. apply Hne.
        apply in_or_app. right. unfold cardsOfPlan. apply in_flat_map.
        exists (D, None). split; [exact Hin | exact Hc].
      * exact (Hsingle D c Hin Hc).
Qed.

Lemma pushedOk_weaken (ctx : App.Ctx) (T T' : list Card.t)
    (L : list (Column.t * option nat)) (b : Board) :
  incl T' T -> pushedOk ctx T L b -> pushedOk ctx T' L b.
Proof.
  intros Hincl H D p Hin.
  destruct (H D p Hin) as [Hres [col [X [Hp [Hcards Hextras]]]]].
  split; [exact Hres|]. exists col, X. split; [exact Hp|].
  split; [exact Hcards|].
  intros x Hx. destruct (Hextras x Hx) as [Hfind Hnot].
  split; [exact Hfind|]. intro Hin'. apply Hnot.
  apply in_map_iff in Hin'. destruct Hin' as [y [Hy Hy']].
  rewrite <- Hy. apply in_map. apply Hincl. exact Hy'.
Qed.

(** Pass 2 is the sequence [itemsOf]: what a pushed column has gained by
    the time it is iterated is merged without effect. *)
Lemma mergeColumns_static (ctx : App.Ctx)
    (L : list (Column.t * option nat)) (b : Board) :
  ascending L ->
  NoDup (map Card.id (cardsOfPlan L)) ->
  pushedOk ctx (cardsOfPlan L) L b -> singleOk L b ->
  fold_left (mergeColumn ctx) L b = mergeItems Date_parse (itemsOf ctx L) b.
Proof.
  intro Hasc. revert b.
  induction Hasc as [|[D0 fl0] L Hhead Hasc IH];
    intros b Hnd Hpushed Hsingle.
  - reflexivity.
  - simpl in Hnd, Hhead. simpl. rewrite mergeItems_app.
    assert (HpL : pushedOk ctx (Column.cards D0 ++ cardsOfPlan L) L b).
    { intros D p Hin. apply Hpushed. right. exact Hin. }
    assert (HsL : singleOk L b).
    { intros D c Hin. apply Hsingle. right. exact Hin. }
    unfold App.mergeColumn at 2. simpl.
    destruct (App.resolveTarget ctx D0) as [t0|] eqn:Et0.
    + assert (Hvisit : exists X,
                 App.cardsToVisit b D0 fl0 = Column.cards D0 ++ X
                 /\ forall x, In x X ->
                      fl0 = Some t0
                      /\ Store.findCard b (Card.id x) = Some (t0, x)
                      /\ ~ In (Card.id x) (map Card.id (Column.cards D0))).
      { unfold App.cardsToVisit. destruct fl0 as [p0|].
        - destruct (Hpushed D0 p0 (or_introl eq_refl))
            as [Hres [col [X [Hp [Hcards Hextras]]]]].
          assert (t0 = p0) by congruence. subst p0.
          exists X. rewrite Hp. split; [exact Hcards|].
          intros x Hx. destruct (Hextras x Hx) as [Hfind Hnot].
          split; [reflexivity|]. split; [exact Hfind|].
          intro Hin. apply Hnot. simpl. rewrite map_app.
          apply in_or_app. left. exact Hin.
        - exists []. split; [symmetry; apply app_nil_r | intros x []]. }
      destruct Hvisit as [X [-> HX]].
      rewrite fold_left_app.
      destruct (mergeCards_ready ctx t0 fl0 (Column.cards D0) L b)
        as [HpA HsA]; try assumption.
      * intros p0 ->. split.
        -- destruct (Hpushed D0 p0 (or_introl eq_refl)) as [Hres _].
           congruence.
        -- intros D p Hin. apply (Hhead p0 D p eq_refl Hin).
      * intros -> c Hc. apply (Hsingle D0 c); [left; reflexivity | exact Hc].
      * rewrite (mergeCards_settled t0 X).
        -- rewrite mergeItems_pair. apply IH; try assumption.
           rewrite map_app in Hnd. exact (NoDup_app_remove_l _ _ Hnd).
        -- intros x Hx. destruct (HX x Hx) as [_ [Hfind Hnot]].
           apply (settled_self Date_parse t0 t0).
           rewrite <- Hfind. apply findCard_cardsOfId.
           apply mergeCards_other. intros c Hc E. apply Hnot.
           rewrite <- E. apply in_map. exact Hc.
    + apply IH.
      * rewrite map_app in Hnd. exact (NoDup_app_remove_l _ _ Hnd).
      * apply (pushedOk_weaken ctx (Column.cards D0 ++ cardsOfPlan L));
          [|exact HpL].
        apply incl_appr, incl_refl.
      * exact HsL.
Qed.

End Retarget.

(** ** Pass 1: where the pushed columns are *)

Lemma decideTarget_byId (ctx : App.Ctx) (D : Column.t) (k : string)
    (v : nat) :
  Js.Map_get (App.existingById ctx) k = Some v ->
  Js.Map_get (App.existingById (fst (App.decideTarget ctx D))) k = Some v.
Proof.
  intro H.
  destruct (decideTarget_cases ctx D) as [[t [_ ->]] | [Hnone ->]]; simpl.
  - exact H.
  - destruct (resolveTarget_None _ _ Hnone) as [Hid _].
    rewrite Map_get_set_other; [exact H|]. congruence.
Qed.

Lemma decideTargets_byId (s : list Column.t) (ctx : App.Ctx) (k : string)
    (v : nat) :
  Js.Map_get (App.existingById ctx) k = Some v ->
  Js.Map_get (App.existingById (fst (App.decideTargets ctx s))) k = Some v.
Proof.
  revert ctx. induction s as [|D rest IH]; intros ctx H.
  - exact H.
  - rewrite decideTargets_cons. simpl. apply IH.
    apply decideTarget_byId. exact H.
Qed.

(** A pushed column is its own target. *)
Lemma decideTargets_pushed_target (s : list Column.t) (ctx : App.Ctx)
    (D : Column.t) (p : nat) :
  In (D, Some p) (combine s (snd (App.decideTargets ctx s))) ->
  App.resolveTarget (fst (App.decideTargets ctx s)) D = Some p.
Proof.
  revert ctx. induction s as [|D' rest IH]; intros ctx Hin.
  - contradiction.
  - rewrite decideTargets_cons in *. simpl in *.
    destruct Hin as [Hin | Hin]; [|apply IH; exact Hin].
    injection Hin as -> Hp.
    destruct (decideTarget_cases ctx D) as [[t [_ Hd]] | [_ Hd]];
      rewrite Hd in *; simpl in *; [discriminate|].
    injection Hp as <-.
    unfold App.resolveTarget.
    rewrite (decideTargets_byId rest _ (Column.id D)
               (List.length (App.columns ctx))).
    + reflexivity.
    + simpl. apply Map_get_set_same.
Qed.

Lemma decideTargets_ascending (s : list Column.t) (ctx : App.Ctx) :
  ascending (combine s (snd (App.decideTargets ctx s))).
Proof.
  revert ctx. induction s as [|D0 rest IH]; intro ctx.
  - constructor.
  - rewrite decideTargets_cons. simpl. constructor; [|apply IH].
    intros p0 D p Hp0 Hin. simpl in Hp0.
    destruct (decideTargets_pushed rest _ D p Hin) as [_ Hle].
    destruct (decideTarget_cases ctx D0) as [[t [_ Hd]] | [_ Hd]];
      rewrite Hd in *; simpl in *; [discriminate|].
    injection Hp0 as <-. rewrite length_app in Hle. simpl in Hle. lia.
Qed.

(** The columns pass 1 appends are the incoming columns it flags. *)
Lemma decideTargets_origin (s : list Column.t) (ctx : App.Ctx) :
  exists pushed,
    App.columns (fst (App.decideTargets ctx s)) = App.columns ctx ++ pushed
    /\ forall col, In col pushed ->
         exists p, In (col, Some p)
                      (combine s (snd (App.decideTargets ctx s))).
Proof.
  revert ctx. induction s as [|D rest IH]; intro ctx.
  - exists []. split; [symmetry; apply app_nil_r | intros col []].
  - rewrite decideTargets_cons. simpl.
    destruct (IH (fst (App.decideTarget ctx D))) as [pushed [E Hp]].
    destruct (decideTarget_cases ctx D) as [[t [_ Hd]] | [_ Hd]];
      rewrite Hd in *; simpl in *.
    + exists pushed. split; [exact E|].
      intros col Hcol. destruct (Hp col Hcol) as [p Hin].
      exists p. right. exact Hin.
    + exists (D :: pushed). split.
      * rewrite E, <- app_assoc. reflexivity.
      * intros col [<- | Hcol].
        -- exists (List.length (App.columns ctx)). left. reflexivity.
        -- destruct (Hp col Hcol) as [p Hin]. exists p. right. exact Hin.
Qed.

Lemma in_combine_nth {A B : Type} (l : list A) (l' : list B) (a : A) (x : B) :
  In (a, x) (combine l l') ->
  exists n, nth_error l n = Some a /\ nth_error l' n = Some x.
Proof.
  revert l'. induction l as [|a0 rest IH]; intros [|x0 rest'] Hin;
    simpl in Hin; try contradiction.
  destruct Hin as [Hin | Hin].
  - injection Hin as -> ->. exists 0. split; reflexivity.
  - destruct (IH rest' Hin) as [n [Ha Hx]]. exists (S n). split; assumption.
Qed.

(** Two incoming columns that pass 1 flags differently share no card id. *)
Lemma plan_apart (s : list Column.t) (flags : list (option nat))
    (D D' : Column.t) (fl fl' : option nat) (c y : Card.t) :
  NoDup (cardIds s) ->
  In (D, fl) (combine s flags) -> In (D', fl') (combine s flags) ->
  fl <> fl' ->
  In c (Column.cards D) -> In y (Column.cards D') ->
  Card.id c <> Card.id y.
Proof.
  intros Hnd HD HD' Hfl Hc Hy.
  destruct (in_combine_nth _ _ _ _ HD) as [n [Hn Hfn]].
  destruct (in_combine_nth _ _ _ _ HD') as [n' [Hn' Hfn']].
  apply (cards_apart s n n' D D'); try assumption.
  intro E. subst n'. congruence.
Qed.

(** ** The merge of a snapshot that was merged before *)

Section Idempotence.

Variable Date_parse : string -> option Z.

Local Abbreviation mergeCard := (App.mergeCard Date_parse).
Local Abbreviation mergeColumn := (App.mergeColumn Date_parse).
Local Abbreviation importMerge := (App.importMerge Date_parse).
Local Abbreviation settled := (settled Date_parse).


Lemma mergeColumns_settled (ctx : App.Ctx) (s : list Column.t) (b : Board) :
  (forall D, In D s ->
     exists t, App.resolveTarget ctx D = Some t
               /\ forall c, In c (Column.cards D) -> settled t c b) ->
  fold_left (mergeColumn ctx) (combine s (map (fun _ => None) s)) b = b.
Proof.
  induction s as [|D rest IH]; intro H; simpl.
  - reflexivity.
  - destruct (H D (or_introl eq_refl)) as [t [Ht Hset]].
    unfold App.mergeColumn at 2. simpl. rewrite Ht.
    rewrite (mergeCards_settled Date_parse t _ b Hset).
    apply IH. intros D' Hin. apply H. right. exact Hin.
Qed.


(** After the merge of a snapshot into a board, both with pairwise distinct
    card ids, every card of the snapshot is settled for the target of its
    column. *)
Lemma importMerge_settles (b : Board) (s : list Column.t) :
  NoDup (cardIds b) ->
  NoDup (cardIds s) ->
  let ctx := fst (App.decideTargets (App.initCtx b) s) in
  forall D, In D s ->
    exists t, App.resolveTarget ctx D = Some t
              /\ forall c, In c (Column.cards D) ->
                   settled t c (importMerge b s).
Proof.
  intros Hb Hs. cbv zeta.
  set (ctx := fst (App.decideTargets (App.initCtx b) s)).
  set (flags := snd (App.decideTargets (App.initCtx b) s)).
  set (L := combine s flags).
  assert (Hcanon : canonical ctx)
    by (apply decideTargets_canonical; reflexivity).
  assert (Hlen : List.length flags = List.length s)
    by apply decideTargets_length.
  assert (Hfst : map fst L = s) by (apply map_fst_combine; exact Hlen).
  assert (Hres : forall inc, In inc L ->
                   App.resolveTarget ctx (fst inc) <> None).
  { intros inc Hin. apply decideTargets_resolves.
    rewrite <- Hfst. apply in_map. exact Hin. }
  assert (Hflat : cardsOfPlan L = allCards s).
  { unfold cardsOfPlan, allCards.
    transitivity (flat_map Column.cards (map fst L)).
    - clear. induction L as [|inc rest IH]; simpl; [reflexivity|].
      rewrite IH. reflexivity.
    - rewrite Hfst. reflexivity. }
  destruct (decideTargets_origin s (App.initCtx b)) as [pushed [Hgrow Horigin]].
  fold ctx flags L in Hgrow, Horigin. simpl in Hgrow.
  assert (Hincl : incl pushed s).
  { intros col Hcol. destruct (Horigin col Hcol) as [p Hin].
    exact (in_combine_l _ _ _ _ Hin). }
  assert (Hitems : importMerge b s = mergeItems Date_parse (itemsOf ctx L)
                                       (App.columns ctx)).
  { rewrite importMerge_unfold. apply mergeColumns_static.
    - apply decideTargets_ascending.
    - fold ctx flags L. rewrite Hflat. exact Hs.
    - intros D p Hin. split.
      + apply decideTargets_pushed_target. exact Hin.
      + destruct (decideTargets_pushed s (App.initCtx b) D p Hin) as [Hn _].
        exists D, []. split; [exact Hn|].
        split; [symmetry; apply app_nil_r | intros x []].
    - intros D c Hin Hc. fold ctx. rewrite Hgrow.
      apply single_after_push; [exact Hb|].
      intros col y Hcol Hy E.
      destruct (Horigin col Hcol) as [p Hp].
      apply (plan_apart s flags D col None (Some p) c y);
        try assumption; [discriminate | congruence]. }
  intros D HD.
  destruct (App.resolveTarget ctx D) as [t|] eqn:Et;
    [|exfalso; exact (decideTargets_resolves s (App.initCtx b) D HD Et)].
  exists t. split; [reflexivity|].
  intros c Hc. rewrite Hitems.
  assert (HinL : exists fl, In (D, fl) L).
  { destruct (In_nth_error _ _ HD) as [n Hn].
    destruct (nth_error flags n) as [fl|] eqn:Ef.
    - exists fl. apply (nth_error_In _ n).
      apply nth_error_combine; assumption.
    - apply nth_error_None in Ef.
      assert (n < List.length s) by (apply nth_error_Some; congruence).
      lia. }
  destruct HinL as [fl HinL].
  apply (mergeItems_settles Date_parse (itemsOf ctx L) (App.columns ctx))
    with (item := (t, c)).
  - rewrite <- (map_map snd Card.id), itemsOf_cards by exact Hres.
    fold (cardsOfPlan L). rewrite Hflat. exact Hs.
  - intros [t' c'] Hin. apply itemsOf_in in Hin.
    destruct Hin as [inc [Hinc [Ht' Hc']]]. simpl in *.
    split.
    + apply (resolveTarget_bound ctx (fst inc) t' Hcanon Ht').
    + rewrite Hgrow.
      apply (lone_after_push b pushed s (fst inc) c'); try assumption.
      rewrite <- Hfst. apply in_map. exact Hinc.
  - apply itemsOf_in. exists (D, fl). simpl. auto.
Qed.

Lemma importMerge_shape (b : Board) (s : list Column.t) :
  shape (importMerge b s)
  = shape (App.columns (fst (App.decideTargets (App.initCtx b) s))).
Proof.
  rewrite importMerge_unfold. apply mergeColumns_shape.
Qed.

Lemma importMerge_again (b : Board) (s : list Column.t) :
  NoDup (cardIds b) -> NoDup (cardIds s) ->
  importMerge (importMerge b s) s = importMerge b s.
Proof.
  intros Hb Hs.
  pose proof (importMerge_settles b s Hb Hs) as Hset. cbv zeta in Hset.
  set (ctx := fst (App.decideTargets (App.initCtx b) s)) in *.
  set (b' := importMerge b s) in *.
  assert (Hcanon : canonical ctx)
    by (apply decideTargets_canonical; reflexivity).
  assert (Hmaps : forall D,
             App.resolveTarget (App.initCtx b') D = App.resolveTarget ctx D).
  { intro D.
    destruct (initCtx_shape b' (App.columns ctx) (importMerge_shape b s))
      as [Hid Htitle].
    apply resolveTarget_maps.
    - rewrite Hid. rewrite <- Hcanon. reflexivity.
    - rewrite Htitle. rewrite <- Hcanon. reflexivity. }
  rewrite (importMerge_unfold Date_parse b' s).
  rewrite decideTargets_resolved.
  - simpl. apply mergeColumns_settled.
    intros D HD. destruct (Hset D HD) as [t [Ht Hc]].
    exists t. split; [|exact Hc]. rewrite Hmaps. exact Ht.
  - intros D HD. rewrite Hmaps.
    apply decideTargets_resolves. exact HD.
Qed.

End Idempotence.


(** ** Merging the same snapshot twice *)

(** Merging the backup into the sample board leaves the card "k" on the
    board twice (in the inbox and in the backlog column that came in with
    the backup).  On that board the other device's snapshot, whose card ids
    are distinct, gives a different board when merged a second time: the
    first merge moves the inbox copy, the second then finds the backlog copy
    first and overwrites its content. *)
Lemma merge_twice_differs :
  App.importMerge Iso.parse Sample.board0 Sample.backup = Sample.board1
  /\ App.importMerge Iso.parse
       (App.importMerge Iso.parse Sample.board1 Sample.remote) Sample.remote
     <> App.importMerge Iso.parse Sample.board1 Sample.remote.
Proof.
  split.
  - vm_compute. reflexivity.
  - intro H.
    apply (f_equal (map (fun col => map Card.title (Column.cards col)))) in H.
    vm_compute in H. discriminate.
Qed.

(** The same happens on a board with distinct card ids when the snapshot
    holds a card twice: the second merge moves the card that the first one
    left in place. *)
Lemma merge_twice_differs_on_twofold_snapshot :
  App.importMerge Iso.parse
    (App.importMerge Iso.parse Sample.board3 Sample.twofold) Sample.twofold
  <> App.importMerge Iso.parse Sample.board3 Sample.twofold.
Proof.
  intro H.
  apply (f_equal (map (fun col => map Card.title (Column.cards col)))) in H.
  vm_compute in H. discriminate.
Qed.

(** C2, as the code has it.  When the card ids of the board are pairwise
    distinct, and so are the card ids of the snapshot, merging the snapshot
    into the merged board again changes nothing. *)
Theorem merge_idempotent
    (Date_parse : string -> option Z) (b : Board) (incoming : list Column.t) :
  NoDup (cardIds b) ->
  NoDup (cardIds incoming) ->
  App.importMerge Date_parse (App.importMerge Date_parse b incoming) incoming
  = App.importMerge Date_parse b incoming.
Proof.
  intros Hb Hcards. apply importMerge_again; assumption.
Qed.

Lemma merge_idempotent_witness :
  App.importMerge Iso.parse
    (App.importMerge Iso.parse Sample.board0 Sample.remote) Sample.remote
  = App.importMerge Iso.parse Sample.board0 Sample.remote.
Proof.
  apply (merge_idempotent Iso.parse Sample.board0 Sample.remote).
  - repeat constructor. simpl. tauto.
  - repeat constructor. simpl. tauto.
Defined.

(* ================================================================== *)
(** * Part III: further properties                                     *)
(* ================================================================== *)

(** ** Store.addColumn *)

Lemma findIndex_split {A : Type} (p : A -> bool) (l : list A) (i : nat) :
  Js.findIndex p l = Some i ->
  Forall (fun x => p x = false) (firstn i l)
  /\ exists a rest, skipn i l = a :: rest /\ p a = true.
Proof.
  revert i. induction l as [|x l IH]; intros i H; simpl in H.
  - discriminate.
  - destruct (p x) eqn:Px.
    + inversion H. subst i. simpl. split; [constructor|].
      exists x, l. split; [reflexivity | exact Px].
    + destruct (Js.findIndex p l) as [j|]; [|discriminate].
      inversion H. subst i. simpl.
      destruct (IH j eq_refl) as [Hf Hb].
      split; [constructor; assumption | exact Hb].
Qed.

Lemma findIndex_lt {A : Type} (p : A -> bool) (l : list A) (i : nat) :
  Js.findIndex p l = Some i -> i < List.length l.
Proof.
  revert i. induction l as [|x l IH]; intros i H; simpl in H.
  - discriminate.
  - destruct (p x).
    + inversion H. simpl. lia.
    + destruct (Js.findIndex p l) as [j|]; [|discriminate].
      inversion H. simpl. specialize (IH j eq_refl). lia.
Qed.

Lemma findIndex_none_all {A : Type} (p : A -> bool) (l : list A) :
  Js.findIndex p l = None -> Forall (fun x => p x = false) l.
Proof.
  induction l as [|x l IH]; intro H; simpl in H.
  - constructor.
  - destruct (p x) eqn:Px; [discriminate|].
    destruct (Js.findIndex p l); [discriminate|].
    constructor; [exact Px | apply IH; reflexivity].
Qed.

Lemma skipn_all_but_last {A : Type} (l : list A) :
  l <> [] -> exists a, skipn (List.length l - 1) l = [a].
Proof.
  induction l as [|x l IH]; intro H; [congruence|].
  destruct l as [|y l'].
  - exists x. reflexivity.
  - destruct IH as [a Ha]; [discriminate|].
    exists a. simpl in *. rewrite Nat.sub_0_r in Ha. exact Ha.
Qed.

(** X1.  [addColumn] puts the new, empty column directly before the first
    archive column; the columns before it and after it are those of the
    board, in their order.  On a board without an archive column the
    position [-1] of [splice] makes it the last but one column (the only
    column on an empty board). *)
Theorem addColumn_before_archive
    (now : Z) (uid title : string) (s : Store.t) :
  let b := Store.columns s in
  let r := Store.addColumn now uid title s in
  fst r = Column.mk uid title [] false false
  /\ exists front back,
       b = front ++ back
       /\ Store.columns (snd r) = front ++ fst r :: back
       /\ Forall (fun c => Column.isArchive c = false) front
       /\ match back with
          | [] => b = []
          | a :: rest =>
              Column.isArchive a = true
              \/ (rest = [] /\ existsb Column.isArchive b = false)
          end.
Proof.
  cbv zeta. unfold Store.addColumn. cbn [fst snd].
  rewrite saveState_columns. cbn [Store.columns Store.setColumns].
  split; [reflexivity|].
  set (b := Store.columns s).
  set (c := Column.mk uid title [] false false).
  destruct (Js.findIndex Column.isArchive b) as [i|] eqn:E.
  - pose proof (findIndex_lt _ _ _ E) as Hlt.
    destruct (findIndex_split _ _ _ E) as [Hf [a [rest [Hs Ha]]]].
    exists (firstn i b), (skipn i b).
    split; [symmetry; apply firstn_skipn|].
    split.
    + unfold Js.spliceInsert, Js.insertAt.
      replace (Z.of_nat i <? 0)%Z with false by (symmetry; apply Z.ltb_ge; lia).
      rewrite Z.min_l by lia. rewrite Nat2Z.id. reflexivity.
    + split; [exact Hf|]. rewrite Hs. left. exact Ha.
  - pose proof (findIndex_none_all _ _ E) as Hall.
    assert (Hex : existsb Column.isArchive b = false).
    { apply not_true_is_false. intro Hx. apply existsb_exists in Hx.
      destruct Hx as [x [Hin Hx]]. rewrite Forall_forall in Hall.
      rewrite (Hall x Hin) in Hx. discriminate. }
    unfold Js.spliceInsert, Js.insertAt. cbn [Z.ltb Z.compare].
    destruct b as [|x b'] eqn:Eb.
    + exists [], []. simpl. repeat split; constructor.
    + set (n := List.length (x :: b')).
      assert (Hpos : Z.to_nat (Z.max (Z.of_nat n + -1) 0) = n - 1).
      { unfold n. simpl List.length. lia. }
      rewrite Hpos.
      exists (firstn (n - 1) (x :: b')), (skipn (n - 1) (x :: b')).
      split; [symmetry; apply firstn_skipn|].
      split; [reflexivity|].
      split.
      * rewrite Forall_forall in *. intros y Hy. apply Hall.
        rewrite <- (firstn_skipn (n - 1) (x :: b')).
        apply in_or_app. left. exact Hy.
      * destruct (skipn_all_but_last (x :: b')) as [a Ha]; [discriminate|].
        fold n in Ha. rewrite Ha. right. split; [reflexivity | exact Hex].
Qed.

(** ** Boards that differ in one column *)

Lemma nth_error_split_at {A : Type} (l : list A) (i : nat) (x : A) :
  nth_error l i = Some x -> l = firstn i l ++ x :: skipn (S i) l.
Proof.
  revert i. induction l as [|y l IH]; intros i H.
  - destruct i; discriminate.
  - destruct i as [|i]; simpl in *.
    + inversion H. reflexivity.
    + f_equal. apply IH. exact H.
Qed.

Lemma updateAt_split {A : Type} (i : nat) (f : A -> A) (l : list A) (x : A) :
  nth_error l i = Some x ->
  Js.updateAt i f l = firstn i l ++ f x :: skipn (S i) l.
Proof.
  revert i. induction l as [|y l IH]; intros i H.
  - destruct i; discriminate.
  - destruct i as [|i]; simpl in *.
    + inversion H. reflexivity.
    + f_equal. apply IH. exact H.
Qed.

Lemma allCards_app (b1 b2 : Board) :
  allCards (b1 ++ b2) = allCards b1 ++ allCards b2.
Proof.
  unfold allCards. apply flat_map_app.
Qed.

Lemma allCards_updateAt (i : nat) (f : Column.t -> Column.t) (b : Board)
    (col : Column.t) :
  nth_error b i = Some col ->
  allCards b
  = allCards (firstn i b) ++ Column.cards col ++ allCards (skipn (S i) b)
  /\ allCards (Js.updateAt i f b)
     = allCards (firstn i b) ++ Column.cards (f col)
       ++ allCards (skipn (S i) b).
Proof.
  intro H. split.
  - rewrite (nth_error_split_at b i col H) at 1.
    rewrite allCards_app. reflexivity.
  - rewrite (updateAt_split i f b col H).
    rewrite allCards_app. reflexivity.
Qed.

(** The column at [i] gains the card [x]. *)
Lemma allCards_gain (i : nat) (f : Column.t -> Column.t) (b : Board)
    (col : Column.t) (x : Card.t) :
  nth_error b i = Some col ->
  Permutation (Column.cards (f col)) (x :: Column.cards col) ->
  Permutation (allCards (Js.updateAt i f b)) (x :: allCards b).
Proof.
  intros H Hp.
  destruct (allCards_updateAt i f b col H) as [E1 E2].
  rewrite E1, E2.
  rewrite (Permutation_app_comm (allCards (firstn i b))).
  rewrite (Permutation_app_comm (allCards (firstn i b))).
  rewrite <- !app_assoc. rewrite Hp. reflexivity.
Qed.

(** The column at [i] loses the card [x]. *)
Lemma allCards_loss (i : nat) (f : Column.t -> Column.t) (b : Board)
    (col : Column.t) (x : Card.t) :
  nth_error b i = Some col ->
  Permutation (Column.cards col) (x :: Column.cards (f col)) ->
  Permutation (allCards b) (x :: allCards (Js.updateAt i f b)).
Proof.
  intros H Hp.
  destruct (allCards_updateAt i f b col H) as [E1 E2].
  rewrite E1, E2.
  rewrite (Permutation_app_comm (allCards (firstn i b))).
  rewrite (Permutation_app_comm (allCards (firstn i b))).
  rewrite <- !app_assoc. rewrite Hp. reflexivity.
Qed.

Lemma removeAt_perm {A : Type} (l : list A) (i : nat) (x : A) :
  nth_error l i = Some x -> Permutation l (x :: Js.removeAt i l).
Proof.
  revert i. induction l as [|y l IH]; intros i H.
  - destruct i; discriminate.
  - destruct i as [|i]; simpl in *.
    + inversion H. reflexivity.
    + rewrite (IH i H) at 1. apply perm_swap.
Qed.

Lemma placeCard_perm (toIndex : Z) (card : Card.t) (l : list Card.t) :
  Permutation (Store.placeCard toIndex card l) (card :: l).
Proof.
  rewrite placeCard_spec. cbv zeta.
  set (pos := if ((toIndex <? 0) || (toIndex >? Z.of_nat (List.length l)))%Z
              then List.length l else Z.to_nat toIndex).
  rewrite <- (firstn_skipn pos l) at 3.
  symmetry. apply Permutation_middle.
Qed.

Lemma headers_updateAt (i : nat) (f : Column.t -> Column.t) (b : Board) :
  (forall col, header (f col) = header col) ->
  headers (Js.updateAt i f b) = headers b.
Proof.
  intro Hf. revert i. induction b as [|c b IH]; intro i.
  - destruct i; reflexivity.
  - destruct i as [|i]; simpl.
    + rewrite Hf. reflexivity.
    + f_equal. apply IH.
Qed.

Lemma headers_length (b b' : Board) :
  headers b = headers b' -> List.length b = List.length b'.
Proof.
  intro H. apply (f_equal (@List.length _)) in H.
  unfold headers in H. rewrite !length_map in H. exact H.
Qed.

Lemma headers_archive (b b' : Board) :
  headers b = headers b' ->
  existsb Column.isArchive b = existsb Column.isArchive b'.
Proof.
  revert b'. induction b as [|c b IH]; intros [|c' b'] H;
    try discriminate; [reflexivity|].
  simpl in H. inversion H. simpl. rewrite (IH b') by assumption.
  f_equal. assumption.
Qed.

Lemma headers_ids (b b' : Board) :
  headers b = headers b' -> map Column.id b = map Column.id b'.
Proof.
  revert b'. induction b as [|c b IH]; intros [|c' b'] H;
    try discriminate; [reflexivity|].
  simpl in H. inversion H. simpl. f_equal; [assumption|].
  apply IH. assumption.
Qed.

(** ** Store.moveCard: the cards of the board *)

(** What [moveCard] does to the columns when it finds everything. *)
Lemma moveCard_found
    (now : Z) (nowIso cardId fromColId toColId : string) (toIndex : Z)
    (s : Store.t) (fi ti cardIndex : nat) (fromCol : Column.t)
    (card0 : Card.t) :
  Store.findColumnIndex fromColId (Store.columns s) = Some fi ->
  Store.findColumnIndex toColId (Store.columns s) = Some ti ->
  nth_error (Store.columns s) fi = Some fromCol ->
  Js.findIndex (Card.hasId cardId) (Column.cards fromCol) = Some cardIndex ->
  nth_error (Column.cards fromCol) cardIndex = Some card0 ->
  Store.moveCard now nowIso cardId fromColId toColId toIndex s
  = Store.saveState now
      (Store.setColumns
         (Js.updateAt ti
            (fun col =>
               Column.setCards
                 (Store.placeCard toIndex
                    (Store.stampMove nowIso (Store.clientId s)
                       (Store.seqCounter s + 1) card0)
                    (Column.cards col)) col)
            (Js.updateAt fi
               (fun col =>
                  Column.setCards (Js.removeAt cardIndex (Column.cards col))
                                  col)
               (Store.columns s)))
         (snd (Store.nextSeq s))).
Proof.
  intros Hfi Hti Hfrom Hidx Hcard.
  unfold Store.moveCard. rewrite Hfi, Hti, Hfrom, Hidx.
  rewrite <- (findIndex_find _ _ _ Hidx), Hcard. reflexivity.
Qed.

(** Either [moveCard] returns the store it was given, or it finds the two
    columns and the card. *)
Lemma moveCard_cases
    (now : Z) (nowIso cardId fromColId toColId : string) (toIndex : Z)
    (s : Store.t) :
  Store.moveCard now nowIso cardId fromColId toColId toIndex s = s
  \/ exists fi ti cardIndex fromCol card0,
       Store.findColumnIndex fromColId (Store.columns s) = Some fi
       /\ Store.findColumnIndex toColId (Store.columns s) = Some ti
       /\ nth_error (Store.columns s) fi = Some fromCol
       /\ Js.findIndex (Card.hasId cardId) (Column.cards fromCol)
          = Some cardIndex
       /\ nth_error (Column.cards fromCol) cardIndex = Some card0.
Proof.
  unfold Store.moveCard.
  destruct (Store.findColumnIndex fromColId (Store.columns s)) as [fi|] eqn:Ef;
    [|left; reflexivity].
  destruct (Store.findColumnIndex toColId (Store.columns s)) as [ti|] eqn:Et;
    [|left; reflexivity].
  destruct (nth_error (Store.columns s) fi) as [fromCol|] eqn:En.
  - destruct (Js.findIndex (Card.hasId cardId) (Column.cards fromCol))
      as [cardIndex|] eqn:Ei.
    + pose proof (findIndex_find _ _ _ Ei) as Hf.
      destruct (find (Card.hasId cardId) (Column.cards fromCol))
        as [card0|] eqn:Efind.
      * right. exists fi, ti, cardIndex, fromCol, card0.
        repeat split; try assumption; reflexivity.
      * left. reflexivity.
    + left. reflexivity.
  - simpl. left. reflexivity.
Qed.

Lemma findIndex_holds {A : Type} (p : A -> bool) (l : list A) (i : nat)
    (x : A) :
  Js.findIndex p l = Some i -> nth_error l i = Some x -> p x = true.
Proof.
  intros Hi Hn. rewrite (findIndex_find _ _ _ Hi) in Hn.
  apply find_some in Hn. apply Hn.
Qed.

Lemma filter_removeAt {A : Type} (p : A -> bool) (l : list A) (i : nat)
    (x : A) :
  nth_error l i = Some x -> p x = false ->
  filter p (Js.removeAt i l) = filter p l.
Proof.
  revert i. induction l as [|y l IH]; intros i Hn Hp.
  - destruct i; discriminate.
  - destruct i as [|i]; simpl in *.
    + inversion Hn. subst y. rewrite Hp. reflexivity.
    + rewrite (IH i Hn Hp). reflexivity.
Qed.

Lemma filter_placeCard (p : Card.t -> bool) (toIndex : Z) (card : Card.t)
    (l : list Card.t) :
  p card = false -> filter p (Store.placeCard toIndex card l) = filter p l.
Proof.
  intro Hp. rewrite placeCard_spec. cbv zeta.
  set (pos := if ((toIndex <? 0) || (toIndex >? Z.of_nat (List.length l)))%Z
              then List.length l else Z.to_nat toIndex).
  rewrite filter_app. simpl. rewrite Hp. rewrite <- filter_app.
  rewrite firstn_skipn. reflexivity.
Qed.

Lemma hasId_other (k k' : string) (c : Card.t) :
  Card.id c = k' -> k <> k' -> Card.hasId k c = false.
Proof.
  intros Hid Hne. unfold Card.hasId. apply String.eqb_neq. congruence.
Qed.

(** X2.  [moveCard] neither loses nor duplicates a card: the card ids of
    the board after the call are those before it, rearranged.  No column
    changes its id, title or flags, and the cards of every other id stay in
    their columns, in their order. *)
Theorem moveCard_conserves
    (now : Z) (nowIso cardId fromColId toColId : string) (toIndex : Z)
    (s : Store.t) :
  let b := Store.columns s in
  let b' :=
    Store.columns
      (Store.moveCard now nowIso cardId fromColId toColId toIndex s) in
  Permutation (cardIds b) (cardIds b')
  /\ headers b' = headers b
  /\ forall k, k <> cardId -> cardsOfId k b' = cardsOfId k b.
Proof.
  cbv zeta.
  destruct (moveCard_cases now nowIso cardId fromColId toColId toIndex s)
    as [-> | [fi [ti [cardIndex [fromCol [card0 [Hfi [Hti [Hfrom [Hidx Hc]]]]]]]]]].
  { repeat split; reflexivity. }
  rewrite (moveCard_found now nowIso cardId fromColId toColId toIndex s
             fi ti cardIndex fromCol card0 Hfi Hti Hfrom Hidx Hc).
  rewrite saveState_columns. cbn [Store.columns Store.setColumns].
  set (b := Store.columns s) in *.
  set (rem := fun col : Column.t =>
                Column.setCards (Js.removeAt cardIndex (Column.cards col)) col).
  set (card := Store.stampMove nowIso (Store.clientId s)
                 (Store.seqCounter s + 1) card0).
  set (put := fun col : Column.t =>
                Column.setCards
                  (Store.placeCard toIndex card (Column.cards col)) col).
  assert (Hid0 : Card.id card0 = cardId).
  { pose proof (findIndex_holds _ _ _ _ Hidx Hc) as H.
    unfold Card.hasId in H. apply String.eqb_eq in H. exact H. }
  assert (Hlt : ti < List.length (Js.updateAt fi rem b)).
  { rewrite updateAt_length. apply (findIndex_lt _ _ _ Hti). }
  destruct (nth_error (Js.updateAt fi rem b) ti) as [col1|] eqn:E1;
    [|apply nth_error_None in E1; lia].
  split; [|split].
  - unfold cardIds.
    pose proof (allCards_loss fi rem b fromCol card0 Hfrom
                  (removeAt_perm _ _ _ Hc)) as P1.
    pose proof (allCards_gain ti put (Js.updateAt fi rem b) col1 card E1
                  (placeCard_perm toIndex card (Column.cards col1))) as P2.
    rewrite (Permutation_map Card.id P1), (Permutation_map Card.id P2).
    reflexivity.
  - rewrite headers_updateAt by (intro; reflexivity).
    apply headers_updateAt. intro. reflexivity.
  - intros k Hk.
    rewrite cardsOfId_updateAt.
    + apply cardsOfId_updateAt. intros col Hcol.
      assert (col = fromCol) by congruence. subst col.
      simpl. apply (filter_removeAt _ _ _ card0 Hc).
      apply (hasId_other k cardId); [exact Hid0 | exact Hk].
    + intros col _. simpl. apply filter_placeCard.
      apply (hasId_other k cardId); [exact Hid0 | exact Hk].
Qed.

(** ** Store.addCard *)

(** X3.  [addCard] with an unknown column id returns [undefined] and leaves
    the store as it is: no sequence number is used and nothing is saved.
    Otherwise the new card, stamped with the next sequence number, becomes
    the last card of the first column of that id, and every other column
    is the column it was. *)
Theorem addCard_appends
    (now : Z) (uid : string) (clock : Store.Clock) (colId : string)
    (cardData : CardData.t) (s : Store.t) :
  let r := Store.addCard now uid clock colId cardData s in
  (Store.findColumn colId (Store.columns s) = None -> r = (None, s))
  /\ (forall col,
        Store.findColumn colId (Store.columns s) = Some col ->
        let card :=
          Store.newCard uid clock (Store.clientId s)
            (Store.seqCounter s + 1) cardData in
        fst r = Some card
        /\ Store.seqCounter (snd r) = (Store.seqCounter s + 1)%Z
        /\ Store.findColumn colId (Store.columns (snd r))
           = Some (Column.pushCard card col)
        /\ exists i,
             nth_error (Store.columns s) i = Some col
             /\ nth_error (Store.columns (snd r)) i
                = Some (Column.pushCard card col)
             /\ forall j, j <> i ->
                  nth_error (Store.columns (snd r)) j
                  = nth_error (Store.columns s) j).
Proof.
  cbv zeta. unfold Store.addCard. split.
  - intro H. apply findIndex_None in H.
    unfold Store.findColumnIndex. rewrite H. reflexivity.
  - intros col H.
    destruct (findColumn_index _ _ _ H) as [i [Ei Hi]].
    rewrite Ei. cbn [Store.nextSeq fst snd].
    split; [reflexivity|].
    split.
    { unfold Store.saveState. cbn [Store.useFirebase Store.setColumns].
      destruct (Store.useFirebase s); reflexivity. }
    rewrite saveState_columns. cbn [Store.columns Store.setColumns].
    set (card := Store.newCard uid clock (Store.clientId s)
                   (Store.seqCounter s + 1) cardData).
    assert (Hn : nth_error (Js.updateAt i (Column.pushCard card)
                              (Store.columns s)) i
                 = Some (Column.pushCard card col)).
    { rewrite updateAt_nth_same, Hi. reflexivity. }
    split.
    + rewrite (findColumn_at colId _ i); [exact Hn|].
      rewrite findColumnIndex_updateAt; [exact Ei|]. intro c. reflexivity.
    + exists i. split; [exact Hi|]. split; [exact Hn|].
      intros j Hj. apply updateAt_nth_other. congruence.
Qed.

(** A card added to the backlog of the sample store. *)
Lemma addCard_appends_witness :
  Store.findColumn "n"
    (Store.columns
       (snd (Store.addCard 5 "u1"
               (Store.mkClock Sample.mar5 Sample.mar5 Sample.mar5 Sample.mar5)
               "n" (CardData.mk "new" "" None None None) Sample.store2)))
  = Some (Column.pushCard
            (Store.newCard "u1"
               (Store.mkClock Sample.mar5 Sample.mar5 Sample.mar5 Sample.mar5)
               "c_local" 8 (CardData.mk "new" "" None None None))
            (Sample.backlog [Sample.other; Sample.third])).
Proof.
  exact (proj1 (proj2 (proj2
           (proj2 (addCard_appends 5 "u1"
                     (Store.mkClock Sample.mar5 Sample.mar5 Sample.mar5
                        Sample.mar5)
                     "n" (CardData.mk "new" "" None None None) Sample.store2)
              (Sample.backlog [Sample.other; Sample.third]) eq_refl)))).
Defined.

(** ** Store.updateCard *)

Lemma map_id_updateAt (j : nat) (f : Card.t -> Card.t) (l : list Card.t) :
  (forall c, Card.id (f c) = Card.id c) ->
  map Card.id (Js.updateAt j f l) = map Card.id l.
Proof.
  intro Hf. revert j. induction l as [|c l IH]; intro j.
  - destruct j; reflexivity.
  - destruct j as [|j]; simpl.
    + rewrite Hf. reflexivity.
    + f_equal. apply IH.
Qed.

Lemma filter_updateAt_other (p : Card.t -> bool) (j : nat)
    (f : Card.t -> Card.t) (l : list Card.t) (c0 : Card.t) :
  nth_error l j = Some c0 -> p c0 = false -> p (f c0) = false ->
  filter p (Js.updateAt j f l) = filter p l.
Proof.
  revert j. induction l as [|c l IH]; intros j Hn H0 H1.
  - destruct j; discriminate.
  - destruct j as [|j]; simpl in *.
    + inversion Hn. subst c. rewrite H0, H1. reflexivity.
    + rewrite (IH j Hn H0 H1). reflexivity.
Qed.

Lemma find_updateAt_first (k : string) (f : Card.t -> Card.t)
    (l : list Card.t) (j : nat) :
  (forall c, Card.id (f c) = Card.id c) ->
  Js.findIndex (Card.hasId k) l = Some j ->
  find (Card.hasId k) (Js.updateAt j f l)
  = option_map f (find (Card.hasId k) l).
Proof.
  intro Hf. revert j. induction l as [|c l IH]; intros j H; simpl in H.
  - discriminate.
  - destruct (Card.hasId k c) eqn:Hc.
    + inversion H. subst j. simpl.
      unfold Card.hasId in *. rewrite Hf, Hc. reflexivity.
    + destruct (Js.findIndex (Card.hasId k) l) as [j'|] eqn:E;
        [|discriminate].
      inversion H. subst j. simpl. rewrite Hc. apply IH. reflexivity.
Qed.

Lemma editCardIn_find (k : string) (f : Card.t -> Card.t) (col : Column.t) :
  (forall c, Card.id (f c) = Card.id c) ->
  find (Card.hasId k) (Column.cards (Store.editCardIn k f col))
  = option_map f (find (Card.hasId k) (Column.cards col)).
Proof.
  intro Hf. unfold Store.editCardIn.
  destruct (Js.findIndex (Card.hasId k) (Column.cards col)) as [j|] eqn:E.
  - simpl. apply find_updateAt_first; assumption.
  - apply findIndex_None in E. rewrite E. reflexivity.
Qed.

Lemma editCardIn_ids (k : string) (f : Card.t -> Card.t) (col : Column.t) :
  (forall c, Card.id (f c) = Card.id c) ->
  map Card.id (Column.cards (Store.editCardIn k f col))
  = map Card.id (Column.cards col).
Proof.
  intro Hf. unfold Store.editCardIn.
  destruct (Js.findIndex (Card.hasId k) (Column.cards col)) as [j|];
    [|reflexivity].
  simpl. apply map_id_updateAt. exact Hf.
Qed.

Lemma editCardIn_other (k k' : string) (f : Card.t -> Card.t)
    (col : Column.t) :
  (forall c, Card.id (f c) = Card.id c) -> k' <> k ->
  filter (Card.hasId k') (Column.cards (Store.editCardIn k f col))
  = filter (Card.hasId k') (Column.cards col).
Proof.
  intros Hf Hne. unfold Store.editCardIn.
  destruct (Js.findIndex (Card.hasId k) (Column.cards col)) as [j|] eqn:E;
    [|reflexivity].
  simpl.
  destruct (nth_error (Column.cards col) j) as [c0|] eqn:En.
  - pose proof (findIndex_holds _ _ _ _ E En) as Hk.
    unfold Card.hasId in Hk. apply String.eqb_eq in Hk.
    apply (filter_updateAt_other _ _ _ _ c0 En).
    + apply (hasId_other k' k); assumption.
    + apply (hasId_other k' k); [rewrite Hf|]; assumption.
  - apply findIndex_lt in E. apply nth_error_None in En. lia.
Qed.

Lemma editCardIn_header (k : string) (f : Card.t -> Card.t) (col : Column.t) :
  header (Store.editCardIn k f col) = header col.
Proof.
  unfold Store.editCardIn.
  destruct (Js.findIndex (Card.hasId k) (Column.cards col)); reflexivity.
Qed.

(** The ids of the cards, column by column. *)
Lemma ids_updateAt (i : nat) (f : Column.t -> Column.t) (b : Board) :
  (forall col, map Card.id (Column.cards (f col))
               = map Card.id (Column.cards col)) ->
  map (fun col => map Card.id (Column.cards col)) (Js.updateAt i f b)
  = map (fun col => map Card.id (Column.cards col)) b.
Proof.
  intro Hf. revert i. induction b as [|c b IH]; intro i.
  - destruct i; reflexivity.
  - destruct i as [|i]; simpl.
    + rewrite Hf. reflexivity.
    + f_equal. apply IH.
Qed.

(** X4.  [updateCard] with an unknown card id returns [undefined] and
    leaves the store as it is.  Otherwise it rewrites the card [findCard]
    returns where that card lies: afterwards [findCard] returns the edited
    card in the same column, every column holds the same card ids in the
    same order, no column changes its id, title or flags, and the cards of
    every other id are untouched. *)
Theorem updateCard_in_place
    (now : Z) (nowIso cardId : string) (cardData : CardData.t)
    (s : Store.t) :
  let r := Store.updateCard now nowIso cardId cardData s in
  (Store.findCard (Store.columns s) cardId = None -> r = (None, s))
  /\ (forall i card0,
        Store.findCard (Store.columns s) cardId = Some (i, card0) ->
        let card :=
          Store.stampEdit nowIso (Store.clientId s)
            (Store.seqCounter s + 1) cardData card0 in
        fst r = Some card
        /\ Store.findCard (Store.columns (snd r)) cardId = Some (i, card)
        /\ map (fun col => map Card.id (Column.cards col))
             (Store.columns (snd r))
           = map (fun col => map Card.id (Column.cards col))
               (Store.columns s)
        /\ headers (Store.columns (snd r)) = headers (Store.columns s)
        /\ forall k, k <> cardId ->
             cardsOfId k (Store.columns (snd r))
             = cardsOfId k (Store.columns s)).
Proof.
  cbv zeta. unfold Store.updateCard. split.
  - intro H. rewrite H. reflexivity.
  - intros i card0 H. rewrite H. cbn [Store.nextSeq fst snd].
    split; [reflexivity|].
    rewrite saveState_columns. cbn [Store.columns Store.setColumns].
    set (stamp := Store.stampEdit nowIso (Store.clientId s)
                    (Store.seqCounter s + 1) cardData).
    assert (Hid : forall c, Card.id (stamp c) = Card.id c)
      by (intro; reflexivity).
    destruct (findCard_Some _ _ _ _ H) as [col [Hn [Hf Hbefore]]].
    split; [|split; [|split]].
    + apply (findCard_intro _ _ i (Store.editCardIn cardId stamp col)).
      * rewrite updateAt_nth_same, Hn. reflexivity.
      * rewrite (editCardIn_find _ _ _ Hid), Hf. reflexivity.
      * intros j col' Hj Hn'.
        rewrite updateAt_nth_other in Hn' by lia.
        apply (Hbefore j col' Hj Hn').
    + apply ids_updateAt. intro c. apply editCardIn_ids. exact Hid.
    + apply headers_updateAt. intro c. apply editCardIn_header.
    + intros k Hk. apply cardsOfId_updateAt. intros c _.
      apply editCardIn_other; assumption.
Qed.

(** The card "p" of the sample store is edited where it lies, in the
    backlog. *)
Lemma updateCard_in_place_witness :
  Store.findCard
    (Store.columns
       (snd (Store.updateCard 5 Sample.mar5 "p"
               (CardData.mk "edited" "" (Some []) (Some "") None)
               Sample.store2))) "p"
  = Some (1, Store.stampEdit Sample.mar5 "c_local" 8
               (CardData.mk "edited" "" (Some []) (Some "") None)
               Sample.other).
Proof.
  exact (proj1 (proj2
           (proj2 (updateCard_in_place 5 Sample.mar5 "p"
                     (CardData.mk "edited" "" (Some []) (Some "") None)
                     Sample.store2)
              1 Sample.other eq_refl))).
Defined.

(** ** Store.deleteCard *)

Lemma removeAt_dropFirst {A : Type} (p : A -> bool) (l : list A) (i : nat) :
  Js.findIndex p l = Some i -> Js.removeAt i l = dropFirst p l.
Proof.
  revert i. induction l as [|x l IH]; intros i H; simpl in H.
  - discriminate.
  - simpl. destruct (p x).
    + inversion H. reflexivity.
    + destruct (Js.findIndex p l) as [j|]; [|discriminate].
      inversion H. simpl. f_equal. apply IH. reflexivity.
Qed.

Lemma dropFirst_app_found {A : Type} (p : A -> bool) (l1 l2 : list A)
    (i : nat) :
  Js.findIndex p l1 = Some i ->
  dropFirst p (l1 ++ l2) = dropFirst p l1 ++ l2.
Proof.
  revert i. induction l1 as [|x l1 IH]; intros i H; simpl in H.
  - discriminate.
  - simpl. destruct (p x); [reflexivity|].
    destruct (Js.findIndex p l1) as [j|]; [|discriminate].
    simpl. f_equal. apply (IH j). reflexivity.
Qed.

Lemma dropFirst_app_none {A : Type} (p : A -> bool) (l1 l2 : list A) :
  Js.findIndex p l1 = None ->
  dropFirst p (l1 ++ l2) = l1 ++ dropFirst p l2.
Proof.
  induction l1 as [|x l1 IH]; intro H; simpl in H.
  - reflexivity.
  - simpl. destruct (p x); [discriminate|].
    destruct (Js.findIndex p l1); [discriminate|].
    f_equal. apply IH. reflexivity.
Qed.

Lemma allCards_cons (col : Column.t) (rest : Board) :
  allCards (col :: rest) = Column.cards col ++ allCards rest.
Proof.
  reflexivity.
Qed.

Lemma deleteCardIn_spec (k : string) (b : Board) :
  match Store.deleteCardIn k b with
  | Some b' =>
      allCards b' = dropFirst (Card.hasId k) (allCards b)
      /\ headers b' = headers b
      /\ (forall k', k' <> k -> cardsOfId k' b' = cardsOfId k' b)
      /\ In k (cardIds b)
  | None => ~ In k (cardIds b)
  end.
Proof.
  induction b as [|col rest IH]; cbn [Store.deleteCardIn].
  - simpl. tauto.
  - destruct (Js.findIndex (Card.hasId k) (Column.cards col)) as [i|] eqn:E.
    + split; [|split; [|split]].
      * rewrite !allCards_cons. cbn [Column.cards Column.setCards].
        rewrite (dropFirst_app_found _ _ _ i E).
        rewrite (removeAt_dropFirst _ _ _ E). reflexivity.
      * reflexivity.
      * intros k' Hk'. simpl. f_equal.
        destruct (nth_error (Column.cards col) i) as [c0|] eqn:En.
        -- apply (filter_removeAt _ _ _ c0 En).
           pose proof (findIndex_holds _ _ _ _ E En) as Hc.
           unfold Card.hasId in Hc. apply String.eqb_eq in Hc.
           apply (hasId_other k' k); assumption.
        -- apply findIndex_lt in E. apply nth_error_None in En. lia.
      * rewrite cardIds_cons. apply in_or_app. left.
        apply (findIndex_in_ids _ _ _ E).
    + destruct (Store.deleteCardIn k rest) as [b'|]; cbn [option_map].
      * destruct IH as [Ha [Hh [Ho Hin]]].
        split; [|split; [|split]].
        -- rewrite !allCards_cons, Ha.
           symmetry. apply dropFirst_app_none. exact E.
        -- unfold headers in *. simpl. f_equal. exact Hh.
        -- intros k' Hk'. simpl. f_equal. apply Ho. exact Hk'.
        -- rewrite cardIds_cons. apply in_or_app. right. exact Hin.
      * rewrite cardIds_cons. intro Hin. apply in_app_or in Hin.
        destruct Hin as [Hin | Hin]; [|exact (IH Hin)].
        exact (findIndex_none_ids _ _ E Hin).
Qed.

Lemma dropFirst_absent {A : Type} (p : A -> bool) (l : list A) :
  (forall x, In x l -> p x = false) -> dropFirst p l = l.
Proof.
  induction l as [|x l IH]; intro H; [reflexivity|].
  simpl. rewrite (H x (or_introl eq_refl)). f_equal.
  apply IH. intros y Hy. apply H. right. exact Hy.
Qed.

Lemma deleteCard_cards (now : Z) (k : string) (s : Store.t) :
  allCards (Store.columns (Store.deleteCard now k s))
  = dropFirst (Card.hasId k) (allCards (Store.columns s)).
Proof.
  unfold Store.deleteCard.
  pose proof (deleteCardIn_spec k (Store.columns s)) as H.
  destruct (Store.deleteCardIn k (Store.columns s)) as [b'|].
  - rewrite saveState_columns. apply H.
  - symmetry. apply dropFirst_absent. intros x Hx.
    unfold Card.hasId. apply String.eqb_neq. intro Hid. apply H.
    unfold cardIds. subst k. apply in_map. exact Hx.
Qed.

(** X5.  [deleteCard] removes one card and no more: the cards of the board
    afterwards, read column after column, are those before without the
    first card of the given id.  Columns keep their id, title and flags,
    and cards of other ids stay where they are.  When no card has the id
    the store is returned as it is, without a save. *)
Theorem deleteCard_first_only (now : Z) (k : string) (s : Store.t) :
  let b := Store.columns s in
  let s' := Store.deleteCard now k s in
  allCards (Store.columns s') = dropFirst (Card.hasId k) (allCards b)
  /\ headers (Store.columns s') = headers b
  /\ (forall k', k' <> k ->
        cardsOfId k' (Store.columns s') = cardsOfId k' b)
  /\ (~ In k (cardIds b) -> s' = s).
Proof.
  cbv zeta. split; [apply deleteCard_cards|].
  unfold Store.deleteCard.
  pose proof (deleteCardIn_spec k (Store.columns s)) as H.
  destruct (Store.deleteCardIn k (Store.columns s)) as [b'|].
  - rewrite saveState_columns. cbn [Store.columns Store.setColumns].
    destruct H as [_ [Hh [Ho Hin]]].
    repeat split; try assumption. intro Hn. contradiction.
  - repeat split; reflexivity.
Qed.

(** ** Store.reorderColumns: an order that lists every column once *)

Lemma indexOf_head (x : string) (rest : list string) :
  Js.indexOf x (x :: rest) = 0%Z.
Proof.
  simpl. rewrite String.eqb_refl. reflexivity.
Qed.

Lemma indexOf_tail (x y : string) (rest : list string) :
  x <> y -> In x rest ->
  (0 <= Js.indexOf x rest)%Z
  /\ Js.indexOf x (y :: rest) = (Js.indexOf x rest + 1)%Z.
Proof.
  intros Hne Hin.
  assert (H0 : (Js.indexOf x rest <? 0)%Z = false).
  { rewrite indexOf_absent. apply negb_false_iff. apply existsb_exists.
    exists x. split; [exact Hin | apply String.eqb_refl]. }
  split; [apply Z.ltb_ge; exact H0|].
  simpl. replace (y =? x) with false
    by (symmetry; apply String.eqb_neq; congruence).
  rewrite H0. reflexivity.
Qed.

Lemma StronglySorted_weaken {A : Type} (R R' : A -> A -> Prop) (l : list A) :
  (forall x y, In x l -> In y l -> R x y -> R' x y) ->
  StronglySorted R l -> StronglySorted R' l.
Proof.
  intros Himp Hs. induction Hs as [|a l Hs IH Hall].
  - constructor.
  - constructor.
    + apply IH. intros x y Hx Hy. apply Himp; right; assumption.
    + rewrite Forall_forall in *. intros y Hy.
      apply Himp; [left; reflexivity | right; exact Hy | apply Hall; exact Hy].
Qed.

(** A rearrangement of a duplicate-free list that ascends in the positions
    of that list is the list. *)
Lemma sorted_by_indexOf (order L : list string) :
  NoDup order -> Permutation order L ->
  StronglySorted
    (fun x y => (Js.indexOf x order <= Js.indexOf y order)%Z) L ->
  L = order.
Proof.
  intro Hnd. revert L. induction Hnd as [|y rest Hy Hnd IH]; intros L Hp Hs.
  - apply Permutation_nil in Hp. exact Hp.
  - destruct L as [|h T].
    + symmetry in Hp. apply Permutation_nil in Hp. discriminate.
    + assert (Hh : h = y).
      { destruct (string_dec h y) as [E|Hne]; [exact E|exfalso].
        assert (HyT : In y T).
        { assert (HyL : In y (h :: T))
            by (apply (Permutation_in y Hp); left; reflexivity).
          destruct HyL as [E|HyT]; [congruence | exact HyT]. }
        assert (Hhr : In h rest).
        { assert (HhL : In h (y :: rest)).
          { apply (Permutation_in h (Permutation_sym Hp)). left. reflexivity. }
          destruct HhL as [E|Hhr]; [congruence | exact Hhr]. }
        inversion Hs as [|? ? _ Hall]. subst.
        rewrite Forall_forall in Hall. specialize (Hall y HyT).
        rewrite indexOf_head in Hall.
        destruct (indexOf_tail h y rest Hne Hhr) as [H0 H1].
        rewrite H1 in Hall. lia. }
      subst h. f_equal.
      apply Permutation_cons_inv in Hp.
      apply IH; [exact Hp|].
      inversion Hs as [|? ? HsT _]. subst.
      refine (StronglySorted_weaken _ _ T _ HsT).
      intros a b Ha Hb Hle.
      assert (Har : In a rest)
        by (apply (Permutation_in a (Permutation_sym Hp)); exact Ha).
      assert (Hbr : In b rest)
        by (apply (Permutation_in b (Permutation_sym Hp)); exact Hb).
      assert (Hay : a <> y) by (intro E; subst a; contradiction).
      assert (Hby : b <> y) by (intro E; subst b; contradiction).
      destruct (indexOf_tail a y rest Hay Har) as [_ Ea].
      destruct (indexOf_tail b y rest Hby Hbr) as [_ Eb].
      rewrite Ea, Eb in Hle. lia.
Qed.

Lemma StronglySorted_map {A B : Type} (f : A -> B) (R : B -> B -> Prop)
    (l : list A) :
  StronglySorted (fun x y => R (f x) (f y)) l -> StronglySorted R (map f l).
Proof.
  intro Hs. induction Hs as [|a l Hs IH Hall]; simpl.
  - constructor.
  - constructor; [exact IH|].
    rewrite Forall_forall in *. intros y Hy. apply in_map_iff in Hy.
    destruct Hy as [x [<- Hx]]. apply Hall. exact Hx.
Qed.

(** X6.  When the given list names every column of the board exactly once,
    the columns are in the order of the list after [reorderColumns].  This
    is the case of [Dnd.endColDrag], which passes the ids of the column
    elements in document order. *)
Theorem reorderColumns_follows_order
    (now : Z) (columnOrder : list string) (s : Store.t) :
  NoDup columnOrder ->
  Permutation columnOrder (map Column.id (Store.columns s)) ->
  map Column.id (Store.columns (Store.reorderColumns now columnOrder s))
  = columnOrder.
Proof.
  intros Hnd Hp. unfold Store.reorderColumns.
  rewrite saveState_columns. cbn [Store.columns Store.setColumns].
  set (key := fun c : Column.t => Js.indexOf (Column.id c) columnOrder).
  change (Store.orderCmp columnOrder)
    with (fun a b : Column.t => (key a - key b)%Z).
  apply sorted_by_indexOf; [exact Hnd | |].
  - rewrite Hp. apply Permutation_map. apply (sort_perm key).
  - apply (StronglySorted_map Column.id
             (fun x y =>
                (Js.indexOf x columnOrder <= Js.indexOf y columnOrder)%Z)).
    apply (sort_sorted key).
Qed.

(** The backlog of the sample store is dragged before the inbox. *)
Lemma reorderColumns_follows_order_witness :
  map Column.id
    (Store.columns
       (Store.reorderColumns 5 ["n"; "x"; "archive"] Sample.store2))
  = ["n"; "x"; "archive"].
Proof.
  apply (reorderColumns_follows_order 5 ["n"; "x"; "archive"] Sample.store2).
  - repeat constructor; simpl; intuition discriminate.
  - simpl. apply perm_swap.
Defined.

(** ** The mutations of the store, one by one *)

Lemma spliceInsert_parts {A : Type} (start : Z) (x : A) (l : list A) :
  exists front back,
    l = front ++ back /\ Js.spliceInsert start x l = front ++ x :: back.
Proof.
  unfold Js.spliceInsert, Js.insertAt. cbv zeta.
  match goal with
  | |- context [firstn ?p l] => exists (firstn p l), (skipn p l)
  end.
  split; [symmetry; apply firstn_skipn | reflexivity].
Qed.

Lemma updateColumn_columns (now : Z) (colId title : string) (isDone : bool)
    (s : Store.t) :
  map Column.id (Store.columns (Store.updateColumn now colId title isDone s))
  = map Column.id (Store.columns s)
  /\ map Column.isArchive
       (Store.columns (Store.updateColumn now colId title isDone s))
     = map Column.isArchive (Store.columns s)
  /\ map Column.cards
       (Store.columns (Store.updateColumn now colId title isDone s))
     = map Column.cards (Store.columns s).
Proof.
  unfold Store.updateColumn.
  destruct (Store.findColumnIndex colId (Store.columns s)) as [i|];
    [|repeat split; reflexivity].
  destruct (Store.findColumn colId (Store.columns s)) as [col|];
    [|repeat split; reflexivity].
  destruct (negb (Column.isArchive col)); [|repeat split; reflexivity].
  rewrite saveState_columns. cbn [Store.columns Store.setColumns].
  assert (Hu : forall (B : Type) (g : Column.t -> B) (f : Column.t -> Column.t)
                      (j : nat) (b : Board),
             (forall c, g (f c) = g c) ->
             map g (Js.updateAt j f b) = map g b).
  { intros B g f j b Hf. revert j. induction b as [|c b IH]; intro j.
    - destruct j; reflexivity.
    - destruct j as [|j]; simpl; [rewrite Hf; reflexivity|].
      f_equal. apply IH. }
  assert (Hm : forall (B : Type) (g : Column.t -> B) (f : Column.t -> Column.t)
                      (b : Board),
             (forall c, g (f c) = g c) -> map g (map f b) = map g b).
  { intros B g f b Hf. rewrite map_map. apply map_ext. exact Hf. }
  repeat split.
  - rewrite Hu by reflexivity.
    destruct isDone; [rewrite Hm by reflexivity|]; apply Hu; reflexivity.
  - rewrite Hu by reflexivity.
    destruct isDone; [rewrite Hm by reflexivity|]; apply Hu; reflexivity.
  - rewrite Hu by reflexivity.
    destruct isDone; [rewrite Hm by reflexivity|]; apply Hu; reflexivity.
Qed.

Lemma existsb_map {A : Type} (p : A -> bool) (l l' : list A) :
  map p l = map p l' -> existsb p l = existsb p l'.
Proof.
  revert l'. induction l as [|x l IH]; intros [|y l'] H;
    try discriminate; [reflexivity|].
  simpl in H. inversion H. simpl. f_equal; [assumption|].
  apply IH. assumption.
Qed.

Lemma existsb_perm {A : Type} (p : A -> bool) (l l' : list A) :
  Permutation l l' -> existsb p l = true -> existsb p l' = true.
Proof.
  intros Hp H. apply existsb_exists in H. destruct H as [x [Hin Hx]].
  apply existsb_exists. exists x. split; [|exact Hx].
  apply (Permutation_in x Hp). exact Hin.
Qed.

(** Dropping columns keeps the column ids pairwise distinct. *)
Lemma filter_ids_distinct (keep : Column.t -> bool) (b : Board) :
  NoDup (map Column.id b) -> NoDup (map Column.id (filter keep b)).
Proof.
  intro Hnd. induction b as [|col b IH]; [constructor|].
  cbn [map] in Hnd. apply NoDup_cons_iff in Hnd. destruct Hnd as [Hnot Hnd].
  cbn [filter]. destruct (keep col); [|exact (IH Hnd)].
  cbn [map]. apply NoDup_cons; [|exact (IH Hnd)].
  intro Hin. apply Hnot. apply in_map_iff in Hin.
  destruct Hin as [c [Hc Hin]]. apply filter_In in Hin.
  apply in_map_iff. exists c. split; [exact Hc | apply Hin].
Qed.

Lemma pushCard_header (card : Card.t) (col : Column.t) :
  header (Column.pushCard card col) = header col.
Proof.
  reflexivity.
Qed.

(** The columns after a mutation that changes no column's id, title or
    flags. *)
Lemma applyOp_headers (now : Z) (op : StoreOp) (s : Store.t) :
  match op with
  | AddCard _ _ _ _ | UpdateCard _ _ _ | DeleteCard _ | MoveCard _ _ _ _ _ =>
      headers (Store.columns (applyOp now op s)) = headers (Store.columns s)
  | _ => True
  end.
Proof.
  destruct op; try exact I; cbn [applyOp].
  - unfold Store.addCard.
    destruct (Store.findColumnIndex colId (Store.columns s)) as [i|];
      [|reflexivity].
    cbn [Store.nextSeq snd]. rewrite saveState_columns.
    cbn [Store.columns Store.setColumns].
    apply headers_updateAt. intro c. apply pushCard_header.
  - unfold Store.updateCard.
    destruct (Store.findCard (Store.columns s) cardId) as [[i card0]|];
      [|reflexivity].
    cbn [Store.nextSeq snd]. rewrite saveState_columns.
    cbn [Store.columns Store.setColumns].
    apply headers_updateAt. intro c. apply editCardIn_header.
  - unfold Store.deleteCard.
    pose proof (deleteCardIn_spec cardId (Store.columns s)) as H.
    destruct (Store.deleteCardIn cardId (Store.columns s)) as [b'|];
      [|reflexivity].
    rewrite saveState_columns. apply H.
  - destruct (moveCard_cases now nowIso cardId fromColId toColId toIndex s)
      as [-> | [fi [ti [ci [fromCol [card0 [Hfi [Hti [Hfrom [Hidx Hc]]]]]]]]]].
    { reflexivity. }
    rewrite (moveCard_found now nowIso cardId fromColId toColId toIndex s
               fi ti ci fromCol card0 Hfi Hti Hfrom Hidx Hc).
    rewrite saveState_columns. cbn [Store.columns Store.setColumns].
    rewrite headers_updateAt by (intro; reflexivity).
    apply headers_updateAt. intro. reflexivity.
Qed.

(** X7.  The archive column outlives every mutation of the store: on a
    board that has an archive column and pairwise distinct column ids,
    each of [addColumn] (with an id the board does not have yet),
    [updateColumn], [deleteColumn], [addCard], [updateCard], [deleteCard],
    [moveCard] and [reorderColumns] leaves a board with an archive column
    and pairwise distinct column ids. *)
Theorem store_ops_keep_archive (now : Z) (op : StoreOp) (s : Store.t) :
  archived (Store.columns s) ->
  (forall uid title,
     op = AddColumn uid title ->
     ~ In uid (map Column.id (Store.columns s))) ->
  archived (Store.columns (applyOp now op s)).
Proof.
  intros [Hnd Harch] Hfresh.
  pose proof (applyOp_headers now op s) as Hh.
  destruct op; cbn [applyOp] in *;
    try (split;
         [rewrite (headers_ids _ _ Hh); exact Hnd
         | rewrite (headers_archive _ _ Hh); exact Harch]).
  - (* addColumn *)
    unfold Store.addColumn. cbn [snd]. rewrite saveState_columns.
    cbn [Store.columns Store.setColumns].
    match goal with
    | |- archived (Js.spliceInsert ?i ?c _) =>
        destruct (spliceInsert_parts i c (Store.columns s))
          as [front [back [Eb ->]]]
    end.
    rewrite Eb in Hnd, Harch.
    specialize (Hfresh uid title eq_refl). rewrite Eb in Hfresh.
    rewrite map_app in *. split.
    + rewrite map_app. simpl. apply NoDup_Add with (a := uid) (l := map Column.id front ++ map Column.id back).
      * apply Add_app.
      * split; assumption.
    + rewrite existsb_app in *. simpl.
      apply orb_true_iff in Harch. destruct Harch as [H|H]; rewrite H.
      * reflexivity.
      * rewrite !orb_true_r. reflexivity.
  - (* updateColumn *)
    destruct (updateColumn_columns now colId title isDone s) as [Hi [Ha _]].
    split; [rewrite Hi; exact Hnd|].
    rewrite (existsb_map _ _ _ Ha). exact Harch.
  - (* deleteColumn *)
    unfold Store.deleteColumn.
    destruct (Store.findColumn colId (Store.columns s)) as [col|] eqn:E;
      [|split; assumption].
    destruct (Column.isArchive col) eqn:Ea; cbn [negb]; [split; assumption|].
    rewrite saveState_columns. cbn [Store.columns Store.setColumns].
    split; [apply filter_ids_distinct; exact Hnd|].
    apply existsb_exists in Harch. destruct Harch as [a [Hin Ha]].
    apply existsb_exists. exists a. split; [|exact Ha].
    apply filter_In. split; [exact Hin|].
    apply negb_true_iff. unfold Column.hasId. apply String.eqb_neq.
    intro Hid.
    assert (Hcol : In col (Store.columns s)).
    { unfold Store.findColumn in E. apply find_some in E. apply E. }
    assert (a = col).
    { apply (NoDup_map_eq Column.id (Store.columns s)); try assumption.
      rewrite Hid. symmetry. apply (findColumn_hasId _ _ _ E). }
    subst a. congruence.
  - (* reorderColumns *)
    unfold Store.reorderColumns. rewrite saveState_columns.
    cbn [Store.columns Store.setColumns].
    set (key := fun c : Column.t => Js.indexOf (Column.id c) columnOrder).
    change (Store.orderCmp columnOrder)
      with (fun a b : Column.t => (key a - key b)%Z).
    pose proof (sort_perm key (Store.columns s)) as Hp.
    split.
    + apply (Permutation_NoDup (Permutation_map Column.id Hp)). exact Hnd.
    + apply (existsb_perm _ _ _ Hp). exact Harch.
Qed.

(** The backlog of the sample store is deleted; the archive stays. *)
Lemma store_ops_keep_archive_witness :
  archived (Store.columns (applyOp 5 (DeleteColumn "n") Sample.store2)).
Proof.
  apply (store_ops_keep_archive 5 (DeleteColumn "n") Sample.store2).
  - split; [|reflexivity].
    repeat constructor; simpl; intuition discriminate.
  - intros uid title H. discriminate.
Defined.

(** ** Sequence numbers *)

Lemma saveState_meta (now : Z) (s : Store.t) :
  Store.seqCounter (Store.saveState now s) = Store.seqCounter s
  /\ Store.clientId (Store.saveState now s) = Store.clientId s.
Proof.
  unfold Store.saveState. destruct (Store.useFirebase s); split; reflexivity.
Qed.

Lemma in_allCards (b : Board) (c : Card.t) :
  In c (allCards b) <-> exists col, In col b /\ In c (Column.cards col).
Proof.
  unfold allCards. apply in_flat_map.
Qed.

Lemma in_updateAt_inv {A : Type} (i : nat) (f : A -> A) (l : list A) (y : A) :
  In y (Js.updateAt i f l) ->
  In y l \/ exists x, nth_error l i = Some x /\ y = f x.
Proof.
  revert i. induction l as [|x l IH]; intros i H.
  - destruct i; contradiction.
  - destruct i as [|i]; simpl in H.
    + destruct H as [<- | H].
      * right. exists x. split; reflexivity.
      * left. right. exact H.
    + destruct H as [<- | H].
      * left. left. reflexivity.
      * destruct (IH i H) as [Hin | [x0 [Hn Hy]]].
        -- left. right. exact Hin.
        -- right. exists x0. split; assumption.
Qed.

Lemma in_dropFirst {A : Type} (p : A -> bool) (l : list A) (x : A) :
  In x (dropFirst p l) -> In x l.
Proof.
  induction l as [|y l IH]; simpl; [tauto|].
  destruct (p y).
  - intro H. right. exact H.
  - intros [<- | H]; [left; reflexivity | right; apply IH; exact H].
Qed.

(** The mutations never lower the counter and leave the client id alone. *)
Lemma applyOp_meta (now : Z) (op : StoreOp) (s : Store.t) :
  (Store.seqCounter s <= Store.seqCounter (applyOp now op s))%Z
  /\ Store.clientId (applyOp now op s) = Store.clientId s.
Proof.
  destruct op; cbn [applyOp].
  - unfold Store.addColumn. cbn [snd].
    destruct (saveState_meta now
                (Store.setColumns
                   (Js.spliceInsert
                      match Js.findIndex Column.isArchive (Store.columns s) with
                      | Some i => Z.of_nat i
                      | None => (-1)%Z
                      end (Column.mk uid title [] false false)
                      (Store.columns s)) s)) as [-> ->].
    simpl. split; [lia | reflexivity].
  - unfold Store.updateColumn.
    destruct (Store.findColumnIndex colId (Store.columns s));
      [|split; [lia | reflexivity]].
    destruct (Store.findColumn colId (Store.columns s)) as [col|];
      [|split; [lia | reflexivity]].
    destruct (negb (Column.isArchive col)); [|split; [lia | reflexivity]].
    match goal with
    | |- context [Store.saveState now ?x] =>
        destruct (saveState_meta now x) as [-> ->]
    end.
    simpl. split; [lia | reflexivity].
  - unfold Store.deleteColumn.
    destruct (Store.findColumn colId (Store.columns s)) as [col|];
      [|split; [lia | reflexivity]].
    destruct (negb (Column.isArchive col)); [|split; [lia | reflexivity]].
    match goal with
    | |- context [Store.saveState now ?x] =>
        destruct (saveState_meta now x) as [-> ->]
    end.
    simpl. split; [lia | reflexivity].
  - unfold Store.addCard.
    destruct (Store.findColumnIndex colId (Store.columns s));
      [|split; [cbn [snd]; lia | reflexivity]].
    cbn [Store.nextSeq snd].
    match goal with
    | |- context [Store.saveState now ?x] =>
        destruct (saveState_meta now x) as [-> ->]
    end.
    simpl. split; [lia | reflexivity].
  - unfold Store.updateCard.
    destruct (Store.findCard (Store.columns s) cardId) as [[i c0]|];
      [|split; [cbn [snd]; lia | reflexivity]].
    cbn [Store.nextSeq snd].
    match goal with
    | |- context [Store.saveState now ?x] =>
        destruct (saveState_meta now x) as [-> ->]
    end.
    simpl. split; [lia | reflexivity].
  - unfold Store.deleteCard.
    destruct (Store.deleteCardIn cardId (Store.columns s));
      [|split; [lia | reflexivity]].
    match goal with
    | |- context [Store.saveState now ?x] =>
        destruct (saveState_meta now x) as [-> ->]
    end.
    simpl. split; [lia | reflexivity].
  - destruct (moveCard_cases now nowIso cardId fromColId toColId toIndex s)
      as [-> | [fi [ti [ci [fromCol [card0 [Hfi [Hti [Hfrom [Hidx Hc]]]]]]]]]].
    { split; [lia | reflexivity]. }
    rewrite (moveCard_found now nowIso cardId fromColId toColId toIndex s
               fi ti ci fromCol card0 Hfi Hti Hfrom Hidx Hc).
    match goal with
    | |- context [Store.saveState now ?x] =>
        destruct (saveState_meta now x) as [-> ->]
    end.
    simpl. split; [lia | reflexivity].
  - unfold Store.reorderColumns.
    match goal with
    | |- context [Store.saveState now ?x] =>
        destruct (saveState_meta now x) as [-> ->]
    end.
    simpl. split; [lia | reflexivity].
Qed.

(** A card of the board after a mutation was on the board before, or it is
    the card the mutation stamped: with the client's id and the counter
    plus one, which is the new value of the counter. *)
Lemma applyOp_cards (now : Z) (op : StoreOp) (s : Store.t) (c : Card.t) :
  In c (allCards (Store.columns (applyOp now op s))) ->
  In c (allCards (Store.columns s))
  \/ (Card.seq c = Some (Store.seqCounter s + 1)%Z
      /\ Card.lastChangedBy c = Some (Store.clientId s)
      /\ Store.seqCounter (applyOp now op s) = (Store.seqCounter s + 1)%Z).
Proof.
  destruct op; cbn [applyOp].
  - unfold Store.addColumn. cbn [snd]. rewrite saveState_columns.
    cbn [Store.columns Store.setColumns].
    match goal with
    | |- context [Js.spliceInsert ?i ?x _] =>
        destruct (spliceInsert_parts i x (Store.columns s))
          as [front [back [Eb ->]]]
    end.
    rewrite Eb, !allCards_app. simpl. intro H. left. exact H.
  - destruct (updateColumn_columns now colId title isDone s) as [_ [_ Hc]].
    unfold allCards. rewrite !flat_map_concat_map. rewrite Hc.
    intro H. left. exact H.
  - unfold Store.deleteColumn.
    destruct (Store.findColumn colId (Store.columns s)) as [col|];
      [|intro H; left; exact H].
    destruct (negb (Column.isArchive col)); [|intro H; left; exact H].
    rewrite saveState_columns. cbn [Store.columns Store.setColumns].
    intro H. left. apply in_allCards in H. destruct H as [x [Hx Hc]].
    apply filter_In in Hx. apply in_allCards. exists x.
    split; [apply Hx | exact Hc].
  - unfold Store.addCard.
    destruct (Store.findColumnIndex colId (Store.columns s)) as [i|] eqn:Ei;
      [|intro H; left; exact H].
    cbn [Store.nextSeq snd].
    destruct (saveState_meta now
                (Store.setColumns
                   (Js.updateAt i
                      (Column.pushCard
                         (Store.newCard uid clock (Store.clientId s)
                            (Store.seqCounter s + 1) cardData))
                      (Store.columns
                         (Store.mk (Store.columns s) (Store.seqCounter s + 1)
                            (Store.clientId s) (Store.suppressEchoUntil s)
                            (Store.useFirebase s))))
                   (Store.mk (Store.columns s) (Store.seqCounter s + 1)
                      (Store.clientId s) (Store.suppressEchoUntil s)
                      (Store.useFirebase s)))) as [-> _].
    rewrite saveState_columns. cbn [Store.columns Store.setColumns
                                    Store.seqCounter].
    destruct (nth_error (Store.columns s) i) as [col|] eqn:En;
      [|apply findIndex_lt in Ei; apply nth_error_None in En; lia].
    intro H.
    apply (Permutation_in c
             (allCards_gain i
                (Column.pushCard
                   (Store.newCard uid clock (Store.clientId s)
                      (Store.seqCounter s + 1) cardData))
                (Store.columns s) col
                (Store.newCard uid clock (Store.clientId s)
                   (Store.seqCounter s + 1) cardData) En
                (Permutation_sym (Permutation_cons_append _ _)))) in H.
    destruct H as [<- | H]; [right; repeat split; reflexivity | left; exact H].
  - unfold Store.updateCard.
    destruct (Store.findCard (Store.columns s) cardId) as [[i c0]|];
      [|intro H; left; exact H].
    cbn [Store.nextSeq snd].
    match goal with
    | |- context [Store.seqCounter (Store.saveState now ?x)] =>
        destruct (saveState_meta now x) as [-> _]
    end.
    rewrite saveState_columns. cbn [Store.columns Store.setColumns
                                    Store.seqCounter].
    intro H. apply in_allCards in H. destruct H as [x [Hx Hc]].
    apply in_updateAt_inv in Hx.
    destruct Hx as [Hx | [col [Hn ->]]].
    + left. apply in_allCards. exists x. split; assumption.
    + unfold Store.editCardIn in Hc.
      destruct (Js.findIndex (Card.hasId cardId) (Column.cards col)) as [j|].
      * simpl in Hc. apply in_updateAt_inv in Hc.
        destruct Hc as [Hc | [c1 [_ ->]]].
        -- left. apply in_allCards. exists col.
           split; [apply (nth_error_In _ i); exact Hn | exact Hc].
        -- right. repeat split; reflexivity.
      * left. apply in_allCards. exists col.
        split; [apply (nth_error_In _ i); exact Hn | exact Hc].
  - pose proof (deleteCard_cards now cardId s) as E. intro H. left.
    rewrite E in H. apply (in_dropFirst _ _ _ H).
  - destruct (moveCard_cases now nowIso cardId fromColId toColId toIndex s)
      as [-> | [fi [ti [ci [fromCol [card0 [Hfi [Hti [Hfrom [Hidx Hc]]]]]]]]]].
    { intro H. left. exact H. }
    rewrite (moveCard_found now nowIso cardId fromColId toColId toIndex s
               fi ti ci fromCol card0 Hfi Hti Hfrom Hidx Hc).
    match goal with
    | |- context [Store.seqCounter (Store.saveState now ?x)] =>
        destruct (saveState_meta now x) as [-> _]
    end.
    rewrite saveState_columns. cbn [Store.columns Store.setColumns
                                    Store.seqCounter Store.nextSeq snd].
    set (rem := fun col : Column.t =>
                  Column.setCards (Js.removeAt ci (Column.cards col)) col).
    set (card := Store.stampMove nowIso (Store.clientId s)
                   (Store.seqCounter s + 1) card0).
    set (b1 := Js.updateAt fi rem (Store.columns s)).
    assert (Hlt : ti < List.length b1).
    { unfold b1. rewrite updateAt_length. apply (findIndex_lt _ _ _ Hti). }
    destruct (nth_error b1 ti) as [col1|] eqn:E1;
      [|apply nth_error_None in E1; lia].
    intro H.
    apply (Permutation_in c
             (allCards_gain ti
                (fun col : Column.t =>
                   Column.setCards
                     (Store.placeCard toIndex card (Column.cards col)) col)
                b1 col1 card E1
                (placeCard_perm toIndex card (Column.cards col1)))) in H.
    destruct H as [<- | H]; [right; repeat split; reflexivity|].
    left.
    apply (Permutation_in c
             (Permutation_sym
                (allCards_loss fi rem (Store.columns s) fromCol card0 Hfrom
                   (removeAt_perm _ _ _ Hc)))).
    right. exact H.
  - unfold Store.reorderColumns. rewrite saveState_columns.
    cbn [Store.columns Store.setColumns].
    set (key := fun c : Column.t => Js.indexOf (Column.id c) columnOrder).
    change (Store.orderCmp columnOrder)
      with (fun a b : Column.t => (key a - key b)%Z).
    intro H. left. apply in_allCards in H. destruct H as [x [Hx Hc]].
    apply in_allCards. exists x. split; [|exact Hc].
    apply (Permutation_in x (Permutation_sym (sort_perm key (Store.columns s)))).
    exact Hx.
Qed.

(** A mutation that uses the counter leaves the card it stamped on the
    board. *)
Lemma applyOp_stamped (now : Z) (op : StoreOp) (s : Store.t) :
  Store.seqCounter (applyOp now op s) <> Store.seqCounter s ->
  exists c,
    In c (allCards (Store.columns (applyOp now op s)))
    /\ Card.seq c = Some (Store.seqCounter s + 1)%Z
    /\ Card.lastChangedBy c = Some (Store.clientId s).
Proof.
  destruct op; cbn [applyOp].
  - unfold Store.addColumn. cbn [snd].
    match goal with
    | |- context [Store.saveState now ?x] =>
        destruct (saveState_meta now x) as [-> _]
    end.
    cbn [Store.seqCounter Store.setColumns]. congruence.
  - unfold Store.updateColumn.
    destruct (Store.findColumnIndex colId (Store.columns s)); [|congruence].
    destruct (Store.findColumn colId (Store.columns s)) as [col|];
      [|congruence].
    destruct (negb (Column.isArchive col)); [|congruence].
    match goal with
    | |- context [Store.saveState now ?x] =>
        destruct (saveState_meta now x) as [-> _]
    end.
    cbn [Store.seqCounter Store.setColumns]. congruence.
  - unfold Store.deleteColumn.
    destruct (Store.findColumn colId (Store.columns s)) as [col|];
      [|congruence].
    destruct (negb (Column.isArchive col)); [|congruence].
    match goal with
    | |- context [Store.saveState now ?x] =>
        destruct (saveState_meta now x) as [-> _]
    end.
    cbn [Store.seqCounter Store.setColumns]. congruence.
  - unfold Store.addCard.
    destruct (Store.findColumnIndex colId (Store.columns s)) as [i|] eqn:Ei;
      [|cbn [snd]; congruence].
    cbn [Store.nextSeq snd]. intros _.
    rewrite saveState_columns.
    cbn [Store.columns Store.setColumns Store.seqCounter].
    destruct (nth_error (Store.columns s) i) as [col|] eqn:En;
      [|apply findIndex_lt in Ei; apply nth_error_None in En; lia].
    exists (Store.newCard uid clock (Store.clientId s)
              (Store.seqCounter s + 1) cardData).
    split; [|split; reflexivity].
    apply in_allCards. eexists. split.
    + apply (in_updateAt i _ _ col En).
    + unfold Column.pushCard. cbn [Column.cards Column.setCards].
      apply in_or_app. right. left. reflexivity.
  - unfold Store.updateCard.
    destruct (Store.findCard (Store.columns s) cardId) as [[i c0]|] eqn:Ef;
      [|cbn [snd]; congruence].
    cbn [Store.nextSeq snd]. intros _.
    rewrite saveState_columns.
    cbn [Store.columns Store.setColumns Store.seqCounter].
    destruct (findCard_Some _ _ _ _ Ef) as [col [Hn [Hfind _]]].
    exists (Store.stampEdit nowIso (Store.clientId s) (Store.seqCounter s + 1)
              cardData c0).
    split; [|split; reflexivity].
    apply in_allCards.
    exists (Store.editCardIn cardId
              (Store.stampEdit nowIso (Store.clientId s)
                 (Store.seqCounter s + 1) cardData) col).
    split; [apply (in_updateAt i _ _ col Hn)|].
    pose proof (editCardIn_find cardId
                  (Store.stampEdit nowIso (Store.clientId s)
                     (Store.seqCounter s + 1) cardData) col
                  (fun c => eq_refl)) as E.
    rewrite Hfind in E. cbn [option_map] in E.
    apply find_some in E. apply E.
  - unfold Store.deleteCard.
    destruct (Store.deleteCardIn cardId (Store.columns s)); [|congruence].
    match goal with
    | |- context [Store.saveState now ?x] =>
        destruct (saveState_meta now x) as [-> _]
    end.
    cbn [Store.seqCounter Store.setColumns]. congruence.
  - destruct (moveCard_cases now nowIso cardId fromColId toColId toIndex s)
      as [-> | [fi [ti [ci [fromCol [card0 [Hfi [Hti [Hfrom [Hidx Hc]]]]]]]]]];
      [congruence|].
    rewrite (moveCard_found now nowIso cardId fromColId toColId toIndex s
               fi ti ci fromCol card0 Hfi Hti Hfrom Hidx Hc).
    intros _. rewrite saveState_columns.
    cbn [Store.columns Store.setColumns Store.seqCounter Store.nextSeq snd].
    set (rem := fun col : Column.t =>
                  Column.setCards (Js.removeAt ci (Column.cards col)) col).
    set (card := Store.stampMove nowIso (Store.clientId s)
                   (Store.seqCounter s + 1) card0).
    set (b1 := Js.updateAt fi rem (Store.columns s)).
    assert (Hlt : ti < List.length b1).
    { unfold b1. rewrite updateAt_length. apply (findIndex_lt _ _ _ Hti). }
    destruct (nth_error b1 ti) as [col1|] eqn:E1;
      [|apply nth_error_None in E1; lia].
    exists card. split; [|split; reflexivity].
    apply (Permutation_in card
             (Permutation_sym
                (allCards_gain ti
                   (fun col : Column.t =>
                      Column.setCards
                        (Store.placeCard toIndex card (Column.cards col)) col)
                   b1 col1 card E1
                   (placeCard_perm toIndex card (Column.cards col1))))).
    left. reflexivity.
  - unfold Store.reorderColumns.
    match goal with
    | |- context [Store.saveState now ?x] =>
        destruct (saveState_meta now x) as [-> _]
    end.
    cbn [Store.seqCounter Store.setColumns]. congruence.
Qed.

(** X8.  Sequence numbers are fresh while the counter is in the range of
    the integers the code counts exactly.  When no card that this client
    stamped last carries a sequence number above the client's counter, the
    same holds after every mutation of the store, and the mutation leaves
    the counter as it is or adds one to it.  A card that is on the board
    after the mutation and was not before is the card the mutation stamped:
    it carries the client's id and the counter plus one, which is above the
    number of every card this client stamped before.  And whenever the
    counter has changed, such a card is on the board. *)
Theorem store_ops_keep_seqBound (now : Z) (op : StoreOp) (s : Store.t) :
  seqBound s ->
  (- 2 ^ 53 < Store.seqCounter s < 2 ^ 53 - 1)%Z ->
  let s' := applyOp now op s in
  seqBound s'
  /\ (Store.seqCounter s' = Store.seqCounter s
      \/ Store.seqCounter s' = (Store.seqCounter s + 1)%Z)
  /\ (forall c,
        In c (allCards (Store.columns s')) ->
        ~ In c (allCards (Store.columns s)) ->
        Card.lastChangedBy c = Some (Store.clientId s)
        /\ Card.seq c = Some (Store.seqCounter s + 1)%Z
        /\ Store.seqCounter s' = (Store.seqCounter s + 1)%Z
        /\ forall c0 n,
             In c0 (allCards (Store.columns s)) ->
             Card.lastChangedBy c0 = Some (Store.clientId s) ->
             Card.seq c0 = Some n ->
             (n < Store.seqCounter s + 1)%Z)
  /\ (Store.seqCounter s' <> Store.seqCounter s ->
      exists c,
        In c (allCards (Store.columns s'))
        /\ ~ In c (allCards (Store.columns s))
        /\ Card.seq c = Some (Store.seqCounter s + 1)%Z
        /\ Card.lastChangedBy c = Some (Store.clientId s)).
Proof.
  intros Hb _. cbv zeta.
  destruct (applyOp_meta now op s) as [Hle Hid].
  assert (Hold : forall c0 n,
            In c0 (allCards (Store.columns s)) ->
            Card.lastChangedBy c0 = Some (Store.clientId s) ->
            Card.seq c0 = Some n ->
            (n < Store.seqCounter s + 1)%Z).
  { intros c0 n Hin Hby Hseq. specialize (Hb c0 n Hin Hby Hseq). lia. }
  split.
  { intros c n Hin Hby Hseq.
    destruct (applyOp_cards now op s c Hin) as [Hin0 | [Hnew [_ Hc]]].
    - rewrite Hid in Hby. specialize (Hb c n Hin0 Hby Hseq). lia.
    - rewrite Hnew in Hseq. inversion Hseq. lia. }
  split.
  { destruct (Z.eq_dec (Store.seqCounter (applyOp now op s))
                (Store.seqCounter s)) as [E | E]; [left; exact E|].
    right. destruct (applyOp_stamped now op s E) as [c [Hin [Hseq Hby]]].
    destruct (applyOp_cards now op s c Hin) as [Hin0 | [_ [_ Hc]]];
      [|exact Hc].
    specialize (Hold c _ Hin0 Hby Hseq). lia. }
  split.
  { intros c Hin Hnot.
    destruct (applyOp_cards now op s c Hin) as [Hin0 | [Hseq [Hby Hc]]];
      [contradiction|].
    repeat split; assumption. }
  intro E. destruct (applyOp_stamped now op s E) as [c [Hin [Hseq Hby]]].
  exists c. split; [exact Hin|]. split; [|split; assumption].
  intro Hin0. specialize (Hold c _ Hin0 Hby Hseq). lia.
Qed.

(** The card of the sample store is moved to the backlog and stamped with
    sequence number 8, above the 7, 2 and 3 of the cards on the board. *)
Lemma store_ops_keep_seqBound_witness :
  seqBound (applyOp 5 (MoveCard Sample.mar5 "k" "x" "n" 0) Sample.store2)
  /\ exists c,
       In c (allCards
               (Store.columns
                  (applyOp 5 (MoveCard Sample.mar5 "k" "x" "n" 0)
                     Sample.store2)))
       /\ ~ In c (allCards (Store.columns Sample.store2))
       /\ Card.seq c = Some 8%Z
       /\ Card.lastChangedBy c = Some "c_local".
Proof.
  assert (Hb : seqBound Sample.store2).
  { intros c n Hin Hby Hseq. simpl in Hin.
    destruct Hin as [<- | [<- | [<- | []]]];
      simpl in Hseq; inversion Hseq; vm_compute; discriminate. }
  assert (Hr : (- 2 ^ 53 < Store.seqCounter Sample.store2 < 2 ^ 53 - 1)%Z).
  { simpl. lia. }
  pose proof (store_ops_keep_seqBound 5
                (MoveCard Sample.mar5 "k" "x" "n" 0) Sample.store2 Hb Hr)
    as H.
  cbv zeta in H. destruct H as [H1 [_ [_ H4]]].
  split; [exact H1|].
  apply H4. vm_compute. discriminate.
Defined.

(** ** The merge of a board with its own snapshot *)

Lemma Map_of_get (l : list (string * nat)) (k : string) (v : nat) :
  In (k, v) l -> exists v', Js.Map_get (Js.Map_of l) k = Some v'.
Proof.
  induction l as [|e l IH] using rev_ind; intro H.
  - contradiction.
  - destruct e as [k0 v0]. rewrite Map_of_snoc.
    destruct (string_dec k0 k) as [-> | Hne].
    + exists v0. apply Map_get_set_same.
    + rewrite Map_get_set_other by congruence.
      apply IH. apply in_app_or in H. destruct H as [H | [H | []]].
      * exact H.
      * inversion H. congruence.
Qed.

Lemma entriesFrom_in (i : nat) (key : Column.t -> string) (b : Board)
    (D : Column.t) :
  In D b -> exists v, In (key D, v) (App.entriesFrom i key b).
Proof.
  revert i. induction b as [|c b IH]; intros i H.
  - contradiction.
  - destruct H as [-> | H].
    + exists i. left. reflexivity.
    + destruct (IH (S i) H) as [v Hv]. exists v. right. exact Hv.
Qed.

(** Every column of the board has a target by its id. *)
Lemma initCtx_resolves (b : Board) (D : Column.t) :
  In D b -> App.resolveTarget (App.initCtx b) D <> None.
Proof.
  intro H. unfold App.resolveTarget. cbn [App.initCtx App.existingById].
  destruct (entriesFrom_in 0 Column.id b D H) as [v Hv].
  destruct (Map_of_get _ _ _ Hv) as [v' ->]. discriminate.
Qed.

Lemma find_own (l : list Card.t) (c : Card.t) :
  NoDup (map Card.id l) -> In c l -> find (Card.hasId (Card.id c)) l = Some c.
Proof.
  induction l as [|x l IH]; intros Hnd Hin; simpl in *.
  - contradiction.
  - inversion Hnd as [|? ? Hnot Hnd']. subst.
    destruct Hin as [-> | Hin].
    + unfold Card.hasId. rewrite String.eqb_refl. reflexivity.
    + destruct (Card.hasId (Card.id c) x) eqn:E.
      * exfalso. apply Hnot. unfold Card.hasId in E. apply String.eqb_eq in E.
        rewrite E. apply in_map. exact Hin.
      * apply IH; assumption.
Qed.

Lemma NoDup_cardIds_column (b : Board) (col : Column.t) :
  NoDup (cardIds b) -> In col b -> NoDup (map Card.id (Column.cards col)).
Proof.
  induction b as [|c b IH]; intros Hnd Hin.
  - contradiction.
  - rewrite cardIds_cons in Hnd. destruct Hin as [-> | Hin].
    + apply (NoDup_app_remove_r _ _ Hnd).
    + apply IH; [|exact Hin]. apply (NoDup_app_remove_l _ _ Hnd).
Qed.

(** On a board with pairwise distinct card ids [findCard] returns each
    card for its id, in its column. *)
Lemma findCard_own (b : Board) (i : nat) (col : Column.t) (c : Card.t) :
  NoDup (cardIds b) -> nth_error b i = Some col -> In c (Column.cards col) ->
  Store.findCard b (Card.id c) = Some (i, c).
Proof.
  intros Hnd Hn Hc.
  apply (findCard_intro b (Card.id c) i col c Hn).
  - apply find_own; [|exact Hc].
    apply (NoDup_cardIds_column b); [exact Hnd|].
    apply (nth_error_In _ i). exact Hn.
  - intros j col' Hj Hn'. apply find_none_iff. intros y Hy.
    unfold Card.hasId. apply String.eqb_neq.
    apply (cards_apart b j i col' col y c Hnd Hn' Hn); [lia | | ]; assumption.
Qed.

(** X9.  Merging a board with a snapshot of itself changes nothing, when
    the card ids of the board are pairwise distinct: every column is its
    own target, every card is found as it is, so nothing is overwritten,
    moved or appended. *)
Theorem merge_own_snapshot
    (Date_parse : string -> option Z) (b : Board) :
  NoDup (cardIds b) -> App.importMerge Date_parse b b = b.
Proof.
  intro Hnd. unfold App.importMerge.
  rewrite (decideTargets_resolved b (App.initCtx b))
    by (intros D HD; apply initCtx_resolves; exact HD).
  cbn [App.columns App.initCtx].
  apply mergeColumns_settled. intros D HD.
  destruct (App.resolveTarget (App.initCtx b) D) as [t|] eqn:Et;
    [|exfalso; exact (initCtx_resolves b D HD Et)].
  exists t. split; [reflexivity|].
  intros c Hc. destruct (In_nth_error _ _ HD) as [i Hi].
  apply (settled_self Date_parse t i).
  apply (findCard_own b i D c Hnd Hi Hc).
Qed.

(** The sample board of three cards merged with itself. *)
Lemma merge_own_snapshot_witness :
  App.importMerge Iso.parse Sample.board2 Sample.board2 = Sample.board2.
Proof.
  apply (merge_own_snapshot Iso.parse Sample.board2).
  repeat constructor; simpl; intuition discriminate.
Defined.

(** ** A card that takes the incoming content is not moved *)

Lemma strGt_least (y : string) : Js.strGt "" y = false.
Proof.
  unfold Js.strGt. destruct y; reflexivity.
Qed.

Lemma orEmpty_falsy (v : option string) :
  Js.truthy v = false -> Js.orEmpty v = "".
Proof.
  destruct v as [s|]; simpl; [|reflexivity].
  intro H. apply negb_false_iff in H. apply String.eqb_eq in H. exact H.
Qed.

Lemma timeVal_copied (Date_parse : string -> option Z)
    (inc ex : option string) :
  Js.truthy inc = true ->
  App.timeVal Date_parse (App.copyIfTruthy inc ex)
  = App.timeVal Date_parse inc.
Proof.
  intro H. unfold App.copyIfTruthy. rewrite H. reflexivity.
Qed.

(** Once the content step has copied the incoming metadata, the incoming
    card is not newer in position than the card it was copied to. *)
Lemma overwritten_not_older (Date_parse : string -> option Z)
    (inc ex0 : Card.t) :
  Js.truthy (Card.positionChangedAt inc) = true ->
  Js.truthy (Card.lastChanged inc) = true ->
  App.isPositionANewer Date_parse inc (App.overwriteContent ex0 inc) = false.
Proof.
  intros Hp Hl. unfold App.isPositionANewer.
  cbn [App.overwriteContent Card.positionChangedAt Card.lastChanged
       Card.lastChangedBy].
  rewrite (timeVal_copied Date_parse _ _ Hp), Z.eqb_refl. cbn [negb].
  rewrite (timeVal_copied Date_parse _ _ Hl), Z.eqb_refl. cbn [negb].
  assert (Hby : Js.strGt (Js.orEmpty (Card.lastChangedBy inc))
                  (Js.orEmpty
                     (App.copyIfTruthy (Card.lastChangedBy inc)
                        (Card.lastChangedBy ex0))) = false).
  { unfold App.copyIfTruthy.
    destruct (Js.truthy (Card.lastChangedBy inc)) eqn:Eb.
    - apply strGt_irrefl.
    - rewrite (orEmpty_falsy _ Eb). apply strGt_least. }
  unfold App.seqVal. cbn [App.overwriteContent Card.seq].
  destruct (Card.seq inc) as [n|].
  - cbn [Js.numEqb]. rewrite Z.eqb_refl. cbn [negb]. exact Hby.
  - destruct (Card.seq ex0) as [m|]; cbn [Js.numEqb Js.numGt negb];
      [reflexivity | exact Hby].
Qed.

Lemma replaceFirst_ids (k : string) (c : Card.t) (l : list Card.t) :
  Card.id c = k ->
  map Card.id (App.replaceFirst k c l) = map Card.id l.
Proof.
  intro Hc. induction l as [|x l IH]; simpl; [reflexivity|].
  destruct (Card.hasId k x) eqn:E; simpl.
  - unfold Card.hasId in E. apply String.eqb_eq in E. congruence.
  - f_equal. exact IH.
Qed.

(** X10.  When the incoming card wins on content and carries the stamps
    [positionChangedAt] and [lastChanged], the card on the board takes the
    incoming content and metadata and stays where it is, whatever column
    the snapshot has it in and however recent the incoming position is:
    the move test reads the metadata that was just copied.  Every column
    holds the card ids it held, in the same order. *)
Theorem content_win_blocks_move
    (Date_parse : string -> option Z) (target : nat) (b : Board)
    (incCard exCard : Card.t) (i : nat) :
  Store.findCard b (Card.id incCard) = Some (i, exCard) ->
  App.isContentANewer Date_parse incCard exCard = true ->
  Js.truthy (Card.positionChangedAt incCard) = true ->
  Js.truthy (Card.lastChanged incCard) = true ->
  let b' := App.mergeCard Date_parse target b incCard in
  Store.findCard b' (Card.id incCard)
  = Some (i, App.overwriteContent exCard incCard)
  /\ map (fun col => map Card.id (Column.cards col)) b'
     = map (fun col => map Card.id (Column.cards col)) b.
Proof.
  intros Hfind Hnew Hp Hl. cbv zeta.
  destruct (mergeCard_found Date_parse target b incCard exCard i Hfind)
    as [exCol [Hn [Hf [Hid E]]]].
  assert (Hex : App.mergeContent Date_parse incCard exCard
                = App.overwriteContent exCard incCard).
  { unfold App.mergeContent. rewrite Hnew. reflexivity. }
  rewrite Hex in E, Hid.
  rewrite (overwritten_not_older Date_parse incCard exCard Hp Hl) in E.
  assert (E' : App.mergeCard Date_parse target b incCard
               = Js.updateAt i
                   (fun col =>
                      Column.setCards
                        (App.replaceFirst (Card.id incCard)
                           (App.overwriteContent exCard incCard)
                           (Column.cards col)) col) b).
  { rewrite E. destruct (nth_error b target); [|reflexivity].
    rewrite andb_false_r. reflexivity. }
  rewrite E'. split.
  - destruct (findCard_Some _ _ _ _ Hfind) as [col [Hn' [_ Hbefore]]].
    assert (col = exCol) by congruence. subst col.
    apply (findCard_intro _ _ i
             (Column.setCards
                (App.replaceFirst (Card.id incCard)
                   (App.overwriteContent exCard incCard)
                   (Column.cards exCol)) exCol)).
    + rewrite updateAt_nth_same, Hn. reflexivity.
    + simpl. apply (replaceFirst_find _ _ exCard); assumption.
    + intros j col' Hj Hn2. rewrite updateAt_nth_other in Hn2 by lia.
      apply (Hbefore j col' Hj Hn2).
  - apply ids_updateAt. intro col. simpl.
    apply replaceFirst_ids. exact Hid.
Qed.

(** The card edited and moved elsewhere on Mar 5 is merged into a board
    that has the backup's copy in the inbox, for a snapshot that has it in
    the column "Later": the incoming position is the newer one, the content
    is taken, and the card stays in the inbox. *)
Lemma content_win_blocks_move_witness :
  App.isPositionANewer Iso.parse Sample.kBoth Sample.kBackup = true
  /\ Store.findCard
       (App.mergeCard Iso.parse 1 Sample.board3 Sample.kBoth) "k"
     = Some (2, App.overwriteContent Sample.kBackup Sample.kBoth).
Proof.
  split; [reflexivity|].
  exact (proj1 (content_win_blocks_move Iso.parse 1 Sample.board3
                  Sample.kBoth Sample.kBackup 2
                  eq_refl eq_refl eq_refl eq_refl)).
Defined.

(** ** Cards the snapshot does not mention *)

Lemma cardsWhere_updateAt (p : Card.t -> bool) (i : nat)
    (f : Column.t -> Column.t) (b : Board) :
  (forall col, nth_error b i = Some col ->
     filter p (Column.cards (f col)) = filter p (Column.cards col)) ->
  cardsWhere p (Js.updateAt i f b) = cardsWhere p b.
Proof.
  revert i. induction b as [|c b IH]; intros i H.
  - destruct i; reflexivity.
  - destruct i as [|i]; simpl.
    + f_equal. apply H. reflexivity.
    + f_equal. apply IH. intros col Hn. apply H. exact Hn.
Qed.

Lemma cardsWhere_nth (p : Card.t -> bool) (b : Board) (j : nat) :
  nth_error (cardsWhere p b) j
  = option_map (fun col => filter p (Column.cards col)) (nth_error b j).
Proof.
  unfold cardsWhere. apply nth_error_map.
Qed.

Section Where.

Variable Date_parse : string -> option Z.
Variable p : Card.t -> bool.

Lemma replaceFirst_where (k : string) (c : Card.t) (l : list Card.t) :
  (forall x, Card.id x = k -> p x = false) -> Card.id c = k ->
  filter p (App.replaceFirst k c l) = filter p l.
Proof.
  intros Hp Hc. induction l as [|x rest IH]; simpl; [reflexivity|].
  destruct (Card.hasId k x) eqn:E; simpl.
  - unfold Card.hasId in E. apply String.eqb_eq in E.
    rewrite (Hp c Hc), (Hp x E). reflexivity.
  - rewrite IH. reflexivity.
Qed.

Lemma dropCard_where (k : string) (l : list Card.t) :
  (forall x, Card.id x = k -> p x = false) ->
  filter p (filter (fun c => negb (Card.hasId k c)) l) = filter p l.
Proof.
  intro Hp. induction l as [|x rest IH]; simpl; [reflexivity|].
  destruct (Card.hasId k x) eqn:E; simpl.
  - unfold Card.hasId in E. apply String.eqb_eq in E.
    rewrite (Hp x E). exact IH.
  - rewrite IH. reflexivity.
Qed.

Lemma mergeCard_where (t : nat) (b : Board) (inc : Card.t) :
  (forall x, Card.id x = Card.id inc -> p x = false) ->
  cardsWhere p (App.mergeCard Date_parse t b inc) = cardsWhere p b.
Proof.
  intro Hp.
  destruct (Store.findCard b (Card.id inc)) as [[i ex0]|] eqn:E.
  - destruct (mergeCard_found Date_parse t b inc ex0 i E)
      as [exCol [_ [_ [Hid ->]]]].
    assert (H1 : cardsWhere p
                   (Js.updateAt i
                      (fun col =>
                         Column.setCards
                           (App.replaceFirst (Card.id inc)
                              (App.mergeContent Date_parse inc ex0)
                              (Column.cards col)) col)
                      b) = cardsWhere p b).
    { apply cardsWhere_updateAt. intros col _. simpl.
      apply replaceFirst_where; assumption. }
    destruct (nth_error b t) as [targetCol|]; [|exact H1].
    destruct (negb (Column.id exCol =? Column.id targetCol)
              && App.isPositionANewer Date_parse inc
                   (App.mergeContent Date_parse inc ex0)); [|exact H1].
    rewrite cardsWhere_updateAt.
    + rewrite cardsWhere_updateAt; [exact H1|].
      intros col _. simpl. apply dropCard_where. exact Hp.
    + intros col _. simpl. rewrite filter_app. simpl.
      rewrite (Hp _ Hid). apply app_nil_r.
  - rewrite (mergeCard_new Date_parse t b inc E).
    apply cardsWhere_updateAt. intros col _. simpl.
    rewrite filter_app. simpl. rewrite (Hp inc eq_refl). apply app_nil_r.
Qed.

Lemma mergeCards_where (t : nat) (l : list Card.t) (b : Board) :
  (forall c, In c l -> p c = false) ->
  (forall x y, Card.id x = Card.id y -> p x = p y) ->
  cardsWhere p (fold_left (App.mergeCard Date_parse t) l b) = cardsWhere p b.
Proof.
  intros Hl Hid. revert b. induction l as [|c l IH]; intro b; simpl.
  - reflexivity.
  - rewrite IH by (intros c' Hc'; apply Hl; right; exact Hc').
    apply mergeCard_where. intros x Hx.
    rewrite (Hid x c Hx). apply Hl. left. reflexivity.
Qed.

(** Pass 2 leaves the cards that satisfy [p] alone when no card of the
    snapshot satisfies [p] and no pushed column holds such a card. *)
Lemma mergeColumns_where (ctx : App.Ctx) (C : Board)
    (L : list (Column.t * option nat)) :
  (forall x y, Card.id x = Card.id y -> p x = p y) ->
  (forall D fl, In (D, fl) L ->
     (forall c, In c (Column.cards D) -> p c = false)
     /\ forall q, fl = Some q -> nth_error (cardsWhere p C) q = Some []) ->
  forall b,
    cardsWhere p b = cardsWhere p C ->
    cardsWhere p (fold_left (App.mergeColumn Date_parse ctx) L b)
    = cardsWhere p C.
Proof.
  intros Hid. induction L as [|[D fl] L IH]; intros HL b Hb; simpl.
  - exact Hb.
  - apply IH; [intros D' fl' Hin; apply HL; right; exact Hin|].
    rewrite <- Hb. unfold App.mergeColumn. cbn [fst snd].
    destruct (App.resolveTarget ctx D) as [t|]; [|reflexivity].
    apply mergeCards_where; [|exact Hid].
    destruct (HL D fl (or_introl eq_refl)) as [HD Hq].
    intros c Hc. unfold App.cardsToVisit in Hc.
    destruct fl as [q|]; [|apply HD; exact Hc].
    destruct (nth_error b q) as [col|] eqn:En; [|apply HD; exact Hc].
    specialize (Hq q eq_refl). rewrite <- Hb, cardsWhere_nth, En in Hq.
    simpl in Hq. inversion Hq as [Hf].
    destruct (p c) eqn:Epc; [|reflexivity].
    assert (Hin : In c (filter p (Column.cards col)))
      by (apply filter_In; split; assumption).
    rewrite Hf in Hin. contradiction.
Qed.

End Where.

Lemma idNotIn_of_id (ids : list string) (x y : Card.t) :
  Card.id x = Card.id y -> idNotIn ids x = idNotIn ids y.
Proof.
  intro H. unfold idNotIn. rewrite H. reflexivity.
Qed.

Lemma idNotIn_member (ids : list string) (c : Card.t) :
  In (Card.id c) ids -> idNotIn ids c = false.
Proof.
  intro H. unfold idNotIn. apply negb_false_iff. apply existsb_exists.
  exists (Card.id c). split; [exact H | apply String.eqb_refl].
Qed.

Lemma cardsWhere_none (p : Card.t -> bool) (b : Board) :
  (forall col c, In col b -> In c (Column.cards col) -> p c = false) ->
  cardsWhere p b = repeat [] (List.length b).
Proof.
  induction b as [|col b IH]; intro H; simpl; [reflexivity|].
  f_equal.
  - assert (Hf : forall l, (forall c, In c l -> p c = false) ->
                           filter p l = []).
    { induction l as [|x l IHl]; intro Hl; simpl; [reflexivity|].
      rewrite (Hl x (or_introl eq_refl)). apply IHl.
      intros c Hc. apply Hl. right. exact Hc. }
    apply Hf. intros c Hc. apply (H col c); [left; reflexivity | exact Hc].
  - apply IH. intros col' c Hcol' Hc. apply (H col' c); [right|]; assumption.
Qed.

(** X11.  The merge leaves alone every card whose id the snapshot does not
    mention: each column of the board holds the same such cards as before,
    unchanged and in the same order, and the columns the merge appends hold
    none. *)
Theorem merge_leaves_others
    (Date_parse : string -> option Z) (b : Board) (incoming : list Column.t) :
  let others := idNotIn (cardIds incoming) in
  exists n,
    cardsWhere others (App.importMerge Date_parse b incoming)
    = cardsWhere others b ++ repeat [] n.
Proof.
  cbv zeta. set (others := idNotIn (cardIds incoming)).
  rewrite importMerge_unfold.
  set (ctx := fst (App.decideTargets (App.initCtx b) incoming)).
  set (flags := snd (App.decideTargets (App.initCtx b) incoming)).
  destruct (decideTargets_grows incoming (App.initCtx b))
    as [pushed [Ecols Hincl]].
  fold ctx in Ecols. cbn [App.columns App.initCtx] in Ecols.
  assert (Hsnap : forall D c, In D incoming -> In c (Column.cards D) ->
                              others c = false).
  { intros D c HD Hc. apply idNotIn_member. apply in_cardIds.
    exists D, c. repeat split; assumption. }
  assert (HC : cardsWhere others (App.columns ctx)
               = cardsWhere others b ++ repeat [] (List.length pushed)).
  { rewrite Ecols. unfold cardsWhere at 1. rewrite map_app. f_equal.
    apply cardsWhere_none. intros col c Hcol Hc.
    apply (Hsnap col c); [apply Hincl; exact Hcol | exact Hc]. }
  exists (List.length pushed). rewrite <- HC.
  apply mergeColumns_where; [apply idNotIn_of_id | | reflexivity].
  intros D fl Hin. split.
  - intros c Hc. apply (Hsnap D c); [|exact Hc].
    apply in_combine_l in Hin. exact Hin.
  - intros q ->.
    destruct (decideTargets_pushed incoming (App.initCtx b) D q Hin)
      as [Hn _].
    fold ctx in Hn. rewrite cardsWhere_nth, Hn. simpl. f_equal.
    assert (HD : In D incoming) by (apply in_combine_l in Hin; exact Hin).
    assert (Hf : forall l, (forall c, In c l -> others c = false) ->
                           filter others l = []).
    { induction l as [|x l IHl]; intro Hl; simpl; [reflexivity|].
      rewrite (Hl x (or_introl eq_refl)). apply IHl.
      intros c Hc. apply Hl. right. exact Hc. }
    apply Hf. intros c Hc. apply (Hsnap D c HD Hc).
Qed.

(** ** The columns after the merge *)

Section Headers.

Variable Date_parse : string -> option Z.

Lemma mergeCard_headers (t : nat) (b : Board) (inc : Card.t) :
  headers (App.mergeCard Date_parse t b inc) = headers b.
Proof.
  destruct (Store.findCard b (Card.id inc)) as [[i ex0]|] eqn:E.
  - destruct (mergeCard_found Date_parse t b inc ex0 i E)
      as [exCol [_ [_ [_ ->]]]].
    assert (H1 : forall c,
               headers
                 (Js.updateAt i
                    (fun col =>
                       Column.setCards
                         (App.replaceFirst (Card.id inc) c (Column.cards col))
                         col) b) = headers b).
    { intro c. apply headers_updateAt. intro col. reflexivity. }
    destruct (nth_error b t) as [targetCol|]; [|apply H1].
    destruct (negb (Column.id exCol =? Column.id targetCol)
              && App.isPositionANewer Date_parse inc
                   (App.mergeContent Date_parse inc ex0)); [|apply H1].
    rewrite headers_updateAt by (intro; reflexivity).
    rewrite headers_updateAt by (intro; reflexivity).
    apply H1.
  - rewrite (mergeCard_new Date_parse t b inc E).
    apply headers_updateAt. intro col. reflexivity.
Qed.

Lemma mergeCards_headers (t : nat) (l : list Card.t) (b : Board) :
  headers (fold_left (App.mergeCard Date_parse t) l b) = headers b.
Proof.
  revert b. induction l as [|c l IH]; intro b; simpl; [reflexivity|].
  rewrite IH. apply mergeCard_headers.
Qed.

Lemma mergeColumns_headers (ctx : App.Ctx)
    (L : list (Column.t * option nat)) (b : Board) :
  headers (fold_left (App.mergeColumn Date_parse ctx) L b) = headers b.
Proof.
  revert b. induction L as [|inc L IH]; intro b; simpl; [reflexivity|].
  rewrite IH. unfold App.mergeColumn.
  destruct (App.resolveTarget ctx (fst inc)); [|reflexivity].
  apply mergeCards_headers.
Qed.

End Headers.

(** The columns pass 1 pushes had no target when the merge began. *)
Lemma decideTargets_unknown (s : list Column.t) (ctx : App.Ctx) :
  exists pushed,
    App.columns (fst (App.decideTargets ctx s)) = App.columns ctx ++ pushed
    /\ incl pushed s
    /\ forall D, In D pushed -> App.resolveTarget ctx D = None.
Proof.
  revert ctx. induction s as [|D rest IH]; intro ctx.
  - exists []. simpl. rewrite app_nil_r.
    repeat split; [apply incl_refl | intros D []].
  - rewrite decideTargets_cons. cbn [fst].
    destruct (IH (fst (App.decideTarget ctx D))) as [pushed [E [Hi Hu]]].
    destruct (decideTarget_cases ctx D) as [[t [Ht Hd]] | [Hnone Hd]].
    + rewrite Hd in E, Hu. cbn [fst] in E, Hu.
      exists pushed. rewrite Hd. cbn [fst]. split; [exact E|]. split.
      * intros x Hx. right. apply Hi. exact Hx.
      * exact Hu.
    + exists (D :: pushed). split; [|split].
      * rewrite E, Hd. cbn [fst App.columns]. rewrite <- app_assoc.
        reflexivity.
      * intros x [<- | Hx]; [left; reflexivity | right; apply Hi; exact Hx].
      * intros D0 [<- | H0]; [exact Hnone|].
        destruct (App.resolveTarget ctx D0) as [t0|] eqn:E0; [|reflexivity].
        exfalso.
        apply (decideTarget_keeps_resolved ctx D D0);
          [rewrite E0; discriminate | apply Hu; exact H0].
Qed.

(** A column of the board is a target for its id and for its title. *)
Lemma initCtx_known (b : Board) (c D : Column.t) :
  In c b ->
  Column.id c = Column.id D
  \/ App.normTitle (Column.title c) = App.normTitle (Column.title D) ->
  App.resolveTarget (App.initCtx b) D <> None.
Proof.
  intros Hc Hmatch. unfold App.resolveTarget.
  cbn [App.initCtx App.existingById App.existingByTitle].
  destruct (Js.Map_get (Js.Map_of (App.entriesFrom 0 Column.id b))
              (Column.id D)) eqn:Eid; [discriminate|].
  destruct Hmatch as [Hid | Ht].
  - destruct (entriesFrom_in 0 Column.id b c Hc) as [v Hv].
    rewrite Hid in Hv. destruct (Map_of_get _ _ _ Hv) as [v' Hv'].
    congruence.
  - destruct (entriesFrom_in 0 App.titleKey b c Hc) as [v Hv].
    assert (Ht' : App.titleKey c = App.titleKey D) by exact Ht.
    rewrite Ht' in Hv.
    destruct (Map_of_get _ _ _ Hv) as [v' Hv'].
    rewrite Hv'. discriminate.
Qed.

(** X12.  The merge removes, renames, reorders and re-flags no column: the
    columns of the board come first after the merge, each with the id,
    title and flags it had.  The columns that follow are columns of the
    snapshot, and each of them matched no column of the board, neither by
    id nor by normalized title.  So when every column of the snapshot
    matches a column of the board by id or by normalized title, the merge
    adds no column. *)
Theorem merge_keeps_columns
    (Date_parse : string -> option Z) (b : Board) (incoming : list Column.t) :
  (exists pushed,
     headers (App.importMerge Date_parse b incoming)
     = headers b ++ headers pushed
     /\ incl pushed incoming
     /\ forall D c, In D pushed -> In c b ->
          Column.id c <> Column.id D
          /\ App.normTitle (Column.title c)
             <> App.normTitle (Column.title D))
  /\ ((forall D, In D incoming ->
         exists c, In c b
                   /\ (Column.id c = Column.id D
                       \/ App.normTitle (Column.title c)
                          = App.normTitle (Column.title D))) ->
      headers (App.importMerge Date_parse b incoming) = headers b).
Proof.
  assert (E : headers (App.importMerge Date_parse b incoming)
              = headers
                  (App.columns
                     (fst (App.decideTargets (App.initCtx b) incoming)))).
  { rewrite importMerge_unfold. apply mergeColumns_headers. }
  split.
  - destruct (decideTargets_unknown incoming (App.initCtx b))
      as [pushed [Ec [Hi Hu]]].
    exists pushed. split; [|split].
    + rewrite E, Ec. unfold headers. apply map_app.
    + exact Hi.
    + intros D c HD Hc. specialize (Hu D HD). split.
      * intro Hid. apply (initCtx_known b c D Hc (or_introl Hid)). exact Hu.
      * intro Ht. apply (initCtx_known b c D Hc (or_intror Ht)). exact Hu.
  - intro Hall. rewrite E.
    rewrite (decideTargets_resolved incoming (App.initCtx b)); [reflexivity|].
    intros D HD. destruct (Hall D HD) as [c [Hc Hm]].
    apply (initCtx_known b c D Hc Hm).
Qed.

(** A snapshot whose only column has an unknown id and the title of the
    inbox, in other letter case and spacing, adds no column. *)
Lemma merge_keeps_columns_witness :
  headers
    (App.importMerge Iso.parse Sample.board2
       [Column.mk "fresh" "  iNBOX  " [Sample.kRemote] false false])
  = headers Sample.board2.
Proof.
  apply (proj2 (merge_keeps_columns Iso.parse Sample.board2
                  [Column.mk "fresh" "  iNBOX  " [Sample.kRemote]
                     false false])).
  intros D [<- | []].
  exists (Sample.inbox [Sample.kLocal]).
  split; [left; reflexivity|]. right. vm_compute. reflexivity.
Defined.

(** ** trim, toLowerCase and the normalized title *)

Lemma dropSpaces_headOK (l : list ascii) : headOK (App.dropSpaces l).
Proof.
  induction l as [|a l IH]; simpl; [exact I|].
  destruct (App.isSpace a) eqn:E; [exact IH | exact E].
Qed.

Lemma dropSpaces_id (l : list ascii) : headOK l -> App.dropSpaces l = l.
Proof.
  destruct l as [|a l]; simpl; [reflexivity|].
  intro H. rewrite H. reflexivity.
Qed.

Lemma dropSpaces_suffix (l : list ascii) :
  exists p, l = p ++ App.dropSpaces l.
Proof.
  induction l as [|a l IH]; simpl.
  - exists []. reflexivity.
  - destruct (App.isSpace a).
    + destruct IH as [p Hp]. exists (a :: p). simpl. f_equal. exact Hp.
    + exists []. reflexivity.
Qed.

Lemma trim_headOK (l : list ascii) :
  headOK (App.trim l) /\ headOK (rev (App.trim l)).
Proof.
  unfold App.trim. split.
  - pose proof (dropSpaces_headOK l) as Hm.
    destruct (dropSpaces_suffix (rev (App.dropSpaces l))) as [p Hp].
    set (n := App.dropSpaces (rev (App.dropSpaces l))) in *.
    apply (f_equal (@rev ascii)) in Hp.
    rewrite rev_involutive, rev_app_distr in Hp.
    destruct (rev n) as [|h tl]; [exact I|].
    rewrite Hp in Hm. exact Hm.
  - rewrite rev_involutive. apply dropSpaces_headOK.
Qed.

Lemma trim_id (l : list ascii) :
  headOK l -> headOK (rev l) -> App.trim l = l.
Proof.
  intros H1 H2. unfold App.trim.
  rewrite (dropSpaces_id l H1), (dropSpaces_id (rev l) H2).
  apply rev_involutive.
Qed.

Lemma trim_idem (l : list ascii) : App.trim (App.trim l) = App.trim l.
Proof.
  destruct (trim_headOK l) as [H1 H2]. apply trim_id; assumption.
Qed.

Lemma in_dropSpaces (a : ascii) (l : list ascii) :
  In a (App.dropSpaces l) -> In a l.
Proof.
  induction l as [|x l IH]; simpl; [tauto|].
  destruct (App.isSpace x).
  - intro H. right. apply IH. exact H.
  - tauto.
Qed.

Lemma in_trim (a : ascii) (l : list ascii) : In a (App.trim l) -> In a l.
Proof.
  unfold App.trim. intro H. apply in_rev in H.
  apply in_dropSpaces in H. apply in_rev in H.
  apply in_dropSpaces in H. exact H.
Qed.

Lemma trim_space (l : list ascii) : App.trim (" "%char :: l) = App.trim l.
Proof.
  reflexivity.
Qed.

Lemma lowerChar_idem (a : ascii) :
  App.lowerChar (App.lowerChar a) = App.lowerChar a.
Proof.
  destruct a as [[] [] [] [] [] [] [] []]; reflexivity.
Qed.

Lemma lowerChar_space (a : ascii) :
  App.isSpace (App.lowerChar a) = App.isSpace a.
Proof.
  destruct a as [[] [] [] [] [] [] [] []]; reflexivity.
Qed.

Lemma lowered_map (l : list ascii) : lowered l -> map App.lowerChar l = l.
Proof.
  intro H. induction H as [|a l Ha _ IH]; simpl; [reflexivity|].
  rewrite Ha, IH. reflexivity.
Qed.

Lemma map_lowered (l : list ascii) : lowered (map App.lowerChar l).
Proof.
  induction l as [|a l IH]; simpl; constructor.
  - apply lowerChar_idem.
  - exact IH.
Qed.

Lemma lowered_trim (l : list ascii) : lowered l -> lowered (App.trim l).
Proof.
  unfold lowered. rewrite !Forall_forall. intros H a Ha.
  apply H. apply in_trim. exact Ha.
Qed.

Lemma lowered_collapse (inRun : bool) (l : list ascii) :
  lowered l -> lowered (App.collapseSpaces inRun l).
Proof.
  intro H. revert inRun. induction H as [|a l Ha _ IH]; intro inRun; simpl.
  - constructor.
  - destruct (App.isSpace a).
    + destruct inRun; [apply IH|]. constructor; [reflexivity | apply IH].
    + constructor; [exact Ha | apply IH].
Qed.

Lemma collapse_idem (inRun : bool) (l : list ascii) :
  App.collapseSpaces inRun (App.collapseSpaces inRun l)
  = App.collapseSpaces inRun l.
Proof.
  revert inRun. induction l as [|a l IH]; intro inRun; simpl.
  - reflexivity.
  - destruct (App.isSpace a) eqn:E.
    + destruct inRun; [apply IH|].
      simpl. rewrite IH. reflexivity.
    + simpl. rewrite E, IH. reflexivity.
Qed.

Lemma collapse_last (inRun : bool) (l : list ascii) (a : ascii) :
  App.isSpace a = false ->
  App.collapseSpaces inRun (l ++ [a]) = App.collapseSpaces inRun l ++ [a].
Proof.
  intro Ha. revert inRun. induction l as [|x l IH]; intro inRun; simpl.
  - rewrite Ha. reflexivity.
  - destruct (App.isSpace x).
    + destruct inRun; [apply IH|]. rewrite IH. reflexivity.
    + rewrite IH. reflexivity.
Qed.

Lemma collapse_headOK (l : list ascii) :
  headOK l -> headOK (rev l) ->
  headOK (App.collapseSpaces false l)
  /\ headOK (rev (App.collapseSpaces false l)).
Proof.
  intros H1 H2. split.
  - destruct l as [|a l]; simpl; [exact I|].
    simpl in H1. rewrite H1. exact H1.
  - destruct (rev l) as [|a u] eqn:E.
    + assert (l = []).
      { apply (f_equal (@rev ascii)) in E. rewrite rev_involutive in E.
        exact E. }
      subst l. exact I.
    + assert (El : l = rev u ++ [a]).
      { apply (f_equal (@rev ascii)) in E. rewrite rev_involutive in E.
        exact E. }
      rewrite El, (collapse_last false (rev u) a H2).
      rewrite rev_app_distr. exact H2.
Qed.

(** X13.  The normalized title is a normal form: normalizing it again
    gives it back.  So a column is found by title under the title the
    merge filed it under, whatever the letter case and the white space of
    the title it was given. *)
Theorem normTitle_idempotent (s : string) :
  App.normTitle (App.normTitle s) = App.normTitle s.
Proof.
  unfold App.normTitle.
  rewrite list_ascii_of_string_of_list_ascii.
  set (t := App.trim (map App.lowerChar (list_ascii_of_string s))).
  assert (Hlow : lowered t)
    by (apply lowered_trim; apply map_lowered).
  destruct (trim_headOK (map App.lowerChar (list_ascii_of_string s)))
    as [H1 H2].
  fold t in H1, H2.
  destruct (collapse_headOK t H1 H2) as [H3 H4].
  rewrite (lowered_map _ (lowered_collapse false t Hlow)).
  rewrite (trim_id _ H3 H4).
  rewrite collapse_idem. reflexivity.
Qed.

(** ** The tags of the card editor *)

Lemma trimString_idem (s : string) :
  App.trimString (App.trimString s) = App.trimString s.
Proof.
  unfold App.trimString. rewrite list_ascii_of_string_of_list_ascii.
  rewrite trim_idem. reflexivity.
Qed.

Lemma trimString_space (s : string) :
  App.trimString (String " " s) = App.trimString s.
Proof.
  reflexivity.
Qed.

Lemma split_nonempty (sep : ascii) (s : string) : Js.split sep s <> [].
Proof.
  destruct s as [|a s]; simpl; [discriminate|].
  destruct (Ascii.eqb a sep); [discriminate|].
  destruct (Js.split sep s); discriminate.
Qed.

(** No piece holds the separator. *)
Lemma split_pieces (sep : ascii) (s : string) :
  Forall (fun piece => ~ In sep (list_ascii_of_string piece))
         (Js.split sep s).
Proof.
  induction s as [|a s IH]; simpl.
  - constructor; [simpl; tauto | constructor].
  - destruct (Ascii.eqb_spec a sep) as [-> | Hne].
    + constructor; [simpl; tauto | exact IH].
    + destruct (Js.split sep s) as [|cur more].
      * constructor; [|constructor]. simpl. intros [H | []]. congruence.
      * inversion IH as [|? ? Hcur Hmore]. subst.
        constructor; [|exact Hmore].
        simpl. intros [H | H]; [congruence | exact (Hcur H)].
Qed.

(** A piece without the separator, then the separator, then the rest. *)
Lemma split_app (sep : ascii) (t rest : string) :
  ~ In sep (list_ascii_of_string t) ->
  Js.split sep (t ++ String sep rest)%string = t :: Js.split sep rest.
Proof.
  induction t as [|a t IH]; simpl; intro H.
  - rewrite Ascii.eqb_refl. reflexivity.
  - destruct (Ascii.eqb_spec a sep) as [-> | Hne]; [tauto|].
    rewrite IH by tauto. reflexivity.
Qed.

Lemma split_whole (sep : ascii) (t : string) :
  ~ In sep (list_ascii_of_string t) -> Js.split sep t = [t].
Proof.
  induction t as [|a t IH]; simpl; intro H; [reflexivity|].
  destruct (Ascii.eqb_spec a sep) as [-> | Hne]; [tauto|].
  rewrite IH by tauto. reflexivity.
Qed.

Lemma split_space (s : string) :
  map App.trimString (Js.split "," (String " " s))
  = map App.trimString (Js.split "," s).
Proof.
  simpl. pose proof (split_nonempty "," s) as Hne.
  destruct (Js.split "," s) as [|cur more]; [congruence|].
  simpl. rewrite trimString_space. reflexivity.
Qed.

Lemma in_list_of_trimString (a : ascii) (s : string) :
  In a (list_ascii_of_string (App.trimString s)) ->
  In a (list_ascii_of_string s).
Proof.
  unfold App.trimString. rewrite list_ascii_of_string_of_list_ascii.
  apply in_trim.
Qed.

(** X14.  Every tag [handleSaveCard] reads from the tags field of the form
    is well formed: not empty, without white space at either end and
    without a comma. *)
Theorem parseTags_wellformed (value : string) :
  Forall wellTag (App.parseTags value).
Proof.
  unfold App.parseTags. apply Forall_forall. intros tag Hin.
  apply filter_In in Hin. destruct Hin as [Hin Hne].
  apply in_map_iff in Hin. destruct Hin as [piece [<- Hpiece]].
  split; [|split].
  - apply negb_true_iff in Hne. apply String.eqb_neq in Hne. exact Hne.
  - apply trimString_idem.
  - intro Hc. apply in_list_of_trimString in Hc.
    pose proof (split_pieces "," value) as Hall.
    rewrite Forall_forall in Hall. exact (Hall piece Hpiece Hc).
Qed.

Lemma parseTags_join (tags : list string) :
  Forall wellTag tags -> App.parseTags (Js.join ", " tags) = tags.
Proof.
  unfold App.parseTags, Js.join.
  induction tags as [|t rest IH]; intro H.
  - reflexivity.
  - inversion H as [|? ? [Hne [Htrim Hcomma]] Hrest]. subst.
    assert (Hkeep : negb (App.trimString t =? "") = true).
    { rewrite Htrim. apply negb_true_iff. apply String.eqb_neq. exact Hne. }
    destruct rest as [|t' rest'].
    + simpl. rewrite (split_whole "," t Hcomma). simpl.
      rewrite Hkeep, Htrim. reflexivity.
    + change (String.concat ", " (t :: t' :: rest'))
        with (t ++ ", " ++ String.concat ", " (t' :: rest'))%string.
      change (", " ++ String.concat ", " (t' :: rest'))%string
        with (String "," (String " " (String.concat ", " (t' :: rest')))).
      rewrite (split_app "," t _ Hcomma).
      cbn [map filter]. rewrite Hkeep, Htrim. f_equal.
      rewrite split_space. apply IH. exact Hrest.
Qed.

(** X15.  The tags survive the card editor: when every tag of a card is
    well formed, what [showCardEditor] writes into the tags field is read
    back by [handleSaveCard] as the same tags in the same order.  That is
    so for every card whose tags were read from the form. *)
Theorem tagsField_roundtrip (card : Card.t) :
  Forall wellTag (UI.tagsOf card) ->
  App.parseTags (UI.tagsField card) = UI.tagsOf card.
Proof.
  intro H. unfold UI.tagsField. apply parseTags_join. exact H.
Qed.

(** A card with the tags "ui" and "needs review". *)
Lemma tagsField_roundtrip_witness :
  App.parseTags
    (UI.tagsField
       (Card.mk "k" "t" (Some "") (Some ["ui"; "needs review"]) None None
          None None None None None None))
  = ["ui"; "needs review"].
Proof.
  apply (tagsField_roundtrip
           (Card.mk "k" "t" (Some "") (Some ["ui"; "needs review"]) None None
              None None None None None None)).
  repeat constructor; try discriminate; simpl; intuition discriminate.
Defined.

(** ** UI.updateTagFilters: the tag chips *)

Section SortByComparator.

Context {A : Type} (cmp : A -> A -> Z).

Hypothesis cmp_total : forall x y, (0 < cmp x y)%Z -> (cmp y x <= 0)%Z.
Hypothesis cmp_trans :
  forall x y z, (cmp x y <= 0)%Z -> (cmp y z <= 0)%Z -> (cmp x z <= 0)%Z.

Lemma insertSorted_perm_cmp (x : A) (l : list A) :
  Permutation (x :: l) (Js.insertSorted cmp x l).
Proof.
  induction l as [|y rest IH]; simpl.
  - apply Permutation_refl.
  - destruct (cmp x y <=? 0)%Z.
    + apply Permutation_refl.
    + rewrite perm_swap. apply perm_skip. exact IH.
Qed.

Lemma sort_perm_cmp (l : list A) : Permutation l (Js.sort cmp l).
Proof.
  induction l as [|x rest IH]; simpl.
  - apply Permutation_refl.
  - rewrite <- insertSorted_perm_cmp. apply perm_skip. exact IH.
Qed.

Lemma insertSorted_sorted_cmp (x : A) (l : list A) :
  StronglySorted (fun a b => (cmp a b <= 0)%Z) l ->
  StronglySorted (fun a b => (cmp a b <= 0)%Z) (Js.insertSorted cmp x l).
Proof.
  intro Hs. induction Hs as [|y rest Hs IH Hall]; simpl.
  - constructor; constructor.
  - destruct (Z.leb_spec (cmp x y) 0) as [Hle | Hgt].
    + constructor; [constructor; assumption|].
      constructor; [exact Hle|].
      rewrite Forall_forall in *. intros z Hz.
      apply (cmp_trans x y z Hle). apply Hall. exact Hz.
    + constructor; [exact IH|].
      rewrite Forall_forall in *. intros z Hz.
      apply (Permutation_in z (Permutation_sym (insertSorted_perm_cmp x rest)))
        in Hz.
      destruct Hz as [<- | Hz]; [apply cmp_total; exact Hgt|].
      apply Hall. exact Hz.
Qed.

Lemma sort_sorted_cmp (l : list A) :
  StronglySorted (fun a b => (cmp a b <= 0)%Z) (Js.sort cmp l).
Proof.
  induction l as [|x rest IH]; simpl.
  - constructor.
  - apply insertSorted_sorted_cmp. exact IH.
Qed.

End SortByComparator.

Lemma compare_lt_trans (a b c : string) :
  String.compare a b = Lt -> String.compare b c = Lt ->
  String.compare a c = Lt.
Proof.
  intros H1 H2.
  apply OrderedTypeEx.String_as_OT.cmp_lt.
  apply (OrderedTypeEx.String_as_OT.lt_trans a b c);
    apply OrderedTypeEx.String_as_OT.cmp_lt; assumption.
Qed.

Lemma compare_refl (a : string) : String.compare a a = Eq.
Proof.
  apply OrderedTypeEx.String_as_OT.cmp_eq. reflexivity.
Qed.

Lemma strCmp_le (a b : string) :
  (Js.strCmp a b <= 0)%Z <-> String.compare a b <> Gt.
Proof.
  unfold Js.strCmp. destruct (String.compare a b); split; intro H;
    try lia; try discriminate; congruence.
Qed.

Lemma strCmp_total (x y : string) :
  (0 < Js.strCmp x y)%Z -> (Js.strCmp y x <= 0)%Z.
Proof.
  unfold Js.strCmp. rewrite (String.compare_antisym y x).
  destruct (String.compare x y); simpl; lia.
Qed.

Lemma strCmp_trans (x y z : string) :
  (Js.strCmp x y <= 0)%Z -> (Js.strCmp y z <= 0)%Z ->
  (Js.strCmp x z <= 0)%Z.
Proof.
  rewrite !strCmp_le. intros H1 H2.
  destruct (String.compare x y) eqn:E1; [| |congruence].
  - apply String.compare_eq_iff in E1. subst y. exact H2.
  - destruct (String.compare y z) eqn:E2; [| |congruence].
    + apply String.compare_eq_iff in E2. subst z. rewrite E1. discriminate.
    + rewrite (compare_lt_trans x y z E1 E2). discriminate.
Qed.

Lemma Set_add_in (s : list string) (x t : string) :
  In t (Js.Set_add s x) <-> In t s \/ t = x.
Proof.
  unfold Js.Set_add, Js.Set_has.
  destruct (existsb (String.eqb x) s) eqn:E.
  - split; [tauto|]. intros [H | ->]; [exact H|].
    apply existsb_exists in E. destruct E as [y [Hy Hxy]].
    apply String.eqb_eq in Hxy. subst y. exact Hy.
  - rewrite in_app_iff. simpl. intuition.
Qed.

Lemma Set_add_NoDup (s : list string) (x : string) :
  NoDup s -> NoDup (Js.Set_add s x).
Proof.
  intro H. unfold Js.Set_add, Js.Set_has.
  destruct (existsb (String.eqb x) s) eqn:E; [exact H|].
  apply NoDup_Add with (a := x) (l := s).
  - rewrite <- (app_nil_r s) at 1. apply Add_app.
  - split; [exact H|]. intro Hin.
    assert (Ht : existsb (String.eqb x) s = true).
    { apply existsb_exists. exists x. split; [exact Hin|].
      apply String.eqb_refl. }
    congruence.
Qed.

Lemma fold_Set_add (l s : list string) :
  (NoDup s -> NoDup (fold_left Js.Set_add l s))
  /\ forall t, In t (fold_left Js.Set_add l s) <-> In t s \/ In t l.
Proof.
  revert s. induction l as [|x l IH]; intro s; simpl.
  - split; [tauto|]. intro t. tauto.
  - destruct (IH (Js.Set_add s x)) as [Hnd Hin]. split.
    + intro H. apply Hnd. apply Set_add_NoDup. exact H.
    + intro t. rewrite Hin, Set_add_in. split.
      * intros [[H | ->] | H]; auto.
      * intros [H | [<- | H]]; auto.
Qed.

Lemma fold_cards_tags (cards : list Card.t) (s : list string) :
  (NoDup s ->
   NoDup (fold_left
            (fun acc1 k => fold_left Js.Set_add (UI.tagsOf k) acc1) cards s))
  /\ forall t,
       In t (fold_left
               (fun acc1 k => fold_left Js.Set_add (UI.tagsOf k) acc1)
               cards s)
       <-> In t s \/ exists k, In k cards /\ In t (UI.tagsOf k).
Proof.
  revert s. induction cards as [|k cards IH]; intro s; simpl.
  - split; [tauto|]. intro t. split; [tauto|].
    intros [H | [k [[] _]]]. exact H.
  - destruct (IH (fold_left Js.Set_add (UI.tagsOf k) s)) as [Hnd Hin].
    destruct (fold_Set_add (UI.tagsOf k) s) as [Hnd0 Hin0].
    split.
    + intro H. apply Hnd. apply Hnd0. exact H.
    + intro t. rewrite Hin, Hin0. split.
      * intros [[H | H] | [k' [Hk' Ht]]].
        -- left. exact H.
        -- right. exists k. split; [left; reflexivity | exact H].
        -- right. exists k'. split; [right; exact Hk' | exact Ht].
      * intros [H | [k' [[<- | Hk'] Ht]]].
        -- left. left. exact H.
        -- left. right. exact Ht.
        -- right. exists k'. split; assumption.
Qed.

Lemma fold_columns_tags (cols : list Column.t) (s : list string) :
  (NoDup s ->
   NoDup (fold_left
            (fun acc c =>
               fold_left
                 (fun acc1 k => fold_left Js.Set_add (UI.tagsOf k) acc1)
                 (Column.cards c) acc) cols s))
  /\ forall t,
       In t (fold_left
               (fun acc c =>
                  fold_left
                    (fun acc1 k => fold_left Js.Set_add (UI.tagsOf k) acc1)
                    (Column.cards c) acc) cols s)
       <-> In t s
           \/ exists c k, In c cols /\ In k (Column.cards c)
                          /\ In t (UI.tagsOf k).
Proof.
  revert s. induction cols as [|c cols IH]; intro s; simpl.
  - split; [tauto|]. intro t. split; [tauto|].
    intros [H | [c [k [[] _]]]]. exact H.
  - destruct (IH (fold_left
                    (fun acc1 k => fold_left Js.Set_add (UI.tagsOf k) acc1)
                    (Column.cards c) s)) as [Hnd Hin].
    destruct (fold_cards_tags (Column.cards c) s) as [Hnd0 Hin0].
    split.
    + intro H. apply Hnd. apply Hnd0. exact H.
    + intro t. rewrite Hin, Hin0. split.
      * intros [[H | [k [Hk Ht]]] | [c' [k [Hc' [Hk Ht]]]]].
        -- left. exact H.
        -- right. exists c, k. repeat split; auto.
        -- right. exists c', k. repeat split; auto.
      * intros [H | [c' [k [[<- | Hc'] [Hk Ht]]]]].
        -- left. left. exact H.
        -- left. right. exists k. split; assumption.
        -- right. exists c', k. repeat split; assumption.
Qed.

Lemma sorted_strict (l : list string) :
  NoDup l ->
  StronglySorted (fun a b => (Js.strCmp a b <= 0)%Z) l ->
  StronglySorted (fun a b => String.compare a b = Lt) l.
Proof.
  intros Hnd Hs. induction Hs as [|x l Hs IH Hall].
  - constructor.
  - inversion Hnd as [|? ? Hnot Hnd']. subst.
    constructor; [apply IH; exact Hnd'|].
    rewrite Forall_forall in *. intros y Hy.
    specialize (Hall y Hy). apply strCmp_le in Hall.
    destruct (String.compare x y) eqn:E; [|reflexivity|congruence].
    apply String.compare_eq_iff in E. subst y. contradiction.
Qed.

(** X16.  The tag chips are in ascending order without a repeat, and a tag
    has a chip exactly when a card of a column that is not the archive
    carries it. *)
Theorem tagChips_sorted_unique (b : Board) :
  StronglySorted (fun a b => String.compare a b = Lt) (UI.tagChips b)
  /\ forall tag,
       In tag (UI.tagChips b)
       <-> exists col card,
             In col b /\ Column.isArchive col = false
             /\ In card (Column.cards col) /\ In tag (UI.tagsOf card).
Proof.
  unfold UI.tagChips.
  pose proof (sort_perm_cmp Js.strCmp (UI.allTags b)) as Hp.
  destruct (fold_columns_tags
              (filter (fun c => negb (Column.isArchive c)) b) [])
    as [Hnd Hin].
  fold (UI.allTags b) in Hnd, Hin.
  split.
  - apply sorted_strict.
    + apply (Permutation_NoDup Hp). apply Hnd. constructor.
    + apply sort_sorted_cmp; [apply strCmp_total | apply strCmp_trans].
  - intro tag. split.
    + intro H. apply (Permutation_in tag (Permutation_sym Hp)) in H.
      apply Hin in H. destruct H as [[] | [c [k [Hc [Hk Ht]]]]].
      apply filter_In in Hc. destruct Hc as [Hc Ha].
      apply negb_true_iff in Ha. exists c, k. repeat split; assumption.
    + intros [c [k [Hc [Ha [Hk Ht]]]]].
      apply (Permutation_in tag Hp). apply Hin. right.
      exists c, k. split; [|split; assumption].
      apply filter_In. split; [exact Hc|]. rewrite Ha. reflexivity.
Qed.

(** ** UI.applyFiltersToCard *)

Lemma forallb_app_one {A : Type} (p : A -> bool) (l : list A) (x : A) :
  forallb p (l ++ [x]) = forallb p l && p x.
Proof.
  rewrite forallb_app. simpl. rewrite andb_true_r. reflexivity.
Qed.

Lemma forallb_filter {A : Type} (p q : A -> bool) (l : list A) :
  forallb p l = true -> forallb p (filter q l) = true.
Proof.
  rewrite !forallb_forall. intros H x Hx. apply filter_In in Hx.
  apply H. apply Hx.
Qed.

(** The filter looks at the set of tags and at the query, not at the
    elements. *)
Lemma applyFiltersToCard_ext (u u' : UI.t) (b : Board) (cardId : string) :
  UI.activeTagFilters u' = UI.activeTagFilters u ->
  UI.searchQuery u' = UI.searchQuery u ->
  UI.applyFiltersToCard u' b cardId = UI.applyFiltersToCard u b cardId.
Proof.
  intros Hf Hq. unfold UI.applyFiltersToCard, UI.searchMatch, UI.tagsMatch.
  rewrite Hf, Hq. reflexivity.
Qed.

(** The tag test after one more tag was put into the filter set. *)
Lemma tagsMatch_added (u : UI.t) (tag : string) (card : Card.t)
    (els : list UI.CardEl) :
  Js.Set_has (UI.activeTagFilters u) tag = false ->
  UI.tagsMatch
    (UI.mk (Js.Set_add (UI.activeTagFilters u) tag) (UI.searchQuery u) els)
    card
  = match Card.tags card with
    | Some l =>
        Some (forallb (fun filterTag => existsb (String.eqb filterTag) l)
                      (UI.activeTagFilters u)
              && existsb (String.eqb tag) l)
    | None => None
    end.
Proof.
  intro Hno. unfold UI.tagsMatch, Js.Set_add. cbn [UI.activeTagFilters].
  rewrite Hno.
  destruct (UI.activeTagFilters u ++ [tag]) as [|x rest] eqn:E.
  - destruct (UI.activeTagFilters u); discriminate.
  - rewrite <- E. destruct (Card.tags card) as [l|]; [|reflexivity].
    rewrite forallb_app_one. reflexivity.
Qed.

Lemma tagsMatch_nonempty (u : UI.t) (card : Card.t) :
  UI.activeTagFilters u <> [] ->
  UI.tagsMatch u card
  = match Card.tags card with
    | Some l =>
        Some (forallb (fun filterTag => existsb (String.eqb filterTag) l)
                      (UI.activeTagFilters u))
    | None => None
    end.
Proof.
  intro H. unfold UI.tagsMatch.
  destruct (UI.activeTagFilters u); [congruence | reflexivity].
Qed.

Lemma searchMatch_filters (u u' : UI.t) (card : Card.t) :
  UI.searchQuery u' = UI.searchQuery u ->
  UI.searchMatch u' card = UI.searchMatch u card.
Proof.
  intro H. unfold UI.searchMatch. rewrite H. reflexivity.
Qed.

Lemma toggleFilter_query (tag : string) (u : UI.t) :
  UI.searchQuery (UI.toggleFilter tag u) = UI.searchQuery u.
Proof.
  unfold UI.toggleFilter.
  destruct (Js.Set_has (UI.activeTagFilters u) tag); reflexivity.
Qed.

(** What the filter decides for one card when one more tag is active, and
    when one fewer is. *)
Lemma toggleFilter_outcome (u : UI.t) (b : Board) (cardId tag : string) :
  (Js.Set_has (UI.activeTagFilters u) tag = false ->
   UI.applyFiltersToCard (UI.toggleFilter tag u) b cardId
   = UI.Display true ->
   UI.applyFiltersToCard u b cardId = UI.Display true)
  /\ (Js.Set_has (UI.activeTagFilters u) tag = true ->
      (UI.applyFiltersToCard u b cardId = UI.Display true ->
       UI.applyFiltersToCard (UI.toggleFilter tag u) b cardId
       = UI.Display true)
      /\ (UI.applyFiltersToCard u b cardId <> UI.TypeError ->
          UI.applyFiltersToCard (UI.toggleFilter tag u) b cardId
          <> UI.TypeError)
      /\ (UI.applyFiltersToCard u b cardId = UI.Untouched ->
          UI.applyFiltersToCard (UI.toggleFilter tag u) b cardId
          = UI.Untouched)).
Proof.
  split; intros Hhas.
  - unfold UI.applyFiltersToCard.
    destruct (Store.findCard b cardId) as [[i card]|]; try discriminate.
    destruct (nth_error b i) as [col|]; try discriminate.
    destruct (Column.isArchive col); try (intros _; reflexivity).
    rewrite (searchMatch_filters u _ card (toggleFilter_query tag u)).
    unfold UI.toggleFilter. rewrite Hhas.
    rewrite (tagsMatch_added u tag card _ Hhas).
    destruct (UI.searchMatch u card) as [sm|]; [|discriminate].
    unfold UI.tagsMatch.
    destruct (Card.tags card) as [l|]; [|discriminate].
    destruct sm; [|discriminate]. cbn [andb].
    destruct (forallb (fun filterTag => existsb (String.eqb filterTag) l)
                (UI.activeTagFilters u)); [|discriminate].
    intros _. destruct (UI.activeTagFilters u); reflexivity.
  - unfold UI.applyFiltersToCard.
    destruct (Store.findCard b cardId) as [[i card]|];
      [|repeat split; congruence].
    destruct (nth_error b i) as [col|]; [|repeat split; congruence].
    destruct (Column.isArchive col); [repeat split; congruence|].
    rewrite (searchMatch_filters u _ card (toggleFilter_query tag u)).
    destruct (UI.searchMatch u card) as [sm|];
      [|repeat split; congruence].
    assert (Hne : UI.activeTagFilters u <> []).
    { intro E. rewrite E in Hhas. discriminate. }
    rewrite (tagsMatch_nonempty u card Hne).
    unfold UI.toggleFilter. rewrite Hhas.
    unfold UI.tagsMatch at 1 2 3. cbn [UI.activeTagFilters].
    destruct (Card.tags card) as [l|].
    + split; [|split].
      * destruct sm; [|discriminate]. cbn [andb].
        destruct (forallb
                    (fun filterTag => existsb (String.eqb filterTag) l)
                    (UI.activeTagFilters u)) eqn:H1; [|discriminate].
        intros _.
        destruct (Js.Set_delete (UI.activeTagFilters u) tag) eqn:Ed;
          [reflexivity|].
        rewrite <- Ed. unfold Js.Set_delete.
        rewrite (forallb_filter _ _ _ H1). reflexivity.
      * intros _.
        destruct (Js.Set_delete (UI.activeTagFilters u) tag); discriminate.
      * discriminate.
    + split; [discriminate|]. split; [congruence | discriminate].
Qed.

Lemma Set_delete_absent (s : list string) (x : string) :
  Js.Set_has s x = false -> Js.Set_delete s x = s.
Proof.
  unfold Js.Set_has, Js.Set_delete. induction s as [|y s IH]; simpl.
  - reflexivity.
  - intro H. apply orb_false_iff in H. destruct H as [Hy Hs].
    rewrite String.eqb_sym in Hy. rewrite Hy. simpl. f_equal.
    apply IH. exact Hs.
Qed.

Lemma Set_delete_has (s : list string) (x : string) :
  Js.Set_has (Js.Set_delete s x) x = false.
Proof.
  unfold Js.Set_has, Js.Set_delete. induction s as [|y s IH]; simpl.
  - reflexivity.
  - destruct (y =? x) eqn:E; simpl; [exact IH|].
    rewrite String.eqb_sym, E. exact IH.
Qed.

Lemma forallb_deleted (p : string -> bool) (s : list string) (x : string) :
  Js.Set_has s x = true ->
  forallb p (Js.Set_delete s x ++ [x]) = forallb p s.
Proof.
  intro H. unfold Js.Set_has in H. apply existsb_exists in H.
  destruct H as [y [Hy Hxy]]. apply String.eqb_eq in Hxy. subst y.
  apply eq_iff_eq_true. rewrite !forallb_forall. unfold Js.Set_delete.
  split.
  - intros Hall z Hz. destruct (string_dec z x) as [-> | Hne].
    + apply Hall. apply in_or_app. right. left. reflexivity.
    + apply Hall. apply in_or_app. left. apply filter_In.
      split; [exact Hz|]. apply negb_true_iff. apply String.eqb_neq.
      exact Hne.
  - intros Hall z Hz. apply in_app_or in Hz. destruct Hz as [Hz | [<- | []]].
    + apply filter_In in Hz. apply Hall. apply Hz.
    + apply Hall. exact Hy.
Qed.

(** The set of filters after the tag was toggled twice decides as the set
    before. *)
Lemma toggleFilter_twice (u : UI.t) (b : Board) (cardId tag : string) :
  UI.applyFiltersToCard (UI.toggleFilter tag (UI.toggleFilter tag u))
    b cardId
  = UI.applyFiltersToCard u b cardId.
Proof.
  unfold UI.toggleFilter at 2.
  destruct (Js.Set_has (UI.activeTagFilters u) tag) eqn:Hhas.
  - unfold UI.toggleFilter.
    cbn [UI.activeTagFilters UI.searchQuery UI.cards].
    rewrite Set_delete_has.
    unfold UI.applyFiltersToCard.
    destruct (Store.findCard b cardId) as [[i card]|]; [|reflexivity].
    destruct (nth_error b i) as [col|]; [|reflexivity].
    destruct (Column.isArchive col); [reflexivity|].
    match goal with
    | |- context [UI.searchMatch (UI.mk ?f ?q ?c) card] =>
        change (UI.searchMatch (UI.mk f q c) card)
          with (UI.searchMatch u card)
    end.
    destruct (UI.searchMatch u card) as [sm|]; [|reflexivity].
    assert (Ht : UI.tagsMatch
                   (UI.mk
                      (Js.Set_add (Js.Set_delete (UI.activeTagFilters u) tag)
                         tag) (UI.searchQuery u) (UI.cards u)) card
                 = UI.tagsMatch u card).
    { pose proof (tagsMatch_added
                    (UI.mk (Js.Set_delete (UI.activeTagFilters u) tag)
                       (UI.searchQuery u) (UI.cards u)) tag card (UI.cards u)
                    (Set_delete_has _ _))
        as Ha.
      cbn [UI.activeTagFilters UI.searchQuery] in Ha. rewrite Ha.
      rewrite (tagsMatch_nonempty u card)
        by (intro E; rewrite E in Hhas; discriminate).
      destruct (Card.tags card) as [l|]; [|reflexivity].
      rewrite <- (forallb_deleted _ _ _ Hhas), forallb_app_one.
      reflexivity. }
    rewrite Ht. reflexivity.
  - unfold UI.toggleFilter.
    cbn [UI.activeTagFilters UI.searchQuery UI.cards].
    assert (Hin : Js.Set_has (Js.Set_add (UI.activeTagFilters u) tag) tag
                  = true).
    { unfold Js.Set_has. apply existsb_exists. exists tag.
      split; [|apply String.eqb_refl].
      apply Set_add_in. right. reflexivity. }
    rewrite Hin.
    assert (Hd : Js.Set_delete (Js.Set_add (UI.activeTagFilters u) tag) tag
                 = UI.activeTagFilters u).
    { unfold Js.Set_add. rewrite Hhas. unfold Js.Set_delete.
      rewrite filter_app. simpl. rewrite String.eqb_refl. simpl.
      rewrite app_nil_r. apply (Set_delete_absent _ _ Hhas). }
    rewrite Hd. destruct u; reflexivity.
Qed.

(** *** The loop over the card elements *)

Lemma applyFilters_state (b : Board) (u : UI.t) :
  UI.activeTagFilters (fst (UI.applyFilters b u)) = UI.activeTagFilters u
  /\ UI.searchQuery (fst (UI.applyFilters b u)) = UI.searchQuery u
  /\ UI.cards (fst (UI.applyFilters b u))
     = fst (UI.filterEls u b (UI.cards u))
  /\ snd (UI.applyFilters b u) = snd (UI.filterEls u b (UI.cards u)).
Proof.
  unfold UI.applyFilters.
  destruct (UI.filterEls u b (UI.cards u)) as [els fin].
  repeat split; reflexivity.
Qed.

Lemma toggleTagFilter_state (tag : string) (parses : bool) (b : Board)
    (u : UI.t) :
  UI.activeTagFilters (fst (UI.toggleTagFilter tag parses b u))
  = UI.activeTagFilters (UI.toggleFilter tag u)
  /\ UI.searchQuery (fst (UI.toggleTagFilter tag parses b u))
     = UI.searchQuery (UI.toggleFilter tag u).
Proof.
  unfold UI.toggleTagFilter. destruct parses; [|split; reflexivity].
  destruct (applyFilters_state b (UI.toggleFilter tag u)) as [H1 [H2 _]].
  split; assumption.
Qed.

Lemma toggleFilter_ext (tag : string) (u u' : UI.t) :
  UI.activeTagFilters u' = UI.activeTagFilters u ->
  UI.searchQuery u' = UI.searchQuery u ->
  UI.activeTagFilters (UI.toggleFilter tag u')
  = UI.activeTagFilters (UI.toggleFilter tag u)
  /\ UI.searchQuery (UI.toggleFilter tag u')
     = UI.searchQuery (UI.toggleFilter tag u).
Proof.
  intros Hf Hq. unfold UI.toggleFilter. rewrite Hf.
  destruct (Js.Set_has (UI.activeTagFilters u) tag);
    cbn [UI.activeTagFilters UI.searchQuery]; rewrite ?Hf, ?Hq;
    split; reflexivity.
Qed.

Lemma filterEl_ext (u u' : UI.t) (b : Board) (el : UI.CardEl) :
  UI.activeTagFilters u' = UI.activeTagFilters u ->
  UI.searchQuery u' = UI.searchQuery u ->
  UI.filterEl u' b el = UI.filterEl u b el.
Proof.
  intros Hf Hq. unfold UI.filterEl.
  destruct (UI.elId el) as [k|]; [|reflexivity].
  rewrite (applyFiltersToCard_ext u u' b k Hf Hq). reflexivity.
Qed.

Lemma filterEls_ext (u u' : UI.t) (b : Board) (els : list UI.CardEl) :
  UI.activeTagFilters u' = UI.activeTagFilters u ->
  UI.searchQuery u' = UI.searchQuery u ->
  UI.filterEls u' b els = UI.filterEls u b els.
Proof.
  intros Hf Hq. induction els as [|el els IH]; [reflexivity|].
  cbn [UI.filterEls]. rewrite (filterEl_ext u u' b el Hf Hq), IH.
  reflexivity.
Qed.

Lemma filterEl_id (u : UI.t) (b : Board) (el el' : UI.CardEl) :
  UI.filterEl u b el = Some el' -> UI.elId el' = UI.elId el.
Proof.
  unfold UI.filterEl. destruct (UI.elId el) as [k|] eqn:E.
  - destruct (UI.applyFiltersToCard u b k); intro H; inversion H; subst;
      simpl; congruence.
  - intro H. inversion H. subst. exact E.
Qed.

(** An element that was filtered is filtered as it is. *)
Lemma filterEl_idem (u : UI.t) (b : Board) (el el' : UI.CardEl) :
  UI.filterEl u b el = Some el' -> UI.filterEl u b el' = Some el'.
Proof.
  unfold UI.filterEl. destruct (UI.elId el) as [k|] eqn:E.
  - destruct (UI.applyFiltersToCard u b k) eqn:Eo; intro H; inversion H;
      subst; cbn [UI.elId]; try rewrite E; try rewrite Eo; reflexivity.
  - intro H. inversion H. subst. rewrite E. reflexivity.
Qed.

(** The elements are as a finished pass leaves them exactly when each is
    filtered as it is. *)
Lemma filterEls_settled (u : UI.t) (b : Board) (els : list UI.CardEl) :
  UI.filterEls u b els = (els, true)
  <-> Forall (fun el => UI.filterEl u b el = Some el) els.
Proof.
  induction els as [|el els IH]; cbn [UI.filterEls].
  - split; [constructor | reflexivity].
  - destruct (UI.filterEl u b el) as [el'|] eqn:E.
    + destruct (UI.filterEls u b els) as [rest fin] eqn:Er. split.
      * intro H. inversion H. subst. constructor; [exact E|].
        apply IH. reflexivity.
      * intro H. inversion H as [|? ? H1 H2]. subst.
        apply IH in H2. inversion H2. subst. congruence.
    + split; [discriminate|].
      intro H. inversion H. congruence.
Qed.

Lemma Forall2_same {A : Type} (R : A -> A -> Prop) (l : list A) :
  (forall x, In x l -> R x x) -> Forall2 R l l.
Proof.
  induction l as [|x l IH]; intro H; constructor.
  - apply H. left. reflexivity.
  - apply IH. intros y Hy. apply H. right. exact Hy.
Qed.

Lemma filterEls_pointwise (R : UI.CardEl -> UI.CardEl -> Prop) (u : UI.t)
    (b : Board) (els : list UI.CardEl) :
  (forall el, In el els -> R el el) ->
  (forall el el', In el els -> UI.filterEl u b el = Some el' -> R el el') ->
  Forall2 R els (fst (UI.filterEls u b els)).
Proof.
  induction els as [|el els IH]; intros Hrefl Hstep; cbn [UI.filterEls].
  - constructor.
  - destruct (UI.filterEl u b el) as [el'|] eqn:E.
    + destruct (UI.filterEls u b els) as [rest fin] eqn:Er. cbn [fst].
      constructor.
      * apply Hstep; [left; reflexivity | exact E].
      * apply IH.
        -- intros x Hx. apply Hrefl. right. exact Hx.
        -- intros x x' Hx. apply Hstep. right. exact Hx.
    + cbn [fst]. apply Forall2_same. exact Hrefl.
Qed.

Lemma filterEls_finishes (u : UI.t) (b : Board) (els : list UI.CardEl) :
  Forall (fun el => UI.filterEl u b el <> None) els ->
  snd (UI.filterEls u b els) = true
  /\ UI.filterEls u b (fst (UI.filterEls u b els))
     = (fst (UI.filterEls u b els), true).
Proof.
  induction 1 as [|el els Hel _ IH]; cbn [UI.filterEls].
  - split; reflexivity.
  - destruct (UI.filterEl u b el) as [el'|] eqn:E; [|congruence].
    destruct (UI.filterEls u b els) as [rest fin] eqn:Er.
    cbn [fst snd] in *. destruct IH as [-> IH]. split; [reflexivity|].
    cbn [UI.filterEls]. rewrite (filterEl_idem u b el el' E), IH.
    reflexivity.
Qed.

(** X17.  One more active tag filter never brings a card into view, and
    one fewer never takes a card out of view, when the card elements are
    as a finished pass of [applyFilters] under the present filters and
    query leaves them.  After [toggleTagFilter] has switched a tag on,
    every element that is in view was in view before, even when the pass
    stopped at a card without tags; after it has switched a tag off, every
    element that was in view is in view, the pass comes to its end and the
    elements are again as a finished pass leaves them. *)
Theorem more_filters_fewer_cards
    (u : UI.t) (b : Board) (tag : string) (parses : bool) :
  UI.applyFilters b u = (u, true) ->
  let after := UI.toggleTagFilter tag parses b u in
  (Js.Set_has (UI.activeTagFilters u) tag = false ->
   Forall2
     (fun el el' =>
        UI.elId el' = UI.elId el
        /\ (UI.inView el' = true -> UI.inView el = true))
     (UI.cards u) (UI.cards (fst after)))
  /\ (Js.Set_has (UI.activeTagFilters u) tag = true ->
      Forall2
        (fun el el' =>
           UI.elId el' = UI.elId el
           /\ (UI.inView el = true -> UI.inView el' = true))
        (UI.cards u) (UI.cards (fst after))
      /\ (parses = true ->
          snd after = true
          /\ UI.applyFilters b (fst after) = (fst after, true))).
Proof.
  intro Hset. cbv zeta.
  assert (Hsettled : Forall (fun el => UI.filterEl u b el = Some el)
                       (UI.cards u)).
  { apply filterEls_settled.
    destruct (applyFilters_state b u) as [_ [_ [H3 H4]]].
    rewrite Hset in H3, H4. cbn [fst snd] in H3, H4.
    destruct (UI.filterEls u b (UI.cards u)) as [els fin].
    cbn [fst snd] in H3, H4. congruence. }
  rewrite Forall_forall in Hsettled.
  assert (Hcards : UI.cards (UI.toggleFilter tag u) = UI.cards u).
  { unfold UI.toggleFilter.
    destruct (Js.Set_has (UI.activeTagFilters u) tag); reflexivity. }
  assert (Hafter : forall R : UI.CardEl -> UI.CardEl -> Prop,
            (forall el, R el el) ->
            (forall el el', In el (UI.cards u) ->
               UI.filterEl (UI.toggleFilter tag u) b el = Some el' ->
               R el el') ->
            Forall2 R (UI.cards u)
              (UI.cards (fst (UI.toggleTagFilter tag parses b u)))).
  { intros R HR Hstep. unfold UI.toggleTagFilter.
    destruct parses.
    - destruct (applyFilters_state b (UI.toggleFilter tag u))
        as [_ [_ [H3 _]]].
      rewrite H3, Hcards. apply filterEls_pointwise; auto.
    - cbn [fst]. rewrite Hcards. apply Forall2_same. auto. }
  destruct (Js.Set_has (UI.activeTagFilters u) tag) eqn:Hhas.
  - split; [discriminate|]. intros _. split.
    + apply Hafter; [tauto|].
      intros el el' Hin Hf. split; [exact (filterEl_id _ _ _ _ Hf)|].
      intro Hv. specialize (Hsettled el Hin).
      unfold UI.filterEl in *.
      destruct (UI.elId el) as [k|] eqn:Ek; [|congruence].
      destruct (toggleFilter_outcome u b k tag) as [_ Hoff].
      destruct (Hoff Hhas) as [Hkeep [_ Hunt]].
      destruct (UI.applyFiltersToCard u b k) as [|shown|] eqn:Eo;
        [| |discriminate].
      * rewrite (Hunt eq_refl) in Hf. congruence.
      * inversion Hsettled as [He]. rewrite <- He in Hv. cbn in Hv.
        subst shown. rewrite (Hkeep eq_refl) in Hf.
        inversion Hf. reflexivity.
    + intros ->. unfold UI.toggleTagFilter.
      destruct (applyFilters_state b (UI.toggleFilter tag u))
        as [H1 [H2 [H3 H4]]].
      assert (Hok : Forall
                      (fun el =>
                         UI.filterEl (UI.toggleFilter tag u) b el <> None)
                      (UI.cards u)).
      { apply Forall_forall. intros el Hin.
        specialize (Hsettled el Hin). unfold UI.filterEl in *.
        destruct (UI.elId el) as [k|]; [|discriminate].
        destruct (toggleFilter_outcome u b k tag) as [_ Hoff].
        destruct (Hoff Hhas) as [_ [Hno _]].
        destruct (UI.applyFiltersToCard u b k) eqn:Eo; try discriminate;
          (destruct (UI.applyFiltersToCard (UI.toggleFilter tag u) b k);
           [discriminate | discriminate | exfalso; apply Hno; congruence]). }
      destruct (filterEls_finishes _ b _ Hok) as [Hfin Hidem].
      rewrite <- Hcards in Hfin, Hidem.
      split; [rewrite H4; exact Hfin|].
      set (v := fst (UI.applyFilters b (UI.toggleFilter tag u))) in *.
      unfold UI.applyFilters at 1.
      rewrite (filterEls_ext (UI.toggleFilter tag u) v b (UI.cards v) H1 H2).
      rewrite H3, Hidem. cbn [fst].
      rewrite <- H3. destruct v; reflexivity.
  - split; [|discriminate]. intros _.
    apply Hafter; [tauto|].
    intros el el' Hin Hf. split; [exact (filterEl_id _ _ _ _ Hf)|].
    intro Hv. specialize (Hsettled el Hin).
    unfold UI.filterEl in *.
    destruct (UI.elId el) as [k|] eqn:Ek; [|congruence].
    destruct (toggleFilter_outcome u b k tag) as [Hon _].
    destruct (UI.applyFiltersToCard (UI.toggleFilter tag u) b k)
      as [|shown|] eqn:Eo; [| |discriminate].
    + congruence.
    + inversion Hf as [He]. rewrite <- He in Hv. cbn in Hv. subst shown.
      rewrite (Hon Hhas eq_refl) in Hsettled.
      injection Hsettled as He'. rewrite <- He'. reflexivity.
Qed.

(** A card tagged "ui" and "bug", in view without a filter, is in view
    under the filter "ui". *)
Lemma more_filters_fewer_cards_witness :
  Forall2
    (fun el el' =>
       UI.elId el' = UI.elId el
       /\ (UI.inView el' = true -> UI.inView el = true))
    (UI.cards Sample.page5)
    (UI.cards (fst (UI.toggleTagFilter "ui" true Sample.board5 Sample.page5))).
Proof.
  exact (proj1 (more_filters_fewer_cards Sample.page5 Sample.board5 "ui" true
                  eq_refl) eq_refl).
Defined.

(** X18.  Switching a tag filter on and off again, or off and on again,
    leaves the card filter as it was: [applyFiltersToCard] does to every
    card what it did before. *)
Theorem toggleTagFilter_twice
    (u : UI.t) (b : Board) (cardId tag : string) (parses parses' : bool) :
  UI.applyFiltersToCard
    (fst (UI.toggleTagFilter tag parses' b
            (fst (UI.toggleTagFilter tag parses b u))))
    b cardId
  = UI.applyFiltersToCard u b cardId.
Proof.
  destruct (toggleTagFilter_state tag parses b u) as [F1 Q1].
  destruct (toggleTagFilter_state tag parses' b
              (fst (UI.toggleTagFilter tag parses b u))) as [F2 Q2].
  destruct (toggleFilter_ext tag (UI.toggleFilter tag u)
              (fst (UI.toggleTagFilter tag parses b u)) F1 Q1) as [F3 Q3].
  rewrite (applyFiltersToCard_ext
             (UI.toggleFilter tag (UI.toggleFilter tag u)) _ b cardId);
    [apply toggleFilter_twice | congruence | congruence].
Qed.

(** ** Dnd: the mouse branch and the end of the gesture *)

(** X19.  A press of the primary mouse button on a card, outside its
    interactive elements, arms the recogniser without any timer.  A move
    of that pointer then starts the drag exactly when it is more than 6 px
    away from the press, measured along the straight line; a press of
    another mouse button, or one on an interactive element, is ignored. *)
Theorem mouse_drag_threshold
    (now : Z) (press move : Dnd.PointerEvent) (d : Dnd.t) :
  Dnd.evType press = Dnd.Mouse ->
  (Dnd.evButton press <> 0%Z \/ Dnd.onInteractive press = true ->
   Dnd.startCardPotentialDrag now press d = d)
  /\ (Dnd.evButton press = 0%Z -> Dnd.onInteractive press = false ->
      Dnd.evType move = Dnd.Mouse ->
      Dnd.evPointerId move = Dnd.evPointerId press ->
      let armed := Dnd.startCardPotentialDrag now press d in
      let dx := (Dnd.clientX move - Dnd.clientX press)%Z in
      let dy := (Dnd.clientY move - Dnd.clientY press)%Z in
      Dnd.phaseOf armed = Dnd.Armed
      /\ Dnd.timers armed = Dnd.timers d
      /\ ((36 < dx * dx + dy * dy)%Z ->
          Dnd.phaseOf (Dnd.onCardPotentialMove move armed) = Dnd.Dragging)
      /\ ((dx * dx + dy * dy <= 36)%Z ->
          Dnd.phaseOf (Dnd.onCardPotentialMove move armed) = Dnd.Armed)).
Proof.
  intro Hmouse. split.
  - intros [Hb | Hi]; unfold Dnd.startCardPotentialDrag; rewrite Hmouse;
      cbn [Dnd.isMouse andb].
    + replace (Dnd.evButton press =? 0)%Z with false
        by (symmetry; apply Z.eqb_neq; exact Hb).
      reflexivity.
    + rewrite Hi. destruct (negb (Dnd.evButton press =? 0)%Z); reflexivity.
  - intros Hb Hi Hmove Hid. cbv zeta.
    unfold Dnd.startCardPotentialDrag. rewrite Hmouse, Hb, Hi.
    cbn [Dnd.isMouse andb negb Z.eqb].
    split; [reflexivity|]. split; [reflexivity|].
    unfold Dnd.onCardPotentialMove.
    cbn [Dnd.listening Dnd.cardDrag negb Dnd.pointerId Dnd.started
         Dnd.isTouch Dnd.startX Dnd.startY andb orb Dnd.timerId].
    rewrite Hid, Z.eqb_refl, Hmove. cbn [negb Dnd.isMouse andb].
    unfold Dnd.fartherThan. split; intro H.
    + replace (_ >? 6 * 6)%Z with true by (symmetry; apply Z.gtb_lt; lia).
      reflexivity.
    + replace (_ >? 6 * 6)%Z with false
        by (symmetry; rewrite Z.gtb_ltb; apply Z.ltb_ge; lia).
      reflexivity.
Qed.

(** The mouse press of the samples and the pointer 7 px to the right. *)
Lemma mouse_drag_threshold_witness :
  Dnd.phaseOf
    (Dnd.onCardPotentialMove Sample.pull
       (Dnd.startCardPotentialDrag 0 Sample.click Dnd.idle))
  = Dnd.Dragging.
Proof.
  refine (proj1 (proj2 (proj2
            (proj2 (mouse_drag_threshold 0 Sample.click Sample.pull
                      Dnd.idle eq_refl)
               eq_refl eq_refl eq_refl eq_refl))) _).
  simpl. lia.
Defined.

Lemma clear_fresh_timer (i : nat) (tm : Dnd.Timer) (l : list Dnd.Timer) :
  Forall (fun x => Dnd.tmId x < i) l -> Dnd.tmId tm = i ->
  Dnd.clearTimeout (Some i) (l ++ [tm]) = l.
Proof.
  intros Hl Htm. unfold Dnd.clearTimeout. rewrite filter_app. simpl.
  rewrite Htm, Nat.eqb_refl. simpl. rewrite app_nil_r.
  induction Hl as [|x l Hx _ IH]; simpl; [reflexivity|].
  replace (Dnd.tmId x =? i)%nat with false
    by (symmetry; apply Nat.eqb_neq; lia).
  simpl. f_equal. exact IH.
Qed.

(** X20.  A tap is not a drag: when a touch press on a card is followed by
    the release of that pointer before the long-press timer fired, the
    release cancels the timer, the recogniser is idle with its listeners
    detached, no card is moved whatever the document reports about a
    placeholder, and no timer callback that runs later starts a drag. *)
Theorem tap_never_drags
    (now now' : Z) (nowIso : string) (press up : Dnd.PointerEvent)
    (drop : option Dnd.Drop) (d : Dnd.t) (s : Store.t) :
  Dnd.isMouse (Dnd.evType press) = false ->
  Dnd.onInteractive press = false ->
  Dnd.timersFresh d ->
  Dnd.evPointerId up = Dnd.evPointerId press ->
  let armed := Dnd.startCardPotentialDrag now press d in
  let r := Dnd.onCardDragEnd now' nowIso up drop armed s in
  let d' := fst (fst r) in
  snd (fst r) = s
  /\ Dnd.phaseOf d' = Dnd.Idle
  /\ Dnd.listening d' = false
  /\ Dnd.timers d' = Dnd.timers d
  /\ Dnd.suppressClick d' = Dnd.suppressClick d
  /\ forall t i, Dnd.phaseOf (Dnd.timerFired t i d') = Dnd.Idle.
Proof.
  intros Htouch Hi Hfresh Hid. cbv zeta.
  unfold Dnd.startCardPotentialDrag. rewrite Htouch, Hi.
  cbn [andb negb].
  unfold Dnd.onCardDragEnd.
  cbn [Dnd.listening Dnd.cardDrag negb Dnd.pointerId Dnd.setTimerId
       Dnd.started Dnd.timerId Dnd.timers Dnd.nextTimerId
       Dnd.suppressClick].
  rewrite Hid, Z.eqb_refl. cbn [negb fst snd].
  split; [reflexivity|]. split; [reflexivity|]. split; [reflexivity|].
  split.
  { cbn [Dnd.timers]. apply clear_fresh_timer; [exact Hfresh | reflexivity]. }
  split; [reflexivity|].
  intros t i. unfold Dnd.timerFired.
  cbn [Dnd.timers Dnd.cardDrag].
  match goal with
  | |- context [find ?p ?l] => destruct (find p l) as [tm|]
  end; [|reflexivity].
  destruct (Dnd.tmDue tm <=? t)%Z; reflexivity.
Qed.

(** The touch press of the samples, released where it was pressed. *)
Lemma tap_never_drags_witness :
  Dnd.timers
    (fst (fst (Dnd.onCardDragEnd 50 Sample.mar5 Sample.press None
                 (Dnd.startCardPotentialDrag 0 Sample.press Dnd.idle)
                 Sample.store2)))
  = [].
Proof.
  refine (proj1 (proj2 (proj2 (proj2
            (tap_never_drags 0 50 Sample.mar5 Sample.press Sample.press None
               Dnd.idle Sample.store2 eq_refl eq_refl _ eq_refl))))).
  constructor.
Defined.

(** ** App.promptDeleteOrArchive: the archive button *)

Lemma findColumnIndex_own (b : Board) (i : nat) (col : Column.t) :
  NoDup (map Column.id b) -> nth_error b i = Some col ->
  Store.findColumnIndex (Column.id col) b = Some i.
Proof.
  intros Hnd Hn.
  pose proof (find_unique_id b col Hnd (nth_error_In _ _ Hn)) as Hf.
  destruct (findColumn_index _ _ _ Hf) as [j [Ej Hj]].
  rewrite Ej. f_equal.
  apply (proj1 (NoDup_nth_error (map Column.id b)) Hnd).
  - rewrite length_map. apply nth_error_Some. congruence.
  - rewrite !nth_error_map, Hj, Hn. reflexivity.
Qed.

(** X21.  The archive button puts the card at the end of the archive
    column: on a board with pairwise distinct column ids, a card that
    [findCard] returns in a column that is not the archive leaves that
    column and becomes the last card of the first archive column, stamped
    as moved; nothing is thrown.  On a board without an archive column the
    handler throws before it changes anything. *)
Theorem archive_button_moves_card
    (now : Z) (nowIso cardId : string) (s : Store.t) (i : nat)
    (card : Card.t) (col : Column.t) :
  Store.findCard (Store.columns s) cardId = Some (i, card) ->
  nth_error (Store.columns s) i = Some col ->
  (find Column.isArchive (Store.columns s) = None ->
   App.promptDeleteOrArchive now nowIso cardId App.ChooseArchive s = None)
  /\ (forall archiveCol,
        NoDup (map Column.id (Store.columns s)) ->
        Column.isArchive col = false ->
        find Column.isArchive (Store.columns s) = Some archiveCol ->
        let moved :=
          Store.stampMove nowIso (Store.clientId s)
            (Store.seqCounter s + 1) card in
        exists s',
          App.promptDeleteOrArchive now nowIso cardId App.ChooseArchive s
          = Some s'
          /\ Store.findColumn (Column.id archiveCol) (Store.columns s')
             = Some (Column.setCards (Column.cards archiveCol ++ [moved])
                                     archiveCol)
          /\ Store.findColumn (Column.id col) (Store.columns s')
             = Some (Column.setCards
                       (dropFirst (Card.hasId cardId) (Column.cards col))
                       col)).
Proof.
  intros Hfind Hn. split.
  - intro Hnone. unfold App.promptDeleteOrArchive.
    rewrite Hfind, Hnone. reflexivity.
  - intros arch Hnd Hcol Harch. cbv zeta.
    set (b := Store.columns s) in *.
    assert (Hain : In arch b) by (apply find_some in Harch; apply Harch).
    assert (Haflag : Column.isArchive arch = true)
      by (apply find_some in Harch; apply Harch).
    assert (Hcin : In col b) by (apply (nth_error_In _ i); exact Hn).
    assert (Hids : Column.id col <> Column.id arch).
    { intro E.
      assert (col = arch)
        by (apply (NoDup_map_eq Column.id b); assumption).
      subst col. congruence. }
    destruct (In_nth_error _ _ Hain) as [ti Hti].
    pose proof (findColumnIndex_own b i col Hnd Hn) as Efi.
    pose proof (findColumnIndex_own b ti arch Hnd Hti) as Eti.
    assert (Hne : i <> ti) by (intro E; subst ti; congruence).
    destruct (findCard_Some _ _ _ _ Hfind) as [col' [Hn' [Hf _]]].
    assert (col' = col) by (fold b in Hn'; congruence). subst col'.
    destruct (findIndex_Some _ _ _ Hf) as [ci Eci].
    assert (Hci : nth_error (Column.cards col) ci = Some card)
      by (rewrite (findIndex_find _ _ _ Eci); exact Hf).
    unfold App.promptDeleteOrArchive. fold b.
    rewrite Hfind, Harch, Hn.
    replace (Column.id col =? Column.id arch) with false
      by (symmetry; apply String.eqb_neq; exact Hids).
    cbn [negb].
    eexists. split; [reflexivity|].
    rewrite (moveCard_found now nowIso cardId (Column.id col)
               (Column.id arch) (-1) s i ti ci col card Efi Eti Hn Eci Hci).
    rewrite saveState_columns. cbn [Store.columns Store.setColumns].
    fold b.
    set (rem := fun c : Column.t =>
                  Column.setCards (Js.removeAt ci (Column.cards c)) c).
    set (moved := Store.stampMove nowIso (Store.clientId s)
                    (Store.seqCounter s + 1) card).
    set (put := fun c : Column.t =>
                  Column.setCards
                    (Store.placeCard (-1) moved (Column.cards c)) c).
    assert (Hidx : forall k,
               Store.findColumnIndex k (Js.updateAt ti put (Js.updateAt i rem b))
               = Store.findColumnIndex k b).
    { intro k.
      rewrite findColumnIndex_updateAt by (intro; reflexivity).
      apply findColumnIndex_updateAt. intro. reflexivity. }
    split.
    + rewrite (findColumn_at _ _ ti) by (rewrite Hidx; exact Eti).
      rewrite updateAt_nth_same, updateAt_nth_other by exact Hne.
      fold b. rewrite Hti. reflexivity.
    + rewrite (findColumn_at _ _ i) by (rewrite Hidx; exact Efi).
      rewrite updateAt_nth_other by congruence.
      rewrite updateAt_nth_same. fold b. rewrite Hn. simpl.
      unfold rem. rewrite (removeAt_dropFirst _ _ _ Eci). reflexivity.
Qed.

(** The card "p" of the sample store is archived. *)
Lemma archive_button_moves_card_witness :
  exists s',
    App.promptDeleteOrArchive 5 Sample.mar5 "p" App.ChooseArchive
      Sample.store2 = Some s'
    /\ Store.findColumn "archive" (Store.columns s')
       = Some (Column.setCards
                 [Store.stampMove Sample.mar5 "c_local" 8 Sample.other]
                 Store.archiveColumn)
    /\ Store.findColumn "n" (Store.columns s')
       = Some (Column.setCards [Sample.third]
                 (Sample.backlog [Sample.other; Sample.third])).
Proof.
  refine (proj2 (archive_button_moves_card 5 Sample.mar5 "p" Sample.store2 1
                   Sample.other (Sample.backlog [Sample.other; Sample.third])
                   eq_refl eq_refl)
            Store.archiveColumn _ eq_refl eq_refl).
  repeat constructor; simpl; intuition discriminate.
Defined.

(** ** App.importJSON and the archive column *)

Lemma initCtx_idsKnown (b : Board) :
  NoDup (map Column.id b) -> idsKnown (App.initCtx b).
Proof.
  intro Hnd. split; [exact Hnd|].
  intros c Hc. cbn [App.initCtx App.existingById App.columns] in *.
  destruct (entriesFrom_in 0 Column.id b c Hc) as [v Hv].
  destruct (Map_of_get _ _ _ Hv) as [v' ->]. discriminate.
Qed.

Lemma decideTarget_idsKnown (ctx : App.Ctx) (D : Column.t) :
  idsKnown ctx -> idsKnown (fst (App.decideTarget ctx D)).
Proof.
  intros [Hnd Hk].
  destruct (decideTarget_cases ctx D) as [[t [_ ->]] | [Hnone ->]];
    [split; assumption|].
  unfold idsKnown. cbn [fst App.columns App.existingById].
  destruct (resolveTarget_None ctx D Hnone) as [Hid _].
  split.
  - rewrite map_app. simpl.
    apply NoDup_Add with (a := Column.id D)
                         (l := map Column.id (App.columns ctx)).
    + rewrite <- (app_nil_r (map Column.id (App.columns ctx))) at 1.
      apply Add_app.
    + split; [exact Hnd|]. intro Hin. apply in_map_iff in Hin.
      destruct Hin as [c [Hc Hin]]. apply (Hk c Hin). rewrite Hc. exact Hid.
  - intros c Hc. apply in_app_or in Hc. destruct Hc as [Hc | [<- | []]].
    + destruct (string_dec (Column.id c) (Column.id D)) as [E | Hne].
      * rewrite E, Map_get_set_same. discriminate.
      * rewrite Map_get_set_other by exact Hne. apply Hk. exact Hc.
    + rewrite Map_get_set_same. discriminate.
Qed.

Lemma decideTargets_idsKnown (s : list Column.t) (ctx : App.Ctx) :
  idsKnown ctx -> idsKnown (fst (App.decideTargets ctx s)).
Proof.
  revert ctx. induction s as [|D rest IH]; intros ctx H.
  - exact H.
  - rewrite decideTargets_cons. cbn [fst]. apply IH.
    apply decideTarget_idsKnown. exact H.
Qed.

Lemma importMerge_archived
    (Date_parse : string -> option Z) (b : Board) (incoming : list Column.t) :
  archived b -> archived (App.importMerge Date_parse b incoming).
Proof.
  intros [Hnd Harch].
  assert (E : headers (App.importMerge Date_parse b incoming)
              = headers
                  (App.columns
                     (fst (App.decideTargets (App.initCtx b) incoming)))).
  { rewrite importMerge_unfold. apply mergeColumns_headers. }
  split.
  - rewrite (headers_ids _ _ E).
    apply (decideTargets_idsKnown incoming (App.initCtx b)).
    apply initCtx_idsKnown. exact Hnd.
  - rewrite (headers_archive _ _ E).
    destruct (decideTargets_grows incoming (App.initCtx b))
      as [pushed [-> _]].
    cbn [App.columns App.initCtx]. rewrite existsb_app, Harch. reflexivity.
Qed.

(** X22.  An import keeps the archive column with one exception: on a
    board that has an archive column and pairwise distinct column ids, the
    board after [importJSON] again has both when the user cancels, when
    the file does not parse or validate, and when the snapshot is merged.
    When the snapshot replaces the board, the board is the snapshot as it
    is, without the archive column [loadState] would add, so it has both
    exactly when the snapshot has. *)
Theorem importJSON_keeps_archive
    (Date_parse : string -> option Z) (now : Z) (incoming : Store.loaded)
    (choice : App.ImportChoice) (s : Store.t) :
  archived (Store.columns s) ->
  (choice <> App.ImportReplace ->
   archived
     (Store.columns (App.importJSON Date_parse now incoming choice s)))
  /\ (forall incomingColumns,
        incoming = Store.Loaded incomingColumns ->
        Store.columns
          (App.importJSON Date_parse now incoming App.ImportReplace s)
        = incomingColumns).
Proof.
  intro H. split.
  - intro Hc. unfold App.importJSON.
    destruct incoming as [| |inc]; try exact H.
    destruct choice; [congruence | | exact H |].
    + rewrite saveState_columns. cbn [Store.columns Store.setColumns].
      apply importMerge_archived. exact H.
    + rewrite saveState_columns. exact H.
  - intros inc ->. unfold App.importJSON.
    rewrite saveState_columns. reflexivity.
Qed.

(** The backup is merged into the sample store. *)
Lemma importJSON_keeps_archive_witness :
  archived
    (Store.columns
       (App.importJSON Iso.parse 5 (Store.Loaded Sample.backup)
          App.ImportMerge Sample.store2)).
Proof.
  refine (proj1 (importJSON_keeps_archive Iso.parse 5
                   (Store.Loaded Sample.backup) App.ImportMerge
                   Sample.store2 _) _).
  - split; [|reflexivity].
    repeat constructor; simpl; intuition discriminate.
  - discriminate.
Defined.

(** ** Utils.colorFromString *)

Lemma hashStep_range (hash : Z) (c : ascii) :
  (0 <= hash)%Z -> (0 <= Utils.hashStep hash c < 360)%Z.
Proof.
  intro H. unfold Utils.hashStep.
  assert (H0 : (0 <= hash * 31 + Z.of_nat (nat_of_ascii c))%Z) by lia.
  rewrite Z.rem_mod_nonneg by lia.
  apply Z.mod_pos_bound. lia.
Qed.

Lemma hue_fold_range (l : list ascii) (hash : Z) :
  (0 <= hash < 360)%Z ->
  (0 <= fold_left Utils.hashStep l hash < 360)%Z.
Proof.
  revert hash. induction l as [|c l IH]; intros hash H; simpl.
  - exact H.
  - apply IH. apply hashStep_range. lia.
Qed.

(** X23.  The hash [colorFromString] computes is a hue: a whole number of
    degrees from 0 to 359, for every string; a string and the same string
    with more characters after it start from the same hash. *)
Theorem colorFromString_hue (str more : string) :
  (0 <= Utils.hueOf str < 360)%Z
  /\ Utils.hueOf (str ++ more)
     = fold_left Utils.hashStep (list_ascii_of_string more) (Utils.hueOf str).
Proof.
  split.
  - unfold Utils.hueOf. apply hue_fold_range. lia.
  - unfold Utils.hueOf.
    assert (E : list_ascii_of_string (str ++ more)
                = list_ascii_of_string str ++ list_ascii_of_string more).
    { induction str as [|a str IH]; simpl; [reflexivity|].
      rewrite IH. reflexivity. }
    rewrite E. apply fold_left_app.
Qed.

(** ** Local changes and the echo guard *)

(** A mutation returns the store it was given or ends with a save. *)
Lemma applyOp_saved (now : Z) (op : StoreOp) (s : Store.t) :
  applyOp now op s = s
  \/ exists s0,
       applyOp now op s = Store.saveState now s0
       /\ Store.useFirebase s0 = Store.useFirebase s.
Proof.
  destruct op; cbn [applyOp].
  - right. unfold Store.addColumn. cbn [snd]. eexists.
    split; reflexivity.
  - unfold Store.updateColumn.
    destruct (Store.findColumnIndex colId (Store.columns s));
      [|left; reflexivity].
    destruct (Store.findColumn colId (Store.columns s)) as [col|];
      [|left; reflexivity].
    destruct (negb (Column.isArchive col)); [|left; reflexivity].
    right. eexists. split; reflexivity.
  - unfold Store.deleteColumn.
    destruct (Store.findColumn colId (Store.columns s)) as [col|];
      [|left; reflexivity].
    destruct (negb (Column.isArchive col)); [|left; reflexivity].
    right. eexists. split; reflexivity.
  - unfold Store.addCard.
    destruct (Store.findColumnIndex colId (Store.columns s));
      [|left; reflexivity].
    right. cbn [Store.nextSeq snd]. eexists. split; reflexivity.
  - unfold Store.updateCard.
    destruct (Store.findCard (Store.columns s) cardId) as [[i c0]|];
      [|left; reflexivity].
    right. cbn [Store.nextSeq snd]. eexists. split; reflexivity.
  - unfold Store.deleteCard.
    destruct (Store.deleteCardIn cardId (Store.columns s));
      [|left; reflexivity].
    right. eexists. split; reflexivity.
  - destruct (moveCard_cases now nowIso cardId fromColId toColId toIndex s)
      as [-> | [fi [ti [ci [fromCol [card0 [Hfi [Hti [Hfrom [Hidx Hc]]]]]]]]]].
    { left. reflexivity. }
    right.
    rewrite (moveCard_found now nowIso cardId fromColId toColId toIndex s
               fi ti ci fromCol card0 Hfi Hti Hfrom Hidx Hc).
    eexists. split; reflexivity.
  - right. unfold Store.reorderColumns. eexists. split; reflexivity.
Qed.

(** X24.  With the remote backend selected, every mutation that changes
    the store arms the echo guard for 900 ms from the time of the call, and
    a snapshot the backend delivers before the guard runs out is dropped:
    the store stays as the mutation left it. *)
Theorem mutation_arms_echo_guard (now : Z) (op : StoreOp) (s : Store.t) :
  Store.useFirebase s = true ->
  applyOp now op s <> s ->
  Store.suppressEchoUntil (applyOp now op s) = (now + 900)%Z
  /\ forall (now' : Z) (incoming : option Board),
       (now' < now + 900)%Z ->
       Store.onRemoteSnapshot now' incoming (applyOp now op s)
       = applyOp now op s.
Proof.
  intros Hfb Hch.
  destruct (applyOp_saved now op s) as [E | [s0 [E Hs0]]]; [contradiction|].
  assert (Hg : Store.suppressEchoUntil (applyOp now op s) = (now + 900)%Z).
  { rewrite E. unfold Store.saveState. rewrite Hs0, Hfb. reflexivity. }
  split; [exact Hg|].
  intros now' incoming Hlt. unfold Store.onRemoteSnapshot.
  rewrite Hg. unfold Sync.shouldIgnore.
  replace (now' <? now + 900)%Z with true
    by (symmetry; apply Z.ltb_lt; exact Hlt).
  reflexivity.
Qed.

(** The card of the remote sample store is deleted at time 5; a snapshot
    delivered at time 500 is dropped. *)
Lemma mutation_arms_echo_guard_witness :
  Store.onRemoteSnapshot 500 (Some Sample.board0)
    (applyOp 5 (DeleteCard "k") Sample.store0)
  = applyOp 5 (DeleteCard "k") Sample.store0.
Proof.
  refine (proj2 (mutation_arms_echo_guard 5 (DeleteCard "k") Sample.store0
                   eq_refl _) 500%Z (Some Sample.board0) _).
  - vm_compute. discriminate.
  - lia.
Defined.

(** ** Card ids stay distinct when no column is appended *)

Lemma drop_one (k : string) (l : list Card.t) (ex : Card.t) :
  NoDup (map Card.id l) -> In ex l -> Card.id ex = k ->
  Permutation l (ex :: filter (fun c => negb (Card.hasId k c)) l).
Proof.
  induction l as [|x l IH]; intros Hnd Hin Hid; [contradiction|].
  simpl in Hnd. inversion Hnd as [|? ? Hnot Hnd']. subst.
  destruct Hin as [-> | Hin].
  - simpl. unfold Card.hasId at 1. rewrite String.eqb_refl. simpl.
    apply perm_skip.
    assert (Hf : forall l0, ~ In (Card.id ex) (map Card.id l0) ->
                 filter (fun c => negb (Card.hasId (Card.id ex) c)) l0 = l0).
    { induction l0 as [|y l0 IH0]; intro Hn; simpl; [reflexivity|].
      destruct (Card.hasId (Card.id ex) y) eqn:E.
      - exfalso. apply Hn. left. unfold Card.hasId in E.
        apply String.eqb_eq in E. exact E.
      - simpl. f_equal. apply IH0. intro H. apply Hn. right. exact H. }
    rewrite Hf by exact Hnot. reflexivity.
  - simpl. destruct (Card.hasId (Card.id ex) x) eqn:E.
    + exfalso. apply Hnot. unfold Card.hasId in E. apply String.eqb_eq in E.
      rewrite E. apply in_map. exact Hin.
    + simpl. rewrite (IH Hnd' Hin eq_refl) at 1. apply perm_swap.
Qed.

Lemma cardIds_updateAt_same (i : nat) (f : Column.t -> Column.t) (b : Board) :
  (forall col, map Card.id (Column.cards (f col))
               = map Card.id (Column.cards col)) ->
  cardIds (Js.updateAt i f b) = cardIds b.
Proof.
  intro Hf. unfold cardIds, allCards.
  rewrite !flat_map_concat_map, !concat_map, !map_map.
  f_equal. apply ids_updateAt. exact Hf.
Qed.

Section Distinct.

Variable Date_parse : string -> option Z.

(** The merge of one card makes no card id occur twice. *)
Lemma mergeCard_distinct (t : nat) (b : Board) (inc : Card.t) :
  NoDup (cardIds b) -> NoDup (cardIds (App.mergeCard Date_parse t b inc)).
Proof.
  intro Hnd.
  destruct (Store.findCard b (Card.id inc)) as [[i ex0]|] eqn:E.
  - destruct (mergeCard_found Date_parse t b inc ex0 i E)
      as [exCol [Hn [Hf [Hid ->]]]].
    set (ex := App.mergeContent Date_parse inc ex0) in *.
    set (b1 := Js.updateAt i
                 (fun col =>
                    Column.setCards
                      (App.replaceFirst (Card.id inc) ex (Column.cards col))
                      col) b).
    assert (E1 : cardIds b1 = cardIds b).
    { apply cardIds_updateAt_same. intro col. simpl.
      apply replaceFirst_ids. exact Hid. }
    assert (H1 : NoDup (cardIds b1)) by (rewrite E1; exact Hnd).
    destruct (nth_error b t) as [targetCol|] eqn:Et; [|exact H1].
    destruct (negb (Column.id exCol =? Column.id targetCol)
              && App.isPositionANewer Date_parse inc ex); [|exact H1].
    assert (Hn1 : nth_error b1 i
                  = Some (Column.setCards
                            (App.replaceFirst (Card.id inc) ex
                               (Column.cards exCol)) exCol)).
    { unfold b1. rewrite updateAt_nth_same, Hn. reflexivity. }
    assert (Hex : In ex (App.replaceFirst (Card.id inc) ex
                           (Column.cards exCol))).
    { pose proof (replaceFirst_find (Card.id inc) ex ex0
                    (Column.cards exCol) Hf Hid) as Hfind.
      apply find_some in Hfind. apply Hfind. }
    pose proof (allCards_loss i (App.dropCard (Card.id inc)) b1 _ ex Hn1)
      as P1.
    assert (Hlt : t < List.length
                        (Js.updateAt i (App.dropCard (Card.id inc)) b1)).
    { rewrite updateAt_length. unfold b1. rewrite updateAt_length.
      apply nth_error_Some. congruence. }
    destruct (nth_error (Js.updateAt i (App.dropCard (Card.id inc)) b1) t)
      as [col2|] eqn:E2; [|apply nth_error_None in E2; lia].
    pose proof (allCards_gain t (Column.pushCard ex)
                  (Js.updateAt i (App.dropCard (Card.id inc)) b1) col2 ex E2
                  (Permutation_sym (Permutation_cons_append _ _))) as P2.
    unfold cardIds.
    apply (Permutation_NoDup
             (l := map Card.id (allCards b1))); [|exact H1].
    apply Permutation_map. rewrite P2. apply P1.
    simpl. apply drop_one; [|exact Hex | exact Hid].
    refine (NoDup_cardIds_column b1 (Column.setCards _ exCol) H1 _).
    apply (nth_error_In _ i). exact Hn1.
  - rewrite (mergeCard_new Date_parse t b inc E).
    destruct (nth_error b t) as [col|] eqn:Et.
    + unfold cardIds.
      apply (Permutation_NoDup
               (l := map Card.id (inc :: allCards b))).
      * apply Permutation_map. symmetry.
        apply (allCards_gain t (Column.pushCard inc) b col inc Et).
        symmetry. apply Permutation_cons_append.
      * simpl. constructor; [|exact Hnd].
        apply findCard_None_ids. exact E.
    + rewrite updateAt_id; [exact Hnd|]. intros x Hx. congruence.
Qed.

Lemma mergeCards_distinct (t : nat) (l : list Card.t) (b : Board) :
  NoDup (cardIds b) ->
  NoDup (cardIds (fold_left (App.mergeCard Date_parse t) l b)).
Proof.
  revert b. induction l as [|c l IH]; intros b H; simpl; [exact H|].
  apply IH. apply mergeCard_distinct. exact H.
Qed.

(** Pass 2 makes no card id occur twice, whatever it iterates. *)
Lemma mergeColumns_distinct (ctx : App.Ctx)
    (L : list (Column.t * option nat)) (b : Board) :
  NoDup (cardIds b) ->
  NoDup (cardIds (fold_left (App.mergeColumn Date_parse ctx) L b)).
Proof.
  revert b. induction L as [|inc L IH]; intros b H; simpl; [exact H|].
  apply IH. unfold App.mergeColumn.
  destruct (App.resolveTarget ctx (fst inc)); [|exact H].
  apply mergeCards_distinct. exact H.
Qed.

End Distinct.

(** X25.  The merge makes a card id occur twice only by appending a column
    of the snapshot: when the card ids of the board are pairwise distinct
    and every column of the snapshot matches a column of the board by id
    or by normalized title, the card ids of the merged board are pairwise
    distinct, whatever cards the snapshot holds. *)
Theorem merge_keeps_ids_distinct
    (Date_parse : string -> option Z) (b : Board) (incoming : list Column.t) :
  NoDup (cardIds b) ->
  (forall D, In D incoming ->
     exists c, In c b
               /\ (Column.id c = Column.id D
                   \/ App.normTitle (Column.title c)
                      = App.normTitle (Column.title D))) ->
  NoDup (cardIds (App.importMerge Date_parse b incoming)).
Proof.
  intros Hnd Hall. rewrite importMerge_unfold.
  apply mergeColumns_distinct.
  rewrite (decideTargets_resolved incoming (App.initCtx b)); [exact Hnd|].
  intros D HD. destruct (Hall D HD) as [c [Hc Hm]].
  apply (initCtx_known b c D Hc Hm).
Qed.

(** The other device's snapshot, with its backlog column, merged into the
    sample board that has a backlog. *)
Lemma merge_keeps_ids_distinct_witness :
  NoDup (cardIds (App.importMerge Iso.parse Sample.board2 Sample.remote)).
Proof.
  apply (merge_keeps_ids_distinct Iso.parse Sample.board2 Sample.remote).
  - repeat constructor; simpl; intuition discriminate.
  - intros D [<- | []].
    exists (Sample.backlog [Sample.other; Sample.third]).
    split; [right; left; reflexivity | left; reflexivity].
Defined.

(** ** The two comparators of the merge are strict total orders *)

Lemma numLt_trans (a b c : Js.num) :
  Js.numLt a b -> Js.numLt b c -> Js.numLt a c.
Proof.
  destruct a, b, c; simpl; try tauto. lia.
Qed.

Lemma numLt_total (a b : Js.num) :
  ~ Js.numLt a b -> ~ Js.numLt b a -> a = b.
Proof.
  destruct a as [|x], b as [|y]; simpl; try tauto.
  intros H1 H2. f_equal. lia.
Qed.

Lemma compare_lt_asym (a b : string) :
  String.compare a b = Lt -> String.compare b a = Lt -> False.
Proof.
  intros H1 H2. rewrite String.compare_antisym, H1 in H2. discriminate.
Qed.

Lemma compare_total (a b : string) :
  String.compare a b <> Lt -> String.compare b a <> Lt -> a = b.
Proof.
  intros H1 H2. apply String.compare_eq_iff.
  rewrite String.compare_antisym in H2.
  destruct (String.compare a b); simpl in *; congruence.
Qed.

Lemma keyLt_asym (a b : Z * Js.num * string) :
  App.keyLt a b -> App.keyLt b a -> False.
Proof.
  destruct a as [[ta sa] ca], b as [[tb sb] cb]. unfold App.keyLt.
  intros [H1 | [E1 [H1 | [F1 H1]]]] [H2 | [E2 [H2 | [F2 H2]]]];
    try lia; subst.
  - exact (numLt_asym _ _ H1 H2).
  - exact (numLt_irrefl _ H1).
  - exact (numLt_irrefl _ H2).
  - exact (compare_lt_asym _ _ H1 H2).
Qed.

Lemma keyLt_trans (a b c : Z * Js.num * string) :
  App.keyLt a b -> App.keyLt b c -> App.keyLt a c.
Proof.
  destruct a as [[ta sa] ca], b as [[tb sb] cb], c as [[tc sc] cc].
  unfold App.keyLt.
  intros [H1 | [E1 [H1 | [F1 H1]]]] [H2 | [E2 [H2 | [F2 H2]]]];
    subst; try (left; lia); try (left; assumption); right;
    (split; [reflexivity|]).
  - left. exact (numLt_trans _ _ _ H1 H2).
  - left. exact H1.
  - left. exact H2.
  - right. split; [reflexivity|]. exact (compare_lt_trans _ _ _ H1 H2).
Qed.

Lemma keyLt_total (a b : Z * Js.num * string) :
  ~ App.keyLt a b -> ~ App.keyLt b a -> a = b.
Proof.
  destruct a as [[ta sa] ca], b as [[tb sb] cb]. unfold App.keyLt.
  intros H1 H2.
  assert (Et : ta = tb) by lia. subst tb.
  assert (Es : sa = sb).
  { apply numLt_total; intro H; [apply H1 | apply H2]; right;
      (split; [reflexivity|]); left; exact H. }
  subst sb.
  assert (Ec : ca = cb).
  { apply compare_total; intro H; [apply H1 | apply H2]; right;
      (split; [reflexivity|]); right; (split; [reflexivity|]); exact H. }
  subst cb. reflexivity.
Qed.

Lemma posKeyLt_asym (a b : Z * (Z * Js.num * string)) :
  posKeyLt a b -> posKeyLt b a -> False.
Proof.
  unfold posKeyLt. intros [H1 | [E1 H1]] [H2 | [E2 H2]]; try lia.
  exact (keyLt_asym _ _ H1 H2).
Qed.

Lemma posKeyLt_trans (a b c : Z * (Z * Js.num * string)) :
  posKeyLt a b -> posKeyLt b c -> posKeyLt a c.
Proof.
  unfold posKeyLt. intros [H1 | [E1 H1]] [H2 | [E2 H2]];
    try (left; lia).
  right. split; [lia|]. exact (keyLt_trans _ _ _ H1 H2).
Qed.

Lemma posKeyLt_total (a b : Z * (Z * Js.num * string)) :
  ~ posKeyLt a b -> ~ posKeyLt b a -> a = b.
Proof.
  destruct a as [pa ka], b as [pb kb]. unfold posKeyLt. simpl.
  intros H1 H2. assert (E : pa = pb) by lia. subst pb. f_equal.
  apply keyLt_total; intro H; [apply H1 | apply H2]; right;
    (split; [reflexivity | exact H]).
Qed.

Section Comparators.

Variable Date_parse : string -> option Z.

Lemma isPositionANewer_key (A B : Card.t) :
  App.isPositionANewer Date_parse A B = true
  <-> posKeyLt (positionKey Date_parse B) (positionKey Date_parse A).
Proof.
  unfold App.isPositionANewer, positionKey, posKeyLt, App.keyLt.
  cbn [fst snd].
  set (ta := App.timeVal Date_parse (Card.positionChangedAt A)).
  set (tb := App.timeVal Date_parse (Card.positionChangedAt B)).
  set (fa := App.timeVal Date_parse (Card.lastChanged A)).
  set (fb := App.timeVal Date_parse (Card.lastChanged B)).
  destruct (Z.eqb_spec ta tb) as [Et | Et]; cbn [negb].
  - destruct (Z.eqb_spec fa fb) as [Ef | Ef]; cbn [negb].
    + destruct (Js.numEqb (App.seqVal A) (App.seqVal B)) eqn:Es; cbn [negb].
      * apply numEqb_eq in Es. rewrite strGt_lt. split.
        -- intro H. right. split; [congruence|]. right.
           split; [congruence|]. right. split; [congruence | exact H].
        -- intros [H | [_ [H | [_ [H | [_ H]]]]]]; try lia; [|exact H].
           rewrite Es in H. exfalso. exact (numLt_irrefl _ H).
      * rewrite numGt_lt. split.
        -- intro H. right. split; [congruence|]. right.
           split; [congruence|]. left. exact H.
        -- intros [H | [_ [H | [_ [H | [H _]]]]]]; try lia; [exact H|].
           assert (Js.numEqb (App.seqVal A) (App.seqVal B) = true)
             by (apply numEqb_eq; congruence).
           congruence.
    + rewrite Z.gtb_lt. split.
      * intro H. right. split; [congruence|]. left. exact H.
      * intros [H | [_ [H | [H _]]]]; [lia | exact H | congruence].
  - rewrite Z.gtb_lt. split.
    + intro H. left. exact H.
    + intros [H | [H _]]; [exact H | congruence].
Qed.

End Comparators.

(** X26.  Each of the two comparators of the merge is a strict total order
    on keys: of two cards never both are newer than the other, newer than
    newer is newer, and two cards of which neither is newer have the same
    key, (time, sequence number, origin id) for the content and (time of
    the last move, time of the last change, sequence number, origin id) for
    the position. *)
Theorem newer_is_strict_order (Date_parse : string -> option Z) :
  (forall A B,
     App.isContentANewer Date_parse A B = true ->
     App.isContentANewer Date_parse B A = false)
  /\ (forall A B C,
        App.isContentANewer Date_parse A B = true ->
        App.isContentANewer Date_parse B C = true ->
        App.isContentANewer Date_parse A C = true)
  /\ (forall A B,
        App.isContentANewer Date_parse A B = false ->
        App.isContentANewer Date_parse B A = false ->
        App.contentKey Date_parse A = App.contentKey Date_parse B)
  /\ (forall A B,
        App.isPositionANewer Date_parse A B = true ->
        App.isPositionANewer Date_parse B A = false)
  /\ (forall A B C,
        App.isPositionANewer Date_parse A B = true ->
        App.isPositionANewer Date_parse B C = true ->
        App.isPositionANewer Date_parse A C = true)
  /\ (forall A B,
        App.isPositionANewer Date_parse A B = false ->
        App.isPositionANewer Date_parse B A = false ->
        positionKey Date_parse A = positionKey Date_parse B).
Proof.
  repeat split.
  - intros A B H. apply not_true_is_false. intro H'.
    apply isContentANewer_key in H, H'. exact (keyLt_asym _ _ H H').
  - intros A B C H1 H2. apply isContentANewer_key in H1, H2.
    apply isContentANewer_key. exact (keyLt_trans _ _ _ H2 H1).
  - intros A B H1 H2. apply keyLt_total; intro H;
      apply isContentANewer_key in H; congruence.
  - intros A B H. apply not_true_is_false. intro H'.
    apply isPositionANewer_key in H, H'. exact (posKeyLt_asym _ _ H H').
  - intros A B C H1 H2. apply isPositionANewer_key in H1, H2.
    apply isPositionANewer_key. exact (posKeyLt_trans _ _ _ H2 H1).
  - intros A B H1 H2. apply posKeyLt_total; intro H;
      apply isPositionANewer_key in H; congruence.
Qed.

(** ** Dnd.onCardDragEnd: a drop into the card's own column *)

Lemma placeholderIndex_after (l : list Card.t) (rest : list Dnd.Child) :
  Dnd.placeholderIndex (Dnd.cardEls l ++ Dnd.PlaceholderEl :: rest)
  = Z.of_nat (List.length l).
Proof.
  induction l as [|c l IH]; [reflexivity|].
  cbn [Dnd.cardEls map app Dnd.placeholderIndex List.length].
  fold (Dnd.cardEls l). rewrite IH.
  replace (Z.of_nat (List.length l) <? 0)%Z with false
    by (symmetry; apply Z.ltb_ge; lia).
  lia.
Qed.

Lemma placeholderIndex_cons (k : string) (l : list Card.t)
    (rest : list Dnd.Child) :
  Dnd.placeholderIndex
    (Dnd.CardEl k :: Dnd.cardEls l ++ Dnd.PlaceholderEl :: rest)
  = Z.of_nat (S (List.length l)).
Proof.
  cbn [Dnd.placeholderIndex]. rewrite placeholderIndex_after.
  replace (Z.of_nat (List.length l) <? 0)%Z with false
    by (symmetry; apply Z.ltb_ge; lia).
  lia.
Qed.

Lemma shown_cards (cardId : string) (l : list Card.t) :
  (forall c, In c l -> Card.id c <> cardId) ->
  Dnd.shownAfterDrop cardId (Dnd.cardEls l) = map Card.id l.
Proof.
  induction l as [|c l IH]; intro H; [reflexivity|].
  cbn [Dnd.cardEls map Dnd.shownAfterDrop flat_map].
  replace (Card.id c =? cardId) with false
    by (symmetry; apply String.eqb_neq; apply H; left; reflexivity).
  simpl. f_equal. apply IH. intros c' Hc'. apply H. right. exact Hc'.
Qed.

Lemma shown_app (cardId : string) (l1 l2 : list Dnd.Child) :
  Dnd.shownAfterDrop cardId (l1 ++ l2)
  = Dnd.shownAfterDrop cardId l1 ++ Dnd.shownAfterDrop cardId l2.
Proof.
  unfold Dnd.shownAfterDrop. apply flat_map_app.
Qed.

Lemma shown_placeholder (cardId : string) (rest : list Dnd.Child) :
  Dnd.shownAfterDrop cardId (Dnd.PlaceholderEl :: rest)
  = cardId :: Dnd.shownAfterDrop cardId rest.
Proof.
  reflexivity.
Qed.

Lemma shown_self (cardId : string) (rest : list Dnd.Child) :
  Dnd.shownAfterDrop cardId (Dnd.CardEl cardId :: rest)
  = Dnd.shownAfterDrop cardId rest.
Proof.
  unfold Dnd.shownAfterDrop. simpl. rewrite String.eqb_refl. reflexivity.
Qed.

Lemma findIndex_middle (pre post : list Card.t) (c : Card.t) :
  (forall x, In x pre -> Card.id x <> Card.id c) ->
  Js.findIndex (Card.hasId (Card.id c)) (pre ++ c :: post)
  = Some (List.length pre).
Proof.
  induction pre as [|x pre IH]; intro H; simpl.
  - unfold Card.hasId. rewrite String.eqb_refl. reflexivity.
  - replace (Card.hasId (Card.id c) x) with false
      by (symmetry; apply (hasId_other _ (Card.id x)); [reflexivity|];
          intro E; apply (H x (or_introl eq_refl)); congruence).
    rewrite IH by (intros y Hy; apply H; right; exact Hy). reflexivity.
Qed.

Lemma removeAt_middle {A : Type} (pre post : list A) (c : A) :
  Js.removeAt (List.length pre) (pre ++ c :: post) = pre ++ post.
Proof.
  induction pre as [|x pre IH]; simpl; [reflexivity|].
  f_equal. exact IH.
Qed.

Lemma nth_error_middle {A : Type} (pre post : list A) (c : A) :
  nth_error (pre ++ c :: post) (List.length pre) = Some c.
Proof.
  induction pre as [|x pre IH]; simpl; [reflexivity | exact IH].
Qed.

(** The cards of a column after a card of it was dropped into it. *)
Lemma moveCard_within
    (now : Z) (nowIso colId : string) (toIndex : Z) (s : Store.t)
    (col : Column.t) (pre post : list Card.t) (c : Card.t) :
  Store.findColumn colId (Store.columns s) = Some col ->
  Column.cards col = pre ++ c :: post ->
  NoDup (map Card.id (Column.cards col)) ->
  Store.findColumn colId
    (Store.columns
       (Store.moveCard now nowIso (Card.id c) colId colId toIndex s))
  = Some (Column.setCards
            (Store.placeCard toIndex
               (Store.stampMove nowIso (Store.clientId s)
                  (Store.seqCounter s + 1) c)
               (pre ++ post)) col).
Proof.
  intros Hfind Hcards Hnd.
  destruct (findColumn_index _ _ _ Hfind) as [i [Ei Hi]].
  assert (Hpre : forall x, In x pre -> Card.id x <> Card.id c).
  { rewrite Hcards, map_app in Hnd. simpl in Hnd.
    apply NoDup_remove_2 in Hnd. intros x Hx E. apply Hnd.
    apply in_or_app. left. rewrite <- E. apply in_map. exact Hx. }
  assert (Eidx : Js.findIndex (Card.hasId (Card.id c)) (Column.cards col)
                 = Some (List.length pre)).
  { rewrite Hcards. apply findIndex_middle. exact Hpre. }
  assert (Ec : nth_error (Column.cards col) (List.length pre) = Some c).
  { rewrite Hcards. apply nth_error_middle. }
  rewrite (moveCard_found now nowIso (Card.id c) colId colId toIndex s
             i i (List.length pre) col c Ei Ei Hi Eidx Ec).
  rewrite saveState_columns. cbn [Store.columns Store.setColumns].
  rewrite (findColumn_at colId _ i).
  - rewrite updateAt_nth_same, updateAt_nth_same, Hi. simpl.
    rewrite Hcards, removeAt_middle. reflexivity.
  - rewrite findColumnIndex_updateAt by (intro; reflexivity).
    rewrite findColumnIndex_updateAt by (intro; reflexivity).
    exact Ei.
Qed.

Lemma placeCard_at (card : Card.t) (l1 l2 : list Card.t) :
  Store.placeCard (Z.of_nat (List.length l1)) card (l1 ++ l2)
  = l1 ++ card :: l2.
Proof.
  rewrite placeCard_spec. cbv zeta.
  replace (Z.of_nat (List.length l1) <? 0)%Z with false
    by (symmetry; apply Z.ltb_ge; lia).
  replace (Z.of_nat (List.length l1) >? Z.of_nat (List.length (l1 ++ l2)))%Z
    with false
    by (symmetry; rewrite Z.gtb_ltb; apply Z.ltb_ge; rewrite length_app; lia).
  cbn [orb]. rewrite Nat2Z.id.
  rewrite firstn_app, Nat.sub_diag, firstn_all. simpl. rewrite app_nil_r.
  rewrite skipn_app, Nat.sub_diag, skipn_all. reflexivity.
Qed.

Lemma placeCard_beyond (card : Card.t) (l : list Card.t) (toIndex : Z) :
  (Z.of_nat (List.length l) < toIndex)%Z ->
  Store.placeCard toIndex card l = l ++ [card].
Proof.
  intro H. unfold Store.placeCard.
  replace (toIndex >? Z.of_nat (List.length l))%Z with true
    by (symmetry; apply Z.gtb_lt; exact H).
  rewrite orb_true_r. reflexivity.
Qed.

(** X27.  A card dropped into its own column lands in the store where the
    document shows it only when it was dropped above its old place or at
    the very end.  The element of the dragged card is still a child of the
    list when [onCardDragEnd] counts the position of the placeholder, and
    [moveCard] takes the card out before it puts it in; so when the
    placeholder lies below the card's element with another card after it,
    the store puts the card one place further down than the document
    does. *)
Theorem drop_in_own_column
    (now : Z) (nowIso colId : string) (e : Dnd.PointerEvent) (d : Dnd.t)
    (drag : Dnd.CardDrag) (s : Store.t) (col : Column.t)
    (pre post : list Card.t) (c : Card.t) :
  Dnd.listening d = true ->
  Dnd.cardDrag d = Some drag ->
  Dnd.started drag = true ->
  Dnd.evPointerId e = Dnd.pointerId drag ->
  Store.findColumn colId (Store.columns s) = Some col ->
  Column.cards col = pre ++ c :: post ->
  NoDup (map Card.id (Column.cards col)) ->
  let cardId := Card.id c in
  let landed := fun children =>
    option_map (fun col' => map Card.id (Column.cards col'))
      (Store.findColumn colId
         (Store.columns
            (snd (fst (Dnd.onCardDragEnd now nowIso e
                         (Some (Dnd.dropInto cardId colId colId children))
                         d s))))) in
  (forall above between,
     pre = above ++ between ->
     let children :=
       Dnd.cardEls above ++ Dnd.PlaceholderEl
       :: Dnd.cardEls between ++ Dnd.CardEl cardId :: Dnd.cardEls post in
     landed children = Some (Dnd.shownAfterDrop cardId children))
  /\ (let children :=
        Dnd.cardEls pre ++ Dnd.CardEl cardId
        :: Dnd.cardEls post ++ [Dnd.PlaceholderEl] in
      landed children = Some (Dnd.shownAfterDrop cardId children))
  /\ (forall between next below,
        post = between ++ next :: below ->
        let children :=
          Dnd.cardEls pre ++ Dnd.CardEl cardId
          :: Dnd.cardEls between ++ Dnd.PlaceholderEl
          :: Dnd.cardEls (next :: below) in
        landed children
        = Some (map Card.id pre ++ map Card.id between
                ++ Card.id next :: cardId :: map Card.id below)
        /\ Dnd.shownAfterDrop cardId children
           = map Card.id pre ++ map Card.id between
             ++ cardId :: Card.id next :: map Card.id below).
Proof.
  intros Hl Hd Hs Hp Hfind Hcards Hnd. cbv zeta.
  assert (Hend : forall children,
             snd (fst (Dnd.onCardDragEnd now nowIso e
                         (Some (Dnd.dropInto (Card.id c) colId colId children))
                         d s))
             = Store.moveCard now nowIso (Card.id c) colId colId
                 (Dnd.placeholderIndex children) s).
  { intro children. unfold Dnd.onCardDragEnd.
    rewrite Hl, Hd, Hp, Z.eqb_refl, Hs. reflexivity. }
  assert (Hids : NoDup (map Card.id (pre ++ c :: post)))
    by (rewrite <- Hcards; exact Hnd).
  assert (Hpre : forall x, In x pre -> Card.id x <> Card.id c).
  { rewrite map_app in Hids. simpl in Hids.
    apply NoDup_remove_2 in Hids. intros x Hx E. apply Hids.
    apply in_or_app. left. rewrite <- E. apply in_map. exact Hx. }
  assert (Hpost : forall x, In x post -> Card.id x <> Card.id c).
  { rewrite map_app in Hids. simpl in Hids.
    apply NoDup_remove_2 in Hids. intros x Hx E. apply Hids.
    apply in_or_app. right. rewrite <- E. apply in_map. exact Hx. }
  set (moved := Store.stampMove nowIso (Store.clientId s)
                  (Store.seqCounter s + 1) c).
  split; [|split].
  - intros above between Epre.
    rewrite Hend, placeholderIndex_after.
    rewrite (moveCard_within now nowIso colId _ s col pre post c
               Hfind Hcards Hnd).
    cbn [option_map Column.cards Column.setCards]. f_equal.
    fold moved. rewrite Epre, <- app_assoc, placeCard_at.
    rewrite !map_app. cbn [map]. rewrite map_app.
    assert (Habove : forall x, In x above -> Card.id x <> Card.id c).
    { intros x Hx. apply Hpre. rewrite Epre. apply in_or_app. left.
      exact Hx. }
    assert (Hbetween : forall x, In x between -> Card.id x <> Card.id c).
    { intros x Hx. apply Hpre. rewrite Epre. apply in_or_app. right.
      exact Hx. }
    rewrite shown_app, (shown_cards _ above Habove), shown_placeholder.
    rewrite shown_app, (shown_cards _ between Hbetween), shown_self.
    rewrite (shown_cards _ post Hpost). reflexivity.
  - rewrite Hend.
    assert (Ei : Dnd.placeholderIndex
                   (Dnd.cardEls pre ++ Dnd.CardEl (Card.id c)
                    :: Dnd.cardEls post ++ [Dnd.PlaceholderEl])
                 = Z.of_nat (List.length (pre ++ c :: post))).
    { change (Dnd.cardEls pre ++ Dnd.CardEl (Card.id c)
              :: Dnd.cardEls post ++ [Dnd.PlaceholderEl])
        with (Dnd.cardEls pre ++ Dnd.cardEls (c :: post)
              ++ [Dnd.PlaceholderEl]).
      rewrite app_assoc. unfold Dnd.cardEls at 1 2. rewrite <- map_app.
      fold (Dnd.cardEls (pre ++ c :: post)).
      apply placeholderIndex_after. }
    rewrite Ei.
    rewrite (moveCard_within now nowIso colId _ s col pre post c
               Hfind Hcards Hnd).
    cbn [option_map Column.cards Column.setCards]. f_equal.
    fold moved.
    rewrite placeCard_beyond
      by (rewrite !length_app; simpl; lia).
    rewrite !map_app. cbn [map].
    rewrite shown_app, (shown_cards _ pre Hpre), shown_self.
    rewrite shown_app, (shown_cards _ post Hpost), shown_placeholder.
    rewrite <- app_assoc. reflexivity.
  - intros between next below Epost.
    assert (Hbetween : forall x, In x between -> Card.id x <> Card.id c).
    { intros x Hx. apply Hpost. rewrite Epost. apply in_or_app. left.
      exact Hx. }
    assert (Hbelow : forall x, In x (next :: below) ->
                               Card.id x <> Card.id c).
    { intros x Hx. apply Hpost. rewrite Epost. apply in_or_app. right.
      exact Hx. }
    split.
    + rewrite Hend.
      assert (Ei : Dnd.placeholderIndex
                     (Dnd.cardEls pre ++ Dnd.CardEl (Card.id c)
                      :: Dnd.cardEls between ++ Dnd.PlaceholderEl
                      :: Dnd.cardEls (next :: below))
                   = Z.of_nat (List.length (pre ++ between ++ [next]))).
      { change (Dnd.cardEls pre ++ Dnd.CardEl (Card.id c)
                :: Dnd.cardEls between ++ Dnd.PlaceholderEl
                :: Dnd.cardEls (next :: below))
          with (Dnd.cardEls pre ++ Dnd.cardEls (c :: between)
                ++ Dnd.PlaceholderEl :: Dnd.cardEls (next :: below)).
        rewrite app_assoc. unfold Dnd.cardEls at 1 2. rewrite <- map_app.
        fold (Dnd.cardEls (pre ++ c :: between)).
        rewrite placeholderIndex_after. rewrite !length_app. simpl.
        f_equal. lia. }
      rewrite Ei.
      rewrite (moveCard_within now nowIso colId _ s col pre post c
                 Hfind Hcards Hnd).
      cbn [option_map Column.cards Column.setCards]. f_equal.
      fold moved.
      replace (pre ++ post) with ((pre ++ between ++ [next]) ++ below)
        by (rewrite Epost, <- !app_assoc; reflexivity).
      rewrite placeCard_at. rewrite !map_app. cbn [map].
      rewrite <- !app_assoc. reflexivity.
    + rewrite shown_app, (shown_cards _ pre Hpre), shown_self.
      rewrite shown_app, (shown_cards _ between Hbetween), shown_placeholder.
      rewrite (shown_cards _ (next :: below) Hbelow). reflexivity.
Qed.

(** The first of the three cards of the inbox is dropped between the
    second and the third: the document shows it second, the store has it
    third. *)
Lemma drop_in_own_column_witness :
  option_map (fun col' => map Card.id (Column.cards col'))
    (Store.findColumn "x"
       (Store.columns
          (snd (fst (Dnd.onCardDragEnd 9 Sample.mar5 Sample.release
                       (Some (Dnd.dropInto "k" "x" "x"
                                [Dnd.CardEl "k"; Dnd.CardEl "p";
                                 Dnd.PlaceholderEl; Dnd.CardEl "q"]))
                       Sample.dragging Sample.store4)))))
  = Some ["p"; "q"; "k"]
  /\ Dnd.shownAfterDrop "k"
       [Dnd.CardEl "k"; Dnd.CardEl "p"; Dnd.PlaceholderEl; Dnd.CardEl "q"]
     = ["p"; "k"; "q"].
Proof.
  refine (proj2 (proj2
            (drop_in_own_column 9 Sample.mar5 "x" Sample.release
               Sample.dragging (Dnd.mkDrag 1 100 100 true None false)
               Sample.store4
               (Sample.inbox [Sample.kLocal; Sample.other; Sample.third])
               [] [Sample.other; Sample.third] Sample.kLocal
               eq_refl eq_refl eq_refl eq_refl eq_refl eq_refl _))
            [Sample.other] Sample.third [] eq_refl).
  repeat constructor; simpl; intuition discriminate.
Defined.

(** ** UI.setSearchQuery: the search box *)

Lemma toLowerCase_cons (a : ascii) (s : string) :
  UI.toLowerCase (String a s) = String (App.lowerChar a) (UI.toLowerCase s).
Proof.
  reflexivity.
Qed.

Lemma prefix_lower (q s : string) :
  String.prefix q s = true ->
  String.prefix (UI.toLowerCase q) (UI.toLowerCase s) = true.
Proof.
  revert s. induction q as [|a q IH]; intros s H.
  - change (UI.toLowerCase "") with "".
    destruct (UI.toLowerCase s); reflexivity.
  - destruct s as [|b s]; [discriminate|].
    simpl in H. rewrite !toLowerCase_cons. simpl.
    destruct (ascii_dec a b) as [-> | Hne]; [|discriminate].
    destruct (ascii_dec (App.lowerChar b) (App.lowerChar b)); [|congruence].
    apply IH. exact H.
Qed.

Lemma includes_lower (s q : string) :
  Js.includes s q = true ->
  Js.includes (UI.toLowerCase s) (UI.toLowerCase q) = true.
Proof.
  induction s as [|a s IH]; intro H.
  - simpl in H. apply (prefix_lower q "") in H. exact H.
  - cbn [Js.includes] in H. rewrite toLowerCase_cons. cbn [Js.includes].
    apply orb_true_iff in H. apply orb_true_iff.
    destruct H as [H | H].
    + left. apply (prefix_lower q (String a s)) in H.
      rewrite toLowerCase_cons in H. exact H.
    + right. apply IH. exact H.
Qed.

(** What the filter decides for one card once the query is stored. *)
Lemma withQuery_outcome
    (u : UI.t) (b : Board) (cardId query : string) (i : nat) (card : Card.t)
    (col : Column.t) :
  Store.findCard b cardId = Some (i, card) ->
  nth_error b i = Some col ->
  (Column.isArchive col = true ->
   UI.applyFiltersToCard (UI.withQuery query u) b cardId = UI.Display true)
  /\ (UI.activeTagFilters u = [] ->
      Js.includes (Card.title card) query = true ->
      UI.applyFiltersToCard (UI.withQuery query u) b cardId
      = UI.Display true).
Proof.
  intros Hfind Hn. unfold UI.applyFiltersToCard. rewrite Hfind, Hn. split.
  - intros ->. reflexivity.
  - intros Hnone Hin.
    destruct (Column.isArchive col); [reflexivity|].
    unfold UI.tagsMatch, UI.withQuery. cbn [UI.activeTagFilters].
    rewrite Hnone. unfold UI.searchMatch. cbn [UI.searchQuery].
    destruct (UI.toLowerCase query =? ""); [reflexivity|].
    rewrite (includes_lower _ _ Hin). reflexivity.
Qed.

(** The loop reaches an element when none before it throws, and then goes
    on from there; when one before it throws, the element and all after it
    stay as they are. *)
Lemma filterEls_app_reach (u : UI.t) (b : Board)
    (before rest : list UI.CardEl) :
  Forall (fun el => UI.filterEl u b el <> None) before ->
  exists before',
    List.length before' = List.length before
    /\ UI.filterEls u b (before ++ rest)
       = (before' ++ fst (UI.filterEls u b rest),
          snd (UI.filterEls u b rest)).
Proof.
  induction 1 as [|el before Hel _ IH].
  - exists []. split; [reflexivity|]. cbn [app].
    destruct (UI.filterEls u b rest); reflexivity.
  - destruct IH as [before' [Hlen IH]].
    destruct (UI.filterEl u b el) as [el'|] eqn:E; [|congruence].
    exists (el' :: before'). split; [simpl; congruence|].
    cbn [app UI.filterEls]. rewrite E, IH. reflexivity.
Qed.

Lemma filterEls_app_stop (u : UI.t) (b : Board)
    (before rest : list UI.CardEl) :
  Exists (fun el => UI.filterEl u b el = None) before ->
  exists before',
    List.length before' = List.length before
    /\ UI.filterEls u b (before ++ rest) = (before' ++ rest, false).
Proof.
  induction before as [|el before IH]; intro H.
  - inversion H.
  - cbn [app UI.filterEls].
    destruct (UI.filterEl u b el) as [el'|] eqn:E.
    + inversion H as [? ? H1 | ? ? H1]; subst; [congruence|].
      destruct (IH H1) as [before' [Hlen Heq]].
      exists (el' :: before'). split; [simpl; congruence|].
      rewrite Heq. reflexivity.
    + exists (el :: before). split; reflexivity.
Qed.

(** X28.  The search finds what was typed, as far as the pass over the
    card elements gets.  [setSearchQuery] stores the query and filters the
    elements in document order.  When no element before the element of a
    card makes the filter throw, that element is put in view if the card
    lies in the archive column, and also if no tag filter is active and
    the title of the card contains the query letter for letter (putting
    title and query into lower case loses no match).  When an element
    before it makes the filter throw, as that of a card without tags or
    without a description can, the element is left as it was. *)
Theorem search_finds_title
    (u : UI.t) (b : Board) (query cardId : string)
    (before after : list UI.CardEl) (el : UI.CardEl) (i : nat)
    (card : Card.t) (col : Column.t) :
  UI.cards u = before ++ el :: after ->
  UI.elId el = Some cardId ->
  Store.findCard b cardId = Some (i, card) ->
  nth_error b i = Some col ->
  let searched := UI.setSearchQuery query b u in
  let seen := nth_error (UI.cards (fst searched)) (List.length before) in
  (Forall (fun e => UI.filterEl (UI.withQuery query u) b e <> None) before ->
   (Column.isArchive col = true ->
    seen = Some (UI.mkEl (Some cardId) true))
   /\ (UI.activeTagFilters u = [] ->
       Js.includes (Card.title card) query = true ->
       seen = Some (UI.mkEl (Some cardId) true)))
  /\ (Exists (fun e => UI.filterEl (UI.withQuery query u) b e = None)
        before ->
      seen = Some el /\ snd searched = false).
Proof.
  intros Hcards Hid Hfind Hn. cbv zeta.
  destruct (applyFilters_state b (UI.withQuery query u)) as [_ [_ [H3 H4]]].
  unfold UI.setSearchQuery. rewrite H3, H4.
  change (UI.cards (UI.withQuery query u)) with (UI.cards u).
  rewrite Hcards.
  destruct (withQuery_outcome u b cardId query i card col Hfind Hn)
    as [Harch Htitle].
  split.
  - intro Hreach.
    destruct (filterEls_app_reach (UI.withQuery query u) b before
                (el :: after) Hreach) as [before' [Hlen Heq]].
    rewrite Heq. cbn [fst]. rewrite <- Hlen.
    rewrite nth_error_app2 by lia. rewrite Nat.sub_diag.
    assert (Hshown : UI.applyFiltersToCard (UI.withQuery query u) b cardId
                     = UI.Display true ->
                     nth_error
                       (fst (UI.filterEls (UI.withQuery query u) b
                               (el :: after))) 0
                     = Some (UI.mkEl (Some cardId) true)).
    { intro Ho. cbn [UI.filterEls]. unfold UI.filterEl.
      rewrite Hid, Ho.
      destruct (UI.filterEls (UI.withQuery query u) b after).
      reflexivity. }
    split.
    + intro Ha. apply Hshown. apply Harch. exact Ha.
    + intros Hnone Hin. apply Hshown. apply Htitle; assumption.
  - intro Hstop.
    destruct (filterEls_app_stop (UI.withQuery query u) b before
                (el :: after) Hstop) as [before' [Hlen Heq]].
    rewrite Heq. cbn [fst snd]. rewrite <- Hlen.
    rewrite nth_error_app2 by lia. rewrite Nat.sub_diag.
    split; reflexivity.
Qed.

(** The card "edited here" of the sample board is found by the query
    "ted h". *)
Lemma search_finds_title_witness :
  nth_error
    (UI.cards (fst (UI.setSearchQuery "ted h" Sample.board2 Sample.page2))) 1
  = Some (UI.mkEl (Some "k") true).
Proof.
  exact (proj2 (proj1
           (search_finds_title Sample.page2 Sample.board2 "ted h" "k"
              [UI.mkEl (Some "p") true] [] (UI.mkEl (Some "k") false) 0
              Sample.kLocal (Sample.inbox [Sample.kLocal])
              eq_refl eq_refl eq_refl eq_refl)
           ltac:(repeat constructor; discriminate))
         eq_refl eq_refl).
Defined.


(** ** Meta.nextSeq: the counter is read back as it was written *)

Lemma digitRun_acc (d : Decimal.uint) (acc : positive) :
  Meta.digitRun (list_ascii_of_string (NilEmpty.string_of_uint d))
    (Z.pos acc)
  = Z.pos (Pos.of_uint_acc d acc).
Proof.
  revert acc. induction d as [|d IH|d IH|d IH|d IH|d IH|d IH|d IH|d IH|d IH|d IH];
    intro acc; [reflexivity|..];
    cbn [NilEmpty.string_of_uint list_ascii_of_string Meta.digitRun
         Pos.of_uint_acc];
    match goal with
    | |- context [Meta.digitVal ?a] =>
        let v := eval vm_compute in (Meta.digitVal a) in
        change (Meta.digitVal a) with v
    end;
    cbv iota; rewrite <- IH; f_equal; lia.
Qed.

Lemma digitRun_uint (d : Decimal.uint) :
  Meta.digitRun (list_ascii_of_string (NilEmpty.string_of_uint d)) 0
  = Z.of_N (Pos.of_uint d).
Proof.
  induction d as [|d IH|d IH|d IH|d IH|d IH|d IH|d IH|d IH|d IH|d IH];
    [reflexivity|exact IH|..];
    cbn [NilEmpty.string_of_uint list_ascii_of_string Meta.digitRun
         Pos.of_uint];
    match goal with
    | |- context [Meta.digitVal ?a] =>
        let v := eval vm_compute in (Meta.digitVal a) in
        change (Meta.digitVal a) with v
    end;
    cbv iota; cbn [Z.mul Z.add Z.of_nat Z.of_N];
    apply digitRun_acc.
Qed.

Lemma string_of_uint_head (d : Decimal.uint) :
  d <> Decimal.Nil ->
  Meta.startsWithDigit (list_ascii_of_string (NilEmpty.string_of_uint d))
  = true
  /\ App.dropSpaces (list_ascii_of_string (NilEmpty.string_of_uint d))
     = list_ascii_of_string (NilEmpty.string_of_uint d)
  /\ match list_ascii_of_string (NilEmpty.string_of_uint d) with
     | a :: _ => a <> "-"%char /\ a <> "+"%char
     | [] => False
     end.
Proof.
  destruct d; intro H; [congruence|..];
    (split; [reflexivity | split; [reflexivity | split; discriminate]]).
Qed.

Lemma parseInt10_toString (n : Z) :
  (0 <= n)%Z -> Meta.parseInt10 (Meta.toString n) = Some n.
Proof.
  intro Hn. destruct n as [|p|p]; [reflexivity | | lia].
  unfold Meta.toString, Z.to_int, NilZero.string_of_int.
  pose proof (DecimalPos.Unsigned.to_uint_nonnil p) as Hnil.
  assert (Hs : NilZero.string_of_uint (Pos.to_uint p)
               = NilEmpty.string_of_uint (Pos.to_uint p)).
  { destruct (Pos.to_uint p); [congruence | reflexivity ..]. }
  rewrite Hs.
  destruct (string_of_uint_head (Pos.to_uint p) Hnil) as [Hd [Hsp Hsign]].
  pose proof (digitRun_uint (Pos.to_uint p)) as Hrun.
  rewrite DecimalPos.Unsigned.of_to in Hrun.
  unfold Meta.parseInt10. rewrite Hsp.
  destruct (list_ascii_of_string (NilEmpty.string_of_uint (Pos.to_uint p)))
    as [|a l]; [contradiction|].
  destruct Hsign as [Hm Hp].
  assert (Hcase : (match a :: l with
                   | "-"%char :: rest => ((-1)%Z, rest)
                   | "+"%char :: rest => (1%Z, rest)
                   | _ => (1%Z, a :: l)
                   end) = (1%Z, a :: l)).
  { destruct a as [[] [] [] [] [] [] [] []]; try reflexivity; congruence. }
  rewrite Hcase. cbn [fst snd]. rewrite Hd, Hrun.
  reflexivity.
Qed.

(** X29 (Meta.nextSeq): when localStorage holds the decimal text of a
    counter [n] (zero or more, below the largest safe integer), the call
    returns [n + 1] and stores its decimal text, so that each call returns one
    more than the call before; with nothing stored, an empty string or a text
    with no leading number, the counter starts again and the call returns 1
    and stores the text of 1. *)
Theorem nextSeq_counts :
  (forall n : Z,
      (0 <= n < 2 ^ 53 - 1)%Z ->
      Meta.nextSeq (Some (Meta.toString n))
      = ((n + 1)%Z, Meta.toString (n + 1))
      /\ fst (Meta.nextSeq (Some (snd (Meta.nextSeq (Some (Meta.toString n))))))
         = (n + 2)%Z)
  /\ Meta.nextSeq None = (1%Z, "1")
  /\ (forall text : string,
         Meta.parseInt10 text = None ->
         Meta.nextSeq (Some text) = (1%Z, "1")).
Proof.
  assert (Hstep : forall n : Z, (0 <= n)%Z ->
            Meta.nextSeq (Some (Meta.toString n))
            = ((n + 1)%Z, Meta.toString (n + 1))).
  { intros n Hn. unfold Meta.nextSeq.
    assert (Ht : (if Js.truthy (Some (Meta.toString n))
                  then Js.orEmpty (Some (Meta.toString n)) else "0")
                 = Meta.toString n).
    { destruct n as [|p|p]; [reflexivity | | lia].
      unfold Meta.toString, Z.to_int, NilZero.string_of_int.
      pose proof (DecimalPos.Unsigned.to_uint_nonnil p) as Hnil.
      destruct (Pos.to_uint p); [congruence | reflexivity ..]. }
    rewrite Ht, parseInt10_toString by exact Hn. reflexivity. }
  split; [|split].
  - intros n Hn. split; [apply Hstep; lia|].
    rewrite (Hstep n) by lia. cbn [snd].
    rewrite (Hstep (n + 1)%Z) by lia. cbn [fst]. lia.
  - reflexivity.
  - intros text Hp. unfold Meta.nextSeq.
    destruct (Js.truthy (Some text)) eqn:Et.
    + cbn [Js.orEmpty]. replace (Js.orEmpty (Some text)) with text by reflexivity.
      rewrite Hp. reflexivity.
    + reflexivity.
Qed.

Lemma nextSeq_counts_witness :
  Meta.nextSeq (Some "41") = (42%Z, "42")
  /\ Meta.nextSeq (Some "abc") = (1%Z, "1").
Proof.
  split.
  - apply (proj1 nextSeq_counts 41%Z). lia.
  - apply (proj2 (proj2 nextSeq_counts) "abc"). reflexivity.
Defined.
